(** * Backend clients of the Vue language server (lib/tsBackend.ts, lib/server.ts)

    A shallow embedding of the TypeScript backend-client layer: the backend
    selector, the request correlators of the bridged and the spawned tsserver
    clients, the tsgo sidecar client with its fallback, and the memoised
    warmup task of the server.

    Conventions.  A JavaScript [Map] is an association list in insertion
    order ([JsMap]); a value of type [any]/[unknown] is a [json] tree; a
    number is an integer, or [NaN] where arithmetic produces it; an
    [async] function is a state transformer that returns an [Outcome]
    (fulfilled or rejected); what a child process, the sidecar or the
    fallback answers is supplied by an oracle of the environment; every
    observable action (a message written, a process forked, a log line) is
    appended to a trace kept in the state. *)

From Stdlib Require Import String Ascii List ZArith Lia Bool Arith PeanoNat DecimalString.
Import ListNotations.
Open Scope string_scope.
Open Scope list_scope.

Set Implicit Arguments.
Unset Strict Implicit.

(* ================================================================== *)
(** * JavaScript values and strings *)
(* ================================================================== *)

(** A JSON-like model of the values that cross the process boundaries,
    with [NaN], which arithmetic on them can produce. *)
#[warnings="-register-all"]
Inductive json : Type :=
| JUndefined
| JNull
| JBool (b : bool)
| JNum (n : Z)
| JNaN
| JStr (s : string)
| JArr (items : list json)
| JObj (fields : list (string * json)).

(** [x == null] in JavaScript: [null] or [undefined]. *)
Definition nullish (v : json) : bool :=
  match v with
  | JUndefined | JNull => true
  | _ => false
  end.

(** JavaScript truthiness of a [json] value. *)
Definition truthy (v : json) : bool :=
  match v with
  | JUndefined | JNull | JNaN => false
  | JBool b => b
  | JNum n => negb (n =? 0)%Z
  | JStr s => negb (s =? "")
  | JArr _ | JObj _ => true
  end.

Fixpoint assoc (k : string) (l : list (string * json)) : json :=
  match l with
  | [] => JUndefined
  | (k', v) :: rest => if k' =? k then v else assoc k rest
  end.

(** Property access [v?.k]: [undefined] unless [v] is an object with [k]. *)
Definition field (k : string) (v : json) : json :=
  match v with
  | JObj fs => assoc k fs
  | _ => JUndefined
  end.

(** [a ?? b]. *)
Definition coalesce (a b : json) : json := if nullish a then b else a.

(** The result of awaiting a promise: fulfilled with a value, or rejected. *)
Inductive Outcome (A : Type) : Type :=
| Ok (a : A)
| Throw (message : string).
Arguments Ok {A} a.
Arguments Throw {A} message.

Definition is_throw {A} (o : Outcome A) : bool :=
  match o with Throw _ => true | Ok _ => false end.

(** Reading the property [key] of [v], as in [v.key], for a key that is
    no property of strings and arrays: a [TypeError] when [v] is [null] or
    [undefined], with the message of V8. *)
Definition read (key : string) (v : json) : Outcome json :=
  match v with
  | JUndefined =>
      Throw ("TypeError: Cannot read properties of undefined (reading '"
               ++ key ++ "')")
  | JNull =>
      Throw ("TypeError: Cannot read properties of null (reading '" ++ key ++ "')")
  | _ => Ok (field key v)
  end.

(** Sequencing of code that can throw. *)
Definition and_then {A B} (o : Outcome A) (k : A -> Outcome B) : Outcome B :=
  match o with
  | Ok a => k a
  | Throw message => Throw message
  end.

(** The numbers that [ToNumber] gives: an integer, [NaN] or an infinity. *)
Inductive number : Type :=
| NaN
| Int (n : Z)
| Infinity (negative : bool).

(** [Math.max(0, x)]. *)
Definition max_zero (x : number) : number :=
  match x with
  | NaN => NaN
  | Int n => Int (Z.max 0 n)
  | Infinity true => Int 0
  | Infinity false => Infinity false
  end.

(** [String.prototype.startsWith] and [endsWith]. *)
Definition startsWith (s p : string) : bool := String.prefix p s.

Definition endsWith (s suffix : string) : bool :=
  let n := String.length s in
  let m := String.length suffix in
  (m <=? n)%nat && (substring (n - m) m s =? suffix).

(** [String.prototype.toLowerCase], on ASCII text. *)
Definition lower_ascii (c : ascii) : ascii :=
  let n := nat_of_ascii c in
  if ((65 <=? n) && (n <=? 90))%nat then ascii_of_nat (n + 32) else c.

Fixpoint toLowerCase (s : string) : string :=
  match s with
  | EmptyString => EmptyString
  | String c r => String (lower_ascii c) (toLowerCase r)
  end.

(** [s.replace(/\\/g, '/')]. *)
Fixpoint backslashes_to_slashes (s : string) : string :=
  match s with
  | EmptyString => EmptyString
  | String c r =>
      String (if Ascii.eqb c "\"%char then "/"%char else c)
             (backslashes_to_slashes r)
  end.

(* ================================================================== *)
(** * Insertion-ordered maps (JavaScript [Map]) *)
(* ================================================================== *)

Module JsMap.
Section WithKey.
Variable K V : Type.
Variable eqb : K -> K -> bool.

Definition t := list (K * V).

Fixpoint get (k : K) (m : t) : option V :=
  match m with
  | [] => None
  | (k', v) :: rest => if eqb k' k then Some v else get k rest
  end.

Definition has (k : K) (m : t) : bool :=
  match get k m with Some _ => true | None => false end.

(** [Map.set]: an existing key keeps its place, a new key goes last. *)
Fixpoint set (k : K) (v : V) (m : t) : t :=
  match m with
  | [] => [(k, v)]
  | (k', v') :: rest =>
      if eqb k' k then (k, v) :: rest else (k', v') :: set k v rest
  end.

Definition delete (k : K) (m : t) : t :=
  filter (fun kv => negb (eqb (fst kv) k)) m.

Definition keys (m : t) : list K := map fst m.
Definition values (m : t) : list V := map snd m.

Hypothesis eqb_eq : forall a b, eqb a b = true <-> a = b.

Lemma eqb_refl (a : K) : eqb a a = true.
Proof. apply eqb_eq. reflexivity. Qed.

Lemma eqb_neq (a b : K) : a <> b -> eqb a b = false.
Proof.
  intro H. destruct (eqb a b) eqn:E; [|reflexivity].
  apply eqb_eq in E. contradiction.
Qed.

Lemma get_In (k : K) (v : V) (m : t) : get k m = Some v -> In (k, v) m.
Proof.
  induction m as [|[k' v'] m IH]; cbn; [discriminate|].
  destruct (eqb k' k) eqn:E.
  - intro H. inversion H; subst. apply eqb_eq in E. subst. now left.
  - intro H. right. auto.
Qed.

Lemma get_None_keys (k : K) (m : t) : get k m = None <-> ~ In k (keys m).
Proof.
  induction m as [|[k' v'] m IH]; cbn.
  - split; auto.
  - destruct (eqb k' k) eqn:E.
    + apply eqb_eq in E. subst. split; [discriminate|]. intro H. exfalso. apply H. now left.
    + rewrite IH. split.
      * intros H [H1|H1]; [|auto]. subst. rewrite eqb_refl in E. discriminate.
      * intros H H1. apply H. now right.
Qed.

Lemma In_get (k : K) (v : V) (m : t) :
  NoDup (keys m) -> In (k, v) m -> get k m = Some v.
Proof.
  induction m as [|[k' v'] m IH]; cbn; [contradiction|].
  intros Hnd [H|H].
  - inversion H; subst. rewrite eqb_refl. reflexivity.
  - inversion Hnd as [|? ? Hn Hnd']; subst.
    destruct (eqb k' k) eqn:E.
    + apply eqb_eq in E. subst. exfalso. apply Hn.
      change k with (fst (k, v)). apply in_map. exact H.
    + auto.
Qed.

Lemma get_set_same (k : K) (v : V) (m : t) : get k (set k v m) = Some v.
Proof.
  induction m as [|[k' v'] m IH]; cbn.
  - rewrite eqb_refl. reflexivity.
  - destruct (eqb k' k) eqn:E; cbn.
    + rewrite eqb_refl. reflexivity.
    + rewrite E. exact IH.
Qed.

Lemma get_set_other (k k' : K) (v : V) (m : t) :
  k <> k' -> get k' (set k v m) = get k' m.
Proof.
  intro Hne. induction m as [|[k0 v0] m IH]; cbn.
  - rewrite eqb_neq by exact Hne. reflexivity.
  - destruct (eqb k0 k) eqn:E; cbn.
    + apply eqb_eq in E. subst. rewrite eqb_neq by exact Hne. reflexivity.
    + destruct (eqb k0 k'); [reflexivity|exact IH].
Qed.

Lemma get_delete_same (k : K) (m : t) : get k (delete k m) = None.
Proof.
  unfold delete. induction m as [|[k' v'] m IH]; cbn; [reflexivity|].
  destruct (eqb k' k) eqn:E; cbn; [exact IH|]. rewrite E. exact IH.
Qed.

Lemma get_delete_other (k k' : K) (m : t) :
  k <> k' -> get k' (delete k m) = get k' m.
Proof.
  intro Hne. unfold delete. induction m as [|[k0 v0] m IH]; cbn; [reflexivity|].
  destruct (eqb k0 k) eqn:E; cbn.
  - apply eqb_eq in E. subst. rewrite eqb_neq by exact Hne. exact IH.
  - destruct (eqb k0 k'); [reflexivity|exact IH].
Qed.

Lemma keys_set_fresh (k : K) (v : V) (m : t) :
  get k m = None -> set k v m = m ++ [(k, v)].
Proof.
  induction m as [|[k' v'] m IH]; cbn; [reflexivity|].
  destruct (eqb k' k); [discriminate|]. intro H. rewrite IH by exact H. reflexivity.
Qed.

Lemma NoDup_keys_delete (k : K) (m : t) :
  NoDup (keys m) -> NoDup (keys (delete k m)).
Proof.
  unfold delete, keys. induction m as [|[k' v'] m IH]; cbn; [auto|].
  intro H. inversion H as [|? ? Hn Hnd]; subst.
  destruct (eqb k' k); cbn; [auto|].
  constructor; [|auto].
  intro Hin. apply Hn. apply in_map_iff in Hin. destruct Hin as (x & Hx & Hin).
  apply filter_In in Hin. apply in_map_iff. exists x. tauto.
Qed.

Lemma NoDup_keys_set_fresh (k : K) (v : V) (m : t) :
  get k m = None -> NoDup (keys m) -> NoDup (keys (set k v m)).
Proof.
  intros Hg Hnd. rewrite keys_set_fresh by exact Hg.
  unfold keys. rewrite map_app. cbn.
  apply NoDup_app; [exact Hnd|repeat constructor; auto|].
  intros a Ha [Hb|[]]. subst. apply get_None_keys in Hg. contradiction.
Qed.

Lemma In_set (k : K) (v : V) (m : t) (kv : K * V) :
  In kv (set k v m) -> kv = (k, v) \/ In kv m.
Proof.
  induction m as [|[k' v'] m IH]; cbn.
  - intros [E|[]]. left. congruence.
  - destruct (eqb k' k); cbn.
    + intros [E|Hin]; [left; congruence|right; right; exact Hin].
    + intros [E|Hin]; [right; left; exact E|].
      destruct (IH Hin) as [E|Hin']; [left; exact E|right; right; exact Hin'].
Qed.


Lemma has_false (k : K) (m : t) : has k m = false <-> get k m = None.
Proof.
  unfold has. destruct (get k m); split; congruence.
Qed.

Lemma count_keys (k : K) (m : t) :
  NoDup (keys m) ->
  length (filter (fun kv => eqb (fst kv) k) m) = if has k m then 1 else 0.
Proof.
  unfold has. induction m as [|[k' v'] m IH]; cbn; [reflexivity|].
  intro H. inversion H as [|? ? Hn Hnd]; subst.
  destruct (eqb k' k) eqn:E; cbn.
  - apply eqb_eq in E. subst.
    apply get_None_keys in Hn. specialize (IH Hnd). rewrite Hn in IH.
    rewrite IH. reflexivity.
  - auto.
Qed.
End WithKey.
End JsMap.

(* ================================================================== *)
(** * Backend selector: [createTsBackendClient], [canStartTsgo] *)
(* ================================================================== *)

Module Selector.

Inductive TsBackendMode : Type := tsserver | tsgo_lsp.

Inductive TsBackendPreference : Type :=
| prefer (m : TsBackendMode)
| auto.

(** What [childProcess.spawnSync] is called with, and what it returns. *)
Inductive Stdio : Type := stdio_pipe | stdio_ignore | stdio_inherit.

Record SpawnSyncCall : Type := {
  file : string;
  args : list string;
  stdio : Stdio
}.

Record SpawnSyncReturns : Type := {
  error : option string;
  signal : option string;
  status : option Z
}.

(** The environment of the selector: the operating system behind
    [spawnSync], the environment variable naming the sidecar, and what
    [resolveTsServerPath] finds on this installation. *)
Record Env : Type := {
  spawnSync : SpawnSyncCall -> Outcome SpawnSyncReturns;
  env_VUE_LANGUAGE_SERVER_TSGO_PATH : option string;
  resolveTsServerPath : option string
}.

Record CreateTsBackendOptions : Type := {
  preference : option TsBackendPreference;
  tsgoPath : option string
}.

(** The three client classes, with the constructor arguments that differ. *)
#[warnings="-register-all"]
Inductive Client : Type :=
| TsServerBackendClient (requestTimeoutMs : Z)
| TsServerProcessBackendClient (requestTimeoutMs : Z) (tsserverPath : string)
| TsgoLspBackendClient (tsgoPath : option string) (fallback : option Client).

Definition mode (c : Client) : TsBackendMode :=
  match c with
  | TsServerBackendClient _ => tsserver
  | TsServerProcessBackendClient _ _ => tsserver
  | TsgoLspBackendClient _ _ => tsgo_lsp
  end.

Inductive Effect : Type :=
| SpawnSync (call : SpawnSyncCall)
| Warn (message : string).

Definition is_none {A} (o : option A) : bool :=
  match o with None => true | Some _ => false end.

Definition canStartTsgo (env : Env) (tsgoPath : string) : bool * list Effect :=
  let call := {| file := tsgoPath; args := ["--version"]; stdio := stdio_ignore |} in
  match spawnSync env call with
  | Ok result =>
      (is_none (error result) && is_none (signal result)
       && match status result with Some z => (z =? 0)%Z | None => false end,
       [SpawnSync call])
  | Throw _ => (false, [SpawnSync call])
  end.

(** [new TsServerProcessBackendClient(...)] throws when no tsserver.js is found. *)
Definition new_TsServerProcessBackendClient (env : Env) (requestTimeoutMs : Z)
  : Outcome Client :=
  match resolveTsServerPath env with
  | Some p =>
      if p =? "" then Throw "unable to resolve TypeScript tsserver.js path"
      else Ok (TsServerProcessBackendClient requestTimeoutMs p)
  | None => Throw "unable to resolve TypeScript tsserver.js path"
  end.

Definition createTsgoFallbackClient (env : Env) : Client * list Effect :=
  let requestTimeoutMs := 10000%Z in
  match new_TsServerProcessBackendClient env requestTimeoutMs with
  | Ok c => (c, [])
  | Throw message =>
      (TsServerBackendClient requestTimeoutMs,
       [Warn ("[vue-ls][tsgo] failed to start internal tsserver fallback; using client bridge: "
                ++ message)%string])
  end.

(** The proxy only rebinds [this]; it changes no behaviour. *)
Definition bindClientMethods (c : Client) : Client := c.

Definition default {A} (o : option A) (d : A) : A :=
  match o with Some a => a | None => d end.

Definition createTsBackendClient (env : Env) (options : CreateTsBackendOptions)
  : Client * list Effect :=
  let preference := default (preference options) (prefer tsserver) in
  let '(client, effects) :=
    match preference with
    | prefer tsgo_lsp =>
        let '(tsserverFallback, e) := createTsgoFallbackClient env in
        (TsgoLspBackendClient (tsgoPath options) (Some tsserverFallback), e)
    | auto =>
        let tsgoPath :=
          default (tsgoPath options)
                  (default (env_VUE_LANGUAGE_SERVER_TSGO_PATH env) "tsgo") in
        let '(ok, e1) := canStartTsgo env tsgoPath in
        if ok then
          let '(tsserverFallback, e2) := createTsgoFallbackClient env in
          (TsgoLspBackendClient (Some tsgoPath) (Some tsserverFallback), e1 ++ e2)
        else (TsServerBackendClient 30000, e1)
    | prefer tsserver => (TsServerBackendClient 30000, [])
    end in
  (bindClientMethods client, effects).

(** The probe of automatic mode, and what counts as a clean exit of it. *)
Definition probe_call (env : Env) (options : CreateTsBackendOptions) : SpawnSyncCall :=
  {| file := default (tsgoPath options)
                     (default (env_VUE_LANGUAGE_SERVER_TSGO_PATH env) "tsgo");
     args := ["--version"];
     stdio := stdio_ignore |}.

Definition clean_exit (o : Outcome SpawnSyncReturns) : Prop :=
  exists r, o = Ok r /\ error r = None /\ signal r = None /\ status r = Some 0%Z.

Definition spawns (es : list Effect) : list SpawnSyncCall :=
  flat_map (fun e => match e with SpawnSync c => [c] | Warn _ => [] end) es.

Lemma canStartTsgo_true (env : Env) (p : string) :
  fst (canStartTsgo env p) = true <->
  clean_exit (spawnSync env {| file := p; args := ["--version"]; stdio := stdio_ignore |}).
Proof.
  unfold canStartTsgo, clean_exit.
  destruct (spawnSync env _) as [r|m]; cbn.
  - destruct r as [e sg st]; cbn.
    destruct e, sg, st as [z|]; cbn; split; intro H;
      try discriminate;
      try (destruct H as (r & Hr & He & Hs & Ht); inversion Hr; subst; cbn in *; congruence).
    + apply Z.eqb_eq in H. subst. eexists; repeat split; reflexivity.
    + destruct H as (r & Hr & He & Hs & Ht). inversion Hr; subst; cbn in *.
      inversion Ht. reflexivity.
  - split; [discriminate|]. intros (r & Hr & _). discriminate.
Qed.

Lemma canStartTsgo_spawns (env : Env) (p : string) :
  snd (canStartTsgo env p) =
  [SpawnSync {| file := p; args := ["--version"]; stdio := stdio_ignore |}].
Proof. unfold canStartTsgo. destruct (spawnSync env _); reflexivity. Qed.

Lemma createTsgoFallbackClient_no_spawn (env : Env) :
  spawns (snd (createTsgoFallbackClient env)) = [] /\
  mode (fst (createTsgoFallbackClient env)) = tsserver.
Proof.
  unfold createTsgoFallbackClient, new_TsServerProcessBackendClient.
  destruct (resolveTsServerPath env) as [p|]; [destruct (p =? "")|]; cbn; auto.
Qed.

(** C7.  In automatic mode the selector runs exactly one synchronous probe,
    the configured sidecar executable with the single argument [--version]
    and its output ignored; the sidecar client (with a tsserver fallback)
    is constructed if and only if that probe returned without a spawn
    error, without a signal and with exit status 0, and otherwise the
    bridged tsserver client is constructed. *)
Theorem auto_mode_probe_decides (env : Env) (options : CreateTsBackendOptions) :
  preference options = Some auto ->
  let client := fst (createTsBackendClient env options) in
  let probe := probe_call env options in
  spawns (snd (createTsBackendClient env options)) = [probe] /\
  (mode client = tsgo_lsp <-> clean_exit (spawnSync env probe)) /\
  (clean_exit (spawnSync env probe) ->
     exists fb, client = TsgoLspBackendClient (Some (file probe)) (Some fb)
                /\ mode fb = tsserver) /\
  (~ clean_exit (spawnSync env probe) -> client = TsServerBackendClient 30000).
Proof.
  intros Hpref. cbn zeta.
  unfold createTsBackendClient, probe_call. rewrite Hpref. cbn [default].
  set (p := default (tsgoPath options) _).
  pose proof (canStartTsgo_true env p) as Hok.
  pose proof (canStartTsgo_spawns env p) as Hsp.
  destruct (canStartTsgo env p) as [ok e1]. cbn [fst snd] in *. subst e1.
  pose proof (createTsgoFallbackClient_no_spawn env) as [Hfb Hmode].
  destruct ok.
  - destruct (createTsgoFallbackClient env) as [fb e2]. cbn [fst snd] in *.
    unfold bindClientMethods.
    assert (Hclean : clean_exit (spawnSync env
              {| file := p; args := ["--version"]; stdio := stdio_ignore |}))
      by (apply Hok; reflexivity).
    repeat split; auto.
    + unfold spawns in *. rewrite flat_map_app, Hfb. reflexivity.
    + exists fb. split; [reflexivity|assumption].
    + intro Hn. contradiction.
  - unfold bindClientMethods. cbn [fst snd mode].
    assert (Hn : ~ clean_exit (spawnSync env
              {| file := p; args := ["--version"]; stdio := stdio_ignore |})).
    { intro Hc. apply Hok in Hc. discriminate. }
    repeat split; auto.
    + discriminate.
    + intro Hc. contradiction.
    + intros Hc. contradiction.
Qed.

(** A machine where [/opt/tsgo --version] exits with status 0. *)
Definition env_with_tsgo : Env :=
  {| spawnSync := fun call =>
       if file call =? "/opt/tsgo"
       then Ok {| error := None; signal := None; status := Some 0%Z |}
       else Ok {| error := Some "ENOENT"; signal := None; status := None |};
     env_VUE_LANGUAGE_SERVER_TSGO_PATH := None;
     resolveTsServerPath := Some "/app/node_modules/typescript/lib/tsserver.js" |}.

Lemma auto_mode_probe_decides_witness :
  mode (fst (createTsBackendClient env_with_tsgo
               {| preference := Some auto; tsgoPath := Some "/opt/tsgo" |})) = tsgo_lsp
  /\ mode (fst (createTsBackendClient env_with_tsgo
               {| preference := Some auto; tsgoPath := None |})) = tsserver.
Proof.
  split.
  - pose proof (@auto_mode_probe_decides env_with_tsgo
                  {| preference := Some auto; tsgoPath := Some "/opt/tsgo" |}
                  eq_refl) as H.
    cbn zeta in H. destruct H as (_ & _ & H & _).
    destruct H as (fb & -> & _).
    + exists {| error := None; signal := None; status := Some 0%Z |}.
      repeat split; reflexivity.
    + reflexivity.
  - pose proof (@auto_mode_probe_decides env_with_tsgo
                  {| preference := Some auto; tsgoPath := None |}
                  eq_refl) as H.
    cbn zeta in H. destruct H as (_ & _ & _ & H).
    rewrite H; [reflexivity|].
    intros (r & Hr & He & _). vm_compute in Hr. inversion Hr; subst. discriminate.
Defined.

(** ** The clients the selector can build *)

Definition warnings (es : list Effect) : list string :=
  flat_map (fun e => match e with Warn message => [message] | SpawnSync _ => [] end) es.

(** The fallback of the sidecar client: the spawned tsserver client when a
    tsserver.js is found, the bridged client otherwise, both with a limit of
    ten seconds. *)
Definition expected_fallback (env : Env) : Client :=
  match resolveTsServerPath env with
  | Some p => if p =? "" then TsServerBackendClient 10000
              else TsServerProcessBackendClient 10000 p
  | None => TsServerBackendClient 10000
  end.

Lemma createTsgoFallbackClient_spec (env : Env) :
  fst (createTsgoFallbackClient env) = expected_fallback env
  /\ spawns (snd (createTsgoFallbackClient env)) = []
  /\ (length (warnings (snd (createTsgoFallbackClient env)))
      = match expected_fallback env with
        | TsServerProcessBackendClient _ _ => 0
        | _ => 1
        end)%nat.
Proof.
  unfold createTsgoFallbackClient, expected_fallback, new_TsServerProcessBackendClient.
  destruct (resolveTsServerPath env) as [p|]; [destruct (p =? "")|];
    repeat split; reflexivity.
Qed.

(** X18.  What [createTsBackendClient] builds.  Without the [auto]
    preference no process is probed.  A client in tsserver mode is the
    bridged client with the limit of thirty seconds, built without a
    warning.  A client in sidecar mode always has a fallback: the spawned
    tsserver client if a tsserver.js can be resolved and otherwise, after
    exactly one warning, the bridged client, with a limit of ten seconds
    either way; nothing is thrown when tsserver.js is missing.  The
    executable such a client will start is the one the probe of automatic
    mode names. *)
Theorem selector_builds_one_of_three (env : Env) (options : CreateTsBackendOptions) :
  let client := fst (createTsBackendClient env options) in
  let effects := snd (createTsBackendClient env options) in
  (preference options <> Some auto -> spawns effects = [])
  /\ (preference options = None \/ preference options = Some (prefer tsserver) ->
      client = TsServerBackendClient 30000 /\ effects = [])
  /\ (preference options = Some (prefer tsgo_lsp) -> mode client = tsgo_lsp)
  /\ (mode client = tsserver -> client = TsServerBackendClient 30000 /\ warnings effects = [])
  /\ (mode client = tsgo_lsp ->
      exists path,
        client = TsgoLspBackendClient path (Some (expected_fallback env))
        /\ default path (default (env_VUE_LANGUAGE_SERVER_TSGO_PATH env) "tsgo")
           = file (probe_call env options)
        /\ (length (warnings effects)
            = match expected_fallback env with
              | TsServerProcessBackendClient _ _ => 0
              | _ => 1
              end)%nat).
Proof.
  cbn zeta. unfold createTsBackendClient, probe_call, bindClientMethods.
  destruct (createTsgoFallbackClient_spec env) as (Hfb & Hsp & Hw).
  destruct (preference options) as [[[|]|]|]; cbn [default file].
  - (* tsserver *)
    repeat split; try reflexivity; try discriminate.
  - (* tsgo-lsp *)
    destruct (createTsgoFallbackClient env) as [fb e]. cbn [fst snd mode] in *.
    split; [intros _; exact Hsp|]. split; [intros [H|H]; discriminate H|].
    split; [reflexivity|]. split; [discriminate|].
    intros _. exists (tsgoPath options). subst fb. repeat split. exact Hw.
  - (* auto *)
    set (p := default (tsgoPath options) _).
    pose proof (canStartTsgo_spawns env p) as Hprobe.
    destruct (canStartTsgo env p) as [[|] e1]; cbn [fst snd] in *.
    + destruct (createTsgoFallbackClient env) as [fb e2]. cbn [fst snd mode] in *.
      split; [intro H; now destruct H|]. split; [intros [H|H]; discriminate H|].
      split; [discriminate|]. split; [discriminate|].
      intros _. exists (Some p). subst fb e1. repeat split.
      unfold warnings in *. rewrite flat_map_app. cbn [flat_map app]. exact Hw.
    + cbn [fst snd mode].
      split; [intro H; now destruct H|]. split; [intros [H|H]; discriminate H|].
      split; [discriminate|].
      split; [intros _; subst e1; split; reflexivity|discriminate].
  - (* no preference *)
    repeat split; try reflexivity; try discriminate.
Qed.

End Selector.

(* ================================================================== *)
(** * Timers of the event loop ([setTimeout], [clearTimeout]) *)
(* ================================================================== *)

Module Timers.
Section WithCallback.
(** Callbacks are data: what the closure captured. *)
Variable Cb : Type.

Record timer : Type := {
  tid : nat;
  deadline : Z;
  callback : Cb
}.

Record t : Type := {
  now : Z;
  next : nat;
  active : list timer
}.

Definition empty : t := {| now := 0; next := 0; active := [] |}.

(** Node runs a timer whose delay is below 1 or above 2^31-1 after 1 ms. *)
Definition effective_delay (ms : Z) : Z :=
  if ((ms <? 1) || (2147483647 <? ms))%Z then 1%Z else ms.

Definition setTimeout (cb : Cb) (ms : Z) (q : t) : nat * t :=
  (next q,
   {| now := now q;
      next := S (next q);
      active := active q ++ [{| tid := next q;
                                deadline := now q + effective_delay ms;
                                callback := cb |}] |}).

Definition clearTimeout (id : nat) (q : t) : t :=
  {| now := now q;
     next := next q;
     active := filter (fun x => negb (tid x =? id)%nat) (active q) |}.

Definition find (id : nat) (q : t) : option timer :=
  List.find (fun x => (tid x =? id)%nat) (active q).

(** The clock moves forward; nothing runs yet. *)
Definition tick (d : Z) (q : t) : t :=
  {| now := now q + Z.max 0 d; next := next q; active := active q |}.

Fixpoint insert_by_deadline (x : timer) (l : list timer) : list timer :=
  match l with
  | [] => [x]
  | y :: r =>
      if (deadline x <? deadline y)%Z then x :: y :: r
      else y :: insert_by_deadline x r
  end.

(** The timers that have expired, earliest deadline first and, among equal
    deadlines, in the order in which they were set. *)
Definition due (q : t) : list nat :=
  map tid
      (fold_right insert_by_deadline []
                  (filter (fun x => (deadline x <=? now q)%Z) (active q))).

(** A timer that is about to run leaves the queue. *)
Definition take (id : nat) (q : t) : option (timer * t) :=
  match find id q with
  | Some x => Some (x, clearTimeout id q)
  | None => None
  end.

(** Timer identifiers are unique and below the allocation counter. *)
Definition wf (q : t) : Prop :=
  NoDup (map tid (active q)) /\ forall x, In x (active q) -> (tid x < next q)%nat.

Lemma find_Some (id : nat) (q : t) (x : timer) :
  find id q = Some x -> In x (active q) /\ tid x = id.
Proof.
  unfold find. intro H. apply find_some in H. destruct H as [H1 H2].
  apply Nat.eqb_eq in H2. auto.
Qed.

Lemma find_None (id : nat) (q : t) :
  find id q = None -> forall x, In x (active q) -> tid x <> id.
Proof.
  unfold find. intros H x Hx E.
  apply (find_none _ _ H) in Hx. apply Nat.eqb_neq in Hx. contradiction.
Qed.

Lemma In_find (q : t) (x : timer) :
  wf q -> In x (active q) -> find (tid x) q = Some x.
Proof.
  unfold wf, find. intros [Hnd _]. induction (active q) as [|y l IH]; cbn; [contradiction|].
  inversion Hnd as [|? ? Hn Hnd']; subst.
  intros [H|H].
  - subst. rewrite Nat.eqb_refl. reflexivity.
  - destruct (tid y =? tid x)%nat eqn:E.
    + apply Nat.eqb_eq in E. exfalso. apply Hn. rewrite E. apply in_map. exact H.
    + auto.
Qed.

Lemma active_clearTimeout (x : timer) (id : nat) (q : t) :
  In x (active (clearTimeout id q)) <-> In x (active q) /\ tid x <> id.
Proof.
  unfold clearTimeout. cbn. rewrite filter_In.
  rewrite negb_true_iff, Nat.eqb_neq. tauto.
Qed.

Lemma find_clearTimeout_same (id : nat) (q : t) : find id (clearTimeout id q) = None.
Proof.
  unfold find, clearTimeout. cbn.
  induction (active q) as [|y l IH]; cbn; [reflexivity|].
  destruct (tid y =? id)%nat eqn:E; cbn; [exact IH|]. rewrite E. exact IH.
Qed.

Lemma find_clearTimeout_other (id id' : nat) (q : t) :
  id <> id' -> find id' (clearTimeout id q) = find id' q.
Proof.
  intro Hne. unfold find, clearTimeout. cbn.
  induction (active q) as [|y l IH]; cbn; [reflexivity|].
  destruct (tid y =? id)%nat eqn:E; cbn.
  - apply Nat.eqb_eq in E.
    destruct (tid y =? id')%nat eqn:E'; [|exact IH].
    apply Nat.eqb_eq in E'. congruence.
  - destruct (tid y =? id')%nat; [reflexivity|exact IH].
Qed.

Lemma wf_empty : wf empty.
Proof. split; cbn; [constructor|contradiction]. Qed.

Lemma wf_clearTimeout (id : nat) (q : t) : wf q -> wf (clearTimeout id q).
Proof.
  intros [Hnd Hlt]. split.
  - unfold clearTimeout. cbn. clear Hlt.
    induction (active q) as [|y l IH]; cbn; [constructor|].
    inversion Hnd as [|? ? Hn Hnd']; subst.
    destruct (tid y =? id)%nat; cbn; [auto|].
    constructor; [|auto]. intro Hin. apply Hn.
    apply in_map_iff in Hin. destruct Hin as (z & Hz & Hin).
    apply filter_In in Hin. apply in_map_iff. exists z. tauto.
  - intros x Hx. apply active_clearTimeout in Hx. apply Hlt. tauto.
Qed.

Lemma wf_setTimeout (cb : Cb) (ms : Z) (q : t) : wf q -> wf (snd (setTimeout cb ms q)).
Proof.
  intros [Hnd Hlt]. split; cbn.
  - rewrite map_app. cbn. apply NoDup_app; [exact Hnd|repeat constructor; auto|].
    intros a Ha [Hb|[]]. subst. apply in_map_iff in Ha.
    destruct Ha as (z & Hz & Hin). apply Hlt in Hin. lia.
  - intros x Hx. apply in_app_iff in Hx. destruct Hx as [Hx|[Hx|[]]].
    + apply Hlt in Hx. lia.
    + subst. cbn. lia.
Qed.

Lemma wf_tick (d : Z) (q : t) : wf q -> wf (tick d q).
Proof. intro H. exact H. Qed.

Lemma find_setTimeout_new (cb : Cb) (ms : Z) (q : t) :
  wf q ->
  find (next q) (snd (setTimeout cb ms q))
  = Some {| tid := next q; deadline := now q + effective_delay ms; callback := cb |}.
Proof.
  intros [_ Hlt]. unfold find, setTimeout. cbn.
  induction (active q) as [|y l IH]; cbn.
  - rewrite Nat.eqb_refl. reflexivity.
  - destruct (tid y =? next q)%nat eqn:E.
    + apply Nat.eqb_eq in E. specialize (Hlt y (or_introl eq_refl)). lia.
    + apply IH. intros x Hx. apply Hlt. now right.
Qed.

Lemma find_setTimeout_old (cb : Cb) (ms : Z) (q : t) (id : nat) :
  id <> next q -> find id (snd (setTimeout cb ms q)) = find id q.
Proof.
  intro Hne. unfold find, setTimeout. cbn.
  induction (active q) as [|y l IH]; cbn.
  - destruct (next q =? id)%nat eqn:E; [|reflexivity].
    apply Nat.eqb_eq in E. congruence.
  - destruct (tid y =? id)%nat; [reflexivity|exact IH].
Qed.

Lemma effective_delay_pos (ms : Z) : (1 <= effective_delay ms)%Z.
Proof.
  unfold effective_delay.
  destruct (ms <? 1)%Z eqn:E; cbn; [lia|].
  destruct (2147483647 <? ms)%Z; [lia|]. apply Z.ltb_ge in E. exact E.
Qed.

Lemma in_insert_by_deadline (x y : timer) (l : list timer) :
  In y (insert_by_deadline x l) <-> y = x \/ In y l.
Proof.
  induction l as [|z l IH]; cbn.
  - intuition congruence.
  - destruct (deadline x <? deadline z)%Z; cbn.
    + intuition congruence.
    + rewrite IH. intuition congruence.
Qed.

Lemma in_due (id : nat) (q : t) :
  In id (due q) <->
  exists x, In x (active q) /\ tid x = id /\ (deadline x <= now q)%Z.
Proof.
  unfold due. rewrite in_map_iff.
  assert (Hs : forall l y, In y (fold_right insert_by_deadline [] l) <-> In y l).
  { induction l as [|z l IH]; cbn; intro y; [tauto|].
    rewrite in_insert_by_deadline, IH. intuition congruence. }
  split.
  - intros (x & Hx & Hin). apply (proj1 (Hs _ _)) in Hin.
    apply filter_In in Hin.
    exists x. rewrite Z.leb_le in Hin. tauto.
  - intros (x & Hin & Hx & Hd). exists x. split; [exact Hx|].
    apply Hs. apply filter_In. rewrite Z.leb_le. tauto.
Qed.
End WithCallback.
End Timers.

(* ================================================================== *)
(** * The pending-request table shared by the two tsserver clients *)
(* ================================================================== *)

(** [TsServerBackendClient] and [TsServerProcessBackendClient] carry the
    same three fields, [requestId], [requestHandlers] and [requestTimeoutMs],
    and touch them with the same four code fragments, which are the
    operations below.  [R] is what a [resolve] callback stands for.  The
    [history] is a ghost record of what happened to the table. *)
Module Correlator.

Inductive Cause : Type :=
| by_response | by_timeout | by_send_error | by_exit | by_dispose.

Inductive Ghost : Type :=
| Registered (rid : nat)
| Deleted (rid : nat) (cause : Cause)
| Resolved (rid : nat) (value : json).

Section WithResolver.
Variable R : Type.

Record pending : Type := {
  resolve : R;
  timer : nat
}.

Record t : Type := {
  requestId : nat;
  requestHandlers : JsMap.t nat pending;
  requestTimeoutMs : Z;
  timers : Timers.t (nat * R);
  history : list Ghost
}.

Definition create (requestTimeoutMs : Z) : t :=
  {| requestId := 0;
     requestHandlers := [];
     requestTimeoutMs := requestTimeoutMs;
     timers := Timers.empty (nat * R);
     history := [] |}.

Definition get (rid : nat) (c : t) : option pending :=
  JsMap.get Nat.eqb rid (requestHandlers c).

Definition has (rid : nat) (c : t) : bool :=
  JsMap.has Nat.eqb rid (requestHandlers c).

(** The executor of [new Promise(resolve => ...)] in [sendTsServerRequest]
    and [sendRawTsServerRequest], up to the write to the channel:
    [const requestId = ++this.requestId; const timer = setTimeout(...);
     this.requestHandlers.set(requestId, { resolve, timer })]. *)
Definition register (r : R) (c : t) : nat * t :=
  let rid := S (requestId c) in
  let '(tm, q) := Timers.setTimeout (rid, r) (requestTimeoutMs c) (timers c) in
  (rid,
   {| requestId := rid;
      requestHandlers :=
        JsMap.set Nat.eqb rid {| resolve := r; timer := tm |} (requestHandlers c);
      requestTimeoutMs := requestTimeoutMs c;
      timers := q;
      history := history c ++ [Registered rid] |}).

(** The body of the timeout closure:
    [this.requestHandlers.delete(requestId); resolve(null)]. *)
Definition on_timeout (rid : nat) (c : t) : t :=
  {| requestId := requestId c;
     requestHandlers := JsMap.delete Nat.eqb rid (requestHandlers c);
     requestTimeoutMs := requestTimeoutMs c;
     timers := timers c;
     history := history c
                ++ (if has rid c then [Deleted rid by_timeout] else [])
                ++ [Resolved rid JNull] |}.

(** The event loop runs timer [id] if it is still set. *)
Definition fire (id : nat) (c : t) : option (R * t) :=
  match Timers.take id (timers c) with
  | Some (x, q) =>
      let '(rid, r) := Timers.callback x in
      Some (r, on_timeout rid
                 {| requestId := requestId c;
                    requestHandlers := requestHandlers c;
                    requestTimeoutMs := requestTimeoutMs c;
                    timers := q;
                    history := history c |})
  | None => None
  end.

(** The response paths:
    [const pending = this.requestHandlers.get(id); if (!pending) return;
     clearTimeout(pending.timer); this.requestHandlers.delete(id);
     pending.resolve(value)]. *)
Definition settle (rid : nat) (cause : Cause) (value : json) (c : t)
  : option (R * t) :=
  match get rid c with
  | None => None
  | Some p =>
      Some (resolve p,
            {| requestId := requestId c;
               requestHandlers := JsMap.delete Nat.eqb rid (requestHandlers c);
               requestTimeoutMs := requestTimeoutMs c;
               timers := Timers.clearTimeout (timer p) (timers c);
               history := history c ++ [Deleted rid cause; Resolved rid value] |})
  end.

(** The teardown paths:
    [for (const pending of this.requestHandlers.values()) {
       clearTimeout(pending.timer); pending.resolve(value); }
     this.requestHandlers.clear()]. *)
Definition flush (cause : Cause) (value : json) (c : t) : list R * t :=
  (map (fun kv => resolve (snd kv)) (requestHandlers c),
   {| requestId := requestId c;
      requestHandlers := [];
      requestTimeoutMs := requestTimeoutMs c;
      timers := fold_left (fun q kv => Timers.clearTimeout (timer (snd kv)) q)
                          (requestHandlers c) (timers c);
      history := history c
                 ++ map (fun kv => Resolved (fst kv) value) (requestHandlers c)
                 ++ map (fun kv => Deleted (fst kv) cause) (requestHandlers c) |}).

(** The clock of the event loop moves forward by [d] milliseconds. *)
Definition tick (d : Z) (c : t) : t :=
  {| requestId := requestId c;
     requestHandlers := requestHandlers c;
     requestTimeoutMs := requestTimeoutMs c;
     timers := Timers.tick d (timers c);
     history := history c |}.

(** Ghost counters. *)
Definition deletions (rid : nat) (h : list Ghost) : nat :=
  length (filter (fun g => match g with
                           | Deleted r _ => (r =? rid)%nat
                           | _ => false end) h).

Definition resolutions (rid : nat) (h : list Ghost) : nat :=
  length (filter (fun g => match g with
                           | Resolved r _ => (r =? rid)%nat
                           | _ => false end) h).

Definition deleted_by (rid : nat) (cause : Cause) (h : list Ghost) : Prop :=
  In (Deleted rid cause) h.

Definition resolved_with (rid : nat) (v : json) (h : list Ghost) : Prop :=
  In (Resolved rid v) h.


(** ** The invariant of the table *)

Record Inv (c : t) : Prop := {
  inv_range : forall rid p, get rid c = Some p -> (1 <= rid <= requestId c)%nat;
  inv_nodup : NoDup (JsMap.keys (requestHandlers c));
  inv_timer : forall rid p, get rid c = Some p ->
    exists x, Timers.find (timer p) (timers c) = Some x
              /\ Timers.callback x = (rid, resolve p);
  inv_back : forall x, In x (Timers.active (timers c)) ->
    exists p, get (fst (Timers.callback x)) c = Some p /\ timer p = Timers.tid x;
  inv_wf : Timers.wf (timers c);
  inv_count : forall rid,
    (deletions rid (history c) + (if has rid c then 1 else 0)
     = if (1 <=? rid) && (rid <=? requestId c) then 1 else 0)%nat;
  inv_res : forall rid, resolutions rid (history c) = deletions rid (history c)
}.

Lemma deletions_app (rid : nat) (h1 h2 : list Ghost) :
  deletions rid (h1 ++ h2) = (deletions rid h1 + deletions rid h2)%nat.
Proof. unfold deletions. rewrite filter_app, length_app. reflexivity. Qed.

Lemma resolutions_app (rid : nat) (h1 h2 : list Ghost) :
  resolutions rid (h1 ++ h2) = (resolutions rid h1 + resolutions rid h2)%nat.
Proof. unfold resolutions. rewrite filter_app, length_app. reflexivity. Qed.

Lemma has_get (rid : nat) (c : t) :
  has rid c = match get rid c with Some _ => true | None => false end.
Proof. reflexivity. Qed.

Lemma Inv_create (ms : Z) : Inv (create ms).
Proof.
  constructor.
  - intros rid p H. discriminate.
  - constructor.
  - intros rid p H. discriminate.
  - intros x Hx. contradiction.
  - apply (Timers.wf_empty (nat * R)).
  - intro rid. unfold deletions, has, JsMap.has. cbn.
    destruct rid; cbn; reflexivity.
  - reflexivity.
Qed.

Lemma get_register (r : R) (c : t) (rid : nat) :
  get rid (snd (register r c))
  = if (rid =? S (requestId c))%nat
    then Some {| resolve := r; timer := Timers.next (timers c) |}
    else get rid c.
Proof.
  unfold register, get. cbn.
  destruct (rid =? S (requestId c))%nat eqn:E.
  - apply Nat.eqb_eq in E. subst. apply (JsMap.get_set_same Nat.eqb_eq).
  - apply Nat.eqb_neq in E. apply (JsMap.get_set_other Nat.eqb_eq). auto.
Qed.

Lemma timers_register (r : R) (c : t) :
  timers (snd (register r c))
  = snd (Timers.setTimeout (S (requestId c), r) (requestTimeoutMs c) (timers c)).
Proof. reflexivity. Qed.

Lemma history_register (r : R) (c : t) :
  history (snd (register r c)) = history c ++ [Registered (S (requestId c))].
Proof. reflexivity. Qed.

Lemma requestId_register (r : R) (c : t) :
  requestId (snd (register r c)) = S (requestId c).
Proof. reflexivity. Qed.

Lemma handlers_register (r : R) (c : t) :
  requestHandlers (snd (register r c))
  = JsMap.set Nat.eqb (S (requestId c))
              {| resolve := r; timer := Timers.next (timers c) |} (requestHandlers c).
Proof. reflexivity. Qed.

Lemma fresh_id (c : t) : Inv c -> get (S (requestId c)) c = None.
Proof.
  intro I. destruct (get (S (requestId c)) c) as [p|] eqn:E; [|reflexivity].
  apply (inv_range I) in E. lia.
Qed.

Lemma Inv_register (r : R) (c : t) : Inv c -> Inv (snd (register r c)).
Proof.
  intro I. pose proof (fresh_id I) as Hfresh.
  constructor.
  - intros rid p. rewrite get_register.
    destruct (rid =? S (requestId c))%nat eqn:E.
    + apply Nat.eqb_eq in E. subst. intros _. cbn. lia.
    + intro H. apply (inv_range I) in H. cbn. lia.
  - cbn. apply (JsMap.NoDup_keys_set_fresh Nat.eqb_eq); [exact Hfresh|apply (inv_nodup I)].
  - intros rid p. rewrite get_register.
    destruct (rid =? S (requestId c))%nat eqn:E.
    + apply Nat.eqb_eq in E. subst. intro H. inversion H; subst. cbn.
      eexists. split; [apply Timers.find_setTimeout_new, (inv_wf I)|reflexivity].
    + intro H. destruct (inv_timer I H) as (x & Hx & Hc).
      exists x. split; [|exact Hc]. rewrite timers_register.
      rewrite Timers.find_setTimeout_old; [exact Hx|].
      apply Timers.find_Some in Hx. destruct Hx as [Hin Ht].
      apply (proj2 (inv_wf I)) in Hin. lia.
  - intros x Hx. cbn in Hx. apply in_app_iff in Hx. destruct Hx as [Hx|[Hx|[]]].
    + destruct (inv_back I Hx) as (p & Hp & Ht).
      exists p. split; [|exact Ht]. rewrite get_register.
      destruct (fst (Timers.callback x) =? S (requestId c))%nat eqn:E; [|exact Hp].
      apply Nat.eqb_eq in E. rewrite E in Hp. congruence.
    + subst. cbn [Timers.callback Timers.tid fst]. eexists. split.
      * rewrite get_register. rewrite Nat.eqb_refl. reflexivity.
      * reflexivity.
  - rewrite timers_register. apply (Timers.wf_setTimeout _ _ (inv_wf I)).
  - intro rid. rewrite history_register, requestId_register.
    rewrite deletions_app. cbn [deletions filter length].
    rewrite has_get, get_register.
    pose proof (inv_count I rid) as Hc. rewrite has_get in Hc.
    destruct (rid =? S (requestId c))%nat eqn:E.
    + apply Nat.eqb_eq in E. subst. rewrite Hfresh in Hc.
      replace (S (requestId c) <=? requestId c)%nat with false in Hc
        by (symmetry; apply Nat.leb_gt; lia).
      rewrite andb_false_r in Hc. rewrite Nat.leb_refl. cbn in *. lia.
    + apply Nat.eqb_neq in E.
      destruct (1 <=? rid)%nat eqn:E1; cbn [andb] in *; [|lia].
      destruct (rid <=? requestId c)%nat eqn:E2.
      * replace (rid <=? S (requestId c))%nat with true
          by (symmetry; apply Nat.leb_le; apply Nat.leb_le in E2; lia). lia.
      * replace (rid <=? S (requestId c))%nat with false
          by (symmetry; apply Nat.leb_gt; apply Nat.leb_gt in E2; lia). lia.
  - intro rid. rewrite history_register.
    rewrite deletions_app, resolutions_app. cbn. rewrite (inv_res I). reflexivity.
Qed.

(** What [fire] and [settle] leave behind when entry [rid] was pending. *)
Definition removed (rid : nat) (p : pending) (cause : Cause) (value : json) (c : t) : t :=
  {| requestId := requestId c;
     requestHandlers := JsMap.delete Nat.eqb rid (requestHandlers c);
     requestTimeoutMs := requestTimeoutMs c;
     timers := Timers.clearTimeout (timer p) (timers c);
     history := history c ++ [Deleted rid cause; Resolved rid value] |}.

Lemma settle_Some (rid : nat) (cause : Cause) (v : json) (c : t) (p : pending) :
  get rid c = Some p ->
  settle rid cause v c = Some (resolve p, removed rid p cause v c).
Proof. intro H. unfold settle. rewrite H. reflexivity. Qed.

Lemma settle_None (rid : nat) (cause : Cause) (v : json) (c : t) :
  get rid c = None -> settle rid cause v c = None.
Proof. intro H. unfold settle. rewrite H. reflexivity. Qed.

Lemma fire_Some (id : nat) (c : t) (x : Timers.timer (nat * R)) :
  Inv c -> Timers.find id (timers c) = Some x ->
  exists p, Timers.callback x = (fst (Timers.callback x), resolve p)
            /\ get (fst (Timers.callback x)) c = Some p
            /\ timer p = id
            /\ fire id c
               = Some (resolve p, removed (fst (Timers.callback x)) p by_timeout JNull c).
Proof.
  intros I Hf. pose proof (Timers.find_Some Hf) as [Hin Hid].
  destruct (inv_back I Hin) as (p & Hp & Ht).
  destruct (inv_timer I Hp) as (x' & Hx' & Hc).
  rewrite Ht, Hid, Hf in Hx'. inversion Hx'; subst x'.
  exists p. repeat split; try congruence.
  unfold fire, Timers.take. rewrite Hf. rewrite Hc.
  unfold on_timeout, removed, has, JsMap.has. cbn.
  unfold get in Hp. rewrite Hc in Hp. cbn in Hp. rewrite Hp.
  rewrite Ht, Hid. reflexivity.
Qed.

Lemma fire_None (id : nat) (c : t) :
  Timers.find id (timers c) = None -> fire id c = None.
Proof. intro H. unfold fire, Timers.take. rewrite H. reflexivity. Qed.

Lemma get_removed (rid rid' : nat) (p : pending) (cause : Cause) (v : json) (c : t) :
  get rid' (removed rid p cause v c)
  = if (rid' =? rid)%nat then None else get rid' c.
Proof.
  unfold get, removed. cbn.
  destruct (rid' =? rid)%nat eqn:E.
  - apply Nat.eqb_eq in E. subst. apply JsMap.get_delete_same.
  - apply Nat.eqb_neq in E. apply (JsMap.get_delete_other Nat.eqb_eq). auto.
Qed.

Lemma Inv_removed (rid : nat) (p : pending) (cause : Cause) (v : json) (c : t) :
  Inv c -> get rid c = Some p -> Inv (removed rid p cause v c).
Proof.
  intros I Hp.
  destruct (inv_timer I Hp) as (xp & Hxp & Hcp).
  constructor.
  - intros rid' p'. rewrite get_removed.
    destruct (rid' =? rid)%nat; [discriminate|]. apply (inv_range I).
  - apply JsMap.NoDup_keys_delete, (inv_nodup I).
  - intros rid' p'. rewrite get_removed.
    destruct (rid' =? rid)%nat eqn:E; [discriminate|]. intro H.
    destruct (inv_timer I H) as (x & Hx & Hc).
    exists x. split; [|exact Hc]. unfold removed. cbn [timers].
    rewrite Timers.find_clearTimeout_other; [exact Hx|].
    intro Heq. rewrite <- Heq, Hxp in Hx. inversion Hx; subst x.
    rewrite Hcp in Hc. inversion Hc; subst. rewrite Nat.eqb_refl in E. discriminate.
  - intros x Hx. unfold removed in Hx. cbn [timers] in Hx.
    apply Timers.active_clearTimeout in Hx.
    destruct Hx as [Hin Hne].
    destruct (inv_back I Hin) as (p' & Hp' & Ht).
    exists p'. split; [|exact Ht]. rewrite get_removed.
    destruct (fst (Timers.callback x) =? rid)%nat eqn:E; [|exact Hp'].
    apply Nat.eqb_eq in E. rewrite E in Hp'. congruence.
  - apply Timers.wf_clearTimeout, (inv_wf I).
  - intro rid'. cbn [history removed requestId].
    rewrite deletions_app, has_get, get_removed.
    pose proof (inv_count I rid') as Hc. rewrite has_get in Hc.
    cbn [deletions filter length].
    destruct (rid' =? rid)%nat eqn:E.
    + apply Nat.eqb_eq in E. subst. rewrite Hp in Hc.
      rewrite Nat.eqb_refl. cbn [length]. lia.
    + rewrite Nat.eqb_sym, E. cbn [length]. lia.
  - intro rid'. cbn [history removed].
    rewrite deletions_app, resolutions_app. cbn.
    rewrite (inv_res I). destruct (rid =? rid')%nat; reflexivity.
Qed.

Lemma Inv_settle (rid : nat) (cause : Cause) (v : json) (c c' : t) (r : R) :
  Inv c -> settle rid cause v c = Some (r, c') -> Inv c'.
Proof.
  intros I H. destruct (get rid c) as [p|] eqn:E.
  - rewrite (@settle_Some rid cause v c p E) in H. inversion H; subst.
    apply Inv_removed; assumption.
  - rewrite (@settle_None rid cause v c E) in H. discriminate.
Qed.

Lemma Inv_fire (id : nat) (c c' : t) (r : R) :
  Inv c -> fire id c = Some (r, c') -> Inv c'.
Proof.
  intros I H. destruct (Timers.find id (timers c)) as [x|] eqn:E.
  - destruct (@fire_Some id c x I E) as (p & _ & Hp & _ & Hf).
    rewrite Hf in H. inversion H; subst. apply Inv_removed; assumption.
  - rewrite (@fire_None id c E) in H. discriminate.
Qed.

Lemma Inv_tick (d : Z) (c : t) : Inv c -> Inv (tick d c).
Proof.
  intro I. constructor; try apply I.
Qed.

Lemma active_fold_clear (l : list (nat * pending)) (q : Timers.t (nat * R))
      (x : Timers.timer (nat * R)) :
  In x (Timers.active
          (fold_left (fun q kv => Timers.clearTimeout (timer (snd kv)) q) l q))
  <-> In x (Timers.active q) /\ forall kv, In kv l -> timer (snd kv) <> Timers.tid x.
Proof.
  revert q. induction l as [|kv l IH]; intro q; cbn [fold_left].
  - split; [intro H; split; [exact H|intros kv []]|tauto].
  - rewrite IH, Timers.active_clearTimeout. split.
    + intros [[H1 H2] H3]. split; [exact H1|].
      intros kv' [E|Hin]; [subst; congruence|auto].
    + intros [H1 H2]. repeat split; auto.
      * intro E. apply (H2 kv); [now left|congruence].
      * intros kv' Hin. apply H2. now right.
Qed.

Lemma wf_fold_clear (l : list (nat * pending)) (q : Timers.t (nat * R)) :
  Timers.wf q ->
  Timers.wf (fold_left (fun q kv => Timers.clearTimeout (timer (snd kv)) q) l q).
Proof.
  revert q. induction l as [|kv l IH]; intros q H; cbn [fold_left]; [exact H|].
  apply IH, Timers.wf_clearTimeout, H.
Qed.

Lemma deletions_map_Deleted (rid : nat) (cause : Cause) (m : list (nat * pending)) :
  deletions rid (map (fun kv => Deleted (fst kv) cause) m)
  = length (filter (fun kv => (fst kv =? rid)%nat) m).
Proof.
  unfold deletions. induction m as [|kv m IH]; cbn; [reflexivity|].
  destruct (fst kv =? rid)%nat; cbn; rewrite IH; reflexivity.
Qed.

Lemma deletions_map_Resolved (rid : nat) (v : json) (m : list (nat * pending)) :
  deletions rid (map (fun kv => Resolved (fst kv) v) m) = 0%nat.
Proof. unfold deletions. induction m as [|kv m IH]; cbn; auto. Qed.

Lemma resolutions_map_Resolved (rid : nat) (v : json) (m : list (nat * pending)) :
  resolutions rid (map (fun kv => Resolved (fst kv) v) m)
  = length (filter (fun kv => (fst kv =? rid)%nat) m).
Proof.
  unfold resolutions. induction m as [|kv m IH]; cbn; [reflexivity|].
  destruct (fst kv =? rid)%nat; cbn; rewrite IH; reflexivity.
Qed.

Lemma resolutions_map_Deleted (rid : nat) (cause : Cause) (m : list (nat * pending)) :
  resolutions rid (map (fun kv => Deleted (fst kv) cause) m) = 0%nat.
Proof. unfold resolutions. induction m as [|kv m IH]; cbn; auto. Qed.

Lemma Inv_flush (cause : Cause) (v : json) (c : t) :
  Inv c -> Inv (snd (flush cause v c)).
Proof.
  intro I. constructor.
  - intros rid p H. discriminate.
  - constructor.
  - intros rid p H. discriminate.
  - intros x Hx. exfalso. cbn [flush snd timers] in Hx.
    apply active_fold_clear in Hx. destruct Hx as [Hin Hall].
    destruct (inv_back I Hin) as (p & Hp & Ht).
    apply (JsMap.get_In Nat.eqb_eq) in Hp.
    apply (Hall _ Hp). exact Ht.
  - cbn [flush snd timers]. apply wf_fold_clear, (inv_wf I).
  - intro rid. cbn [flush snd history requestId].
    rewrite !deletions_app, deletions_map_Resolved, deletions_map_Deleted.
    rewrite (JsMap.count_keys Nat.eqb_eq rid (inv_nodup I)).
    pose proof (inv_count I rid) as Hc. unfold has in *. cbn [requestHandlers JsMap.has JsMap.get].
    lia.
  - intro rid. cbn [flush snd history].
    rewrite !deletions_app, !resolutions_app.
    rewrite deletions_map_Resolved, deletions_map_Deleted,
            resolutions_map_Resolved, resolutions_map_Deleted.
    rewrite (inv_res I). lia.
Qed.

(** ** What the invariant says about one request *)




Lemma resolved_In (rid : nat) (v : json) (h : list Ghost) :
  In (Resolved rid v) h -> (1 <= resolutions rid h)%nat.
Proof.
  unfold resolutions. induction h as [|g h IH]; cbn; [contradiction|].
  intros [E|Hin].
  - subst. rewrite Nat.eqb_refl. cbn. lia.
  - specialize (IH Hin). destruct g; cbn; try lia.
    destruct (rid0 =? rid)%nat; cbn; lia.
Qed.


(** A timer that runs does what a response with value [null] would do. *)
Lemma fire_is_settle (id : nat) (c c' : t) (r : R) :
  Inv c -> fire id c = Some (r, c') ->
  exists rid, settle rid by_timeout JNull c = Some (r, c').
Proof.
  intros I H. destruct (Timers.find id (timers c)) as [x|] eqn:E.
  - destruct (@fire_Some id c x I E) as (p & _ & Hp & _ & Hf).
    rewrite Hf in H. exists (fst (Timers.callback x)).
    rewrite (@settle_Some (fst (Timers.callback x)) by_timeout JNull c p Hp). exact H.
  - rewrite (@fire_None id c E) in H. discriminate.
Qed.



End WithResolver.
End Correlator.

(* ================================================================== *)
(** * The uniform request surface as [AbstractTsServerBackendClient] encodes it *)
(* ================================================================== *)

Module Requests.

(** The requests that go through [sendVueRequest]. *)
Inductive VueMethod : Type :=
| collectExtractProps | getComponentDirectives | getComponentNames
| getComponentMeta | getComponentSlots | getElementAttrs | getElementNames
| getImportPathForFile | getAutoImportSuggestions
| resolveAutoImportCompletionEntry | isRefAtPosition | resolveModuleName.

Definition method_name (m : VueMethod) : string :=
  match m with
  | collectExtractProps => "collectExtractProps"
  | getComponentDirectives => "getComponentDirectives"
  | getComponentNames => "getComponentNames"
  | getComponentMeta => "getComponentMeta"
  | getComponentSlots => "getComponentSlots"
  | getElementAttrs => "getElementAttrs"
  | getElementNames => "getElementNames"
  | getImportPathForFile => "getImportPathForFile"
  | getAutoImportSuggestions => "getAutoImportSuggestions"
  | resolveAutoImportCompletionEntry => "resolveAutoImportCompletionEntry"
  | isRefAtPosition => "isRefAtPosition"
  | resolveModuleName => "resolveModuleName"
  end.

(** A call of one method of the surface, with its arguments. *)
Inductive Call : Type :=
| vue (m : VueMethod) (args : list json)
| getProjectInfo (fileName : string)
| getDocumentHighlights (fileName : string) (position : Z)
| getEncodedSemanticClassifications (fileName : string) (start length : Z)
| getQuickInfoAtPosition (fileName : string) (line character : Z).

(** Constants of TypeScript's server protocol. *)
Definition CommandTypes_ProjectInfo : string := "projectInfo".
Definition CommandTypes_Quickinfo : string := "quickinfo".
Definition CommandTypes_UpdateOpen : string := "updateOpen".
Definition SemanticClassificationFormat_TwentyTwenty : json := JStr "2020".

(** The command string and the arguments each method passes to
    [sendTsServerRequest]. *)
Definition command (c : Call) : string :=
  match c with
  | vue m _ => ("_vue:" ++ method_name m)%string
  | getProjectInfo _ => ("_vue:" ++ CommandTypes_ProjectInfo)%string
  | getDocumentHighlights _ _ => "_vue:documentHighlights-full"
  | getEncodedSemanticClassifications _ _ _ => "_vue:encodedSemanticClassifications-full"
  | getQuickInfoAtPosition _ _ _ => ("_vue:" ++ CommandTypes_Quickinfo)%string
  end.

Definition arguments (c : Call) : json :=
  match c with
  | vue _ args => JArr args
  | getProjectInfo fileName =>
      JObj [("file", JStr fileName); ("needFileNameList", JBool false)]
  | getDocumentHighlights fileName position =>
      JObj [("file", JStr fileName); ("position", JNum position);
            ("filesToSearch", JArr [JStr fileName])]
  | getEncodedSemanticClassifications fileName start length =>
      JObj [("file", JStr fileName); ("start", JNum start); ("length", JNum length);
            ("format", SemanticClassificationFormat_TwentyTwenty)]
  | getQuickInfoAtPosition fileName line character =>
      JObj [("file", JStr fileName); ("line", JNum (line + 1));
            ("offset", JNum (character + 1))]
  end.

(** What the method does with the answer: [getQuickInfoAtPosition] returns
    [result?.displayString], the others return the answer as it is. *)
Definition post (c : Call) (result : json) : json :=
  match c with
  | getQuickInfoAtPosition _ _ _ => field "displayString" result
  | _ => result
  end.

Lemma post_nullish (c : Call) (result : json) :
  nullish result = true -> nullish (post c result) = true.
Proof. destruct c, result; cbn; intro H; try discriminate; reflexivity. Qed.

End Requests.

(* ================================================================== *)
(** * [TsServerBackendClient]: requests bridged through the editor *)
(* ================================================================== *)

Module Bridge.

(** A [resolve] callback is the promise it settles, named by its request. *)
Record state : Type := {
  corr : Correlator.t nat;
  listening : bool;
  promises : JsMap.t nat json;
  sent : list json
}.

(** [new TsServerBackendClient(connection, ts, options)]. *)
Definition create (requestTimeoutMs : option Z) : state :=
  {| corr := Correlator.create nat (Selector.default requestTimeoutMs 30000%Z);
     listening := true;
     promises := [];
     sent := [] |}.

Definition with_corr (c : Correlator.t nat) (s : state) : state :=
  {| corr := c; listening := listening s; promises := promises s; sent := sent s |}.

(** Calling a promise's [resolve]: only the first call settles it. *)
Definition fulfil (promise : nat) (v : json) (s : state) : state :=
  {| corr := corr s;
     listening := listening s;
     promises := if JsMap.has Nat.eqb promise (promises s) then promises s
                 else JsMap.set Nat.eqb promise v (promises s);
     sent := sent s |}.

Definition sendTsServerRequest (command : string) (args : json) (s : state)
  : nat * state :=
  let requestId := S (Correlator.requestId (corr s)) in
  let '(_, c) := Correlator.register requestId (corr s) in
  (requestId,
   {| corr := c;
      listening := listening s;
      promises := promises s;
      sent := sent s ++ [JArr [JNum (Z.of_nat requestId); JStr command; args]] |}).

(** The listener of ['tsserver/response'] installed by the constructor. *)
Definition onResponse (id : nat) (res : json) (s : state) : state :=
  match Correlator.settle id Correlator.by_response res (corr s) with
  | None => s
  | Some (promise, c) => fulfil promise res (with_corr c s)
  end.

Fixpoint run_timers (ids : list nat) (s : state) : state :=
  match ids with
  | [] => s
  | id :: rest =>
      match Correlator.fire id (corr s) with
      | Some (promise, c) => run_timers rest (fulfil promise JNull (with_corr c s))
      | None => run_timers rest s
      end
  end.

Definition dispose (s : state) : state :=
  let '(resolvers, c) := Correlator.flush Correlator.by_dispose JUndefined (corr s) in
  fold_left (fun s promise => fulfil promise JUndefined s) resolvers
            {| corr := c; listening := false; promises := promises s; sent := sent s |}.

(** What can happen to the client. *)
Inductive event : Type :=
| Request (command : string) (args : json)
| Response (id : nat) (res : json)
| Advance (d : Z)
| Dispose.

Definition step (s : state) (e : event) : state :=
  match e with
  | Request command args => snd (sendTsServerRequest command args s)
  | Response id res => if listening s then onResponse id res s else s
  | Advance d =>
      let c := Correlator.tick d (corr s) in
      run_timers (Timers.due (Correlator.timers c)) (with_corr c s)
  | Dispose => dispose s
  end.

Definition run (events : list event) (s : state) : state := fold_left step events s.

(** The value a caller that awaits request [rid] has received, if any. *)
Definition result (rid : nat) (s : state) : option json :=
  JsMap.get Nat.eqb rid (promises s).

Definition pending (rid : nat) (s : state) : bool := Correlator.has rid (corr s).
Definition history (s : state) : list Correlator.Ghost := Correlator.history (corr s).
Definition now (s : state) : Z := Timers.now (Correlator.timers (corr s)).

(** Events that answer request [rid] or tear the client down. *)
Definition quiet_for (rid : nat) (e : event) : bool :=
  match e with
  | Response id _ => negb (id =? rid)%nat
  | Dispose => false
  | Request _ _ | Advance _ => true
  end.

(** ** Invariant of the bridged client *)

Record Inv0 (s : state) : Prop := {
  b_corr : Correlator.Inv (corr s);
  b_resolver : forall rid p,
    Correlator.get rid (corr s) = Some p -> Correlator.resolve p = rid;
  b_promise : forall rid v,
    result rid s = Some v <-> In (Correlator.Resolved rid v) (history s)
}.

(** Between two events no timer that is still set has expired. *)
Definition future (s : state) : Prop :=
  forall x, In x (Timers.active (Correlator.timers (corr s))) ->
            (now s < Timers.deadline x)%Z.

Definition Inv (s : state) : Prop := Inv0 s /\ future s.

Lemma Inv_new_client (ms : option Z) : Inv (create ms).
Proof.
  split; [constructor|].
  - apply Correlator.Inv_create.
  - intros rid p H. discriminate.
  - intros rid v. split; [discriminate|intros []].
  - intros x [].
Qed.

Lemma in_range_of_resolved (s : state) (rid : nat) (v : json) :
  Inv0 s -> In (Correlator.Resolved rid v) (history s) ->
  (1 <= rid <= Correlator.requestId (corr s))%nat /\ pending rid s = false.
Proof.
  intros I Hin. apply Correlator.resolved_In in Hin.
  pose proof (Correlator.inv_count (b_corr I) rid) as Hc.
  pose proof (Correlator.inv_res (b_corr I) rid) as Hr.
  unfold history, pending in *.
  destruct ((1 <=? rid)%nat && (rid <=? Correlator.requestId (corr s))%nat) eqn:E.
  - apply andb_true_iff in E. destruct E as [E1 E2].
    apply Nat.leb_le in E1, E2. split; [lia|].
    destruct (Correlator.has rid (corr s)); [lia|reflexivity].
  - lia.
Qed.

Lemma unresolved_of_pending (s : state) (rid : nat) (p : Correlator.pending nat) :
  Inv0 s -> Correlator.get rid (corr s) = Some p ->
  result rid s = None /\ forall v, ~ In (Correlator.Resolved rid v) (history s).
Proof.
  intros I Hp.
  assert (Hr : forall v, ~ In (Correlator.Resolved rid v) (history s)).
  { intros v Hin. apply (in_range_of_resolved I) in Hin. destruct Hin as [_ Hf].
    unfold pending, Correlator.has, JsMap.has in Hf. unfold Correlator.get in Hp.
    rewrite Hp in Hf. discriminate. }
  split; [|exact Hr].
  destruct (result rid s) as [v|] eqn:E; [|reflexivity].
  apply (b_promise I) in E. exfalso. exact (Hr v E).
Qed.

(** Removing a pending entry and settling its promise keeps the invariant. *)
Lemma Inv0_removed (s : state) (rid : nat) (p : Correlator.pending nat)
      (cause : Correlator.Cause) (v : json) :
  Inv0 s -> Correlator.get rid (corr s) = Some p ->
  Inv0 (fulfil rid v (with_corr (Correlator.removed rid p cause v (corr s)) s)).
Proof.
  intros I Hp. destruct (unresolved_of_pending I Hp) as [Hnone Hnot].
  constructor.
  - cbn. apply Correlator.Inv_removed; [apply I|exact Hp].
  - intros rid' p'. cbn [corr fulfil with_corr]. rewrite Correlator.get_removed.
    destruct (rid' =? rid)%nat; [discriminate|]. apply (b_resolver I).
  - intros rid' v'. unfold result, history in *.
    cbn [promises fulfil with_corr corr Correlator.history Correlator.removed].
    unfold JsMap.has. rewrite Hnone.
    rewrite in_app_iff. cbn [In].
    destruct (Nat.eq_dec rid rid') as [->|Hne].
    + rewrite (JsMap.get_set_same Nat.eqb_eq). split.
      * intro H. inversion H; subst. right. right. left. reflexivity.
      * intros [H|[H|[H|[]]]]; [exfalso; exact (Hnot _ H)|discriminate|].
        inversion H; subst. reflexivity.
    + rewrite (JsMap.get_set_other Nat.eqb_eq) by exact Hne. split.
      * intro H. left. apply (b_promise I). exact H.
      * intros [H|[H|[H|[]]]]; [apply (b_promise I); exact H|discriminate|].
        inversion H; subst. contradiction.
Qed.

Lemma future_removed (s : state) (rid : nat) (p : Correlator.pending nat)
      (cause : Correlator.Cause) (v : json) :
  future s ->
  future (fulfil rid v (with_corr (Correlator.removed rid p cause v (corr s)) s)).
Proof.
  intros F x Hx. cbn in Hx. apply filter_In in Hx. apply F. tauto.
Qed.

Lemma Inv_sendTsServerRequest (command : string) (args : json) (s : state) :
  Inv s -> Inv (snd (sendTsServerRequest command args s)).
Proof.
  intros [I F]. unfold sendTsServerRequest.
  pose proof (Correlator.Inv_register (S (Correlator.requestId (corr s))) (b_corr I)) as HI.
  pose proof (Correlator.get_register (S (Correlator.requestId (corr s))) (corr s)) as Hg.
  pose proof (Correlator.history_register (S (Correlator.requestId (corr s))) (corr s)) as Hh.
  pose proof (Correlator.timers_register (S (Correlator.requestId (corr s))) (corr s)) as Ht.
  destruct (Correlator.register _ (corr s)) as [rid c]. cbn [snd] in *.
  split; [constructor; cbn [corr]|].
  - exact HI.
  - intros rid' p'. rewrite Hg.
    destruct (rid' =? S (Correlator.requestId (corr s)))%nat eqn:E.
    + apply Nat.eqb_eq in E. intro H. inversion H; subst. reflexivity.
    + apply (b_resolver I).
  - intros rid' v. unfold result, history. cbn [promises corr]. rewrite Hh.
    rewrite in_app_iff. cbn [In]. split.
    + intro H. left. apply (b_promise I). exact H.
    + intros [H|[H|[]]]; [apply (b_promise I); exact H|discriminate].
  - intros x Hx. unfold now. cbn [corr] in *. rewrite Ht in *. cbn in Hx |- *.
    apply in_app_iff in Hx. destruct Hx as [Hx|[Hx|[]]].
    + apply F. exact Hx.
    + subst x. cbn. pose proof (@Timers.effective_delay_pos
                                  (Correlator.requestTimeoutMs (corr s))). lia.
Qed.

Lemma onResponse_late (id : nat) (res : json) (s : state) :
  pending id s = false -> onResponse id res s = s.
Proof.
  unfold pending, onResponse. intro H.
  apply (JsMap.has_false Nat.eqb) in H.
  rewrite (@Correlator.settle_None nat id Correlator.by_response res (corr s) H).
  reflexivity.
Qed.

Lemma onResponse_pending (id : nat) (res : json) (s : state) (p : Correlator.pending nat) :
  Inv0 s -> Correlator.get id (corr s) = Some p ->
  onResponse id res s
  = fulfil id res (with_corr (Correlator.removed id p Correlator.by_response res (corr s)) s).
Proof.
  intros I Hp. unfold onResponse.
  rewrite (@Correlator.settle_Some nat id Correlator.by_response res (corr s) p Hp).
  rewrite (b_resolver I Hp). reflexivity.
Qed.

Lemma Inv_onResponse (id : nat) (res : json) (s : state) :
  Inv s -> Inv (onResponse id res s).
Proof.
  intros [I F]. destruct (Correlator.get id (corr s)) as [p|] eqn:E.
  - rewrite (onResponse_pending res I E). split.
    + apply Inv0_removed; assumption.
    + apply future_removed; assumption.
  - rewrite onResponse_late; [split; assumption|].
    unfold pending. apply (JsMap.has_false Nat.eqb). exact E.
Qed.

(** ** Timers *)

Lemma fire_pending (id : nat) (s : state) (x : Timers.timer (nat * nat)) :
  Inv0 s -> Timers.find id (Correlator.timers (corr s)) = Some x ->
  exists rid p,
    Correlator.get rid (corr s) = Some p /\ Correlator.timer p = id
    /\ Correlator.fire id (corr s)
       = Some (rid, Correlator.removed rid p Correlator.by_timeout JNull (corr s)).
Proof.
  intros I Hf.
  destruct (@Correlator.fire_Some nat id (corr s) x (b_corr I) Hf)
    as (p & _ & Hp & Ht & Hfire).
  exists (fst (Timers.callback x)), p. repeat split; try assumption.
  rewrite Hfire, (b_resolver I Hp). reflexivity.
Qed.

Lemma run_timers_cons (id : nat) (rest : list nat) (s : state) :
  Inv0 s ->
  (Timers.find id (Correlator.timers (corr s)) = None
   /\ run_timers (id :: rest) s = run_timers rest s)
  \/ (exists rid p,
        Correlator.get rid (corr s) = Some p /\ Correlator.timer p = id
        /\ run_timers (id :: rest) s
           = run_timers rest
               (fulfil rid JNull
                  (with_corr (Correlator.removed rid p Correlator.by_timeout JNull
                                                 (corr s)) s))).
Proof.
  intro I. destruct (Timers.find id (Correlator.timers (corr s))) as [x|] eqn:E.
  - right. destruct (fire_pending I E) as (rid & p & Hp & Ht & Hfire).
    exists rid, p. repeat split; try assumption.
    cbn [run_timers]. rewrite Hfire. reflexivity.
  - left. split; [reflexivity|]. cbn [run_timers].
    rewrite (@Correlator.fire_None nat id (corr s) E). reflexivity.
Qed.

Lemma Inv0_run_timers (ids : list nat) (s : state) :
  Inv0 s -> Inv0 (run_timers ids s).
Proof.
  revert s. induction ids as [|id rest IH]; intros s I; [exact I|].
  destruct (run_timers_cons id rest I) as [[_ ->]|(rid & p & Hp & _ & ->)].
  - apply IH, I.
  - apply IH, Inv0_removed; assumption.
Qed.

(** A timer that is still set after the loop was set before it and was not
    among those the loop ran. *)
Lemma active_run_timers (ids : list nat) (s : state) (x : Timers.timer (nat * nat)) :
  Inv0 s ->
  In x (Timers.active (Correlator.timers (corr (run_timers ids s)))) ->
  In x (Timers.active (Correlator.timers (corr s))) /\ ~ In (Timers.tid x) ids.
Proof.
  revert s. induction ids as [|id rest IH]; intros s I Hx; [split; [exact Hx|intros []]|].
  destruct (run_timers_cons id rest I) as [[Hnone E]|(rid & p & Hp & Ht & E)];
    rewrite E in Hx.
  - destruct (IH _ I Hx) as [H1 H2]. split; [exact H1|].
    intros [H|H]; [|contradiction].
    exact (Timers.find_None Hnone H1 (eq_sym H)).
  - destruct (IH _ (Inv0_removed Correlator.by_timeout JNull I Hp) Hx) as [H1 H2].
    cbn in H1. apply filter_In in H1. destruct H1 as [H1 H3].
    split; [exact H1|]. intros [H|H]; [|contradiction].
    apply negb_true_iff, Nat.eqb_neq in H3. congruence.
Qed.

Lemma now_run_timers (ids : list nat) (s : state) :
  now (run_timers ids s) = now s.
Proof.
  revert s. induction ids as [|id rest IH]; intro s; [reflexivity|].
  cbn [run_timers]. unfold Correlator.fire, Timers.take.
  destruct (Timers.find id (Correlator.timers (corr s))) as [x|]; [|apply IH].
  destruct (Timers.callback x) as [rid r]. rewrite IH. reflexivity.
Qed.

Lemma Inv0_tick (d : Z) (s : state) :
  Inv0 s -> Inv0 (with_corr (Correlator.tick d (corr s)) s).
Proof.
  intro I. constructor.
  - apply Correlator.Inv_tick, I.
  - apply (b_resolver I).
  - apply (b_promise I).
Qed.

Lemma Inv_advance (d : Z) (s : state) : Inv s -> Inv (step s (Advance d)).
Proof.
  intros [I F]. cbn [step]. split.
  - apply Inv0_run_timers, Inv0_tick, I.
  - intros x Hx. rewrite now_run_timers.
    apply (active_run_timers (Inv0_tick d I)) in Hx. destruct Hx as [Hin Hnot].
    destruct (Z.ltb_spec (now (with_corr (Correlator.tick d (corr s)) s))
                         (Timers.deadline x)) as [Hlt|Hge]; [exact Hlt|].
    exfalso. apply Hnot. apply Timers.in_due. exists x. repeat split; assumption.
Qed.

(** ** Disposal *)

Lemma fulfil_many_corr (l : list nat) (v : json) (s : state) :
  corr (fold_left (fun s promise => fulfil promise v s) l s) = corr s.
Proof. revert s. induction l as [|a l IH]; intro s; cbn; [reflexivity|]. rewrite IH. reflexivity. Qed.

Lemma result_fulfil (promise rid : nat) (v : json) (s : state) :
  result rid (fulfil promise v s)
  = match result rid s with
    | Some x => Some x
    | None => if (promise =? rid)%nat then Some v else None
    end.
Proof.
  unfold result, fulfil. cbn [promises]. unfold JsMap.has.
  destruct (JsMap.get Nat.eqb promise (promises s)) as [y|] eqn:E.
  - destruct (JsMap.get Nat.eqb rid (promises s)) as [x|] eqn:E'; [reflexivity|].
    destruct (promise =? rid)%nat eqn:En; [|reflexivity].
    apply Nat.eqb_eq in En. congruence.
  - destruct (promise =? rid)%nat eqn:En.
    + apply Nat.eqb_eq in En. subst. rewrite E.
      apply (JsMap.get_set_same Nat.eqb_eq).
    + apply Nat.eqb_neq in En. rewrite (JsMap.get_set_other Nat.eqb_eq) by exact En.
      destruct (JsMap.get Nat.eqb rid (promises s)); reflexivity.
Qed.

Lemma result_fulfil_many (l : list nat) (rid : nat) (v : json) (s : state) :
  result rid (fold_left (fun s promise => fulfil promise v s) l s)
  = match result rid s with
    | Some x => Some x
    | None => if existsb (fun promise => (promise =? rid)%nat) l then Some v else None
    end.
Proof.
  revert s. induction l as [|a l IH]; intro s; cbn [fold_left existsb].
  - destruct (result rid s); reflexivity.
  - rewrite IH, result_fulfil. destruct (result rid s); [reflexivity|].
    destruct (a =? rid)%nat; cbn; [reflexivity|]. reflexivity.
Qed.

Lemma Inv_dispose (s : state) : Inv s -> Inv (dispose s).
Proof.
  intros [I F]. unfold dispose.
  pose proof (Correlator.Inv_flush Correlator.by_dispose JUndefined (b_corr I)) as HI.
  cbn [Correlator.flush snd] in HI. cbn [Correlator.flush].
  set (c := {| Correlator.requestId := _ |}) in *.
  set (s0 := {| corr := c |}).
  split; [constructor|].
  - rewrite fulfil_many_corr. exact HI.
  - rewrite fulfil_many_corr. intros rid p H. discriminate.
  - intros rid v. rewrite result_fulfil_many. unfold history.
    rewrite fulfil_many_corr.
    change (result rid s0) with (result rid s).
    change (Correlator.history (corr s0))
      with (Correlator.history (corr s)
            ++ map (fun kv => Correlator.Resolved (fst kv) JUndefined)
                   (Correlator.requestHandlers (corr s))
            ++ map (fun kv => Correlator.Deleted (fst kv) Correlator.by_dispose)
                   (Correlator.requestHandlers (corr s))).
    rewrite !in_app_iff.
    assert (Hkeys : forall kv, In kv (Correlator.requestHandlers (corr s)) ->
                               Correlator.get (fst kv) (corr s) = Some (snd kv)).
    { intros [k p] Hin. apply (JsMap.In_get Nat.eqb_eq).
      - apply (Correlator.inv_nodup (b_corr I)).
      - exact Hin. }
    split.
    + destruct (result rid s) as [x|] eqn:E.
      * intro H. inversion H; subst. left. apply (b_promise I). exact E.
      * destruct (existsb _ _) eqn:Ex; [|discriminate].
        intro H. inversion H; subst. right. left.
        apply existsb_exists in Ex. destruct Ex as (pr & Hin & Heq).
        apply Nat.eqb_eq in Heq. subst pr.
        apply in_map_iff in Hin. destruct Hin as (kv & Hr & Hin).
        apply in_map_iff. exists kv. split; [|exact Hin].
        rewrite <- Hr, (b_resolver I (Hkeys _ Hin)). reflexivity.
    + intros [H|[H|H]].
      * apply (b_promise I) in H. rewrite H. reflexivity.
      * apply in_map_iff in H. destruct H as (kv & Heq & Hin).
        inversion Heq; subst.
        destruct (unresolved_of_pending I (Hkeys _ Hin)) as [-> _].
        replace (existsb _ _) with true; [reflexivity|].
        symmetry. apply existsb_exists. exists (fst kv). split; [|apply Nat.eqb_refl].
        apply in_map_iff. exists kv. split; [|exact Hin].
        apply (b_resolver I (Hkeys _ Hin)).
      * apply in_map_iff in H. destruct H as (kv & Heq & _). discriminate.
  - intros x Hx. rewrite fulfil_many_corr in Hx. exfalso.
    apply (Correlator.inv_back HI) in Hx. destruct Hx as (p & Hp & _). discriminate.
Qed.

Lemma Inv_step (s : state) (e : event) : Inv s -> Inv (step s e).
Proof.
  intro I. destruct e as [command args|id res|d|].
  - apply Inv_sendTsServerRequest, I.
  - cbn [step]. destruct (listening s); [apply Inv_onResponse, I|exact I].
  - apply Inv_advance, I.
  - apply Inv_dispose, I.
Qed.

Lemma Inv_run (events : list event) (s : state) : Inv s -> Inv (run events s).
Proof.
  revert s. induction events as [|e events IH]; intros s I; [exact I|].
  cbn. apply IH, Inv_step, I.
Qed.

(** ** A request that is never answered *)

Definition timed_out (rid : nat) (s : state) : Prop :=
  pending rid s = false /\ result rid s = Some JNull
  /\ In (Correlator.Deleted rid Correlator.by_timeout) (history s)
  /\ In (Correlator.Resolved rid JNull) (history s).

(** Request [rid] is in the table and its timer runs out at [D]. *)
Definition waiting (rid : nat) (D : Z) (s : state) : Prop :=
  exists p x, Correlator.get rid (corr s) = Some p
              /\ Timers.find (Correlator.timer p) (Correlator.timers (corr s)) = Some x
              /\ Timers.deadline x = D.

Lemma history_run_timers (ids : list nat) (s : state) :
  exists h, history (run_timers ids s) = history s ++ h.
Proof.
  revert s. induction ids as [|id rest IH]; intro s; [exists []; symmetry; apply app_nil_r|].
  cbn [run_timers]. unfold Correlator.fire, Timers.take.
  destruct (Timers.find id (Correlator.timers (corr s))) as [x|]; [|apply IH].
  destruct (Timers.callback x) as [rid r].
  destruct (IH (fulfil r JNull (with_corr (Correlator.on_timeout rid
              {| Correlator.requestId := Correlator.requestId (corr s);
                 Correlator.requestHandlers := Correlator.requestHandlers (corr s);
                 Correlator.requestTimeoutMs := Correlator.requestTimeoutMs (corr s);
                 Correlator.timers := Timers.clearTimeout id (Correlator.timers (corr s));
                 Correlator.history := Correlator.history (corr s) |}) s))) as (h & Hh).
  rewrite Hh. unfold history. cbn [corr fulfil with_corr Correlator.history Correlator.on_timeout].
  rewrite <- !app_assoc. eexists. reflexivity.
Qed.

Lemma history_step (s : state) (e : event) :
  exists h, history (step s e) = history s ++ h.
Proof.
  destruct e as [command args|id res|d|]; cbn [step].
  - unfold sendTsServerRequest, history.
    rewrite (surjective_pairing (Correlator.register _ _)). cbn [snd corr].
    rewrite Correlator.history_register. eexists. reflexivity.
  - destruct (listening s); [|exists []; symmetry; apply app_nil_r].
    unfold onResponse, Correlator.settle.
    destruct (Correlator.get id (corr s)); [|exists []; symmetry; apply app_nil_r].
    unfold history. cbn. eexists. reflexivity.
  - destruct (history_run_timers
                (Timers.due (Correlator.timers (Correlator.tick d (corr s))))
                (with_corr (Correlator.tick d (corr s)) s)) as (h & Hh).
    exists h. exact Hh.
  - unfold dispose, history. cbn [Correlator.flush]. rewrite fulfil_many_corr.
    cbn [corr Correlator.history]. eexists. reflexivity.
Qed.

Lemma timed_out_of_history (rid : nat) (s : state) :
  Inv0 s ->
  In (Correlator.Deleted rid Correlator.by_timeout) (history s) ->
  In (Correlator.Resolved rid JNull) (history s) ->
  timed_out rid s.
Proof.
  intros I Hd Hr. destruct (in_range_of_resolved I Hr) as [_ Hp].
  repeat split; try assumption. apply (b_promise I). exact Hr.
Qed.

Lemma timed_out_step (rid : nat) (s : state) (e : event) :
  Inv s -> timed_out rid s -> timed_out rid (step s e).
Proof.
  intros I (_ & _ & Hd & Hr). destruct (history_step s e) as (h & Hh).
  apply timed_out_of_history.
  - apply (Inv_step e I).
  - rewrite Hh. apply in_app_iff. now left.
  - rewrite Hh. apply in_app_iff. now left.
Qed.

Lemma distinct_timers (s : state) (r1 r2 : nat) (p1 p2 : Correlator.pending nat) :
  Inv0 s ->
  Correlator.get r1 (corr s) = Some p1 -> Correlator.get r2 (corr s) = Some p2 ->
  Correlator.timer p1 = Correlator.timer p2 -> r1 = r2.
Proof.
  intros I H1 H2 E.
  destruct (Correlator.inv_timer (b_corr I) H1) as (x1 & Hx1 & Hc1).
  destruct (Correlator.inv_timer (b_corr I) H2) as (x2 & Hx2 & Hc2).
  rewrite E, Hx2 in Hx1. inversion Hx1; subst. rewrite Hc2 in Hc1. congruence.
Qed.

Lemma run_timers_fires (ids : list nat) (s : state) (rid : nat)
      (p : Correlator.pending nat) :
  Inv0 s -> Correlator.get rid (corr s) = Some p -> In (Correlator.timer p) ids ->
  timed_out rid (run_timers ids s).
Proof.
  revert s. induction ids as [|id rest IH]; intros s I Hp Hin; [contradiction|].
  destruct (Correlator.inv_timer (b_corr I) Hp) as (x & Hx & _).
  destruct (run_timers_cons id rest I) as [[Hnone ->]|(rid' & p' & Hp' & Ht' & ->)].
  - apply IH; try assumption. destruct Hin as [E|Hin]; [|exact Hin].
    subst. congruence.
  - pose proof (Inv0_removed Correlator.by_timeout JNull I Hp') as I1.
    set (s1 := fulfil rid' JNull _) in *.
    destruct (Nat.eq_dec rid' rid) as [->|Hne].
    + destruct (history_run_timers rest s1) as (h & Hh).
      apply timed_out_of_history.
      * apply Inv0_run_timers, I1.
      * rewrite Hh. apply in_app_iff. left. unfold history, s1. cbn.
        apply in_app_iff. right. now left.
      * rewrite Hh. apply in_app_iff. left. unfold history, s1. cbn.
        apply in_app_iff. right. right. now left.
    + apply (IH s1 I1).
      * unfold s1. cbn [corr fulfil with_corr]. rewrite Correlator.get_removed.
        replace (rid =? rid')%nat with false by (symmetry; apply Nat.eqb_neq; auto).
        exact Hp.
      * destruct Hin as [E|Hin]; [|exact Hin]. exfalso. apply Hne.
        apply (distinct_timers I Hp' Hp). congruence.
Qed.

Lemma run_timers_untouched (ids : list nat) (s : state) (rid : nat)
      (p : Correlator.pending nat) :
  Inv0 s -> Correlator.get rid (corr s) = Some p -> ~ In (Correlator.timer p) ids ->
  Correlator.get rid (corr (run_timers ids s)) = Some p
  /\ Timers.find (Correlator.timer p) (Correlator.timers (corr (run_timers ids s)))
     = Timers.find (Correlator.timer p) (Correlator.timers (corr s)).
Proof.
  revert s. induction ids as [|id rest IH]; intros s I Hp Hnot; [split; [exact Hp|reflexivity]|].
  destruct (run_timers_cons id rest I) as [[Hnone ->]|(rid' & p' & Hp' & Ht' & ->)].
  - apply IH; try assumption. intro H. apply Hnot. now right.
  - pose proof (Inv0_removed Correlator.by_timeout JNull I Hp') as I1.
    set (s1 := fulfil rid' JNull _) in *.
    assert (Hne : rid <> rid').
    { intro E. subst rid'. apply Hnot. left. congruence. }
    assert (Hp1 : Correlator.get rid (corr s1) = Some p).
    { unfold s1. cbn [corr fulfil with_corr]. rewrite Correlator.get_removed.
      replace (rid =? rid')%nat with false by (symmetry; apply Nat.eqb_neq; auto).
      exact Hp. }
    destruct (IH s1 I1 Hp1) as [H1 H2].
    { intro H. apply Hnot. now right. }
    split; [exact H1|]. rewrite H2. unfold s1. cbn [corr fulfil with_corr Correlator.removed Correlator.timers].
    apply Timers.find_clearTimeout_other. intro E. apply Hnot. left. congruence.
Qed.

Lemma waiting_step (rid : nat) (D : Z) (s : state) (e : event) :
  Inv s -> waiting rid D s -> quiet_for rid e = true ->
  waiting rid D (step s e) \/ timed_out rid (step s e).
Proof.
  intros [I F] (p & x & Hp & Hx & HD) Hq.
  destruct e as [command args|id res|d|]; cbn [step]; cbn in Hq; [| | |discriminate].
  - left. unfold sendTsServerRequest.
    pose proof (Correlator.get_register (S (Correlator.requestId (corr s))) (corr s) rid) as Hg.
    pose proof (Correlator.timers_register (S (Correlator.requestId (corr s))) (corr s)) as Ht.
    destruct (Correlator.register _ (corr s)) as [rid' c]. cbn [snd corr] in *.
    exists p, x. cbn [snd corr]. repeat split; [| |exact HD].
    + rewrite Hg. pose proof (Correlator.inv_range (b_corr I) Hp) as Hr.
      replace (rid =? S (Correlator.requestId (corr s)))%nat with false
        by (symmetry; apply Nat.eqb_neq; lia).
      exact Hp.
    + rewrite Ht, Timers.find_setTimeout_old; [exact Hx|].
      destruct (Timers.find_Some Hx) as [Hin Htid].
      apply (proj2 (Correlator.inv_wf (b_corr I))) in Hin. lia.
  - left. destruct (listening s); [|exists p, x; auto].
    apply negb_true_iff, Nat.eqb_neq in Hq.
    destruct (Correlator.get id (corr s)) as [p'|] eqn:E.
    + rewrite (onResponse_pending res I E).
      exists p, x. repeat split; [| |exact HD]; cbn [corr fulfil with_corr].
      * rewrite Correlator.get_removed.
        replace (rid =? id)%nat with false by (symmetry; apply Nat.eqb_neq; auto).
        exact Hp.
      * cbn [Correlator.removed Correlator.timers].
        rewrite Timers.find_clearTimeout_other; [exact Hx|].
        intro Et. apply Hq. apply (distinct_timers I E Hp Et).
    + rewrite onResponse_late; [exists p, x; auto|].
      unfold pending. apply (JsMap.has_false Nat.eqb). exact E.
  - pose proof (Inv0_tick d I) as I1.
    set (s1 := with_corr (Correlator.tick d (corr s)) s) in *.
    destruct (in_dec Nat.eq_dec (Correlator.timer p)
                     (Timers.due (Correlator.timers (Correlator.tick d (corr s)))))
      as [Hin|Hnot].
    + right. apply (run_timers_fires (s := s1) I1 (p := p)); [exact Hp|exact Hin].
    + left. destruct (run_timers_untouched (s := s1) I1 (p := p) Hp Hnot) as [H1 H2].
      exists p, x. repeat split; [exact H1| |exact HD].
      rewrite H2. exact Hx.
Qed.


Lemma waiting_after_request (command : string) (args : json) (s : state) :
  Inv s ->
  waiting (fst (sendTsServerRequest command args s))
          (now s + Timers.effective_delay (Correlator.requestTimeoutMs (corr s)))
          (snd (sendTsServerRequest command args s)).
Proof.
  intros [I F]. unfold sendTsServerRequest, waiting.
  pose proof (Correlator.get_register (S (Correlator.requestId (corr s))) (corr s)
                                      (S (Correlator.requestId (corr s)))) as Hg.
  pose proof (Correlator.timers_register (S (Correlator.requestId (corr s))) (corr s)) as Ht.
  destruct (Correlator.register _ (corr s)) as [rid' c]. cbn [fst snd corr] in *.
  rewrite Nat.eqb_refl in Hg.
  eexists. eexists. split; [exact Hg|]. cbn [Correlator.timer]. rewrite Ht. split.
  - apply Timers.find_setTimeout_new. apply (Correlator.inv_wf (b_corr I)).
  - reflexivity.
Qed.
(** ** Disposal of the bridged client *)

Lemma listening_fulfil_many (l : list nat) (v : json) (s : state) :
  listening (fold_left (fun s promise => fulfil promise v s) l s) = listening s.
Proof. revert s. induction l as [|a l IH]; intro s; cbn; [reflexivity|]. rewrite IH. reflexivity. Qed.

Lemma listening_run_timers (ids : list nat) (s : state) :
  listening (run_timers ids s) = listening s.
Proof.
  revert s. induction ids as [|id rest IH]; intro s; cbn [run_timers]; [reflexivity|].
  destruct (Correlator.fire id (corr s)) as [[promise c]|]; rewrite IH; reflexivity.
Qed.

Lemma listening_dispose (s : state) : listening (dispose s) = false.
Proof. unfold dispose. cbn [Correlator.flush]. now rewrite listening_fulfil_many. Qed.

Lemma corr_dispose (s : state) :
  corr (dispose s) = snd (Correlator.flush Correlator.by_dispose JUndefined (corr s)).
Proof. unfold dispose. cbn [Correlator.flush snd]. now rewrite fulfil_many_corr. Qed.

(** Once the listener is disposed it stays so. *)
Lemma deaf_step (s : state) (e : event) :
  listening s = false -> listening (step s e) = false.
Proof.
  intro H. destruct e as [command args|id res|d|]; cbn [step].
  - unfold sendTsServerRequest. destruct (Correlator.register _ _). exact H.
  - now rewrite H.
  - now rewrite listening_run_timers.
  - apply listening_dispose.
Qed.

Definition not_dispose (e : event) : bool :=
  match e with Dispose => false | _ => true end.

Lemma waiting_step_deaf (rid : nat) (D : Z) (s : state) (e : event) :
  Inv s -> listening s = false -> waiting rid D s -> not_dispose e = true ->
  waiting rid D (step s e) \/ timed_out rid (step s e).
Proof.
  intros I Hl W Hn. destruct e as [command args|id res|d|]; [| | |discriminate Hn].
  - apply waiting_step; [exact I|exact W|reflexivity].
  - left. cbn [step]. rewrite Hl. exact W.
  - apply waiting_step; [exact I|exact W|reflexivity].
Qed.

Lemma deaf_run (rid : nat) (D : Z) (events : list event) (s : state) :
  Inv s -> listening s = false ->
  waiting rid D s \/ timed_out rid s ->
  forallb not_dispose events = true ->
  waiting rid D (run events s) \/ timed_out rid (run events s).
Proof.
  revert s. induction events as [|e events IH]; intros s I Hl H Hq; [exact H|].
  cbn in Hq. apply andb_true_iff in Hq. destruct Hq as [Hq1 Hq2].
  cbn [run fold_left]. apply IH; [apply Inv_step, I|apply deaf_step, Hl| |exact Hq2].
  destruct H as [H|H].
  - apply waiting_step_deaf; assumption.
  - right. apply timed_out_step.
    + exact I.
    + exact H.
Qed.

(** X8.  Disposing the bridged client answers every caller that is still
    waiting with [undefined], leaves the answers already given as they are,
    and leaves no request in the table, no timer set and no listener for
    responses. *)
Theorem dispose_answers_every_caller (ms : option Z) (events : list event) :
  let s := run events (create ms) in
  (forall rid, pending rid s = true -> result rid (dispose s) = Some JUndefined)
  /\ (forall rid v, result rid s = Some v -> result rid (dispose s) = Some v)
  /\ (forall rid, pending rid (dispose s) = false)
  /\ Timers.active (Correlator.timers (corr (dispose s))) = []
  /\ listening (dispose s) = false.
Proof.
  intros s.
  assert (I : Inv s) by apply Inv_run, Inv_new_client.
  pose proof (Inv_dispose I) as [I' _].
  pose proof (corr_dispose s) as Hc. cbn [Correlator.flush snd] in Hc.
  assert (Hh : history (dispose s)
               = history s
                 ++ map (fun kv => Correlator.Resolved (fst kv) JUndefined)
                        (Correlator.requestHandlers (corr s))
                 ++ map (fun kv => Correlator.Deleted (fst kv) Correlator.by_dispose)
                        (Correlator.requestHandlers (corr s)))
    by (unfold history; rewrite Hc; reflexivity).
  split; [|split; [|split; [|split]]].
  - intros rid Hp. apply (b_promise I'). rewrite Hh, !in_app_iff. right. left.
    unfold pending, Correlator.has in Hp.
    destruct (JsMap.get Nat.eqb rid (Correlator.requestHandlers (corr s))) as [p|] eqn:E.
    + apply (JsMap.get_In Nat.eqb_eq) in E.
      apply in_map_iff. exists (rid, p). split; [reflexivity|exact E].
    + apply (JsMap.has_false Nat.eqb) in E. unfold JsMap.has in *. congruence.
  - intros rid v Hr. apply (b_promise I'). rewrite Hh, in_app_iff. left.
    apply (b_promise (proj1 I)). exact Hr.
  - intros rid. unfold pending, Correlator.has. rewrite Hc. reflexivity.
  - destruct (Timers.active (Correlator.timers (corr (dispose s)))) as [|x l] eqn:E;
      [reflexivity|].
    exfalso.
    destruct (Correlator.inv_back (b_corr I') (x := x)) as (p & Hp & _).
    + rewrite E. now left.
    + unfold Correlator.get in Hp. rewrite Hc in Hp. discriminate Hp.
  - apply listening_dispose.
Qed.

(** X9.  A disposed bridged client does not refuse a request: the request
    is registered and written, no response is heard any more, and the
    caller receives [null] when the clock has passed the request's timeout
    (only a second disposal answers it before). *)
Theorem request_after_dispose_times_out (ms : option Z) (events later : list event)
    (command : string) (args : json) :
  let s := run events (create ms) in
  let rid := fst (sendTsServerRequest command args s) in
  let s1 := snd (sendTsServerRequest command args s) in
  listening s = false ->
  forallb not_dispose later = true ->
  (now s + Timers.effective_delay (Correlator.requestTimeoutMs (corr s))
   <= now (run later s1))%Z ->
  sent s1 = sent s ++ [JArr [JNum (Z.of_nat rid); JStr command; args]]
  /\ pending rid s1 = true
  /\ pending rid (run later s1) = false
  /\ result rid (run later s1) = Some JNull.
Proof.
  intros s rid s1 Hl Hq Hnow.
  assert (I : Inv s) by apply Inv_run, Inv_new_client.
  pose proof (Inv_sendTsServerRequest command args I) as I1.
  pose proof (waiting_after_request command args I) as Hw.
  fold rid s1 in I1, Hw.
  assert (Hl1 : listening s1 = false) by exact (deaf_step (Request command args) Hl).
  split; [|split].
  - subst s1 rid. unfold sendTsServerRequest.
    destruct (Correlator.register _ (corr s)). reflexivity.
  - destruct Hw as (p & x & Hp & _). unfold pending, Correlator.has, JsMap.has.
    unfold Correlator.get in Hp. now rewrite Hp.
  - destruct (deaf_run I1 Hl1 (or_introl Hw) Hq) as [(p & x & Hp & Hx & HD)|H].
    + exfalso. pose proof (Inv_run later I1) as [_ F].
      destruct (Timers.find_Some Hx) as [Hin _]. apply F in Hin. lia.
    + destruct H as (H1 & H2 & _). split; assumption.
Qed.

Lemma request_after_dispose_times_out_witness :
  let events := [Request "_vue:projectInfo" JNull; Dispose] in
  let later := [Response 2 (JStr "late"); Advance 10000] in
  let s := run events (create (Some 10000%Z)) in
  let s1 := snd (sendTsServerRequest "_vue:quickinfo" JNull s) in
  listening s = false
  /\ forallb not_dispose later = true
  /\ result 1 s = Some JUndefined
  /\ result 2 (run later s1) = Some JNull.
Proof.
  cbv zeta.
  pose proof (@request_after_dispose_times_out (Some 10000%Z)
                [Request "_vue:projectInfo" JNull; Dispose]
                [Response 2 (JStr "late"); Advance 10000]
                "_vue:quickinfo" JNull eq_refl eq_refl) as H.
  cbv zeta in H.
  split; [reflexivity|]. split; [reflexivity|]. split; [reflexivity|].
  apply H. vm_compute. discriminate.
Defined.

End Bridge.

(* ================================================================== *)
(** * Libraries the clients call: [node:path], [vscode-uri] *)
(* ================================================================== *)

Record URI : Type := {
  scheme : string;
  fsPath : string
}.

(** The path and URI functions are those of the platform the server runs
    on (POSIX or Windows); the clients are written against their interface. *)
Class Host : Type := {
  path_normalize : string -> string;
  path_dirname : string -> string;
  path_extname : string -> string;
  URI_parse : string -> URI;
  (** [URI.file(fileName).toString()] *)
  URI_file : string -> string;
  (** [Number(v)] of the engine for a string, an array or an object
      ([StringToNumber] and [ToPrimitive] of ECMAScript) *)
  to_number : json -> Outcome number
}.

Definition normalizeFileName `{Host} (fileName : string) : string :=
  backslashes_to_slashes (path_normalize fileName).

(** [ToNumber(v)], which [Math.max] applies to its arguments. *)
Definition ToNumber `{Host} (v : json) : Outcome number :=
  match v with
  | JUndefined | JNaN => Ok NaN
  | JNull => Ok (Int 0)
  | JBool b => Ok (Int (if b then 1 else 0))
  | JNum n => Ok (Int n)
  | JStr _ | JArr _ | JObj _ => to_number v
  end.

(** ** A POSIX host, for concrete runs

    [node:path] on POSIX for paths without a trailing slash, and file URIs
    of the form [file://] followed by the path. *)

Fixpoint last_index (c : ascii) (s : string) (i : nat) (found : option nat)
  : option nat :=
  match s with
  | EmptyString => found
  | String a r => last_index c r (S i) (if Ascii.eqb a c then Some i else found)
  end.

Definition posix_basename (p : string) : string :=
  match last_index "/"%char p 0 None with
  | Some i => substring (S i) (String.length p - S i) p
  | None => p
  end.

Definition posix_dirname (p : string) : string :=
  match last_index "/"%char p 0 None with
  | Some O => "/"
  | Some i => substring 0 i p
  | None => "."
  end.

Definition posix_extname (p : string) : string :=
  let base := posix_basename p in
  match last_index "."%char base 0 None with
  | Some O => ""
  | Some i => if base =? ".." then "" else substring i (String.length base - i) base
  | None => ""
  end.

Fixpoint split_on (c : ascii) (s : string) (current : string) : list string :=
  match s with
  | EmptyString => [current]
  | String a r =>
      if Ascii.eqb a c then current :: split_on c r ""
      else split_on c r (current ++ String a "")%string
  end.

(** Segments are resolved left to right; [done] is kept in reverse. *)
Fixpoint normalize_segments (absolute : bool) (segments done : list string)
  : list string :=
  match segments with
  | [] => rev done
  | seg :: rest =>
      if (seg =? "") || (seg =? ".") then normalize_segments absolute rest done
      else if seg =? ".." then
        match done with
        | [] => normalize_segments absolute rest (if absolute then [] else [".."])
        | d :: done' =>
            if d =? ".." then normalize_segments absolute rest (".." :: done)
            else normalize_segments absolute rest done'
        end
      else normalize_segments absolute rest (seg :: done)
  end.

Definition posix_normalize (p : string) : string :=
  match p with
  | EmptyString => "."
  | String a _ =>
      let absolute := Ascii.eqb a "/"%char in
      let body := String.concat "/" (normalize_segments absolute (split_on "/"%char p "") []) in
      if absolute then ("/" ++ body)%string
      else if body =? "" then "." else body
  end.

Definition posix_URI_parse (u : string) : URI :=
  if String.prefix "file://" u
  then {| scheme := "file"; fsPath := substring 7 (String.length u - 7) u |}
  else match String.index 0 ":" u with
       | Some i => {| scheme := substring 0 i u;
                      fsPath := substring (S i) (String.length u - S i) u |}
       | None => {| scheme := ""; fsPath := u |}
       end.

(** [Number(v)] on this host, for the values of concrete runs: a string of
    decimal digits with an optional sign, [Infinity] with an optional
    sign, the empty string and the empty array, which are 0, an array of
    one such value, and, as [NaN], what is not a number at all. *)
Fixpoint digits_value (s : string) (acc : Z) : option Z :=
  match s with
  | EmptyString => Some acc
  | String c r =>
      let n := nat_of_ascii c in
      if ((48 <=? n) && (n <=? 57))%nat
      then digits_value r (10 * acc + Z.of_nat (n - 48))
      else None
  end.

Definition unsigned_to_number (s : string) : option number :=
  if s =? "Infinity" then Some (Infinity false)
  else match s with
       | EmptyString => None
       | String _ _ => option_map Int (digits_value s 0)
       end.

Definition negate (x : number) : number :=
  match x with
  | NaN => NaN
  | Int n => Int (- n)
  | Infinity negative => Infinity (negb negative)
  end.

Definition string_to_number (s : string) : number :=
  match s with
  | EmptyString => Int 0
  | String c r =>
      match (if Ascii.eqb c "-"%char then option_map negate (unsigned_to_number r)
             else if Ascii.eqb c "+"%char then unsigned_to_number r
             else unsigned_to_number s) with
      | Some x => x
      | None => NaN
      end
  end.

Definition decimal_to_number (v : json) : Outcome number :=
  match v with
  | JStr s => Ok (string_to_number s)
  | JArr [] | JArr [JNull] | JArr [JUndefined] => Ok (Int 0)
  | JArr [JStr s] => Ok (string_to_number s)
  | JArr [JNum n] => Ok (Int n)
  | _ => Ok NaN
  end.

Definition posix : Host :=
  {| path_normalize := posix_normalize;
     path_dirname := posix_dirname;
     path_extname := posix_extname;
     URI_parse := posix_URI_parse;
     URI_file := fun fileName => ("file://" ++ fileName)%string;
     to_number := decimal_to_number |}.

(** A text document of the language server's document store. *)
Record SyncedTextDocument : Type := {
  uri : string;
  languageId : string;
  version : Z;
  getText : string
}.

(* ================================================================== *)
(** * [TsServerProcessBackendClient]: a tsserver child process over IPC *)
(* ================================================================== *)

(** The client is a reactive program on the event loop.  A handler runs to
    its next suspension; an [await] of a request in flight stores the rest
    of the [async] function in the pending entry as its [resolve]; calling
    [resolve] queues that rest as a microtask; the queue is drained before
    the next event.  The ['error'] and [stderr] listeners only log and are
    left out. *)
Module TsServerProcess.

(** The [ChildProcess] object, as far as the client reads it. *)
Record ChildProcess : Type := {
  connected : bool;
  has_send : bool;
  exitCode : option Z;
  signalCode : option string
}.

Inductive ForkResult : Type :=
| Forked (has_send : bool)
| ForkThrows (message : string).

(** The rest of an [async] function that awaits a request in flight. *)
Inductive cont : Type :=
| KCaller (caller : nat) (call : Requests.Call)
| KSyncOpened (normalizedFileName : string) (currentVersion : Z)
              (caller : nat) (call : Requests.Call)
| KSyncClosed (normalizedFileName : string) (caller : nat) (call : Requests.Call)
| KDispose (caller : nat).

Inductive Effect : Type :=
| Fork (n : nat)
| Kill (pid : nat)
| Send (pid : nat) (message : json)
| Warn (message : string)
| Settled (caller : nat) (o : Outcome json)
| DisposeResolved (caller : nat).

Record state : Type := {
  corr : Correlator.t cont;
  disposed : bool;
  openDocumentVersions : JsMap.t string Z;
  tsserverProcess : option nat;
  startPromise : option unit;
  microtasks : list (cont * Outcome json);
  (* the world around the client *)
  processes : JsMap.t nat ChildProcess;
  forks : nat;
  documents : JsMap.t string SyncedTextDocument;
  trace : list Effect
}.

Definition set_corr (x : Correlator.t cont) (s : state) : state :=
  {| corr := x; disposed := disposed s;
     openDocumentVersions := openDocumentVersions s;
     tsserverProcess := tsserverProcess s; startPromise := startPromise s;
     microtasks := microtasks s; processes := processes s; forks := forks s;
     documents := documents s; trace := trace s |}.

Definition set_disposed (x : bool) (s : state) : state :=
  {| corr := corr s; disposed := x;
     openDocumentVersions := openDocumentVersions s;
     tsserverProcess := tsserverProcess s; startPromise := startPromise s;
     microtasks := microtasks s; processes := processes s; forks := forks s;
     documents := documents s; trace := trace s |}.

Definition set_openDocumentVersions (x : JsMap.t string Z) (s : state) : state :=
  {| corr := corr s; disposed := disposed s;
     openDocumentVersions := x;
     tsserverProcess := tsserverProcess s; startPromise := startPromise s;
     microtasks := microtasks s; processes := processes s; forks := forks s;
     documents := documents s; trace := trace s |}.

Definition set_tsserverProcess (x : option nat) (s : state) : state :=
  {| corr := corr s; disposed := disposed s;
     openDocumentVersions := openDocumentVersions s;
     tsserverProcess := x; startPromise := startPromise s;
     microtasks := microtasks s; processes := processes s; forks := forks s;
     documents := documents s; trace := trace s |}.

Definition set_startPromise (x : option unit) (s : state) : state :=
  {| corr := corr s; disposed := disposed s;
     openDocumentVersions := openDocumentVersions s;
     tsserverProcess := tsserverProcess s; startPromise := x;
     microtasks := microtasks s; processes := processes s; forks := forks s;
     documents := documents s; trace := trace s |}.

Definition set_microtasks (x : list (cont * Outcome json)) (s : state) : state :=
  {| corr := corr s; disposed := disposed s;
     openDocumentVersions := openDocumentVersions s;
     tsserverProcess := tsserverProcess s; startPromise := startPromise s;
     microtasks := x; processes := processes s; forks := forks s;
     documents := documents s; trace := trace s |}.

Definition set_processes (x : JsMap.t nat ChildProcess) (s : state) : state :=
  {| corr := corr s; disposed := disposed s;
     openDocumentVersions := openDocumentVersions s;
     tsserverProcess := tsserverProcess s; startPromise := startPromise s;
     microtasks := microtasks s; processes := x; forks := forks s;
     documents := documents s; trace := trace s |}.

Definition set_forks (x : nat) (s : state) : state :=
  {| corr := corr s; disposed := disposed s;
     openDocumentVersions := openDocumentVersions s;
     tsserverProcess := tsserverProcess s; startPromise := startPromise s;
     microtasks := microtasks s; processes := processes s; forks := x;
     documents := documents s; trace := trace s |}.

Definition set_documents (x : JsMap.t string SyncedTextDocument) (s : state) : state :=
  {| corr := corr s; disposed := disposed s;
     openDocumentVersions := openDocumentVersions s;
     tsserverProcess := tsserverProcess s; startPromise := startPromise s;
     microtasks := microtasks s; processes := processes s; forks := forks s;
     documents := x; trace := trace s |}.

Definition emit (e : Effect) (s : state) : state :=
  {| corr := corr s; disposed := disposed s;
     openDocumentVersions := openDocumentVersions s;
     tsserverProcess := tsserverProcess s; startPromise := startPromise s;
     microtasks := microtasks s; processes := processes s; forks := forks s;
     documents := documents s; trace := trace s ++ [e] |}.

(** Calling [resolve]/rejecting: the awaiting code runs as a microtask. *)
Definition enqueue (k : cont) (o : Outcome json) (s : state) : state :=
  set_microtasks (microtasks s ++ [(k, o)]) s.

(** [new TsServerProcessBackendClient(connection, server, ts, options)],
    once a tsserver.js has been found. *)
Definition create (requestTimeoutMs : option Z) : state :=
  {| corr := Correlator.create cont (Selector.default requestTimeoutMs 30000%Z);
     disposed := false;
     openDocumentVersions := [];
     tsserverProcess := None;
     startPromise := None;
     microtasks := [];
     processes := [];
     forks := 0;
     documents := [];
     trace := [] |}.

Section WithWorld.
Context {host : Host}.
(** What the [n]-th call of [childProcess.fork] does. *)
Variable fork : nat -> ForkResult.

Definition startProcess (s : state) : Outcome unit * state :=
  let n := forks s in
  let s1 := emit (Fork n) (set_forks (S n) s) in
  match fork n with
  | ForkThrows message => (Throw message, s1)
  | Forked send =>
      let child := {| connected := send; has_send := send;
                      exitCode := None; signalCode := None |} in
      let s2 := set_processes (JsMap.set Nat.eqb n child (processes s1)) s1 in
      if negb send
      then (Throw "tsserver process does not expose IPC messaging", emit (Kill n) s2)
      else (Ok tt, set_tsserverProcess (Some n) s2)
  end.

Definition ensureProcessStarted (s : state) : Outcome unit * state :=
  if disposed s then (Ok tt, s)
  else match startPromise s with
       | Some _ => (Ok tt, s)
       | None =>
           match startProcess s with
           | (Ok _, s') => (Ok tt, set_startPromise (Some tt) s')
           | (Throw message, s') => (Throw message, set_startPromise None s')
           end
       end.

(** [tsserverProcess?.connected && tsserverProcess.send], on the current handle. *)
Definition usable (s : state) : option nat :=
  match tsserverProcess s with
  | Some pid =>
      match JsMap.get Nat.eqb pid (processes s) with
      | Some child => if connected child && has_send child then Some pid else None
      | None => None
      end
  | None => None
  end.

Definition request_message (seq : nat) (command : string) (args : json) : json :=
  JObj [("seq", JNum (Z.of_nat seq)); ("type", JStr "request");
        ("command", JStr command); ("arguments", args)].

(** [sendRawTsServerRequest(command, args)], awaited by the code [k]. *)
Definition sendRawTsServerRequest (k : cont) (command : string) (args : json)
           (s : state) : state :=
  match ensureProcessStarted s with
  | (Throw message, s1) => enqueue k (Throw message) s1
  | (Ok _, s1) =>
      match usable s1 with
      | None => enqueue k (Ok JNull) s1
      | Some pid =>
          let '(requestId, c) := Correlator.register k (corr s1) in
          emit (Send pid (request_message requestId command args)) (set_corr c s1)
      end
  end.

Definition fileNameFromTsServerArgs (args : json) : option string :=
  match field "file" args with
  | JStr file => Some (normalizeFileName file)
  | _ =>
      match args with
      | JArr (JStr first :: _) => Some (normalizeFileName first)
      | _ => None
      end
  end.

Definition updateOpen (openFiles closedFiles : list json) : json :=
  JObj [("openFiles", JArr openFiles); ("changedFiles", JArr []);
        ("closedFiles", JArr closedFiles)].

Definition option_Z_eqb (a : option Z) (b : Z) : bool :=
  match a with Some x => (x =? b)%Z | None => false end.

(** [syncOpenDocument(fileName)] followed by the request proper, which is
    what [sendTsServerRequest] does for a request that names a file. *)
Definition syncOpenDocument_then (fileName : string) (caller : nat)
           (call : Requests.Call) (s : state) : state :=
  let proceed :=
    sendRawTsServerRequest (KCaller caller call)
                           (Requests.command call) (Requests.arguments call) in
  let normalizedFileName := normalizeFileName fileName in
  match JsMap.get String.eqb (URI_file normalizedFileName) (documents s) with
  | None =>
      if negb (JsMap.has String.eqb normalizedFileName (openDocumentVersions s))
      then proceed s
      else sendRawTsServerRequest
             (KSyncClosed normalizedFileName caller call)
             Requests.CommandTypes_UpdateOpen
             (updateOpen [] [JStr normalizedFileName]) s
  | Some document =>
      let currentVersion := version document in
      let trackedVersion :=
        JsMap.get String.eqb normalizedFileName (openDocumentVersions s) in
      if option_Z_eqb trackedVersion currentVersion then proceed s
      else sendRawTsServerRequest
             (KSyncOpened normalizedFileName currentVersion caller call)
             Requests.CommandTypes_UpdateOpen
             (updateOpen
                [JObj [("file", JStr normalizedFileName);
                       ("fileContent", JStr (getText document))]]
                (match trackedVersion with
                 | Some _ => [JStr normalizedFileName]
                 | None => []
                 end)) s
  end.

(** [sendTsServerRequest(command, args)] for a call of the request surface. *)
Definition sendTsServerRequest (caller : nat) (call : Requests.Call) (s : state)
  : state :=
  match fileNameFromTsServerArgs (Requests.arguments call) with
  | Some fileName =>
      if fileName =? "" then
        sendRawTsServerRequest (KCaller caller call)
                               (Requests.command call) (Requests.arguments call) s
      else syncOpenDocument_then fileName caller call s
  | None =>
      sendRawTsServerRequest (KCaller caller call)
                             (Requests.command call) (Requests.arguments call) s
  end.

Definition resolve_all (ks : list cont) (v : json) (s : state) : state :=
  fold_left (fun s k => enqueue k (Ok v) s) ks s.

Definition running (s : state) : option nat :=
  match tsserverProcess s with
  | Some pid =>
      match JsMap.get Nat.eqb pid (processes s) with
      | Some child =>
          match exitCode child, signalCode child with
          | None, None => Some pid
          | _, _ => None
          end
      | None => None
      end
  | None => None
  end.

(** [dispose()] after its only [await]. *)
Definition dispose_finish (caller : nat) (s : state) : state :=
  let '(ks, c) := Correlator.flush Correlator.by_dispose JUndefined (corr s) in
  let s1 := resolve_all ks JUndefined (set_corr c s) in
  let s2 := match running s1 with
            | Some pid => emit (Kill pid) s1
            | None => s1
            end in
  emit (DisposeResolved caller)
       (set_startPromise None (set_tsserverProcess None s2)).

Definition dispose (caller : nat) (s : state) : state :=
  let s1 := set_disposed true s in
  let trackedFiles := JsMap.keys (openDocumentVersions s1) in
  let s2 := set_openDocumentVersions [] s1 in
  match trackedFiles with
  | [] => dispose_finish caller s2
  | _ :: _ =>
      sendRawTsServerRequest (KDispose caller) Requests.CommandTypes_UpdateOpen
                             (updateOpen [] (map JStr trackedFiles)) s2
  end.

Definition warmup (caller : nat) (s : state) : state :=
  match ensureProcessStarted s with
  | (Ok _, s1) => emit (Settled caller (Ok JUndefined)) s1
  | (Throw message, s1) => emit (Settled caller (Throw message)) s1
  end.

(** A microtask: the code that awaited continues with the outcome. *)
Definition resume (k : cont) (o : Outcome json) (s : state) : state :=
  match k, o with
  | KCaller caller call, Ok v => emit (Settled caller (Ok (Requests.post call v))) s
  | KCaller caller _, Throw message => emit (Settled caller (Throw message)) s
  | KSyncOpened normalizedFileName currentVersion caller call, Ok _ =>
      sendRawTsServerRequest
        (KCaller caller call) (Requests.command call) (Requests.arguments call)
        (set_openDocumentVersions
           (JsMap.set String.eqb normalizedFileName currentVersion
                      (openDocumentVersions s)) s)
  | KSyncOpened _ _ caller _, Throw message => emit (Settled caller (Throw message)) s
  | KSyncClosed normalizedFileName caller call, Ok _ =>
      sendRawTsServerRequest
        (KCaller caller call) (Requests.command call) (Requests.arguments call)
        (set_openDocumentVersions
           (JsMap.delete String.eqb normalizedFileName (openDocumentVersions s)) s)
  | KSyncClosed _ caller _, Throw message => emit (Settled caller (Throw message)) s
  | KDispose caller, Ok _ => dispose_finish caller s
  | KDispose caller, Throw message => emit (Settled caller (Throw message)) s
  end.

Fixpoint drain (fuel : nat) (s : state) : state :=
  match fuel with
  | O => s
  | S fuel' =>
      match microtasks s with
      | [] => s
      | (k, o) :: rest => drain fuel' (resume k o (set_microtasks rest s))
      end
  end.

(** A bound on the microtasks a state can still cause: a continuation of
    [syncOpenDocument] is followed by at most one more. *)
Definition weight_of (k : cont) : nat :=
  match k with
  | KSyncOpened _ _ _ _ | KSyncClosed _ _ _ => 2
  | KCaller _ _ | KDispose _ => 1
  end.

Definition weight (s : state) : nat :=
  list_sum (map (fun kv => weight_of (Correlator.resolve (snd kv)))
                (Correlator.requestHandlers (corr s)))
  + list_sum (map (fun ko => weight_of (fst ko)) (microtasks s)).

Definition settle_microtasks (s : state) : state := drain (weight s) s.

(** [handleTsServerMessage(message)]. *)
Definition handleTsServerMessage (message : json) (s : state) : state :=
  match message with
  | JObj _ =>
      match field "type" message with
      | JStr type =>
          if negb (type =? "response") then s
          else match field "request_seq" message with
               | JNum requestId =>
                   let value :=
                     match field "success" message with
                     | JBool false => JNull
                     | _ => coalesce (field "body" message) JNull
                     end in
                   if (requestId <? 0)%Z then s
                   else
                     match Correlator.settle (Z.to_nat requestId)
                                             Correlator.by_response value (corr s) with
                     | None => s
                     | Some (k, c) => enqueue k (Ok value) (set_corr c s)
                     end
               | _ => s
               end
      | _ => s
      end
  | _ => s
  end.

(** The callback passed to [tsserverProcess.send], called with an error. *)
Definition onSendError (requestId : nat) (s : state) : state :=
  match Correlator.settle requestId Correlator.by_send_error JNull (corr s) with
  | None => s
  | Some (k, c) => enqueue k (Ok JNull) (set_corr c s)
  end.

Definition show_code (code : option Z) : string :=
  match code with
  | Some z => DecimalString.NilZero.string_of_int (Z.to_int z)
  | None => "null"
  end.

Definition show_signal (signal : option string) : string :=
  match signal with Some sg => sg | None => "null" end.

(** The ['exit'] listener installed by [startProcess]. *)
Definition onExit (code : option Z) (signal : option string) (s : state) : state :=
  let s1 :=
    if negb (disposed s)
    then emit (Warn ("[vue-ls][tsserver-fallback] process exited unexpectedly (code="
                       ++ show_code code ++ ", signal=" ++ show_signal signal ++ ")")%string) s
    else s in
  let s2 := set_startPromise None (set_tsserverProcess None s1) in
  let '(ks, c) := Correlator.flush Correlator.by_exit JNull (corr s2) in
  resolve_all ks JNull (set_corr c s2).

Fixpoint run_timers (ids : list nat) (s : state) : state :=
  match ids with
  | [] => s
  | id :: rest =>
      match Correlator.fire id (corr s) with
      | Some (k, c) =>
          run_timers rest (settle_microtasks (enqueue k (Ok JNull) (set_corr c s)))
      | None => run_timers rest s
      end
  end.

Definition has_exited (child : ChildProcess) : bool :=
  match exitCode child, signalCode child with
  | None, None => false
  | _, _ => true
  end.

(** What can happen to the client.  The listeners of a child exist only
    if it was forked with an IPC channel. *)
Inductive event : Type :=
| Call (caller : nat) (call : Requests.Call)
| Warmup (caller : nat)
| Dispose (caller : nat)
| Message (pid : nat) (message : json)
| SendFailed (requestId : nat)
| Disconnect (pid : nat)
| Exit (pid : nat) (code : option Z) (signal : option string)
| Advance (d : Z)
| DocumentSet (document : SyncedTextDocument)
| DocumentRemoved (uri : string).

Definition handle (s : state) (e : event) : state :=
  match e with
  | Call caller call => sendTsServerRequest caller call s
  | Warmup caller => warmup caller s
  | Dispose caller => dispose caller s
  | Message pid message =>
      match JsMap.get Nat.eqb pid (processes s) with
      | Some child => if has_send child then handleTsServerMessage message s else s
      | None => s
      end
  | SendFailed requestId => onSendError requestId s
  | Disconnect pid =>
      match JsMap.get Nat.eqb pid (processes s) with
      | Some child =>
          set_processes
            (JsMap.set Nat.eqb pid
               {| connected := false; has_send := has_send child;
                  exitCode := exitCode child; signalCode := signalCode child |}
               (processes s)) s
      | None => s
      end
  | Exit pid code signal =>
      match JsMap.get Nat.eqb pid (processes s) with
      | Some child =>
          if has_exited child || negb (has_send child) then s
          else onExit code signal
                 (set_processes
                    (JsMap.set Nat.eqb pid
                       {| connected := connected child; has_send := has_send child;
                          exitCode := code; signalCode := signal |}
                       (processes s)) s)
      | None => s
      end
  | Advance d =>
      let c := Correlator.tick d (corr s) in
      run_timers (Timers.due (Correlator.timers c)) (set_corr c s)
  | DocumentSet document =>
      set_documents (JsMap.set String.eqb (uri document) document (documents s)) s
  | DocumentRemoved u =>
      set_documents (JsMap.delete String.eqb u (documents s)) s
  end.

Definition step (s : state) (e : event) : state := settle_microtasks (handle s e).

Definition run (events : list event) (s : state) : state := fold_left step events s.

(** ** What starting the process leaves alone *)

Lemma startProcess_frame (s : state) :
  let s' := snd (startProcess s) in
  corr s' = corr s /\ microtasks s' = microtasks s /\ disposed s' = disposed s
  /\ openDocumentVersions s' = openDocumentVersions s
  /\ documents s' = documents s /\ startPromise s' = startPromise s.
Proof.
  unfold startProcess. destruct (fork (forks s)) as [send|m]; cbn.
  - destruct send; cbn; repeat split; reflexivity.
  - repeat split; reflexivity.
Qed.

Lemma ensureProcessStarted_frame (s : state) :
  let s' := snd (ensureProcessStarted s) in
  corr s' = corr s /\ microtasks s' = microtasks s /\ disposed s' = disposed s
  /\ openDocumentVersions s' = openDocumentVersions s
  /\ documents s' = documents s.
Proof.
  unfold ensureProcessStarted.
  destruct (disposed s) eqn:Ed; [cbn; repeat split; auto|].
  destruct (startPromise s); [cbn; repeat split; auto|].
  pose proof (startProcess_frame s) as H0. cbn zeta in H0.
  destruct (startProcess s) as [[u|m] s']; cbn in *;
    destruct H0 as (H1 & H2 & H3 & H4 & H5 & H6); repeat split; congruence.
Qed.

(** When the client is disposed nothing is started. *)
Lemma ensureProcessStarted_disposed (s : state) :
  disposed s = true -> ensureProcessStarted s = (Ok tt, s).
Proof. unfold ensureProcessStarted. intros ->. reflexivity. Qed.

(** The three ways [sendRawTsServerRequest] can go. *)
Lemma sendRaw_cases (k : cont) (command : string) (args : json) (s : state) :
  let s1 := snd (ensureProcessStarted s) in
  (exists m, fst (ensureProcessStarted s) = Throw m
             /\ sendRawTsServerRequest k command args s = enqueue k (Throw m) s1)
  \/ (fst (ensureProcessStarted s) = Ok tt /\ usable s1 = None
      /\ sendRawTsServerRequest k command args s = enqueue k (Ok JNull) s1)
  \/ (fst (ensureProcessStarted s) = Ok tt
      /\ exists pid, usable s1 = Some pid
         /\ sendRawTsServerRequest k command args s
            = emit (Send pid (request_message (S (Correlator.requestId (corr s1)))
                                              command args))
                   (set_corr (snd (Correlator.register k (corr s1))) s1)).
Proof.
  cbn zeta. unfold sendRawTsServerRequest.
  destruct (ensureProcessStarted s) as [[[]|m] s1]; cbn [fst snd].
  - destruct (usable s1) as [pid|] eqn:E.
    + right. right. split; [reflexivity|]. exists pid. split; [reflexivity|].
      rewrite (surjective_pairing (Correlator.register k (corr s1))). reflexivity.
    + right. left. auto.
  - left. exists m. auto.
Qed.

(** ** The microtask queue empties *)

Lemma corr_resolve_all (ks : list cont) (v : json) (s : state) :
  corr (resolve_all ks v s) = corr s.
Proof.
  unfold resolve_all. revert s. induction ks as [|k ks IH]; intro s; cbn; [reflexivity|].
  rewrite IH. reflexivity.
Qed.


Definition queue_weight (q : list (cont * Outcome json)) : nat :=
  list_sum (map (fun ko => weight_of (fst ko)) q).

Definition table_weight (m : JsMap.t nat (Correlator.pending cont)) : nat :=
  list_sum (map (fun kv => weight_of (Correlator.resolve (snd kv))) m).

Lemma weight_eq (s : state) :
  weight s = (table_weight (Correlator.requestHandlers (corr s))
              + queue_weight (microtasks s))%nat.
Proof. reflexivity. Qed.

Lemma weight_of_pos (k : cont) : (1 <= weight_of k)%nat.
Proof. destruct k; cbn; lia. Qed.

Lemma queue_weight_app (q1 q2 : list (cont * Outcome json)) :
  queue_weight (q1 ++ q2) = (queue_weight q1 + queue_weight q2)%nat.
Proof. unfold queue_weight. rewrite map_app, list_sum_app. reflexivity. Qed.

Lemma table_weight_set (rid : nat) (p : Correlator.pending cont)
      (m : JsMap.t nat (Correlator.pending cont)) :
  (table_weight (JsMap.set Nat.eqb rid p m)
   <= table_weight m + weight_of (Correlator.resolve p))%nat.
Proof.
  unfold table_weight, list_sum. induction m as [|[k' v'] m IH]; cbn; [lia|].
  destruct (k' =? rid)%nat; cbn; lia.
Qed.

Lemma weight_sendRaw (k : cont) (command : string) (args : json) (s : state) :
  (weight (sendRawTsServerRequest k command args s) <= weight s + weight_of k)%nat.
Proof.
  pose proof (ensureProcessStarted_frame s) as (Hc & Hm & _). cbn zeta in Hc, Hm.
  destruct (sendRaw_cases k command args s)
    as [(m & _ & ->)|[(_ & _ & ->)|(_ & pid & _ & ->)]]; rewrite !weight_eq;
    cbn [corr microtasks enqueue set_microtasks emit set_corr].
  - rewrite Hc, Hm, queue_weight_app. cbn. lia.
  - rewrite Hc, Hm, queue_weight_app. cbn. lia.
  - rewrite Hm, Hc, Correlator.handlers_register.
    pose proof (table_weight_set (S (Correlator.requestId (corr s)))
                  {| Correlator.resolve := k;
                     Correlator.timer := Timers.next (Correlator.timers (corr s)) |}
                  (Correlator.requestHandlers (corr s))) as Hw.
    cbn in Hw. lia.
Qed.

Lemma microtasks_resolve_all (ks : list cont) (v : json) (s : state) :
  microtasks (resolve_all ks v s) = microtasks s ++ map (fun k => (k, Ok v)) ks.
Proof.
  unfold resolve_all. revert s. induction ks as [|k ks IH]; intro s; cbn.
  - symmetry. apply app_nil_r.
  - rewrite IH. cbn. rewrite <- app_assoc. reflexivity.
Qed.

Lemma queue_weight_resolved (v : json) (m : JsMap.t nat (Correlator.pending cont)) :
  queue_weight (map (fun k => (k, Ok v)) (map (fun kv => Correlator.resolve (snd kv)) m))
  = table_weight m.
Proof.
  unfold queue_weight, table_weight. rewrite !map_map. reflexivity.
Qed.

Lemma weight_dispose_finish (caller : nat) (s : state) :
  weight (dispose_finish caller s) = weight s.
Proof.
  unfold dispose_finish. cbn [Correlator.flush].
  set (s1 := resolve_all _ _ _).
  assert (Hw : weight s1 = weight s).
  { unfold s1. rewrite !weight_eq, corr_resolve_all, microtasks_resolve_all.
    cbn [corr set_corr Correlator.requestHandlers microtasks].
    rewrite queue_weight_app, queue_weight_resolved. cbn. lia. }
  destruct (running s1); rewrite <- Hw; reflexivity.
Qed.

Lemma weight_resume (k : cont) (o : Outcome json) (s : state) :
  (weight (resume k o s) + 1 <= weight s + weight_of k)%nat.
Proof.
  destruct k, o; cbn [resume weight_of];
    try (change (weight (emit _ s)) with (weight s); lia).
  - pose proof (weight_sendRaw (KCaller caller call) (Requests.command call)
                  (Requests.arguments call)
                  (set_openDocumentVersions
                     (JsMap.set String.eqb normalizedFileName currentVersion
                                (openDocumentVersions s)) s)) as Hw.
    cbn [weight_of] in Hw.
    change (weight (set_openDocumentVersions _ s)) with (weight s) in Hw. lia.
  - pose proof (weight_sendRaw (KCaller caller call) (Requests.command call)
                  (Requests.arguments call)
                  (set_openDocumentVersions
                     (JsMap.delete String.eqb normalizedFileName
                                   (openDocumentVersions s)) s)) as Hw.
    cbn [weight_of] in Hw.
    change (weight (set_openDocumentVersions _ s)) with (weight s) in Hw. lia.
  - rewrite weight_dispose_finish. lia.
Qed.

Lemma drain_empties (fuel : nat) (s : state) :
  (weight s <= fuel)%nat -> microtasks (drain fuel s) = [].
Proof.
  revert s. induction fuel as [|fuel IH]; intros s Hw; cbn [drain].
  - rewrite weight_eq in Hw. destruct (microtasks s) as [|[k o] rest]; [reflexivity|].
    unfold queue_weight in Hw. cbn in Hw. pose proof (weight_of_pos k). lia.
  - destruct (microtasks s) as [|[k o] rest] eqn:E; [exact E|].
    apply IH.
    pose proof (weight_resume k o (set_microtasks rest s)) as Hr.
    rewrite (weight_eq s), E in Hw. rewrite (weight_eq (set_microtasks rest s)) in Hr.
    unfold queue_weight in Hw. cbn in Hw, Hr. unfold queue_weight in Hr. lia.
Qed.

(** After an event no microtask is left. *)
Lemma microtasks_settled (s : state) : microtasks (settle_microtasks s) = [].
Proof. apply drain_empties. apply Nat.le_refl. Qed.

(** ** The pending table keeps its invariant *)

Definition CInv (s : state) : Prop := Correlator.Inv (corr s).

Lemma CInv_sendRaw (k : cont) (command : string) (args : json) (s : state) :
  CInv s -> CInv (sendRawTsServerRequest k command args s).
Proof.
  intro I. pose proof (ensureProcessStarted_frame s) as (Hc & _). cbn zeta in Hc.
  destruct (sendRaw_cases k command args s)
    as [(m & _ & ->)|[(_ & _ & ->)|(_ & pid & _ & ->)]]; unfold CInv; cbn [corr enqueue set_microtasks emit set_corr].
  - rewrite Hc. exact I.
  - rewrite Hc. exact I.
  - apply Correlator.Inv_register. rewrite Hc. exact I.
Qed.

Lemma CInv_syncOpenDocument_then (fileName : string) (caller : nat)
      (call : Requests.Call) (s : state) :
  CInv s -> CInv (syncOpenDocument_then fileName caller call s).
Proof.
  intro I. unfold syncOpenDocument_then.
  destruct (JsMap.get _ _ (documents s)) as [document|].
  - destruct (option_Z_eqb _ _); apply CInv_sendRaw, I.
  - destruct (negb _); apply CInv_sendRaw, I.
Qed.

Lemma CInv_sendTsServerRequest (caller : nat) (call : Requests.Call) (s : state) :
  CInv s -> CInv (sendTsServerRequest caller call s).
Proof.
  intro I. unfold sendTsServerRequest.
  destruct (fileNameFromTsServerArgs _) as [fileName|]; [|apply CInv_sendRaw, I].
  destruct (fileName =? ""); [apply CInv_sendRaw, I|].
  apply CInv_syncOpenDocument_then, I.
Qed.

Lemma CInv_dispose_finish (caller : nat) (s : state) :
  CInv s -> CInv (dispose_finish caller s).
Proof.
  intro I. unfold dispose_finish, CInv.
  pose proof (Correlator.Inv_flush Correlator.by_dispose JUndefined I) as HI.
  destruct (Correlator.flush _ _ (corr s)) as [ks c]. cbn [snd] in HI.
  cbn [corr emit set_startPromise set_tsserverProcess].
  destruct (running _); cbn [corr emit]; rewrite corr_resolve_all; exact HI.
Qed.

Lemma CInv_dispose (caller : nat) (s : state) : CInv s -> CInv (dispose caller s).
Proof.
  intro I. unfold dispose.
  destruct (JsMap.keys _); [apply CInv_dispose_finish|apply CInv_sendRaw]; exact I.
Qed.

Lemma CInv_resume (k : cont) (o : Outcome json) (s : state) :
  CInv s -> CInv (resume k o s).
Proof.
  intro I. destruct k, o; cbn [resume]; try exact I;
    try (apply CInv_sendRaw; exact I).
  apply CInv_dispose_finish, I.
Qed.

Lemma CInv_drain (fuel : nat) (s : state) : CInv s -> CInv (drain fuel s).
Proof.
  revert s. induction fuel as [|fuel IH]; intros s I; [exact I|].
  cbn [drain]. destruct (microtasks s) as [|[k o] rest]; [exact I|].
  apply IH, CInv_resume. exact I.
Qed.

Lemma CInv_handleTsServerMessage (message : json) (s : state) :
  CInv s -> CInv (handleTsServerMessage message s).
Proof.
  intro I. unfold handleTsServerMessage.
  destruct message; try exact I.
  destruct (field "type" _); try exact I.
  destruct (negb _); [exact I|].
  destruct (field "request_seq" _); try exact I.
  destruct (n <? 0)%Z; [exact I|].
  destruct (Correlator.settle _ _ _ _) as [[k c]|] eqn:E; [|exact I].
  unfold CInv. cbn. exact (Correlator.Inv_settle I E).
Qed.

Lemma CInv_onSendError (requestId : nat) (s : state) :
  CInv s -> CInv (onSendError requestId s).
Proof.
  intro I. unfold onSendError.
  destruct (Correlator.settle _ _ _ _) as [[k c]|] eqn:E; [|exact I].
  unfold CInv. cbn. exact (Correlator.Inv_settle I E).
Qed.

Lemma CInv_onExit (code : option Z) (signal : option string) (s : state) :
  CInv s -> CInv (onExit code signal s).
Proof.
  intro I. unfold onExit, CInv.
  set (s2 := set_startPromise None _).
  assert (Hc : corr s2 = corr s) by (unfold s2; destruct (negb (disposed s)); reflexivity).
  pose proof (Correlator.Inv_flush Correlator.by_exit JNull I) as HI.
  rewrite <- Hc in HI.
  destruct (Correlator.flush _ _ (corr s2)) as [ks c]. cbn [snd] in HI.
  rewrite corr_resolve_all. exact HI.
Qed.

Lemma CInv_run_timers (ids : list nat) (s : state) :
  CInv s -> CInv (run_timers ids s).
Proof.
  revert s. induction ids as [|id rest IH]; intros s I; [exact I|].
  cbn [run_timers].
  destruct (Correlator.fire id (corr s)) as [[k c]|] eqn:E; [|apply IH, I].
  apply IH. apply CInv_drain. unfold CInv. cbn. exact (Correlator.Inv_fire I E).
Qed.

Lemma CInv_handle (s : state) (e : event) : CInv s -> CInv (handle s e).
Proof.
  intro I. destruct e; cbn [handle].
  - apply CInv_sendTsServerRequest, I.
  - unfold warmup. pose proof (ensureProcessStarted_frame s) as (Hc & _). cbn zeta in Hc.
    destruct (ensureProcessStarted s) as [[u|m] s1]; unfold CInv; cbn in *; rewrite Hc; exact I.
  - apply CInv_dispose, I.
  - destruct (JsMap.get _ _ _) as [child|]; [|exact I].
    destruct (has_send child); [apply CInv_handleTsServerMessage, I|exact I].
  - apply CInv_onSendError, I.
  - destruct (JsMap.get _ _ _); exact I.
  - destruct (JsMap.get _ _ _) as [child|]; [|exact I].
    destruct (_ || _); [exact I|]. apply CInv_onExit. exact I.
  - apply CInv_run_timers. unfold CInv. cbn. apply Correlator.Inv_tick, I.
  - exact I.
  - exact I.
Qed.

Lemma CInv_step (s : state) (e : event) : CInv s -> CInv (step s e).
Proof. intro I. apply CInv_drain, CInv_handle, I. Qed.


Lemma CInv_create (ms : option Z) : CInv (create ms).
Proof. apply Correlator.Inv_create. Qed.


(** ** A client that has been disposed *)

(** The client is down: disposed, without process handle or start promise,
    and with an empty pending table. *)
Definition Down (s : state) : Prop :=
  disposed s = true /\ tsserverProcess s = None /\ startPromise s = None
  /\ Correlator.requestHandlers (corr s) = [].

(** [dispose()] has resolved and the event loop is idle. *)
Definition Disposed (s : state) : Prop := Down s /\ microtasks s = [].

Lemma flush_empty (cause : Correlator.Cause) (v : json) (c : Correlator.t cont) :
  Correlator.requestHandlers c = [] -> Correlator.flush cause v c = ([], c).
Proof.
  destruct c as [rid m ms q h]. cbn. intros ->.
  unfold Correlator.flush. cbn. rewrite app_nil_r. reflexivity.
Qed.

Lemma get_empty (rid : nat) (c : Correlator.t cont) :
  Correlator.requestHandlers c = [] -> Correlator.get rid c = None.
Proof. unfold Correlator.get. intros ->. reflexivity. Qed.

Lemma no_timers_of_empty (c : Correlator.t cont) :
  Correlator.Inv c -> Correlator.requestHandlers c = [] ->
  Timers.active (Correlator.timers c) = [].
Proof.
  intros I He. destruct (Timers.active (Correlator.timers c)) as [|x l] eqn:E; [reflexivity|].
  destruct (Correlator.inv_back I (x := x)) as (p & Hp & _).
  - rewrite E. now left.
  - rewrite (get_empty _ He) in Hp. discriminate.
Qed.

Lemma resolve_all_eq (ks : list cont) (v : json) (s : state) :
  resolve_all ks v s
  = set_microtasks (microtasks s ++ map (fun k => (k, Ok v)) ks) s.
Proof.
  unfold resolve_all. revert s. induction ks as [|k ks IH]; intro s; cbn [fold_left map].
  - rewrite app_nil_r. destruct s; reflexivity.
  - rewrite IH. unfold enqueue. cbn. rewrite <- app_assoc. reflexivity.
Qed.

Lemma usable_Down (s : state) : Down s -> usable s = None.
Proof. intros (_ & Hp & _). unfold usable. rewrite Hp. reflexivity. Qed.

Lemma sendRaw_disposed (k : cont) (command : string) (args : json) (s : state) :
  disposed s = true -> usable s = None ->
  sendRawTsServerRequest k command args s = enqueue k (Ok JNull) s.
Proof.
  intros Hd Hu. unfold sendRawTsServerRequest.
  rewrite (ensureProcessStarted_disposed Hd), Hu. reflexivity.
Qed.

Lemma dispose_finish_Down (caller : nat) (s : state) :
  Down s -> dispose_finish caller s = emit (DisposeResolved caller) s.
Proof.
  intros (Hd & Hp & Hs & Hh). unfold dispose_finish.
  rewrite (flush_empty _ _ Hh). unfold resolve_all. cbn [fold_left].
  unfold running. cbn [tsserverProcess set_corr]. rewrite Hp.
  destruct s as [c d docs proc sp q procs fk dcs tr]. cbn in *. subst. reflexivity.
Qed.

(** What the last part of [dispose()] establishes. *)
Lemma Down_dispose_finish (caller : nat) (s : state) :
  disposed s = true -> Down (dispose_finish caller s).
Proof.
  intro Hd. unfold dispose_finish. cbn [Correlator.flush].
  rewrite resolve_all_eq.
  destruct (running _); repeat split; cbn; assumption.
Qed.

(** ** Once [dispose()] has resolved the client is down *)

Definition is_dispose (k : cont) : bool :=
  match k with KDispose _ => true | _ => false end.

(** Code [k] is waiting, in the pending table or in the microtask queue. *)
Definition awaits (s : state) (k : cont) : Prop :=
  In k (map (fun kv => Correlator.resolve (snd kv)) (Correlator.requestHandlers (corr s)))
  \/ In k (map fst (microtasks s)).

Definition dispose_resolved (t : list Effect) : bool :=
  existsb (fun e => match e with DisposeResolved _ => true | _ => false end) t.

Record G (s : state) : Prop := {
  g_corr : CInv s;
  g_await : forall k, awaits s k -> is_dispose k = true -> disposed s = true;
  g_down : dispose_resolved (trace s) = true -> Down s
}.

Lemma dispose_resolved_app (a b : list Effect) :
  dispose_resolved (a ++ b) = dispose_resolved a || dispose_resolved b.
Proof. apply existsb_app. Qed.

Lemma startProcess_trace (s : state) :
  dispose_resolved (trace (snd (startProcess s))) = dispose_resolved (trace s).
Proof.
  unfold startProcess. destruct (fork (forks s)) as [send|m]; cbn.
  - destruct send; cbn; rewrite ?dispose_resolved_app; cbn;
      rewrite ?dispose_resolved_app; cbn; rewrite ?orb_false_r; reflexivity.
  - rewrite dispose_resolved_app. cbn. apply orb_false_r.
Qed.

Lemma ensureProcessStarted_trace (s : state) :
  dispose_resolved (trace (snd (ensureProcessStarted s))) = dispose_resolved (trace s).
Proof.
  unfold ensureProcessStarted.
  destruct (disposed s); [reflexivity|].
  destruct (startPromise s); [reflexivity|].
  pose proof (startProcess_trace s) as Ht.
  destruct (startProcess s) as [[u|m] s']; cbn in *; exact Ht.
Qed.

Lemma G_sendRaw (k : cont) (command : string) (args : json) (s : state) :
  G s -> (is_dispose k = true -> disposed s = true) ->
  G (sendRawTsServerRequest k command args s).
Proof.
  intros g Hk.
  pose proof (ensureProcessStarted_frame s) as (Hc & Hm & Hd & _).
  cbn zeta in Hc, Hm, Hd.
  pose proof (ensureProcessStarted_trace s) as Ht.
  assert (Hdown : dispose_resolved (trace s) = true ->
                  snd (ensureProcessStarted s) = s /\ Down s).
  { intro Hr. pose proof (g_down g Hr) as D. split; [|exact D].
    destruct D as (Hdis & _). rewrite (ensureProcessStarted_disposed Hdis). reflexivity. }
  constructor.
  - apply CInv_sendRaw, g.
  - intros k' Ha Hk'.
    destruct (sendRaw_cases k command args s)
      as [(m & _ & E)|[(_ & _ & E)|(_ & pid & _ & E)]]; rewrite E in Ha |- *;
      unfold awaits in Ha; cbn [corr microtasks disposed enqueue set_microtasks emit set_corr] in *.
    + rewrite Hd. rewrite Hc, Hm, map_app, in_app_iff in Ha. cbn in Ha.
      destruct Ha as [Ha|[Ha|[Ha|[]]]].
      * apply (g_await g (k := k')); [left; exact Ha|exact Hk'].
      * apply (g_await g (k := k')); [right; exact Ha|exact Hk'].
      * subst k'. auto.
    + rewrite Hd. rewrite Hc, Hm, map_app, in_app_iff in Ha. cbn in Ha.
      destruct Ha as [Ha|[Ha|[Ha|[]]]].
      * apply (g_await g (k := k')); [left; exact Ha|exact Hk'].
      * apply (g_await g (k := k')); [right; exact Ha|exact Hk'].
      * subst k'. auto.
    + rewrite Hd. rewrite Hm, Hc, Correlator.handlers_register in Ha.
      destruct Ha as [Ha|Ha].
      * apply in_map_iff in Ha. destruct Ha as (kv & Hkv & Hin).
        apply JsMap.In_set in Hin. destruct Hin as [Ekv|Hin].
        -- subst kv. cbn in Hkv. subst k'. auto.
        -- apply (g_await g (k := k')); [|exact Hk'].
           left. apply in_map_iff. exists kv. auto.
      * apply (g_await g (k := k')); [right; exact Ha|exact Hk'].
  - intro Hr.
    destruct (sendRaw_cases k command args s)
      as [(m & _ & E)|[(_ & _ & E)|(_ & pid & Hu & E)]]; rewrite E in Hr |- *;
      cbn [trace enqueue set_microtasks emit set_corr] in Hr.
    + rewrite Ht in Hr. destruct (Hdown Hr) as [-> D]. exact D.
    + rewrite Ht in Hr. destruct (Hdown Hr) as [-> D]. exact D.
    + rewrite dispose_resolved_app, Ht in Hr. cbn in Hr. rewrite orb_false_r in Hr.
      destruct (Hdown Hr) as [Es D]. rewrite Es in Hu.
      rewrite (usable_Down D) in Hu. discriminate.
Qed.

Lemma G_frame (s s' : state) :
  G s -> corr s' = corr s -> microtasks s' = microtasks s ->
  disposed s' = disposed s -> tsserverProcess s' = tsserverProcess s ->
  startPromise s' = startPromise s ->
  dispose_resolved (trace s') = dispose_resolved (trace s) -> G s'.
Proof.
  intros g Hc Hm Hd Hp Hs Ht. constructor.
  - unfold CInv. rewrite Hc. apply g.
  - intros k Ha Hk. rewrite Hd. apply (g_await g (k := k)); [|exact Hk].
    unfold awaits in *. rewrite Hc, Hm in Ha. exact Ha.
  - intro Hr. rewrite Ht in Hr. destruct (g_down g Hr) as (H1 & H2 & H3 & H4).
    repeat split; congruence.
Qed.

Lemma G_set_openDocumentVersions (x : JsMap.t string Z) (s : state) :
  G s -> G (set_openDocumentVersions x s).
Proof. intro g. apply (G_frame g); reflexivity. Qed.

Lemma G_emit_Settled (caller : nat) (o : Outcome json) (s : state) :
  G s -> G (emit (Settled caller o) s).
Proof.
  intro g. apply (G_frame g); try reflexivity.
  cbn. rewrite dispose_resolved_app. cbn. apply orb_false_r.
Qed.

Lemma G_syncOpenDocument_then (fileName : string) (caller : nat)
      (call : Requests.Call) (s : state) :
  G s -> G (syncOpenDocument_then fileName caller call s).
Proof.
  intro g. unfold syncOpenDocument_then.
  destruct (JsMap.get _ _ (documents s)) as [document|].
  - destruct (option_Z_eqb _ _); apply G_sendRaw; try exact g; discriminate.
  - destruct (negb _); apply G_sendRaw; try exact g; discriminate.
Qed.

Lemma G_sendTsServerRequest (caller : nat) (call : Requests.Call) (s : state) :
  G s -> G (sendTsServerRequest caller call s).
Proof.
  intro g. unfold sendTsServerRequest.
  destruct (fileNameFromTsServerArgs _) as [fileName|];
    [|apply G_sendRaw; [exact g|discriminate]].
  destruct (fileName =? ""); [apply G_sendRaw; [exact g|discriminate]|].
  apply G_syncOpenDocument_then, g.
Qed.

Lemma G_dispose_finish (caller : nat) (s : state) :
  G s -> disposed s = true -> G (dispose_finish caller s).
Proof.
  intros g Hd. constructor.
  - apply CInv_dispose_finish, g.
  - intros k _ _. apply (Down_dispose_finish caller Hd).
  - intros _. apply (Down_dispose_finish caller Hd).
Qed.

Lemma G_dispose (caller : nat) (s : state) : G s -> G (dispose caller s).
Proof.
  intro g. unfold dispose.
  assert (g1 : G (set_openDocumentVersions [] (set_disposed true s))).
  { constructor.
    - apply g.
    - intros. reflexivity.
    - intro Hr. destruct (g_down g Hr) as (H1 & H2 & H3 & H4).
      repeat split; assumption. }
  destruct (JsMap.keys _).
  - apply G_dispose_finish; [exact g1|reflexivity].
  - apply G_sendRaw; [exact g1|reflexivity].
Qed.

(** Taking the first microtask off the queue. *)
Lemma G_pop (k : cont) (o : Outcome json) (rest : list (cont * Outcome json))
      (s : state) :
  G s -> microtasks s = (k, o) :: rest ->
  G (set_microtasks rest s) /\ (is_dispose k = true -> disposed s = true).
Proof.
  intros g E. split.
  - constructor.
    + apply g.
    + intros k' Ha Hk'. apply (g_await g (k := k')); [|exact Hk'].
      destruct Ha as [Ha|Ha]; [left; exact Ha|right].
      rewrite E. cbn. right. exact Ha.
    + intro Hr. destruct (g_down g Hr) as (H1 & H2 & H3 & H4).
      repeat split; assumption.
  - apply (g_await g (k := k)). right. rewrite E. now left.
Qed.

Lemma G_resume (k : cont) (o : Outcome json) (s : state) :
  G s -> (is_dispose k = true -> disposed s = true) -> G (resume k o s).
Proof.
  intros g Hk. destruct k, o; cbn [resume];
    try (apply G_emit_Settled; exact g).
  - apply G_sendRaw; [apply G_set_openDocumentVersions, g|discriminate].
  - apply G_sendRaw; [apply G_set_openDocumentVersions, g|discriminate].
  - apply G_dispose_finish; [exact g|apply Hk; reflexivity].
Qed.

Lemma G_drain (fuel : nat) (s : state) : G s -> G (drain fuel s).
Proof.
  revert s. induction fuel as [|fuel IH]; intros s g; [exact g|].
  cbn [drain]. destruct (microtasks s) as [|[k o] rest] eqn:E; [exact g|].
  destruct (G_pop g E) as [g1 Hk]. apply IH, G_resume; assumption.
Qed.

(** Moving entries of the pending table to the microtask queue. *)
Lemma G_settled (rid : nat) (cause : Correlator.Cause) (v : json) (s : state)
      (k : cont) (c : Correlator.t cont) :
  G s -> Correlator.settle rid cause v (corr s) = Some (k, c) ->
  G (enqueue k (Ok v) (set_corr c s)).
Proof.
  intros g E. unfold Correlator.settle in E.
  destruct (Correlator.get rid (corr s)) as [p|] eqn:Ep; [|discriminate].
  inversion E; subst k c. clear E.
  pose proof (JsMap.get_In Nat.eqb_eq Ep) as Hin.
  constructor.
  - unfold CInv. cbn. apply Correlator.Inv_removed; [apply g|exact Ep].
  - intros k' Ha Hk'. cbn [disposed enqueue set_microtasks set_corr].
    apply (g_await g (k := k')); [|exact Hk'].
    unfold awaits in *. cbn [corr microtasks enqueue set_microtasks set_corr
                              Correlator.requestHandlers] in Ha.
    rewrite map_app, in_app_iff in Ha. cbn in Ha.
    destruct Ha as [Ha|[Ha|[Ha|[]]]].
    + left. apply in_map_iff in Ha. destruct Ha as (kv & Hkv & Hin').
      apply filter_In in Hin'. apply in_map_iff. exists kv. tauto.
    + right. exact Ha.
    + left. subst k'. apply in_map_iff. exists (rid, p). auto.
  - intro Hr. cbn in Hr. destruct (g_down g Hr) as (H1 & H2 & H3 & H4).
    unfold Correlator.get in Ep. rewrite H4 in Ep. discriminate.
Qed.

Lemma G_flushed (cause : Correlator.Cause) (v : json) (s : state) :
  G s ->
  G (resolve_all (fst (Correlator.flush cause v (corr s))) v
                 (set_corr (snd (Correlator.flush cause v (corr s))) s)).
Proof.
  intro g. rewrite resolve_all_eq. constructor.
  - unfold CInv. cbn. apply (Correlator.Inv_flush cause v (g_corr g)).
  - intros k' Ha Hk'. cbn [disposed set_microtasks set_corr].
    apply (g_await g (k := k')); [|exact Hk'].
    unfold awaits in *. cbn in Ha. destruct Ha as [[]|Ha].
    rewrite map_app, in_app_iff in Ha. destruct Ha as [Ha|Ha].
    + right. exact Ha.
    + left. rewrite map_map in Ha. cbn in Ha. rewrite map_id in Ha. exact Ha.
  - intro Hr. cbn in Hr. destruct (g_down g Hr) as (H1 & H2 & H3 & H4).
    repeat split; assumption.
Qed.

Lemma G_handleTsServerMessage (message : json) (s : state) :
  G s -> G (handleTsServerMessage message s).
Proof.
  intro g. unfold handleTsServerMessage.
  destruct message; try exact g.
  destruct (field "type" _); try exact g.
  destruct (negb _); [exact g|].
  destruct (field "request_seq" _); try exact g.
  destruct (n <? 0)%Z; [exact g|].
  destruct (Correlator.settle _ _ _ _) as [[k c]|] eqn:E; [|exact g].
  exact (G_settled g E).
Qed.

Lemma G_onSendError (requestId : nat) (s : state) :
  G s -> G (onSendError requestId s).
Proof.
  intro g. unfold onSendError.
  destruct (Correlator.settle _ _ _ _) as [[k c]|] eqn:E; [|exact g].
  exact (G_settled g E).
Qed.

Lemma G_onExit (code : option Z) (signal : option string) (s : state) :
  G s -> G (onExit code signal s).
Proof.
  intro g. unfold onExit.
  set (s2 := set_startPromise None _).
  assert (g2 : G s2).
  { unfold s2. destruct (disposed s) eqn:Ed; cbn [negb].
    - constructor.
      + apply g.
      + intros k Ha Hk. exact Ed.
      + intro Hr. destruct (g_down g Hr) as (H1 & H2 & H3 & H4).
        repeat split; assumption.
    - constructor.
      + apply g.
      + intros k Ha Hk. apply (g_await g (k := k)); assumption.
      + intro Hr. cbn in Hr. rewrite dispose_resolved_app in Hr. cbn in Hr.
        rewrite orb_false_r in Hr. destruct (g_down g Hr) as (H1 & _). congruence. }
  pose proof (G_flushed Correlator.by_exit JNull g2) as g3.
  destruct (Correlator.flush _ _ (corr s2)) as [ks c]. exact g3.
Qed.

Lemma G_run_timers (ids : list nat) (s : state) : G s -> G (run_timers ids s).
Proof.
  revert s. induction ids as [|id rest IH]; intros s g; [exact g|].
  cbn [run_timers].
  destruct (Correlator.fire id (corr s)) as [[k c]|] eqn:E; [|apply IH, g].
  apply IH. apply G_drain.
  destruct (Correlator.fire_is_settle (g_corr g) E) as (rid & Es).
  exact (G_settled g Es).
Qed.

Lemma G_ensureProcessStarted (s : state) : G s -> G (snd (ensureProcessStarted s)).
Proof.
  intro g. destruct (disposed s) eqn:Ed.
  - rewrite (ensureProcessStarted_disposed Ed). exact g.
  - pose proof (ensureProcessStarted_frame s) as (Hc & Hm & Hd & _).
    cbn zeta in Hc, Hm, Hd. pose proof (ensureProcessStarted_trace s) as Ht.
    constructor.
    + unfold CInv. rewrite Hc. apply g.
    + intros k Ha Hk. rewrite Hd. apply (g_await g (k := k)); [|exact Hk].
      unfold awaits in *. rewrite Hc, Hm in Ha. exact Ha.
    + intro Hr. rewrite Ht in Hr. destruct (g_down g Hr) as (H1 & _). congruence.
Qed.

Lemma G_handle (s : state) (e : event) : G s -> G (handle s e).
Proof.
  intro g. destruct e; cbn [handle].
  - apply G_sendTsServerRequest, g.
  - unfold warmup. pose proof (G_ensureProcessStarted g) as g1.
    destruct (ensureProcessStarted s) as [[u|m] s1]; apply G_emit_Settled, g1.
  - apply G_dispose, g.
  - destruct (JsMap.get _ _ _) as [child|]; [|exact g].
    destruct (has_send child); [apply G_handleTsServerMessage, g|exact g].
  - apply G_onSendError, g.
  - destruct (JsMap.get _ _ _); [|exact g]. apply (G_frame g); reflexivity.
  - destruct (JsMap.get _ _ _) as [child|]; [|exact g].
    destruct (_ || _); [exact g|]. apply G_onExit. apply (G_frame g); reflexivity.
  - apply G_run_timers. constructor.
    + unfold CInv. cbn. apply Correlator.Inv_tick, g.
    + intros k Ha Hk. apply (g_await g (k := k)); assumption.
    + intro Hr. destruct (g_down g Hr) as (H1 & H2 & H3 & H4).
      repeat split; assumption.
  - apply (G_frame g); reflexivity.
  - apply (G_frame g); reflexivity.
Qed.

Lemma G_step (s : state) (e : event) : G s -> G (step s e).
Proof. intro g. apply G_drain, G_handle, g. Qed.

Lemma G_run (events : list event) (s : state) : G s -> G (run events s).
Proof.
  revert s. induction events as [|e events IH]; intros s g; [exact g|].
  cbn. apply IH, G_step, g.
Qed.

Lemma G_create (ms : option Z) : G (create ms).
Proof.
  constructor.
  - apply CInv_create.
  - intros k [[]|[]].
  - discriminate.
Qed.

Lemma microtasks_run (events : list event) (ms : option Z) :
  microtasks (run events (create ms)) = [].
Proof.
  induction events as [|e events IH] using rev_ind; [reflexivity|].
  unfold run. rewrite fold_left_app. cbn [fold_left]. apply microtasks_settled.
Qed.

(** However the client got there: once some [dispose()] has resolved, the
    client is disposed and idle. *)
Lemma Disposed_after_dispose (events : list event) (ms : option Z) :
  dispose_resolved (trace (run events (create ms))) = true ->
  Disposed (run events (create ms)).
Proof.
  intro Hr. split.
  - apply (g_down (G_run events (G_create ms)) Hr).
  - apply microtasks_run.
Qed.

(** ** What a disposed client does *)

Ltac expose_disposed s D :=
  let c := fresh "c" in
  destruct D as [(?Hd & ?Hp & ?Hs & ?Hh) ?Hq];
  destruct s as [c ? ? ? ? ? ? ? ? ?];
  destruct c as [? ? ? ? ?];
  cbn in *; subst.

(** The bookkeeping of open documents after the [syncOpenDocument] of a
    request on a client that sends nothing: the version of an open
    document is recorded, the record of a document that is no longer open
    is dropped. *)
Definition table_after_sync (call : Requests.Call) (s : state) : JsMap.t string Z :=
  match fileNameFromTsServerArgs (Requests.arguments call) with
  | Some fileName =>
      if fileName =? "" then openDocumentVersions s
      else
        let normalizedFileName := normalizeFileName fileName in
        match JsMap.get String.eqb (URI_file normalizedFileName) (documents s) with
        | None =>
            if negb (JsMap.has String.eqb normalizedFileName (openDocumentVersions s))
            then openDocumentVersions s
            else JsMap.delete String.eqb normalizedFileName (openDocumentVersions s)
        | Some document =>
            if option_Z_eqb
                 (JsMap.get String.eqb normalizedFileName (openDocumentVersions s))
                 (version document)
            then openDocumentVersions s
            else JsMap.set String.eqb normalizedFileName (version document)
                           (openDocumentVersions s)
        end
  | None => openDocumentVersions s
  end.

(** A request on a disposed client is answered at once, with what the
    method makes of [null]; only the bookkeeping of open documents can
    change, nothing is forked and nothing is sent. *)
Lemma step_Call_Disposed (caller : nat) (call : Requests.Call) (s : state) :
  Disposed s ->
  step s (Call caller call)
  = emit (Settled caller (Ok (Requests.post call JNull)))
         (set_openDocumentVersions (table_after_sync call s) s).
Proof.
  intro D. unfold step, handle, sendTsServerRequest, table_after_sync.
  assert (Hplain :
    settle_microtasks
      (sendRawTsServerRequest (KCaller caller call) (Requests.command call)
                              (Requests.arguments call) s)
    = emit (Settled caller (Ok (Requests.post call JNull)))
           (set_openDocumentVersions (openDocumentVersions s) s)).
  { rewrite sendRaw_disposed; [|apply D|apply usable_Down, D].
    expose_disposed s D. reflexivity. }
  destruct (fileNameFromTsServerArgs _) as [fileName|]; [|exact Hplain].
  destruct (fileName =? ""); [exact Hplain|].
  unfold syncOpenDocument_then. cbn zeta.
  destruct (JsMap.get _ _ (documents s)) as [document|].
  - destruct (option_Z_eqb _ _); [exact Hplain|].
    rewrite sendRaw_disposed; [|apply D|apply usable_Down, D].
    expose_disposed s D. reflexivity.
  - destruct (negb _); [exact Hplain|].
    rewrite sendRaw_disposed; [|apply D|apply usable_Down, D].
    expose_disposed s D. reflexivity.
Qed.

(** Disposing again resolves at once and leaves the client as it is, apart
    from emptying the bookkeeping of open documents. *)
Lemma step_Dispose_Disposed (caller : nat) (s : state) :
  Disposed s ->
  step s (Dispose caller)
  = emit (DisposeResolved caller) (set_openDocumentVersions [] s).
Proof.
  intro D. unfold step, handle, dispose.
  destruct (JsMap.keys (openDocumentVersions (set_disposed true s))) as [|f fs].
  - rewrite dispose_finish_Down.
    + expose_disposed s D. reflexivity.
    + destruct D as [(Hd & Hp & Hs & Hh) Hq]. repeat split; assumption.
  - rewrite sendRaw_disposed.
    + expose_disposed s D. cbn. rewrite app_nil_r. reflexivity.
    + reflexivity.
    + unfold usable. cbn. destruct D as [(Hd & Hp & Hs & Hh) Hq]. rewrite Hp. reflexivity.
Qed.

(** ** Nothing is forked once [dispose()] has been called *)

(** [s'] comes after [s]: the trace has only grown, and if the client was
    disposed it still is and no further process has been forked. *)
Definition after (s s' : state) : Prop :=
  (disposed s = true -> disposed s' = true /\ forks s' = forks s)
  /\ exists t, trace s' = trace s ++ t.

Lemma after_refl (s : state) : after s s.
Proof. split; [auto|]. exists []. symmetry. apply app_nil_r. Qed.

Lemma after_trans (s1 s2 s3 : state) : after s1 s2 -> after s2 s3 -> after s1 s3.
Proof.
  intros [H1 (t1 & E1)] [H2 (t2 & E2)]. split.
  - intro Hd. destruct (H1 Hd) as [Hd2 Hf2]. destruct (H2 Hd2) as [Hd3 Hf3].
    split; congruence.
  - exists (t1 ++ t2). rewrite E2, E1, app_assoc. reflexivity.
Qed.

(** A change that touches neither the flag, nor the fork counter, nor the
    trace except by appending. *)
Lemma after_same (s s' : state) (t : list Effect) :
  disposed s' = disposed s -> forks s' = forks s -> trace s' = trace s ++ t ->
  after s s'.
Proof. intros Hd Hf Ht. split; [intro; split; congruence|]. exists t. exact Ht. Qed.

Lemma after_ensureProcessStarted (s : state) : after s (snd (ensureProcessStarted s)).
Proof.
  destruct (disposed s) eqn:Ed.
  - rewrite (ensureProcessStarted_disposed Ed). apply after_refl.
  - split; [congruence|]. unfold ensureProcessStarted. rewrite Ed.
    destruct (startPromise s); [exists []; symmetry; apply app_nil_r|].
    unfold startProcess. destruct (fork (forks s)) as [send|m]; cbn.
    + destruct send; cbn; [eexists; reflexivity|].
      rewrite <- app_assoc. eexists. reflexivity.
    + eexists. reflexivity.
Qed.

Lemma after_sendRaw (k : cont) (command : string) (args : json) (s : state) :
  after s (sendRawTsServerRequest k command args s).
Proof.
  apply (after_trans (after_ensureProcessStarted s)).
  destruct (sendRaw_cases k command args s)
    as [(m & _ & ->)|[(_ & _ & ->)|(_ & pid & _ & ->)]].
  - apply (@after_same _ _ []); try reflexivity. symmetry. apply app_nil_r.
  - apply (@after_same _ _ []); try reflexivity. symmetry. apply app_nil_r.
  - eapply after_same; reflexivity.
Qed.

Lemma after_syncOpenDocument_then (fileName : string) (caller : nat)
      (call : Requests.Call) (s : state) :
  after s (syncOpenDocument_then fileName caller call s).
Proof.
  unfold syncOpenDocument_then.
  destruct (JsMap.get _ _ (documents s)) as [document|].
  - destruct (option_Z_eqb _ _); apply after_sendRaw.
  - destruct (negb _); apply after_sendRaw.
Qed.

Lemma after_sendTsServerRequest (caller : nat) (call : Requests.Call) (s : state) :
  after s (sendTsServerRequest caller call s).
Proof.
  unfold sendTsServerRequest.
  destruct (fileNameFromTsServerArgs _) as [fileName|]; [|apply after_sendRaw].
  destruct (fileName =? ""); [apply after_sendRaw|apply after_syncOpenDocument_then].
Qed.

Lemma after_dispose_finish (caller : nat) (s : state) :
  after s (dispose_finish caller s).
Proof.
  unfold dispose_finish. cbn [Correlator.flush]. rewrite resolve_all_eq.
  destruct (running _); cbn.
  - eapply after_same; try reflexivity. cbn. rewrite <- app_assoc. reflexivity.
  - eapply after_same; reflexivity.
Qed.

Lemma after_dispose (caller : nat) (s : state) : after s (dispose caller s).
Proof.
  unfold dispose.
  assert (H0 : after s (set_openDocumentVersions [] (set_disposed true s))).
  { split; [intro; split; reflexivity|]. exists []. symmetry. apply app_nil_r. }
  apply (after_trans H0).
  destruct (JsMap.keys _); [apply after_dispose_finish|apply after_sendRaw].
Qed.

Lemma after_resume (k : cont) (o : Outcome json) (s : state) :
  after s (resume k o s).
Proof.
  destruct k, o; cbn [resume];
    try (eapply after_same; reflexivity).
  - eapply after_trans; [|apply after_sendRaw].
    apply (@after_same _ _ []); try reflexivity. symmetry. apply app_nil_r.
  - eapply after_trans; [|apply after_sendRaw].
    apply (@after_same _ _ []); try reflexivity. symmetry. apply app_nil_r.
  - apply after_dispose_finish.
Qed.

Lemma after_drain (fuel : nat) (s : state) : after s (drain fuel s).
Proof.
  revert s. induction fuel as [|fuel IH]; intro s; [apply after_refl|].
  cbn [drain]. destruct (microtasks s) as [|[k o] rest]; [apply after_refl|].
  eapply after_trans; [|apply IH].
  eapply after_trans; [|apply after_resume].
  apply (@after_same _ _ []); try reflexivity. symmetry. apply app_nil_r.
Qed.

Lemma after_settled (k : cont) (o : Outcome json) (c : Correlator.t cont) (s : state) :
  after s (enqueue k o (set_corr c s)).
Proof. apply (@after_same _ _ []); try reflexivity. symmetry. apply app_nil_r. Qed.

Lemma after_run_timers (ids : list nat) (s : state) : after s (run_timers ids s).
Proof.
  revert s. induction ids as [|id rest IH]; intro s; [apply after_refl|].
  cbn [run_timers].
  destruct (Correlator.fire id (corr s)) as [[k c]|]; [|apply IH].
  eapply after_trans; [|apply IH].
  eapply after_trans; [apply after_settled|apply after_drain].
Qed.

Lemma after_onExit (code : option Z) (signal : option string) (s : state) :
  after s (onExit code signal s).
Proof.
  unfold onExit. cbn [Correlator.flush]. rewrite resolve_all_eq.
  destruct (disposed s) eqn:Ed; cbn [negb].
  - apply (@after_same _ _ []); try reflexivity. symmetry. apply app_nil_r.
  - split; [congruence|]. cbn. eexists. reflexivity.
Qed.

Lemma after_handle (s : state) (e : event) : after s (handle s e).
Proof.
  destruct e; cbn [handle].
  - apply after_sendTsServerRequest.
  - unfold warmup. pose proof (after_ensureProcessStarted s) as H0.
    destruct (ensureProcessStarted s) as [[u|m] s1]; cbn [snd] in H0;
      (eapply after_trans; [exact H0|]); eapply after_same; reflexivity.
  - apply after_dispose.
  - destruct (JsMap.get _ _ _) as [child|]; [|apply after_refl].
    destruct (has_send child); [|apply after_refl].
    unfold handleTsServerMessage.
    destruct message; try apply after_refl.
    destruct (field "type" _); try apply after_refl.
    destruct (negb _); [apply after_refl|].
    destruct (field "request_seq" _); try apply after_refl.
    destruct (n <? 0)%Z; [apply after_refl|].
    destruct (Correlator.settle _ _ _ _) as [[k c]|]; [|apply after_refl].
    apply after_settled.
  - unfold onSendError.
    destruct (Correlator.settle _ _ _ _) as [[k c]|]; [|apply after_refl].
    apply after_settled.
  - destruct (JsMap.get _ _ _); [|apply after_refl].
    apply (@after_same _ _ []); try reflexivity. symmetry. apply app_nil_r.
  - destruct (JsMap.get _ _ _) as [child|]; [|apply after_refl].
    destruct (_ || _); [apply after_refl|].
    eapply after_trans; [|apply after_onExit].
    apply (@after_same _ _ []); try reflexivity. symmetry. apply app_nil_r.
  - eapply after_trans; [|apply after_run_timers].
    apply (@after_same _ _ []); try reflexivity. symmetry. apply app_nil_r.
  - apply (@after_same _ _ []); try reflexivity. symmetry. apply app_nil_r.
  - apply (@after_same _ _ []); try reflexivity. symmetry. apply app_nil_r.
Qed.

Lemma after_step (s : state) (e : event) : after s (step s e).
Proof. eapply after_trans; [apply after_handle|apply after_drain]. Qed.

Lemma after_run (events : list event) (s : state) : after s (run events s).
Proof.
  revert s. induction events as [|e events IH]; intro s; [apply after_refl|].
  cbn. eapply after_trans; [apply after_step|apply IH].
Qed.

(** A response of tsserver to request [rid], as it arrives over IPC. *)
Definition response_message (rid : nat) (success : bool) (body : json) : json :=
  JObj [("seq", JNum 0); ("type", JStr "response");
        ("request_seq", JNum (Z.of_nat rid)); ("success", JBool success);
        ("body", body)].




(** ** Disposal is final *)

Lemma dispose_resolved_mono (s s' : state) :
  after s s' -> dispose_resolved (trace s) = true -> dispose_resolved (trace s') = true.
Proof.
  intros [_ (t & ->)] Hr. rewrite dispose_resolved_app, Hr. reflexivity.
Qed.

(** C10.  Once a [dispose()] of the spawned tsserver client has resolved,
    the client is disposed and idle, without process handle, start promise
    or pending entry.  Every later request is answered at once with what
    its method makes of [null], which is [undefined] for
    [getQuickInfoAtPosition] and [null] for the others; it forks nothing
    and sends nothing, but its [syncOpenDocument] still keeps the
    bookkeeping of open documents.  Disposing again resolves at once and
    changes nothing but that bookkeeping, which it empties: when the
    bookkeeping is empty the state is as before, when it is not the state
    has changed.  Whatever happens later, the client stays down and no
    process is forked. *)
Theorem disposed_client_stays_down (ms : option Z) (events : list event) :
  let s := run events (create ms) in
  dispose_resolved (trace s) = true ->
  Disposed s
  /\ (forall caller call,
        Requests.post call JNull
        = match call with
          | Requests.getQuickInfoAtPosition _ _ _ => JUndefined
          | _ => JNull
          end
        /\ step s (Call caller call)
           = emit (Settled caller (Ok (Requests.post call JNull)))
                  (set_openDocumentVersions (table_after_sync call s) s))
  /\ (forall caller,
        step s (Dispose caller)
        = emit (DisposeResolved caller) (set_openDocumentVersions [] s)
        /\ (openDocumentVersions s = [] ->
            step s (Dispose caller) = emit (DisposeResolved caller) s)
        /\ (openDocumentVersions s <> [] ->
            openDocumentVersions (step s (Dispose caller)) <> openDocumentVersions s))
  /\ (forall more, Disposed (run more s) /\ forks (run more s) = forks s).
Proof.
  intros s Hr. pose proof (Disposed_after_dispose Hr) as D. fold s in D.
  split; [exact D|]. split; [|split].
  - intros caller call. split; [destruct call; reflexivity|].
    apply step_Call_Disposed, D.
  - intro caller. rewrite (step_Dispose_Disposed caller D).
    split; [reflexivity|]. split.
    + intro He. rewrite <- He. destruct s; reflexivity.
    + intros Hne He. apply Hne. cbn in He. symmetry. exact He.
  - intro more. pose proof (after_run more s) as Ha. split.
    + unfold s, run. rewrite <- fold_left_app.
      apply Disposed_after_dispose. unfold run. rewrite fold_left_app.
      apply (dispose_resolved_mono Ha Hr).
    + apply (proj1 Ha). apply D.
Qed.

(** ** The process exits *)

(** The warning of the ['exit'] listener. *)
Definition exit_warning (code : option Z) (signal : option string) : Effect :=
  Warn ("[vue-ls][tsserver-fallback] process exited unexpectedly (code="
          ++ show_code code ++ ", signal=" ++ show_signal signal ++ ")")%string.

(** C5.  When the tsserver process exits, the ['exit'] listener resolves
    every pending request with [null] and hands that [null] to the code
    awaiting it, empties the pending table, and clears the process handle
    and the start promise.  If the client is not disposed it logs exactly
    one warning, and the next [ensureProcessStarted] forks a new process,
    which, forked with its IPC channel, becomes the current usable one.  If
    the client is disposed nothing is logged. *)
Theorem unexpected_exit_resets_client (code : option Z) (signal : option string)
        (s : state) :
  let s' := onExit code signal s in
  (forall rid p, Correlator.get rid (corr s) = Some p ->
     Correlator.resolved_with rid JNull (Correlator.history (corr s'))
     /\ Correlator.deleted_by rid Correlator.by_exit (Correlator.history (corr s'))
     /\ In (Correlator.resolve p, Ok JNull) (microtasks s'))
  /\ Correlator.requestHandlers (corr s') = []
  /\ tsserverProcess s' = None /\ startPromise s' = None
  /\ (disposed s = false ->
        trace s' = trace s ++ [exit_warning code signal]
        /\ (exists t, trace (snd (ensureProcessStarted s'))
                      = trace s' ++ Fork (forks s) :: t)
        /\ (fork (forks s) = Forked true ->
              fst (ensureProcessStarted s') = Ok tt
              /\ tsserverProcess (snd (ensureProcessStarted s')) = Some (forks s)
              /\ usable (snd (ensureProcessStarted s')) = Some (forks s)))
  /\ (disposed s = true -> trace s' = trace s).
Proof.
  cbn zeta. unfold onExit. cbn [Correlator.flush]. rewrite resolve_all_eq.
  split; [|split; [|split; [|split; [|split]]]].
  - intros rid p Hp. apply (JsMap.get_In Nat.eqb_eq) in Hp.
    destruct (disposed s); cbn [negb];
      cbn [corr microtasks set_microtasks set_corr set_startPromise
           set_tsserverProcess emit Correlator.history Correlator.requestHandlers].
    + unfold Correlator.resolved_with, Correlator.deleted_by.
      rewrite !in_app_iff, !in_map_iff. repeat split.
      * right. left. exists (rid, p). auto.
      * right. right. exists (rid, p). auto.
      * right. exists (Correlator.resolve p). split; [reflexivity|].
        apply in_map_iff. exists (rid, p). auto.
    + unfold Correlator.resolved_with, Correlator.deleted_by.
      rewrite !in_app_iff, !in_map_iff. repeat split.
      * right. left. exists (rid, p). auto.
      * right. right. exists (rid, p). auto.
      * right. exists (Correlator.resolve p). split; [reflexivity|].
        apply in_map_iff. exists (rid, p). auto.
  - reflexivity.
  - destruct (disposed s); reflexivity.
  - destruct (disposed s); reflexivity.
  - intro Hd. rewrite Hd. cbn [negb]. split; [reflexivity|].
    unfold ensureProcessStarted, startProcess. cbn. rewrite Hd.
    destruct (fork (forks s)) as [send|m] eqn:Ef.
    + destruct send; cbn.
      * split; [exists []; reflexivity|]. intros _. repeat split.
        unfold usable. cbn. rewrite (JsMap.get_set_same Nat.eqb_eq). reflexivity.
      * split; [|discriminate]. rewrite <- app_assoc. eexists. reflexivity.
    + cbn. split; [exists []; reflexivity|discriminate].
  - intro Hd. rewrite Hd. reflexivity.
Qed.

(** ** A request that is never answered *)

Definition now (s : state) : Z := Timers.now (Correlator.timers (corr s)).
Definition history (s : state) : list Correlator.Ghost := Correlator.history (corr s).

Section Unanswered.
(** The entry [rid] of the pending table, and its timer. *)
Variable rid : nat.
Variable p : Correlator.pending cont.
Variable x : Timers.timer (nat * cont).

Definition entry_waits (s : state) : Prop :=
  Correlator.get rid (corr s) = Some p
  /\ Timers.find (Correlator.timer p) (Correlator.timers (corr s)) = Some x.












(** The request a message from tsserver answers, if it is a response. *)
Definition answers (message : json) : option nat :=
  match message with
  | JObj _ =>
      match field "type" message with
      | JStr type =>
          if negb (type =? "response") then None
          else match field "request_seq" message with
               | JNum requestId =>
                   if (requestId <? 0)%Z then None else Some (Z.to_nat requestId)
               | _ => None
               end
      | _ => None
      end
  | _ => None
  end.




(** Events that do not answer request [rid], do not fail its send, and do
    not tear the client or its process down. *)
Definition quiet_for (e : event) : bool :=
  match e with
  | Message _ message =>
      match answers message with
      | Some id => negb (id =? rid)%nat
      | None => true
      end
  | SendFailed requestId => negb (requestId =? rid)%nat
  | Dispose _ | Exit _ _ _ => false
  | Call _ _ | Warmup _ | Disconnect _ | Advance _ | DocumentSet _
  | DocumentRemoved _ => true
  end.

Lemma G_tick (d : Z) (s : state) :
  G s -> G (set_corr (Correlator.tick d (corr s)) s).
Proof.
  intro g. constructor.
  - unfold CInv. cbn. apply Correlator.Inv_tick, g.
  - intros k Ha Hk. apply (g_await g (k := k)); assumption.
  - intro Hr. destruct (g_down g Hr) as (H1 & H2 & H3 & H4).
    repeat split; assumption.
Qed.










End Unanswered.

(** A request that is written to the process is pending, with a timer set
    to the request timeout of the client. *)
Lemma registered_entry_waits (k : cont) (command : string) (args : json) (s : state) :
  CInv s ->
  fst (ensureProcessStarted s) = Ok tt ->
  usable (snd (ensureProcessStarted s)) <> None ->
  let s' := sendRawTsServerRequest k command args s in
  exists p x,
    entry_waits (S (Correlator.requestId (corr s))) p x s'
    /\ Correlator.resolve p = k
    /\ Timers.deadline x
       = (now s + Timers.effective_delay (Correlator.requestTimeoutMs (corr s)))%Z.
Proof.
  intros I Hok Hu. cbn zeta.
  pose proof (ensureProcessStarted_frame s) as (Hc & _). cbn zeta in Hc.
  destruct (sendRaw_cases k command args s)
    as [(m & Hm & _)|[(_ & Hn & _)|(_ & pid & _ & ->)]]; [congruence|contradiction|].
  unfold entry_waits, now. cbn [corr emit set_corr]. rewrite Hc.
  pose proof (Correlator.get_register k (corr s) (S (Correlator.requestId (corr s))))
    as Hg.
  pose proof (Correlator.timers_register k (corr s)) as Ht.
  rewrite Nat.eqb_refl in Hg.
  eexists. eexists. split; [split; [exact Hg|]|split; [reflexivity|]].
  - cbn [Correlator.timer]. rewrite Ht.
    apply Timers.find_setTimeout_new. apply (Correlator.inv_wf I).
  - reflexivity.
Qed.

(** ** A process that cannot be started *)

(** The caller whose request a continuation belongs to. *)
Definition caller_of (k : cont) : nat :=
  match k with
  | KCaller caller _ | KSyncOpened _ _ caller _ | KSyncClosed _ caller _
  | KDispose caller => caller
  end.

Lemma drain_nil (fuel : nat) (s : state) : microtasks s = [] -> drain fuel s = s.
Proof. intro E. destruct fuel; cbn [drain]; [reflexivity|]. rewrite E. reflexivity. Qed.

(** [startProcess] throws, so [ensureProcessStarted] throws, so the request
    throws: nothing between the fork and the caller catches. *)
Lemma sendRaw_start_failure (k : cont) (command : string) (args : json)
      (s : state) (message : string) :
  disposed s = false -> startPromise s = None -> microtasks s = [] ->
  fst (startProcess s) = Throw message ->
  settle_microtasks (sendRawTsServerRequest k command args s)
  = emit (Settled (caller_of k) (Throw message))
         (set_startPromise None (snd (startProcess s))).
Proof.
  intros Hd Hp Hm Hs.
  pose proof (startProcess_frame s) as (_ & Hq & _). cbn zeta in Hq.
  unfold sendRawTsServerRequest, ensureProcessStarted. rewrite Hd, Hp.
  destruct (startProcess s) as [[u|m] s1]; cbn [fst snd] in *; [discriminate|].
  inversion Hs; subst m.
  unfold settle_microtasks.
  set (q := enqueue k (Throw message) (set_startPromise None s1)).
  assert (Hq' : microtasks q = [(k, Throw message)]).
  { unfold q, enqueue. cbn. rewrite Hq, Hm. reflexivity. }
  assert (Hw : (1 <= weight q)%nat).
  { rewrite weight_eq, Hq'. unfold queue_weight. cbn [map list_sum fst fold_right].
    pose proof (weight_of_pos k). lia. }
  destruct (weight q) as [|fuel]; [lia|].
  cbn [drain]. rewrite Hq'.
  rewrite drain_nil.
  - destruct k; cbn [resume caller_of]; unfold q, enqueue, emit; cbn;
      rewrite ?Hq, ?Hm; reflexivity.
  - destruct k; reflexivity.
Qed.

(** The same for a call of the request surface, whichever way it takes
    through [syncOpenDocument]. *)
Lemma start_failure_rejects_call (caller : nat) (call : Requests.Call)
      (s : state) (message : string) :
  disposed s = false -> startPromise s = None -> microtasks s = [] ->
  fst (startProcess s) = Throw message ->
  step s (Call caller call)
  = emit (Settled caller (Throw message))
         (set_startPromise None (snd (startProcess s))).
Proof.
  intros Hd Hp Hm Hs. unfold step. cbn [handle].
  unfold sendTsServerRequest, syncOpenDocument_then. cbn zeta.
  repeat match goal with
         | |- context [match ?x with _ => _ end] =>
             lazymatch x with
             | context [sendRawTsServerRequest] => fail
             | _ => destruct x
             end
         end;
    rewrite (sendRaw_start_failure _ _ _ Hd Hp Hm Hs); reflexivity.
Qed.

(** ** Every caller is answered once *)

Section Answered.

(** The caller that is watched. *)
Variable c : nat.

(** The answers the caller has received: a settled request or warmup, or a
    resolved [dispose()]. *)
Definition is_answer (e : Effect) : bool :=
  match e with
  | Settled caller _ | DisposeResolved caller => (caller =? c)%nat
  | _ => false
  end.

Definition answered (t : list Effect) : nat := length (filter is_answer t).

(** The code of the caller that is suspended: in the pending table, waiting
    for a request in flight, or in the microtask queue. *)
Definition holds (k : cont) : nat := if (caller_of k =? c)%nat then 1 else 0.

Definition held_in_table (m : JsMap.t nat (Correlator.pending cont)) : nat :=
  list_sum (map (fun kv => holds (Correlator.resolve (snd kv))) m).

Definition held_in_queue (q : list (cont * Outcome json)) : nat :=
  list_sum (map (fun ko => holds (fst ko)) q).

Definition owed (s : state) : nat :=
  (answered (trace s)
   + held_in_table (Correlator.requestHandlers (corr s))
   + held_in_queue (microtasks s))%nat.

(** The calls the caller has made. *)
Definition is_call_of (e : event) : bool :=
  match e with
  | Call caller _ | Warmup caller | Dispose caller => (caller =? c)%nat
  | _ => false
  end.

Definition issued (events : list event) : nat := length (filter is_call_of events).

Definition one_if (b : bool) : nat := if b then 1 else 0.

Lemma answered_app (a b : list Effect) :
  answered (a ++ b) = (answered a + answered b)%nat.
Proof. unfold answered. now rewrite filter_app, length_app. Qed.

Lemma held_in_queue_app (q1 q2 : list (cont * Outcome json)) :
  held_in_queue (q1 ++ q2) = (held_in_queue q1 + held_in_queue q2)%nat.
Proof. unfold held_in_queue. now rewrite map_app, list_sum_app. Qed.

Lemma held_in_table_app (m1 m2 : JsMap.t nat (Correlator.pending cont)) :
  held_in_table (m1 ++ m2) = (held_in_table m1 + held_in_table m2)%nat.
Proof. unfold held_in_table. now rewrite map_app, list_sum_app. Qed.

Lemma held_in_table_delete (rid : nat) (p : Correlator.pending cont)
      (m : JsMap.t nat (Correlator.pending cont)) :
  NoDup (JsMap.keys m) -> JsMap.get Nat.eqb rid m = Some p ->
  (held_in_table (JsMap.delete Nat.eqb rid m) + holds (Correlator.resolve p))%nat
  = held_in_table m.
Proof.
  unfold held_in_table, JsMap.delete.
  induction m as [|[k' v'] m IH]; cbn [JsMap.get JsMap.keys map filter fst snd];
    [discriminate|].
  intros Hnd Hg. inversion Hnd as [|? ? Hn Hnd']; subst.
  destruct (k' =? rid)%nat eqn:E; cbn [negb map list_sum fold_right snd].
  - injection Hg as ->. apply Nat.eqb_eq in E. subst k'.
    assert (Hf : filter (fun kv : nat * Correlator.pending cont =>
                           negb (fst kv =? rid)%nat) m = m).
    { apply forallb_filter_id. apply forallb_forall. intros [k v] Hin. cbn [fst].
      apply negb_true_iff, Nat.eqb_neq. intros ->. apply Hn.
      change rid with (fst (rid, v)). now apply in_map. }
    rewrite Hf. cbn [list_sum fold_right]. lia.
  - specialize (IH Hnd' Hg). unfold list_sum in *. cbn [fold_right].
    rewrite <- IH. lia.
Qed.

Lemma startProcess_answered (s : state) :
  answered (trace (snd (startProcess s))) = answered (trace s).
Proof.
  unfold startProcess. destruct (fork (forks s)) as [send|m]; cbn [snd].
  - destruct send; cbn [negb snd trace emit set_processes set_forks set_tsserverProcess];
      rewrite ?answered_app; cbn; lia.
  - cbn [trace emit set_forks]. rewrite answered_app. cbn. lia.
Qed.

Lemma owed_ensureProcessStarted (s : state) :
  owed (snd (ensureProcessStarted s)) = owed s.
Proof.
  pose proof (ensureProcessStarted_frame s) as (Hc & Hm & _). cbn zeta in Hc, Hm.
  unfold owed. rewrite Hc, Hm. f_equal. f_equal.
  unfold ensureProcessStarted.
  destruct (disposed s); [reflexivity|].
  destruct (startPromise s); [reflexivity|].
  pose proof (startProcess_answered s) as Ht.
  destruct (startProcess s) as [[u|m] s']; cbn in *; exact Ht.
Qed.

Lemma owed_enqueue (k : cont) (o : Outcome json) (s : state) :
  owed (enqueue k o s) = (owed s + holds k)%nat.
Proof.
  unfold owed, enqueue. cbn [trace corr microtasks set_microtasks].
  rewrite held_in_queue_app. unfold held_in_queue at 2. cbn. lia.
Qed.

Lemma owed_emit (e : Effect) (s : state) :
  owed (emit e s) = (owed s + one_if (is_answer e))%nat.
Proof.
  unfold owed, emit. cbn [trace corr microtasks].
  rewrite answered_app. unfold answered at 2. cbn [filter].
  destruct (is_answer e); cbn; lia.
Qed.

Lemma owed_sendRaw (k : cont) (command : string) (args : json) (s : state) :
  CInv s ->
  owed (sendRawTsServerRequest k command args s) = (owed s + holds k)%nat.
Proof.
  intros I. pose proof (owed_ensureProcessStarted s) as Ho.
  pose proof (ensureProcessStarted_frame s) as (Hc & _). cbn zeta in Hc.
  destruct (sendRaw_cases k command args s)
    as [(m & _ & ->)|[(_ & _ & ->)|(_ & pid & _ & ->)]].
  - rewrite owed_enqueue, Ho. reflexivity.
  - rewrite owed_enqueue, Ho. reflexivity.
  - rewrite owed_emit. cbn [is_answer one_if]. rewrite <- Ho.
    unfold owed. cbn [trace corr microtasks set_corr].
    rewrite Correlator.handlers_register.
    assert (Hfresh : JsMap.get Nat.eqb
                       (S (Correlator.requestId (corr (snd (ensureProcessStarted s)))))
                       (Correlator.requestHandlers (corr (snd (ensureProcessStarted s))))
                     = None).
    { apply Correlator.fresh_id. rewrite Hc. exact I. }
    rewrite (JsMap.keys_set_fresh _ Hfresh), held_in_table_app.
    unfold held_in_table at 2. cbn. lia.
Qed.

Lemma owed_set_openDocumentVersions (x : JsMap.t string Z) (s : state) :
  owed (set_openDocumentVersions x s) = owed s.
Proof. reflexivity. Qed.

Lemma owed_sendTsServerRequest (caller : nat) (call : Requests.Call) (s : state) :
  CInv s ->
  owed (sendTsServerRequest caller call s) = (owed s + one_if (caller =? c)%nat)%nat.
Proof.
  intros I. unfold sendTsServerRequest, syncOpenDocument_then. cbn zeta.
  repeat match goal with
         | |- context [match ?x with _ => _ end] =>
             lazymatch x with
             | context [sendRawTsServerRequest] => fail
             | _ => destruct x
             end
         end;
    rewrite (owed_sendRaw _ _ _ I); reflexivity.
Qed.

Lemma owed_flushed (cause : Correlator.Cause) (v : json) (s : state) :
  owed (resolve_all (fst (Correlator.flush cause v (corr s))) v
                    (set_corr (snd (Correlator.flush cause v (corr s))) s))
  = owed s.
Proof.
  rewrite resolve_all_eq. unfold owed.
  cbn [trace corr microtasks set_microtasks set_corr Correlator.flush fst snd
       Correlator.requestHandlers].
  rewrite held_in_queue_app. unfold held_in_queue at 2, held_in_table.
  rewrite !map_map. cbn [fst list_sum map fold_right]. lia.
Qed.

Lemma owed_frame (s s' : state) :
  trace s' = trace s -> corr s' = corr s -> microtasks s' = microtasks s ->
  owed s' = owed s.
Proof. unfold owed. intros -> -> ->. reflexivity. Qed.

Lemma owed_dispose_finish (caller : nat) (s : state) :
  owed (dispose_finish caller s) = (owed s + one_if (caller =? c)%nat)%nat.
Proof.
  unfold dispose_finish.
  pose proof (owed_flushed Correlator.by_dispose JUndefined s) as Hf.
  destruct (Correlator.flush _ _ (corr s)) as [ks c']. cbn [fst snd] in Hf.
  rewrite owed_emit. cbn [is_answer]. f_equal.
  rewrite <- Hf.
  destruct (running _); [|reflexivity].
  transitivity (owed (emit (Kill n) (resolve_all ks JUndefined (set_corr c' s))));
    [reflexivity|].
  rewrite owed_emit. cbn. lia.
Qed.

Lemma owed_dispose (caller : nat) (s : state) :
  CInv s -> owed (dispose caller s) = (owed s + one_if (caller =? c)%nat)%nat.
Proof.
  intro I. unfold dispose.
  destruct (JsMap.keys _).
  - rewrite owed_dispose_finish. reflexivity.
  - rewrite owed_sendRaw by exact I. reflexivity.
Qed.

Lemma owed_warmup (caller : nat) (s : state) :
  owed (warmup caller s) = (owed s + one_if (caller =? c)%nat)%nat.
Proof.
  unfold warmup. pose proof (owed_ensureProcessStarted s) as Ho.
  destruct (ensureProcessStarted s) as [[u|m] s1]; cbn [snd] in Ho;
    rewrite owed_emit, Ho; reflexivity.
Qed.

Lemma owed_resume (k : cont) (o : Outcome json) (s : state) :
  CInv s -> owed (resume k o s) = (owed s + holds k)%nat.
Proof.
  intro I. destruct k, o; cbn [resume];
    rewrite ?owed_emit, ?owed_dispose_finish; try reflexivity;
    rewrite owed_sendRaw by exact I; reflexivity.
Qed.

Lemma owed_pop (k : cont) (o : Outcome json) (rest : list (cont * Outcome json))
      (s : state) :
  microtasks s = (k, o) :: rest ->
  (owed (set_microtasks rest s) + holds k)%nat = owed s.
Proof.
  intro E. unfold owed. cbn [trace corr microtasks set_microtasks]. rewrite E.
  unfold held_in_queue, list_sum. cbn [map fold_right fst]. lia.
Qed.

Lemma owed_drain (fuel : nat) (s : state) : CInv s -> owed (drain fuel s) = owed s.
Proof.
  revert s. induction fuel as [|fuel IH]; intros s I; [reflexivity|].
  cbn [drain]. destruct (microtasks s) as [|[k o] rest] eqn:E; [reflexivity|].
  rewrite IH by (apply CInv_resume; exact I).
  rewrite owed_resume by exact I. exact (owed_pop E).
Qed.

Lemma owed_settled (rid : nat) (cause : Correlator.Cause) (v : json) (s : state)
      (k : cont) (c' : Correlator.t cont) :
  CInv s -> Correlator.settle rid cause v (corr s) = Some (k, c') ->
  owed (enqueue k (Ok v) (set_corr c' s)) = owed s.
Proof.
  intros I E. unfold Correlator.settle in E.
  destruct (Correlator.get rid (corr s)) as [p|] eqn:Ep; [|discriminate].
  injection E as <- <-. rewrite owed_enqueue.
  unfold owed. cbn [trace corr microtasks set_corr Correlator.requestHandlers].
  pose proof (held_in_table_delete (Correlator.inv_nodup I) Ep). lia.
Qed.

Lemma owed_handleTsServerMessage (message : json) (s : state) :
  CInv s -> owed (handleTsServerMessage message s) = owed s.
Proof.
  intro I. unfold handleTsServerMessage.
  destruct message; try reflexivity.
  destruct (field "type" _); try reflexivity.
  destruct (negb _); [reflexivity|].
  destruct (field "request_seq" _); try reflexivity.
  destruct (n <? 0)%Z; [reflexivity|].
  destruct (Correlator.settle _ _ _ _) as [[k c']|] eqn:E; [|reflexivity].
  exact (owed_settled I E).
Qed.

Lemma owed_onSendError (requestId : nat) (s : state) :
  CInv s -> owed (onSendError requestId s) = owed s.
Proof.
  intro I. unfold onSendError.
  destruct (Correlator.settle _ _ _ _) as [[k c']|] eqn:E; [|reflexivity].
  exact (owed_settled I E).
Qed.

Lemma owed_onExit (code : option Z) (signal : option string) (s : state) :
  owed (onExit code signal s) = owed s.
Proof.
  unfold onExit.
  set (s2 := set_startPromise None _).
  assert (H2 : owed s2 = owed s).
  { unfold s2. destruct (negb (disposed s)); [|reflexivity].
    transitivity (owed (emit (Warn ("[vue-ls][tsserver-fallback] process exited unexpectedly (code="
                       ++ show_code code ++ ", signal=" ++ show_signal signal ++ ")")%string) s));
      [reflexivity|].
    rewrite owed_emit. cbn. lia. }
  pose proof (owed_flushed Correlator.by_exit JNull s2) as Hf.
  destruct (Correlator.flush _ _ (corr s2)) as [ks c']. cbn [fst snd] in Hf.
  now rewrite Hf.
Qed.

Lemma owed_run_timers (ids : list nat) (s : state) :
  CInv s -> owed (run_timers ids s) = owed s.
Proof.
  revert s. induction ids as [|id rest IH]; intros s I; [reflexivity|].
  cbn [run_timers].
  destruct (Correlator.fire id (corr s)) as [[k c']|] eqn:E; [|apply IH, I].
  assert (I1 : CInv (enqueue k (Ok JNull) (set_corr c' s)))
    by (unfold CInv; cbn; exact (Correlator.Inv_fire I E)).
  rewrite IH by (apply CInv_drain; exact I1).
  unfold settle_microtasks. rewrite owed_drain by exact I1.
  destruct (Correlator.fire_is_settle I E) as [rid Hs].
  exact (owed_settled I Hs).
Qed.

Lemma owed_handle (s : state) (e : event) :
  CInv s -> owed (handle s e) = (owed s + one_if (is_call_of e))%nat.
Proof.
  intro I. destruct e; cbn [handle is_call_of one_if].
  - apply owed_sendTsServerRequest, I.
  - apply owed_warmup.
  - apply owed_dispose, I.
  - rewrite Nat.add_0_r. destruct (JsMap.get _ _ _) as [child|]; [|reflexivity].
    destruct (has_send child); [apply owed_handleTsServerMessage, I|reflexivity].
  - rewrite Nat.add_0_r. apply owed_onSendError, I.
  - rewrite Nat.add_0_r. destruct (JsMap.get _ _ _); reflexivity.
  - rewrite Nat.add_0_r. destruct (JsMap.get _ _ _) as [child|]; [|reflexivity].
    destruct (_ || _); [reflexivity|]. rewrite owed_onExit. reflexivity.
  - rewrite Nat.add_0_r. rewrite owed_run_timers.
    + reflexivity.
    + unfold CInv. cbn. apply Correlator.Inv_tick, I.
  - rewrite Nat.add_0_r. reflexivity.
  - rewrite Nat.add_0_r. reflexivity.
Qed.

Lemma owed_step (s : state) (e : event) :
  CInv s -> owed (step s e) = (owed s + one_if (is_call_of e))%nat.
Proof.
  intro I. unfold step, settle_microtasks.
  rewrite owed_drain by (apply CInv_handle; exact I). apply owed_handle, I.
Qed.

Lemma owed_run (events : list event) (s : state) :
  CInv s -> owed (run events s) = (owed s + issued events)%nat.
Proof.
  revert s. induction events as [|e events IH]; intros s I.
  - cbn. lia.
  - cbn [run fold_left]. fold (run events (step s e)).
    rewrite IH by (apply CInv_step; exact I).
    rewrite owed_step by exact I.
    unfold issued. cbn [filter]. destruct (is_call_of e); cbn; lia.
Qed.

(** X10.  The spawned client answers every call exactly once: at any moment
    the answers a caller has received (requests and warmups settled,
    disposals resolved) and the requests in flight that its calls are
    suspended on add up to the calls it has made.  So no call is answered
    twice or dropped, and when no request is in flight every call has its
    answer. *)
Theorem every_call_is_answered_once (ms : option Z) (events : list event) :
  let s := run events (create ms) in
  (answered (trace s) + held_in_table (Correlator.requestHandlers (corr s)))%nat
  = issued events
  /\ microtasks s = []
  /\ (Correlator.requestHandlers (corr s) = [] -> answered (trace s) = issued events).
Proof.
  intros s.
  pose proof (owed_run events (CInv_create ms)) as H.
  pose proof (microtasks_run events ms) as Hm.
  fold s in H, Hm. unfold owed in H. rewrite Hm in H. cbn in H.
  split; [lia|]. split; [exact Hm|].
  intros He. rewrite He in H. cbn in H. lia.
Qed.

End Answered.

(** ** A failed start is not remembered *)

Lemma sendRaw_forks (k : cont) (command : string) (args : json) (s : state) :
  disposed s = false -> startPromise s = None ->
  exists t, trace (sendRawTsServerRequest k command args s)
            = trace s ++ Fork (forks s) :: t.
Proof.
  intros Hd Hp. unfold sendRawTsServerRequest, ensureProcessStarted, startProcess.
  rewrite Hd, Hp.
  destruct (fork (forks s)) as [send|m]; [destruct send|]; cbn [negb fst snd].
  - match goal with
    | |- context [usable ?x] => destruct (usable x) as [pid|]
    end.
    + destruct (Correlator.register _ _) as [rid c'].
      cbn [trace emit set_corr set_startPromise set_tsserverProcess set_processes
           set_forks]. rewrite <- app_assoc. eexists. reflexivity.
    + cbn [trace enqueue set_microtasks emit set_startPromise set_tsserverProcess
           set_processes set_forks]. eexists. reflexivity.
  - cbn [trace enqueue set_microtasks emit set_startPromise set_processes set_forks].
    rewrite <- app_assoc. eexists. reflexivity.
  - cbn [trace enqueue set_microtasks emit set_startPromise set_forks].
    eexists. reflexivity.
Qed.

Lemma call_forks (caller : nat) (call : Requests.Call) (s : state) :
  disposed s = false -> startPromise s = None ->
  exists t, trace (step s (Call caller call)) = trace s ++ Fork (forks s) :: t.
Proof.
  intros Hd Hp.
  assert (H : exists t, trace (sendTsServerRequest caller call s)
                        = trace s ++ Fork (forks s) :: t).
  { unfold sendTsServerRequest, syncOpenDocument_then. cbn zeta.
    repeat match goal with
           | |- context [match ?x with _ => _ end] =>
               lazymatch x with
               | context [sendRawTsServerRequest] => fail
               | _ => destruct x
               end
           end; apply sendRaw_forks; assumption. }
  destruct H as [t Ht].
  destruct (after_drain (weight (sendTsServerRequest caller call s))
                        (sendTsServerRequest caller call s)) as [_ [t' Ht']].
  exists (t ++ t'). unfold step, settle_microtasks. cbn [handle].
  rewrite Ht', Ht, <- app_assoc. reflexivity.
Qed.

(** X11.  A start of the tsserver process that fails (the fork throws, or
    the child has no IPC channel) rejects the call that asked for it with
    that error, registers nothing, and is not remembered: the very next call
    forks again. *)
Theorem failed_start_is_retried (caller caller' : nat) (call call' : Requests.Call)
        (s : state) (message : string) :
  disposed s = false -> startPromise s = None -> microtasks s = [] ->
  fst (startProcess s) = Throw message ->
  let s1 := step s (Call caller call) in
  trace s1 = trace (snd (startProcess s)) ++ [Settled caller (Throw message)]
  /\ corr s1 = corr s
  /\ startPromise s1 = None
  /\ tsserverProcess s1 = tsserverProcess s
  /\ exists t, trace (step s1 (Call caller' call'))
               = trace s1 ++ Fork (S (forks s)) :: t.
Proof.
  intros Hd Hp Hm Hs s1.
  pose proof (start_failure_rejects_call caller call Hd Hp Hm Hs) as E.
  fold s1 in E.
  pose proof (startProcess_frame s) as (Hc & _ & Hd' & _). cbn zeta in Hc, Hd'.
  assert (Hf : forks (snd (startProcess s)) = S (forks s)
               /\ tsserverProcess (snd (startProcess s)) = tsserverProcess s).
  { revert Hs. unfold startProcess.
    destruct (fork (forks s)) as [send|m]; [destruct send|]; cbn; intro Hs;
      [discriminate| |]; split; reflexivity. }
  destruct Hf as [Hf Ht].
  split; [rewrite E; reflexivity|].
  split; [rewrite E; exact Hc|].
  split; [rewrite E; reflexivity|].
  split; [rewrite E; exact Ht|].
  assert (Hd1 : disposed s1 = false) by (rewrite E; cbn; congruence).
  assert (Hp1 : startPromise s1 = None) by (rewrite E; reflexivity).
  destruct (call_forks caller' call' Hd1 Hp1) as [t Hx].
  exists t. rewrite Hx. rewrite E at 2. cbn [forks emit set_startPromise].
  rewrite Hf. reflexivity.
Qed.

(** ** What the exit of the process leaves behind *)

Lemma onExit_idle (code : option Z) (signal : option string) (s : state) :
  disposed s = false -> Correlator.requestHandlers (corr s) = [] ->
  onExit code signal s
  = set_corr (corr s)
      (set_startPromise None
         (set_tsserverProcess None (emit (exit_warning code signal) s))).
Proof.
  intros Hd He. unfold onExit. rewrite Hd. cbn [negb].
  cbn [corr set_startPromise set_tsserverProcess emit].
  rewrite (flush_empty _ _ He). reflexivity.
Qed.

(** X12.  The exit listener keeps the table of synchronised documents.
    When the process of an idle client exits and a request then names a file
    whose open document is still at the version recorded for it, the client
    forks a new process and sends it the request alone: no [updateOpen]
    tells the new process about the document. *)
Theorem respawn_keeps_sync_table (s : state) (pid : nat) (child : ChildProcess)
        (code : option Z) (signal : option string)
        (caller : nat) (call : Requests.Call)
        (fileName : string) (document : SyncedTextDocument) :
  disposed s = false ->
  microtasks s = [] ->
  Correlator.requestHandlers (corr s) = [] ->
  JsMap.get Nat.eqb pid (processes s) = Some child ->
  has_exited child = false -> has_send child = true ->
  fork (forks s) = Forked true ->
  fileNameFromTsServerArgs (Requests.arguments call) = Some fileName ->
  fileName <> "" ->
  JsMap.get String.eqb (URI_file (normalizeFileName fileName)) (documents s)
  = Some document ->
  JsMap.get String.eqb (normalizeFileName fileName) (openDocumentVersions s)
  = Some (version document) ->
  let s1 := step s (Exit pid code signal) in
  let s2 := step s1 (Call caller call) in
  openDocumentVersions s1 = openDocumentVersions s
  /\ trace s2
     = trace s
       ++ [exit_warning code signal;
           Fork (forks s);
           Send (forks s)
                (request_message (S (Correlator.requestId (corr s)))
                                 (Requests.command call) (Requests.arguments call))].
Proof.
  intros Hd Hm He Hg Hx Hsend Hfork Hfile Hne Hdoc Hver s1 s2.
  assert (E1' : s1 = set_corr (corr s)
                       (set_startPromise None
                          (set_tsserverProcess None
                             (emit (exit_warning code signal)
                                (set_processes
                                   (JsMap.set Nat.eqb pid
                                      {| connected := connected child;
                                         has_send := has_send child;
                                         exitCode := code; signalCode := signal |}
                                      (processes s)) s))))).
  { unfold s1, step. cbn [handle]. rewrite Hg.
    replace (has_exited child || negb (has_send child)) with false
      by (rewrite Hx, Hsend; reflexivity).
    rewrite onExit_idle by assumption.
    unfold settle_microtasks. apply drain_nil. exact Hm. }
  split; [rewrite E1'; reflexivity|].
  assert (Hcall : sendTsServerRequest caller call s1
                  = sendRawTsServerRequest (KCaller caller call)
                      (Requests.command call) (Requests.arguments call) s1).
  { unfold sendTsServerRequest. rewrite Hfile.
    destruct (fileName =? "") eqn:En; [apply String.eqb_eq in En; contradiction|].
    unfold syncOpenDocument_then.
    replace (documents s1) with (documents s) by (rewrite E1'; reflexivity).
    replace (openDocumentVersions s1) with (openDocumentVersions s)
      by (rewrite E1'; reflexivity).
    rewrite Hdoc, Hver. cbn [option_Z_eqb]. now rewrite Z.eqb_refl. }
  unfold s2, step. cbn [handle]. rewrite Hcall.
  assert (Hraw : sendRawTsServerRequest (KCaller caller call)
                   (Requests.command call) (Requests.arguments call) s1
                 = emit (Send (forks s)
                           (request_message (S (Correlator.requestId (corr s)))
                              (Requests.command call) (Requests.arguments call)))
                        (set_corr (snd (Correlator.register (KCaller caller call) (corr s)))
                           (set_startPromise (Some tt)
                              (set_tsserverProcess (Some (forks s))
                                 (set_processes
                                    (JsMap.set Nat.eqb (forks s)
                                       {| connected := true; has_send := true;
                                          exitCode := None; signalCode := None |}
                                       (processes s1))
                                    (emit (Fork (forks s)) (set_forks (S (forks s)) s1))))))).
  { unfold sendRawTsServerRequest, ensureProcessStarted, startProcess.
    replace (disposed s1) with false by (rewrite E1'; cbn; congruence).
    replace (startPromise s1) with (@None unit) by (rewrite E1'; reflexivity).
    replace (forks s1) with (forks s) by (rewrite E1'; reflexivity).
    rewrite Hfork. cbn [negb fst snd].
    unfold usable. cbn [tsserverProcess set_startPromise set_tsserverProcess processes
                        set_processes emit set_forks].
    rewrite (JsMap.get_set_same Nat.eqb_eq). cbn [connected has_send andb].
    cbn [corr set_startPromise set_tsserverProcess set_processes emit set_forks].
    replace (corr s1) with (corr s) by (rewrite E1'; reflexivity).
    rewrite (surjective_pairing (Correlator.register (KCaller caller call) (corr s))).
    reflexivity. }
  rewrite Hraw. unfold settle_microtasks. rewrite drain_nil.
  - cbn [trace emit set_corr set_startPromise set_tsserverProcess set_processes set_forks].
    rewrite E1'. cbn [trace emit set_corr set_startPromise set_tsserverProcess
                      set_processes set_forks].
    rewrite <- !app_assoc. reflexivity.
  - cbn [microtasks emit set_corr set_startPromise set_tsserverProcess set_processes
         set_forks]. rewrite E1'. exact Hm.
Qed.

(** ** No process is left behind *)

Definition is_kill (e : Effect) : bool :=
  match e with Kill _ => true | _ => false end.

(** Every child that has not exited is the current process or has been
    killed; with no start promise there is no current process; a child
    with an IPC channel is killed only by [dispose()]. *)
Record Tended (s : state) : Prop := {
  t_alive : forall pid child,
    JsMap.get Nat.eqb pid (processes s) = Some child -> has_exited child = false ->
    tsserverProcess s = Some pid /\ has_send child = true \/ In (Kill pid) (trace s);
  t_started : startPromise s = None -> tsserverProcess s = None;
  t_known : forall pid child,
    JsMap.get Nat.eqb pid (processes s) = Some child -> (pid < forks s)%nat;
  t_trace : forall pid, In (Kill pid) (trace s) -> (pid < forks s)%nat;
  t_killed : forall pid child,
    JsMap.get Nat.eqb pid (processes s) = Some child -> has_send child = true ->
    In (Kill pid) (trace s) -> disposed s = true /\ tsserverProcess s = None
}.

(** A step that touches neither the processes nor the flags, and kills
    nothing. *)
Definition calm (s s' : state) : Prop :=
  processes s' = processes s /\ tsserverProcess s' = tsserverProcess s
  /\ startPromise s' = startPromise s /\ forks s' = forks s
  /\ disposed s' = disposed s
  /\ exists t, trace s' = trace s ++ t /\ forallb (fun e => negb (is_kill e)) t = true.

Lemma calm_refl (s : state) : calm s s.
Proof. repeat split. exists []. split; [symmetry; apply app_nil_r|reflexivity]. Qed.

Lemma calm_emit (e : Effect) (s : state) : is_kill e = false -> calm s (emit e s).
Proof.
  intro He. repeat split. exists [e]. split; [reflexivity|]. cbn. now rewrite He.
Qed.

Lemma calm_trans (s1 s2 s3 : state) : calm s1 s2 -> calm s2 s3 -> calm s1 s3.
Proof.
  intros (A1 & A2 & A3 & A4 & A5 & t1 & E1 & F1) (B1 & B2 & B3 & B4 & B5 & t2 & E2 & F2).
  repeat split; try congruence.
  exists (t1 ++ t2). split; [rewrite E2, E1, app_assoc; reflexivity|].
  rewrite forallb_app, F1, F2. reflexivity.
Qed.

Lemma calm_same_trace (s s' : state) :
  processes s' = processes s -> tsserverProcess s' = tsserverProcess s ->
  startPromise s' = startPromise s -> forks s' = forks s ->
  disposed s' = disposed s -> trace s' = trace s -> calm s s'.
Proof.
  intros. repeat split; try assumption.
  exists []. split; [rewrite app_nil_r; assumption|reflexivity].
Qed.

Lemma In_calm (pid : nat) (t : list Effect) (l : list Effect) :
  forallb (fun e => negb (is_kill e)) t = true ->
  In (Kill pid) (l ++ t) -> In (Kill pid) l.
Proof.
  intros F H. apply in_app_iff in H. destruct H as [H|H]; [exact H|].
  rewrite forallb_forall in F. apply F in H. discriminate H.
Qed.

Lemma Tended_calm (s s' : state) : calm s s' -> Tended s -> Tended s'.
Proof.
  intros (A1 & A2 & A3 & A4 & A5 & t & E & F) T. split.
  - intros pid child. rewrite A1, A2, E. intros Hg Hx.
    destruct (t_alive T Hg Hx) as [H|H]; [left; exact H|right].
    apply in_app_iff. now left.
  - rewrite A2, A3. apply T.
  - intros pid child. rewrite A1, A4. apply T.
  - intros pid. rewrite E, A4. intro H. apply (t_trace T). exact (In_calm F H).
  - intros pid child. rewrite A1, A2, A5, E. intros Hg Hs H.
    apply (t_killed T Hg Hs). exact (In_calm F H).
Qed.

Lemma Tended_create (ms : option Z) : Tended (create ms).
Proof.
  split; cbn; try discriminate; try contradiction; auto.
Qed.

Lemma Tended_startProcess (s : state) :
  disposed s = false -> startPromise s = None -> Tended s ->
  Tended (set_startPromise
            (match fst (startProcess s) with Ok _ => Some tt | Throw _ => None end)
            (snd (startProcess s))).
Proof.
  intros Hd Hp T. pose proof (t_started T Hp) as Hnone.
  assert (Hfresh : JsMap.get Nat.eqb (forks s) (processes s) = None).
  { destruct (JsMap.get Nat.eqb (forks s) (processes s)) as [c|] eqn:E; [|reflexivity].
    apply (t_known T) in E. lia. }
  assert (Hold : forall pid child,
             JsMap.get Nat.eqb pid (processes s) = Some child ->
             has_exited child = false -> In (Kill pid) (trace s)).
  { intros pid child Hg Hx. destruct (t_alive T Hg Hx) as [[H _]|H]; [congruence|exact H]. }
  assert (Hnokill : forall pid child,
             JsMap.get Nat.eqb pid (processes s) = Some child ->
             has_send child = true -> ~ In (Kill pid) (trace s)).
  { intros pid child Hg Hs H. destruct (t_killed T Hg Hs H). congruence. }
  unfold startProcess. destruct (fork (forks s)) as [send|m]; [destruct send|];
    cbn [negb fst snd].
  - (* forked with a channel *)
    split; cbn [processes tsserverProcess startPromise forks trace disposed
                set_startPromise set_tsserverProcess set_processes emit set_forks].
    + intros pid child Hg Hx. destruct (Nat.eq_dec (forks s) pid) as [<-|N].
      * rewrite (JsMap.get_set_same Nat.eqb_eq) in Hg. injection Hg as <-. now left.
      * rewrite (JsMap.get_set_other Nat.eqb_eq) in Hg by exact N.
        right. apply in_app_iff. left. exact (Hold _ _ Hg Hx).
    + discriminate.
    + intros pid child Hg. destruct (Nat.eq_dec (forks s) pid) as [<-|N]; [lia|].
      rewrite (JsMap.get_set_other Nat.eqb_eq) in Hg by exact N.
      apply (t_known T) in Hg. lia.
    + intros pid H. apply in_app_iff in H. destruct H as [H|[H|[]]]; [|discriminate H].
      apply (t_trace T) in H. lia.
    + intros pid child Hg Hs H. exfalso.
      apply in_app_iff in H. destruct H as [H|[H|[]]]; [|discriminate H].
      destruct (Nat.eq_dec (forks s) pid) as [<-|N].
      * apply (t_trace T) in H. lia.
      * rewrite (JsMap.get_set_other Nat.eqb_eq) in Hg by exact N.
        exact (Hnokill _ _ Hg Hs H).
  - (* forked without a channel *)
    split; cbn [processes tsserverProcess startPromise forks trace disposed
                set_startPromise set_processes emit set_forks].
    + intros pid child Hg Hx. right. destruct (Nat.eq_dec (forks s) pid) as [<-|N].
      * apply in_app_iff. right. now left.
      * rewrite (JsMap.get_set_other Nat.eqb_eq) in Hg by exact N.
        apply in_app_iff. left. apply in_app_iff. left. exact (Hold _ _ Hg Hx).
    + intros _. exact Hnone.
    + intros pid child Hg. destruct (Nat.eq_dec (forks s) pid) as [<-|N]; [lia|].
      rewrite (JsMap.get_set_other Nat.eqb_eq) in Hg by exact N.
      apply (t_known T) in Hg. lia.
    + intros pid H. apply in_app_iff in H. destruct H as [H|[H|[]]].
      * apply in_app_iff in H. destruct H as [H|[H|[]]]; [|discriminate H].
        apply (t_trace T) in H. lia.
      * injection H as <-. lia.
    + intros pid child Hg Hs H. exfalso.
      destruct (Nat.eq_dec (forks s) pid) as [<-|N].
      * rewrite (JsMap.get_set_same Nat.eqb_eq) in Hg. injection Hg as <-.
        discriminate Hs.
      * rewrite (JsMap.get_set_other Nat.eqb_eq) in Hg by exact N.
        apply in_app_iff in H. destruct H as [H|[H|[]]]; [|congruence].
        apply in_app_iff in H. destruct H as [H|[H|[]]]; [|discriminate H].
        exact (Hnokill _ _ Hg Hs H).
  - (* the fork throws *)
    split; cbn [processes tsserverProcess startPromise forks trace disposed
                set_startPromise emit set_forks].
    + intros pid child Hg Hx. right. apply in_app_iff. left. exact (Hold _ _ Hg Hx).
    + intros _. exact Hnone.
    + intros pid child Hg. apply (t_known T) in Hg. lia.
    + intros pid H. apply in_app_iff in H. destruct H as [H|[H|[]]]; [|discriminate H].
      apply (t_trace T) in H. lia.
    + intros pid child Hg Hs H. exfalso.
      apply in_app_iff in H. destruct H as [H|[H|[]]]; [|discriminate H].
      exact (Hnokill _ _ Hg Hs H).
Qed.

Lemma Tended_ensureProcessStarted (s : state) :
  Tended s -> Tended (snd (ensureProcessStarted s)).
Proof.
  intro T. unfold ensureProcessStarted.
  destruct (disposed s) eqn:Hd; [exact T|].
  destruct (startPromise s) eqn:Hp; [exact T|].
  pose proof (Tended_startProcess Hd Hp T) as T'.
  destruct (startProcess s) as [[u|m] s']; exact T'.
Qed.

Lemma Tended_sendRaw (k : cont) (command : string) (args : json) (s : state) :
  Tended s -> Tended (sendRawTsServerRequest k command args s).
Proof.
  intro T. pose proof (Tended_ensureProcessStarted T) as T1.
  destruct (sendRaw_cases k command args s)
    as [(m & _ & ->)|[(_ & _ & ->)|(_ & pid & _ & ->)]].
  - apply (Tended_calm (s := snd (ensureProcessStarted s))); [|exact T1].
    now apply calm_same_trace.
  - apply (Tended_calm (s := snd (ensureProcessStarted s))); [|exact T1].
    now apply calm_same_trace.
  - apply (Tended_calm (s := snd (ensureProcessStarted s))); [|exact T1].
    apply (calm_trans (s2 := set_corr (snd (Correlator.register k
             (corr (snd (ensureProcessStarted s))))) (snd (ensureProcessStarted s)))).
    + now apply calm_same_trace.
    + now apply calm_emit.
Qed.

Lemma Tended_sendTsServerRequest (caller : nat) (call : Requests.Call) (s : state) :
  Tended s -> Tended (sendTsServerRequest caller call s).
Proof.
  intro T. unfold sendTsServerRequest, syncOpenDocument_then. cbn zeta.
  repeat match goal with
         | |- context [match ?x with _ => _ end] =>
             lazymatch x with
             | context [sendRawTsServerRequest] => fail
             | _ => destruct x
             end
         end; apply Tended_sendRaw, T.
Qed.

Lemma Tended_dispose_finish (caller : nat) (s : state) :
  disposed s = true -> Tended s -> Tended (dispose_finish caller s).
Proof.
  intros Hd T. unfold dispose_finish.
  destruct (Correlator.flush _ _ (corr s)) as [ks c].
  set (s1 := resolve_all ks JUndefined (set_corr c s)).
  assert (C1 : calm s s1).
  { unfold s1. rewrite resolve_all_eq. now apply calm_same_trace. }
  pose proof (Tended_calm C1 T) as T1.
  destruct C1 as (A1 & A2 & A3 & A4 & A5 & _).
  apply (Tended_calm (s := set_startPromise None (set_tsserverProcess None
           match running s1 with Some pid => emit (Kill pid) s1 | None => s1 end)));
    [now apply calm_emit|].
  assert (Hrun : forall pid child,
             JsMap.get Nat.eqb pid (processes s1) = Some child ->
             has_exited child = false -> tsserverProcess s1 = Some pid ->
             running s1 = Some pid).
  { intros pid child Hg Hx Hc. unfold running. rewrite Hc, Hg.
    unfold has_exited in Hx. destruct (exitCode child), (signalCode child);
      try discriminate Hx. reflexivity. }
  destruct (running s1) as [pid|] eqn:Er.
  - assert (Hpid : (pid < forks s1)%nat).
    { unfold running in Er. destruct (tsserverProcess s1) as [p|]; [|discriminate].
      destruct (JsMap.get Nat.eqb p (processes s1)) as [ch|] eqn:Eg; [|discriminate].
      destruct (exitCode ch), (signalCode ch); try discriminate.
      injection Er as <-. exact (t_known T1 Eg). }
    split; cbn [processes tsserverProcess startPromise forks trace disposed
                set_startPromise set_tsserverProcess emit].
    + intros p child Hg Hx. right.
      destruct (t_alive T1 Hg Hx) as [[Hc _]|H].
      * pose proof (Hrun _ _ Hg Hx Hc) as E. injection E as <-.
        apply in_app_iff. right. now left.
      * apply in_app_iff. now left.
    + reflexivity.
    + apply T1.
    + intros p H. apply in_app_iff in H. destruct H as [H|[H|[]]].
      * exact (t_trace T1 H).
      * now injection H as <-.
    + intros p child Hg Hs H. split; [congruence|reflexivity].
  - split; cbn [processes tsserverProcess startPromise forks trace disposed
                set_startPromise set_tsserverProcess].
    + intros p child Hg Hx. right.
      destruct (t_alive T1 Hg Hx) as [[Hc _]|H]; [|exact H].
      pose proof (Hrun _ _ Hg Hx Hc) as E. discriminate E.
    + reflexivity.
    + apply T1.
    + apply T1.
    + intros p child Hg Hs H. split; [congruence|reflexivity].
Qed.

Lemma Tended_set_disposed (s : state) : Tended s -> Tended (set_disposed true s).
Proof.
  intro T. split; cbn [processes tsserverProcess startPromise forks trace disposed
                       set_disposed]; try apply T.
  intros pid child Hg Hs H. split; [reflexivity|]. exact (proj2 (t_killed T Hg Hs H)).
Qed.

Lemma Tended_dispose (caller : nat) (s : state) : Tended s -> Tended (dispose caller s).
Proof.
  intro T. unfold dispose.
  assert (T1 : Tended (set_openDocumentVersions [] (set_disposed true s))).
  { apply (Tended_calm (s := set_disposed true s));
      [now apply calm_same_trace|apply Tended_set_disposed, T]. }
  destruct (JsMap.keys _).
  - apply Tended_dispose_finish; [reflexivity|exact T1].
  - apply Tended_sendRaw, T1.
Qed.

Lemma Tended_resume (k : cont) (o : Outcome json) (s : state) :
  (is_dispose k = true -> disposed s = true) ->
  Tended s -> Tended (resume k o s).
Proof.
  intros Hk T. destruct k, o; cbn [resume];
    try (apply (Tended_calm (s := s)); [now apply calm_emit|exact T]).
  - apply Tended_sendRaw. apply (Tended_calm (s := s)); [now apply calm_same_trace|exact T].
  - apply Tended_sendRaw. apply (Tended_calm (s := s)); [now apply calm_same_trace|exact T].
  - apply Tended_dispose_finish; [apply Hk; reflexivity|exact T].
Qed.

Lemma Tended_drain (fuel : nat) (s : state) : G s -> Tended s -> Tended (drain fuel s).
Proof.
  revert s. induction fuel as [|fuel IH]; intros s g T; [exact T|].
  cbn [drain]. destruct (microtasks s) as [|[k o] rest] eqn:E; [exact T|].
  destruct (G_pop g E) as [g1 Hk].
  apply IH; [apply G_resume; assumption|].
  apply Tended_resume; [exact Hk|].
  apply (Tended_calm (s := s)); [now apply calm_same_trace|exact T].
Qed.

Lemma Tended_settled (k : cont) (o : Outcome json) (c : Correlator.t cont) (s : state) :
  Tended s -> Tended (enqueue k o (set_corr c s)).
Proof. intro T. apply (Tended_calm (s := s)); [now apply calm_same_trace|exact T]. Qed.

Lemma Tended_handleTsServerMessage (message : json) (s : state) :
  Tended s -> Tended (handleTsServerMessage message s).
Proof.
  intro T. unfold handleTsServerMessage.
  destruct message; try exact T.
  destruct (field "type" _); try exact T.
  destruct (negb _); [exact T|].
  destruct (field "request_seq" _); try exact T.
  destruct (n <? 0)%Z; [exact T|].
  destruct (Correlator.settle _ _ _ _) as [[k c]|]; [|exact T].
  apply Tended_settled, T.
Qed.

Lemma Tended_onSendError (requestId : nat) (s : state) :
  Tended s -> Tended (onSendError requestId s).
Proof.
  intro T. unfold onSendError.
  destruct (Correlator.settle _ _ _ _) as [[k c]|]; [|exact T].
  apply Tended_settled, T.
Qed.

Lemma Tended_run_timers (ids : list nat) (s : state) :
  G s -> Tended s -> Tended (run_timers ids s).
Proof.
  revert s. induction ids as [|id rest IH]; intros s g T; [exact T|].
  cbn [run_timers].
  destruct (Correlator.fire id (corr s)) as [[k c]|] eqn:E; [|apply IH; assumption].
  destruct (Correlator.fire_is_settle (g_corr g) E) as [rid Hs].
  pose proof (G_settled g Hs) as g1.
  apply IH; [apply G_drain, g1|].
  apply Tended_drain; [exact g1|apply Tended_settled, T].
Qed.

(** An exit is reported with a code or with a signal. *)
Definition exit_reported (e : event) : bool :=
  match e with
  | Exit _ None None => false
  | _ => true
  end.

Lemma Tended_handle (s : state) (e : event) :
  exit_reported e = true -> G s -> Tended s -> Tended (handle s e).
Proof.
  intros He g T. destruct e; cbn [handle].
  - apply Tended_sendTsServerRequest, T.
  - unfold warmup. pose proof (Tended_ensureProcessStarted T) as T1.
    destruct (ensureProcessStarted s) as [[u|m] s1]; cbn [snd] in T1;
      (apply (Tended_calm (s := s1)); [now apply calm_emit|exact T1]).
  - apply Tended_dispose, T.
  - destruct (JsMap.get _ _ _) as [child|]; [|exact T].
    destruct (has_send child); [apply Tended_handleTsServerMessage, T|exact T].
  - apply Tended_onSendError, T.
  - destruct (JsMap.get Nat.eqb pid (processes s)) as [child|] eqn:Eg; [|exact T].
    split; cbn [processes tsserverProcess startPromise forks trace disposed
                set_processes]; try apply T.
    + intros p ch Hg Hx. destruct (Nat.eq_dec pid p) as [<-|N].
      * rewrite (JsMap.get_set_same Nat.eqb_eq) in Hg. injection Hg as <-.
        exact (t_alive T Eg Hx).
      * rewrite (JsMap.get_set_other Nat.eqb_eq) in Hg by exact N.
        exact (t_alive T Hg Hx).
    + intros p ch Hg. destruct (Nat.eq_dec pid p) as [<-|N].
      * exact (t_known T Eg).
      * rewrite (JsMap.get_set_other Nat.eqb_eq) in Hg by exact N.
        exact (t_known T Hg).
    + intros p ch Hg Hs. destruct (Nat.eq_dec pid p) as [<-|N].
      * rewrite (JsMap.get_set_same Nat.eqb_eq) in Hg. injection Hg as <-.
        exact (t_killed T Eg Hs).
      * rewrite (JsMap.get_set_other Nat.eqb_eq) in Hg by exact N.
        exact (t_killed T Hg Hs).
  - destruct (JsMap.get Nat.eqb pid (processes s)) as [child|] eqn:Eg; [|exact T].
    destruct (has_exited child) eqn:Hx; [exact T|].
    destruct (has_send child) eqn:Hs; [|exact T]. cbn [orb negb].
    assert (Hgone : has_exited {| connected := connected child; has_send := true;
                                  exitCode := code; signalCode := signal |} = true).
    { unfold has_exited. cbn. destruct code, signal; try reflexivity. discriminate He. }
    set (sp := set_processes _ s).
    assert (Tp : Tended (set_startPromise None (set_tsserverProcess None sp))).
    { split; cbn [processes tsserverProcess startPromise forks trace disposed
                  set_startPromise set_tsserverProcess set_processes sp].
      - intros p ch Hg Hx'. right. destruct (Nat.eq_dec pid p) as [<-|N].
        + rewrite (JsMap.get_set_same Nat.eqb_eq) in Hg. injection Hg as <-.
          rewrite Hgone in Hx'. discriminate Hx'.
        + rewrite (JsMap.get_set_other Nat.eqb_eq) in Hg by exact N.
          destruct (t_alive T Hg Hx') as [[Hc _]|H]; [|exact H]. exfalso.
          destruct (t_alive T Eg Hx) as [[Hc' _]|H]; [congruence|].
          destruct (t_killed T Eg Hs H). congruence.
      - reflexivity.
      - intros p ch Hg. destruct (Nat.eq_dec pid p) as [<-|N].
        + exact (t_known T Eg).
        + rewrite (JsMap.get_set_other Nat.eqb_eq) in Hg by exact N.
          exact (t_known T Hg).
      - apply T.
      - intros p ch Hg Hs' H. split; [|reflexivity].
        destruct (Nat.eq_dec pid p) as [<-|N].
        + exact (proj1 (t_killed T Eg Hs H)).
        + rewrite (JsMap.get_set_other Nat.eqb_eq) in Hg by exact N.
          exact (proj1 (t_killed T Hg Hs' H)). }
    unfold onExit. fold sp.
    match goal with
    | |- Tended (let '(ks, c) := Correlator.flush ?a ?b (corr ?s2) in _) =>
        assert (T2 : Tended s2);
        [|destruct (Correlator.flush a b (corr s2)) as [ks c];
          rewrite resolve_all_eq;
          apply (Tended_calm (s := s2)); [now apply calm_same_trace|exact T2]]
    end.
    destruct (negb (disposed sp)); [|exact Tp].
    revert Tp. apply Tended_calm.
    repeat split. eexists. split; [reflexivity|reflexivity].
  - apply Tended_run_timers.
    + apply (G_tick d g).
    + apply (Tended_calm (s := s)); [now apply calm_same_trace|exact T].
  - apply (Tended_calm (s := s)); [now apply calm_same_trace|exact T].
  - apply (Tended_calm (s := s)); [now apply calm_same_trace|exact T].
Qed.

Lemma Tended_run (events : list event) (s : state) :
  forallb exit_reported events = true -> G s -> Tended s ->
  Tended (run events s).
Proof.
  revert s. induction events as [|e events IH]; intros s H g T; [exact T|].
  cbn [forallb] in H. apply andb_true_iff in H. destruct H as [He H].
  cbn [run fold_left]. apply IH; [exact H|apply G_step, g|].
  unfold step, settle_microtasks.
  apply Tended_drain; [apply G_handle, g|apply Tended_handle; assumption].
Qed.

(** X19.  The spawned client never loses track of a tsserver process: a
    child it has forked and that has not exited is either its current
    process or has been killed, so at most one child is in use at a time;
    and a child with an IPC channel is killed only by [dispose()]. *)
Theorem no_process_is_left_behind (ms : option Z) (events : list event) :
  forallb exit_reported events = true ->
  let s := run events (create ms) in
  forall pid child,
    JsMap.get Nat.eqb pid (processes s) = Some child ->
    has_exited child = false ->
    (tsserverProcess s = Some pid \/ In (Kill pid) (trace s))
    /\ (has_send child = true -> In (Kill pid) (trace s) ->
        disposed s = true /\ tsserverProcess s = None).
Proof.
  intros H s pid child Hg Hx.
  assert (T : Tended s) by (apply Tended_run; [exact H|apply G_create|apply Tended_create]).
  split.
  - destruct (t_alive T Hg Hx) as [[Hc _]|Hk]; [now left|now right].
  - intros Hs Hk. exact (t_killed T Hg Hs Hk).
Qed.

End WithWorld.

(** ** Concrete runs *)

(** Every fork succeeds with an IPC channel. *)
Definition fork_ok : nat -> ForkResult := fun _ => Forked true.

Definition a_ts : SyncedTextDocument :=
  {| uri := "file:///app/a.ts"; languageId := "typescript";
     version := 3; getText := "let x" |}.

(** A request is in flight when the client is disposed; later a request and
    a warmup arrive: nothing is forked for them. *)
Lemma disposed_client_stays_down_witness :
  let s := run (host := posix) fork_ok
               [DocumentSet a_ts; Call 1 (Requests.getProjectInfo "/app/a.ts");
                Dispose 2]
               (create None) in
  forks (run (host := posix) fork_ok
             [Call 3 (Requests.getQuickInfoAtPosition "/app/a.ts" 0 0); Warmup 4] s)
  = 1.
Proof.
  cbn zeta.
  destruct (@disposed_client_stays_down posix fork_ok None
              [DocumentSet a_ts; Call 1 (Requests.getProjectInfo "/app/a.ts");
               Dispose 2]) as (_ & _ & _ & Hmore).
  - vm_compute. reflexivity.
  - destruct (Hmore [Call 3 (Requests.getQuickInfoAtPosition "/app/a.ts" 0 0);
                     Warmup 4]) as [_ Hf].
    rewrite Hf. vm_compute. reflexivity.
Defined.

(** The request is in the synchronisation of its document when the client
    is disposed: it goes on after [dispose()] has resolved and records the
    version of the document, so a second [dispose()] finds a record and
    removes it; the state is not what it was. *)
Lemma second_dispose_empties_the_bookkeeping :
  let s := run (host := posix) fork_ok
               [DocumentSet a_ts; Call 1 (Requests.getProjectInfo "/app/a.ts");
                Dispose 2]
               (create None) in
  let s' := step (host := posix) fork_ok s (Dispose 3) in
  dispose_resolved (trace s) = true
  /\ openDocumentVersions s = [("/app/a.ts", 3%Z)]
  /\ openDocumentVersions s' = []
  /\ s' <> s.
Proof.
  cbv zeta. split; [vm_compute; reflexivity|]. split; [vm_compute; reflexivity|].
  split; [vm_compute; reflexivity|].
  intro E. apply (f_equal openDocumentVersions) in E. vm_compute in E. discriminate E.
Qed.

(** The process dies while a request is in flight and the client is not
    disposed: one warning, and the next start forks process number 1. *)
Lemma unexpected_exit_resets_client_witness :
  let s := run (host := posix) fork_ok
               [Call 1 (Requests.getProjectInfo "/app/a.ts")] (create None) in
  trace (onExit (Some 1%Z) None s) = trace s ++ [exit_warning (Some 1%Z) None]
  /\ usable (snd (ensureProcessStarted fork_ok (onExit (Some 1%Z) None s))) = Some 1.
Proof.
  cbn zeta.
  destruct (@unexpected_exit_resets_client fork_ok (Some 1%Z) None
              (run (host := posix) fork_ok
                   [Call 1 (Requests.getProjectInfo "/app/a.ts")] (create None)))
    as (_ & _ & _ & _ & Hlive & _).
  destruct Hlive as (Hw & _ & Hfork).
  - vm_compute. reflexivity.
  - split; [exact Hw|].
    destruct Hfork as (_ & _ & Hu); [reflexivity|exact Hu].
Defined.

(** The first fork fails, the later ones succeed. *)
Definition fork_flaky : nat -> ForkResult :=
  fun n => if (n =? 0)%nat then ForkThrows "spawn ENOENT" else Forked true.

Lemma failed_start_is_retried_witness :
  let s1 := step (host := posix) fork_flaky (create None)
                 (Call 1 (Requests.getProjectInfo "/app/a.ts")) in
  trace s1 = [Fork 0; Settled 1 (Throw "spawn ENOENT")]
  /\ exists t, trace (step (host := posix) fork_flaky s1
                           (Call 2 (Requests.getProjectInfo "/app/a.ts")))
               = trace s1 ++ Fork 1 :: t.
Proof.
  cbv zeta.
  destruct (@failed_start_is_retried posix fork_flaky 1 2
              (Requests.getProjectInfo "/app/a.ts")
              (Requests.getProjectInfo "/app/a.ts")
              (create None) "spawn ENOENT" eq_refl eq_refl eq_refl eq_refl)
    as (H1 & _ & _ & _ & H5).
  split; [rewrite H1; reflexivity|exact H5].
Defined.

(** A document is opened and a hover request for it answered; then the
    process exits and the same request is made again. *)
Lemma respawn_keeps_sync_table_witness :
  let hover := Requests.getQuickInfoAtPosition "/app/a.ts" 0 0 in
  let s := run (host := posix) fork_ok
               [DocumentSet a_ts; Call 1 hover;
                Message 0 (response_message 1 true JNull);
                Message 0 (response_message 2 true JNull)]
               (create None) in
  let s2 := run (host := posix) fork_ok [Exit 0 (Some 1%Z) None; Call 2 hover] s in
  JsMap.get String.eqb "/app/a.ts" (openDocumentVersions s) = Some 3%Z
  /\ trace s2
     = trace s
       ++ [exit_warning (Some 1%Z) None; Fork 1;
           Send 1 (request_message 3 (Requests.command hover)
                                   (Requests.arguments hover))].
Proof.
  cbv zeta.
  split; [vm_compute; reflexivity|].
  refine (proj2 (@respawn_keeps_sync_table posix fork_ok
            (run (host := posix) fork_ok
                 [DocumentSet a_ts;
                  Call 1 (Requests.getQuickInfoAtPosition "/app/a.ts" 0 0);
                  Message 0 (response_message 1 true JNull);
                  Message 0 (response_message 2 true JNull)]
                 (create None))
            0 {| connected := true; has_send := true;
                 exitCode := None; signalCode := None |}
            (Some 1%Z) None 2 (Requests.getQuickInfoAtPosition "/app/a.ts" 0 0)
            "/app/a.ts" a_ts _ _ _ _ _ _ _ _ _ _ _));
    try (vm_compute; reflexivity).
  vm_compute. discriminate.
Defined.

(** The first process exits while a request is in flight; the next request
    forks the second one, which is then the only child in use. *)
Lemma no_process_is_left_behind_witness :
  let events := [Call 1 (Requests.getProjectInfo "/app/a.ts");
                 Exit 0 (Some 1%Z) None;
                 Call 2 (Requests.getProjectInfo "/app/a.ts")] in
  let s := run (host := posix) fork_ok events (create None) in
  let child := {| connected := true; has_send := true;
                  exitCode := None; signalCode := None |} in
  forallb exit_reported events = true
  /\ JsMap.get Nat.eqb 1 (processes s) = Some child
  /\ (tsserverProcess s = Some 1 \/ In (Kill 1) (trace s)).
Proof.
  cbv zeta.
  split; [reflexivity|]. split; [vm_compute; reflexivity|].
  refine (proj1 (@no_process_is_left_behind posix fork_ok None
            [Call 1 (Requests.getProjectInfo "/app/a.ts");
             Exit 0 (Some 1%Z) None;
             Call 2 (Requests.getProjectInfo "/app/a.ts")]
            eq_refl 1
            {| connected := true; has_send := true;
               exitCode := None; signalCode := None |} _ _));
    vm_compute; reflexivity.
Defined.

End TsServerProcess.

(* ================================================================== *)
(** * Correlation: every pending entry leaves its table once *)
(* ================================================================== *)












(* ================================================================== *)
(** * Text helpers of the sidecar client *)
(* ================================================================== *)

Module Text.

(** [text.charCodeAt(i) === 10]. *)
Definition is_newline (c : ascii) : bool := Ascii.eqb c "010"%char.

(** The loop of [offsetToPosition]: [n] characters are still to be read,
    [i] is the index of the next one. *)
Fixpoint scan_lines (text : string) (n : nat) (i line lineStart : Z) : Z * Z :=
  match n, text with
  | S n', String c rest =>
      if is_newline c then scan_lines rest n' (i + 1) (line + 1) (i + 1)
      else scan_lines rest n' (i + 1) line lineStart
  | _, _ => (line, lineStart)
  end.

Definition length (text : string) : Z := Z.of_nat (String.length text).

Record Position : Type := { line : Z; character : Z }.

Definition offsetToPosition (text : string) (offset : Z) : Position :=
  let targetOffset := Z.min (Z.max offset 0) (length text) in
  let '(line, lineStart) := scan_lines text (Z.to_nat targetOffset) 0 0 0 in
  {| line := line; character := targetOffset - lineStart |}.

(** The loop of [positionToOffset]. *)
Fixpoint skip_lines (text : string) (index line targetLine : Z) : Z :=
  match text with
  | EmptyString => index
  | String c rest =>
      if (line <? targetLine)%Z
      then skip_lines rest (index + 1)
                      (if is_newline c then line + 1 else line) targetLine
      else index
  end.

Definition positionToOffset (text : string) (position : Position) : Z :=
  let targetLine := Z.max 0 (line position) in
  let index := skip_lines text 0 0 targetLine in
  Z.min (length text) (index + Z.max 0 (character position)).

Record TextSpan : Type := { start : Z; span_length : Z }.

Definition rangeToTextSpan (text : string) (range_start range_end : Position) : TextSpan :=
  let start := positionToOffset text range_start in
  let end_ := positionToOffset text range_end in
  {| start := start; span_length := Z.max 0 (end_ - start) |}.

Definition documentHighlightKindToTs (kind : json) : string :=
  match kind with
  | JNum 2 => "reference"
  | JNum 3 => "writtenReference"
  | _ => "none"
  end.

(** [String.prototype.trim] removes the white space and the line
    terminators of ECMAScript from both ends.  Those of ASCII are U+0009 to
    U+000D and the space.  The others are recognised in UTF-8, in which a
    string literal holds text outside ASCII: the no-break space U+00A0 in
    two bytes, and U+1680, U+2000 to U+200A, U+2028, U+2029, U+202F,
    U+205F, U+3000 and U+FEFF in three. *)
Definition is_space (c : ascii) : bool :=
  let n := nat_of_ascii c in
  ((9 <=? n) && (n <=? 13) || (n =? 32))%nat.

Definition byte (n : nat) (c : ascii) : bool := (nat_of_ascii c =? n)%nat.

Definition space2 (a b : ascii) : bool := byte 194 a && byte 160 b.

Definition space3 (a b c : ascii) : bool :=
  byte 225 a && byte 154 b && byte 128 c
  || byte 226 a && byte 128 b
     && ((128 <=? nat_of_ascii c)%nat && (nat_of_ascii c <=? 138)%nat
         || byte 168 c || byte 169 c || byte 175 c)
  || byte 226 a && byte 129 b && byte 159 c
  || byte 227 a && byte 128 b && byte 128 c
  || byte 239 a && byte 187 b && byte 191 c.

Fixpoint trimStart (s : string) : string :=
  match s with
  | EmptyString => EmptyString
  | String a r =>
      if is_space a then trimStart r
      else
        match r with
        | EmptyString => s
        | String b r1 =>
            if space2 a b then trimStart r1
            else
              match r1 with
              | EmptyString => s
              | String c r2 => if space3 a b c then trimStart r2 else s
              end
        end
  end.

Fixpoint trimEnd (s : string) : string :=
  match s with
  | EmptyString => EmptyString
  | String a r =>
      match trimEnd r with
      | EmptyString => if is_space a then EmptyString else String a EmptyString
      | String b EmptyString =>
          if space2 a b then EmptyString else String a (String b EmptyString)
      | String b (String c EmptyString) =>
          if space3 a b c then EmptyString
          else String a (String b (String c EmptyString))
      | r' => String a r'
      end
  end.

Definition trim (s : string) : string := trimEnd (trimStart s).

(** The regular expression of [markdownToDisplayString],
    three backquotes, an optional word, a newline, then lazily anything up
    to the next three backquotes; the result is its capture group. *)
Definition is_word (c : ascii) : bool :=
  let n := nat_of_ascii c in
  ((48 <=? n) && (n <=? 57) || (65 <=? n) && (n <=? 90)
   || (97 <=? n) && (n <=? 122) || (n =? 95))%nat.

Definition fence : string := "```".

Fixpoint skip_word (s : string) : string :=
  match s with
  | String c r => if is_word c then skip_word r else s
  | EmptyString => EmptyString
  end.

(** The text before the first fence in [s], if there is a fence. *)
Fixpoint until_fence (s : string) : option string :=
  if String.prefix fence s then Some EmptyString
  else match s with
       | EmptyString => None
       | String c r =>
           match until_fence r with
           | Some t => Some (String c t)
           | None => None
           end
       end.

(** A match that starts at the beginning of [s]. *)
Definition code_block_here (s : string) : option string :=
  if String.prefix fence s then
    match skip_word (substring 3 (String.length s - 3) s) with
    | String c r => if is_newline c then until_fence r else None
    | EmptyString => None
    end
  else None.

(** The leftmost match. *)
Fixpoint code_block (s : string) : option string :=
  match code_block_here s with
  | Some captured => Some captured
  | None =>
      match s with
      | EmptyString => None
      | String _ r => code_block r
      end
  end.

Definition markdownToDisplayString (markdown : string) : string :=
  match code_block markdown with
  | Some (String c r) => trim (String c r)
  | _ => trim markdown
  end.

Definition drop_empty (l : list string) : list string :=
  filter (fun x => negb (x =? "")) l.

(** [contentsToText]; reading [contents.value] of [null] or [undefined]
    throws a [TypeError]. *)
Fixpoint contentsToText (contents : json) : Outcome string :=
  match contents with
  | JStr text => Ok text
  | JArr items =>
      (fix each (l : list json) (done : list string) : Outcome string :=
         match l with
         | [] => Ok (String.concat (String "010"%char "") (drop_empty (rev done)))
         | x :: rest =>
             match contentsToText x with
             | Ok t => each rest (t :: done)
             | Throw message => Throw message
             end
         end) items []
  | JObj fields =>
      match assoc "value" fields with
      | JStr value => Ok value
      | _ => Ok ""
      end
  | JUndefined | JNull => and_then (read "value" contents) (fun _ => Ok "")
  | JBool _ | JNum _ | JNaN => Ok ""
  end.

(** [hoverToDisplayString]: [None] stands for [undefined]. *)
Definition hoverToDisplayString (hover : json) : Outcome (option string) :=
  if negb (truthy hover) then Ok None
  else match contentsToText (field "contents" hover) with
       | Ok text => Ok (Some (markdownToDisplayString text))
       | Throw message => Throw message
       end.

(** ** Offsets and positions *)

(** The number of line feeds in a string. *)
Fixpoint count_newlines (s : string) : nat :=
  match s with
  | EmptyString => 0
  | String c r => (if is_newline c then 1 else 0) + count_newlines r
  end.

Lemma length_cons (c : ascii) (r : string) : length (String c r) = (length r + 1)%Z.
Proof. unfold length. cbn [String.length]. lia. Qed.

Lemma length_nonneg (text : string) : (0 <= length text)%Z.
Proof. unfold length. lia. Qed.

Lemma skip_lines_stops (text : string) (index line : Z) :
  skip_lines text index line line = index.
Proof.
  destruct text as [|c r]; cbn [skip_lines]; [reflexivity|].
  now rewrite Z.ltb_irrefl.
Qed.

Lemma skip_lines_bounds (text : string) :
  forall index line targetLine,
    (index <= skip_lines text index line targetLine <= index + length text)%Z.
Proof.
  induction text as [|c r IH]; intros index line targetLine; cbn [skip_lines].
  - pose proof (@length_nonneg ""). lia.
  - rewrite length_cons. pose proof (@length_nonneg r).
    destruct (line <? targetLine)%Z; [|lia].
    specialize (IH (index + 1)%Z (if is_newline c then (line + 1)%Z else line) targetLine).
    lia.
Qed.

(** What the loop of [offsetToPosition] computes, and where the loop of
    [positionToOffset] stops when it is asked for the line found. *)
Lemma scan_lines_spec (text : string) :
  forall (n : nat) (i line lineStart L S : Z),
    scan_lines text n i line lineStart = (L, S) ->
    (lineStart <= i)%Z ->
    L = (line + Z.of_nat (count_newlines (substring 0 n text)))%Z
    /\ (lineStart <= S <= i + Z.min (Z.of_nat n) (length text))%Z
    /\ (line < L -> skip_lines text i line L = S)%Z
    /\ count_newlines
         (substring (Z.to_nat (S - i)) (n - Z.to_nat (S - i)) text) = 0%nat
    /\ (L = line /\ S = lineStart
        \/ (line < L)%Z /\ (i < S)%Z
           /\ String.get (Z.to_nat (S - i) - 1) text = Some "010"%char).
Proof.
  induction text as [|c r IH]; intros n i line lineStart L S E Hi.
  - assert (E' : (line, lineStart) = (L, S)) by (destruct n; exact E).
    injection E' as <- <-.
    assert (Hs : forall a b, substring a b "" = "") by (intros [|a] [|b]; reflexivity).
    rewrite !Hs. cbn [count_newlines]. unfold length. cbn [String.length].
    repeat split; lia.
  - destruct n as [|n].
    + cbn [scan_lines] in E. injection E as <- <-.
      cbn [substring count_newlines]. rewrite length_cons.
      pose proof (@length_nonneg r).
      repeat split; try lia.
      replace (Z.to_nat (lineStart - i)) with 0%nat by lia. reflexivity.
    + cbn [scan_lines] in E. cbn [substring count_newlines].
      rewrite length_cons. pose proof (@length_nonneg r).
      destruct (is_newline c) eqn:Hc.
      * apply IH in E; [|lia]. destruct E as (HL & HS & Hskip & Hno & Hlast).
        assert (Hlt : (line < L)%Z) by lia.
        split; [lia|]. split; [lia|]. split.
        { intros _. cbn [skip_lines]. pose proof Hlt as Hlt'.
          apply Z.ltb_lt in Hlt'. rewrite Hlt', Hc.
          destruct Hlast as [[-> ->]|[Hlt2 _]].
          - apply skip_lines_stops.
          - now apply Hskip. }
        split.
        { replace (Z.to_nat (S - i)) with (Datatypes.S (Z.to_nat (S - (i + 1)))) by lia.
          cbn [substring Nat.sub]. exact Hno. }
        right. split; [exact Hlt|]. split; [lia|].
        destruct Hlast as [[_ ->]|(_ & Hlt' & Hget)].
        { replace (Z.to_nat (i + 1 - i) - 1)%nat with 0%nat by lia.
          cbn [String.get]. unfold is_newline in Hc. apply Ascii.eqb_eq in Hc.
          now subst c. }
        replace (Z.to_nat (S - i) - 1)%nat
          with (Datatypes.S (Z.to_nat (S - (i + 1)) - 1)) by lia.
        cbn [String.get]. exact Hget.
      * apply IH in E; [|lia]. destruct E as (HL & HS & Hskip & Hno & Hlast).
        split; [lia|]. split; [lia|]. split.
        { intros Hlt. cbn [skip_lines]. pose proof Hlt as Hlt'.
          apply Z.ltb_lt in Hlt'. rewrite Hlt', Hc. now apply Hskip. }
        destruct Hlast as [[-> ->]|(Hlt0 & Hlt' & Hget)].
        { split; [|left; split; reflexivity].
          destruct (Z.to_nat (lineStart - i)) eqn:Hd; [|lia].
          cbn [substring count_newlines Nat.sub]. rewrite Hc.
          replace (Z.to_nat (lineStart - (i + 1))) with 0%nat in Hno by lia.
          rewrite Nat.sub_0_r in Hno. exact Hno. }
        split.
        { replace (Z.to_nat (S - i)) with (Datatypes.S (Z.to_nat (S - (i + 1)))) by lia.
          cbn [substring Nat.sub]. exact Hno. }
        right. split; [exact Hlt0|]. split; [lia|].
        replace (Z.to_nat (S - i) - 1)%nat
          with (Datatypes.S (Z.to_nat (S - (i + 1)) - 1)) by lia.
        cbn [String.get]. exact Hget.
Qed.

Lemma positionToOffset_bounds (text : string) (position : Position) :
  (0 <= positionToOffset text position <= length text)%Z.
Proof.
  unfold positionToOffset.
  pose proof (skip_lines_bounds text 0 0 (Z.max 0 (line position))).
  pose proof (@length_nonneg text). lia.
Qed.

(** X1.  Turning an offset into a position and back gives the offset again,
    once it is clamped into the text: a negative offset comes back as [0],
    one past the end as the length of the text. *)
Theorem offset_survives_position (text : string) (offset : Z) :
  positionToOffset text (offsetToPosition text offset)
  = Z.min (Z.max offset 0) (length text).
Proof.
  unfold offsetToPosition, positionToOffset.
  pose proof (@length_nonneg text) as Hlen.
  set (target := Z.min (Z.max offset 0) (length text)).
  destruct (scan_lines text (Z.to_nat target) 0 0 0) as [L S] eqn:E.
  cbn [line character].
  apply scan_lines_spec in E; [|lia].
  destruct E as (HL & HS & Hskip & _ & Hlast).
  assert (Hstart : skip_lines text 0 0 (Z.max 0 L) = S).
  { destruct Hlast as [[-> ->]|[Hlt _]].
    - apply skip_lines_stops.
    - replace (Z.max 0 L) with L by lia. now apply Hskip. }
  rewrite Hstart. subst target. lia.
Qed.

(** X2.  The position of an offset: its line is the number of line feeds
    before the (clamped) offset, and its character counts the characters
    since the last of them, none of which is a line feed. *)
Theorem offsetToPosition_counts_lines (text : string) (offset : Z) :
  let target := Z.min (Z.max offset 0) (length text) in
  let p := offsetToPosition text offset in
  line p = Z.of_nat (count_newlines (substring 0 (Z.to_nat target) text))
  /\ (0 <= character p <= target)%Z
  /\ count_newlines
       (substring (Z.to_nat (target - character p))
                  (Z.to_nat (character p)) text) = 0%nat
  /\ (line p = 0%Z /\ character p = target
      \/ (0 < line p)%Z
         /\ String.get (Z.to_nat (target - character p) - 1) text
            = Some "010"%char).
Proof.
  intros target p. subst p. unfold offsetToPosition. fold target.
  pose proof (@length_nonneg text) as Hlen.
  destruct (scan_lines text (Z.to_nat target) 0 0 0) as [L S] eqn:E.
  cbn [line character].
  apply scan_lines_spec in E; [|lia].
  destruct E as (HL & HS & _ & Hno & Hlast).
  rewrite Z.sub_0_r in Hno, Hlast.
  assert (Ht : (0 <= target)%Z) by (subst target; lia).
  replace (target - (target - S))%Z with S by lia.
  replace (Z.to_nat (target - S)) with (Z.to_nat target - Z.to_nat S)%nat by lia.
  split; [lia|]. split; [lia|]. split; [exact Hno|].
  destruct Hlast as [[-> ->]|(Hlt & _ & Hget)].
  - left. split; [reflexivity|lia].
  - right. split; [lia|exact Hget].
Qed.

(** X3.  The text span of a range lies inside the text, whatever the
    positions are: negative lines or characters, lines past the last one and
    an end before the start all give a span between [0] and the length of
    the text; a range whose end is not before its start spans exactly the
    offsets between them. *)
Theorem rangeToTextSpan_inside_text (text : string) (range_start range_end : Position) :
  let span := rangeToTextSpan text range_start range_end in
  (0 <= start span)%Z
  /\ (0 <= span_length span)%Z
  /\ (start span + span_length span <= length text)%Z
  /\ start span = positionToOffset text range_start
  /\ (positionToOffset text range_start <= positionToOffset text range_end ->
      start span + span_length span = positionToOffset text range_end)%Z
  /\ (positionToOffset text range_end < positionToOffset text range_start ->
      span_length span = 0)%Z.
Proof.
  intros span. subst span. unfold rangeToTextSpan. cbn [start span_length].
  pose proof (positionToOffset_bounds text range_start).
  pose proof (positionToOffset_bounds text range_end).
  repeat split; lia.
Qed.

(** ** Display strings *)

Local Open Scope string_scope.

(** [quickInfoToHover] of the hover plugin (vue-script-hover.ts). *)
Definition quickInfoToHover (quickInfo : string) : json :=
  JObj [("contents",
         JObj [("kind", JStr "markdown");
               ("value", JStr ("```ts" ++ String "010"%char ""
                               ++ quickInfo ++ String "010"%char "" ++ "```"))])].

(** A [null] or [undefined] among the contents, at any depth of arrays. *)
Fixpoint has_nullish (contents : json) : bool :=
  match contents with
  | JUndefined | JNull => true
  | JArr items => existsb has_nullish items
  | _ => false
  end.

Lemma prefix_split (p s : string) :
  String.prefix p s = true -> exists r, s = p ++ r.
Proof.
  revert s. induction p as [|a p IH]; intros s H.
  - exists s. reflexivity.
  - destruct s as [|b s]; [discriminate H|].
    cbn [String.prefix] in H. destruct (ascii_dec a b) as [->|]; [|discriminate H].
    destruct (IH _ H) as [r ->]. exists r. reflexivity.
Qed.

Lemma until_fence_absent (q : string) :
  (forall a b : string, q <> a ++ fence ++ b) -> until_fence q = None.
Proof.
  induction q as [|c r IH]; intros H.
  - reflexivity.
  - cbn [until_fence].
    destruct (String.prefix fence (String c r)) eqn:E.
    + destruct (prefix_split E) as [b Hb]. exfalso. exact (H "" b Hb).
    + rewrite IH; [reflexivity|].
      intros a b ->. apply (H (String c a) b). reflexivity.
Qed.

Definition closing : string := String "010"%char "```".

Lemma prefix_fence_closing (s : string) :
  String.prefix fence s = false -> String.prefix fence (s ++ closing) = false.
Proof.
  unfold fence, closing.
  destruct s as [|c1 [|c2 [|c3 r]]]; cbn [String.prefix append];
    repeat match goal with
           | |- context [ascii_dec ?a ?b] => destruct (ascii_dec a b)
           end; try reflexivity; try discriminate; intros H; try discriminate H.
  destruct r; discriminate H.
Qed.

Lemma until_fence_closing (q : string) :
  until_fence q = None ->
  until_fence (q ++ closing) = Some (q ++ String "010"%char "").
Proof.
  induction q as [|c r IH]; intros H.
  - reflexivity.
  - cbn [until_fence] in H.
    destruct (String.prefix fence (String c r)) eqn:E; [discriminate H|].
    destruct (until_fence r) eqn:Er; [discriminate H|].
    change ((String c r) ++ closing) with (String c (r ++ closing)).
    cbn [until_fence].
    change (String c (r ++ closing)) with ((String c r) ++ closing).
    rewrite (prefix_fence_closing E), (IH eq_refl). reflexivity.
Qed.

Lemma substring_all (s : string) : substring 0 (String.length s) s = s.
Proof. induction s as [|c r IH]; cbn [substring String.length]; [reflexivity|now rewrite IH]. Qed.

Lemma trimEnd_line_feed (s : string) :
  trimEnd (s ++ String "010"%char "") = trimEnd s.
Proof.
  induction s as [|c r IH]; [reflexivity|].
  cbn [append trimEnd]. now rewrite IH.
Qed.

Lemma space2_line_feed (a : ascii) : space2 a "010"%char = false.
Proof. unfold space2. apply andb_false_r. Qed.

Lemma space3_line_feed (a b : ascii) : space3 a b "010"%char = false.
Proof.
  unfold space3.
  change (byte 128 "010"%char) with false. change (byte 168 "010"%char) with false.
  change (byte 169 "010"%char) with false. change (byte 175 "010"%char) with false.
  change (byte 159 "010"%char) with false. change (byte 191 "010"%char) with false.
  change ((128 <=? nat_of_ascii "010"%char)%nat) with false.
  cbn [andb orb]. now rewrite !andb_false_r.
Qed.

Lemma trim_line_feed_bounded (n : nat) (s : string) :
  (String.length s <= n)%nat -> trim (s ++ String "010"%char "") = trim s.
Proof.
  unfold trim. revert s. induction n as [|n IH]; intros s Hn.
  - destruct s; [reflexivity|cbn in Hn; lia].
  - destruct s as [|a r]; [reflexivity|].
    cbn [String.length] in Hn. cbn [append trimStart].
    destruct (is_space a); [apply IH; lia|].
    destruct r as [|b r1].
    + cbn [append]. rewrite space2_line_feed.
      exact (trimEnd_line_feed (String a "")).
    + cbn [String.length] in Hn. cbn [append].
      destruct (space2 a b); [apply IH; lia|].
      destruct r1 as [|c r2].
      * cbn [append]. rewrite space3_line_feed.
        exact (trimEnd_line_feed (String a (String b ""))).
      * cbn [String.length] in Hn. cbn [append].
        destruct (space3 a b c); [apply IH; lia|].
        exact (trimEnd_line_feed (String a (String b (String c r2)))).
Qed.

Lemma trim_line_feed (s : string) : trim (s ++ String "010"%char "") = trim s.
Proof. apply (@trim_line_feed_bounded (String.length s)). apply le_n. Qed.

(** X5.  The hover that the hover plugin builds from a quick-info string
    reads back as that string, trimmed, provided the string holds no code
    fence of its own. *)
Theorem quick_info_survives_hover (quickInfo : string)
    (Hfence : forall a b : string, quickInfo <> a ++ fence ++ b) :
  hoverToDisplayString (quickInfoToHover quickInfo) = Ok (Some (trim quickInfo)).
Proof.
  apply until_fence_absent in Hfence.
  unfold hoverToDisplayString, quickInfoToHover.
  cbn [truthy negb field assoc String.eqb Ascii.eqb Bool.eqb contentsToText].
  unfold markdownToDisplayString.
  assert (Hblock : code_block
            ("```ts" ++ String "010"%char "" ++ quickInfo ++ String "010"%char "" ++ "```")
          = Some (quickInfo ++ String "010"%char "")).
  { assert (Hhit : forall s captured,
              code_block_here s = Some captured -> code_block s = Some captured).
    { intros s captured E. destruct s; cbn [code_block]; now rewrite E. }
    apply Hhit. cbn [append]. unfold code_block_here.
    cbn [String.prefix fence String.length Nat.sub substring].
    destruct (ascii_dec "`" "`") as [_|N]; [|now destruct N].
    rewrite substring_all.
    cbn [skip_word].
    change (is_word "t") with true. change (is_word "s") with true.
    change (is_word "010") with false. change (is_newline "010") with true.
    cbn iota.
    exact (until_fence_closing Hfence). }
  rewrite Hblock.
  destruct quickInfo as [|c r].
  - reflexivity.
  - cbn [append].
    change (String c (r ++ String "010"%char ""))
      with ((String c r) ++ String "010"%char "").
    now rewrite trim_line_feed.
Qed.

Lemma until_fence_present (a b : string) :
  until_fence (a ++ fence ++ b) <> None.
Proof.
  induction a as [|c a IH].
  - destruct b; discriminate.
  - change ((String c a) ++ fence ++ b) with (String c (a ++ fence ++ b)).
    cbn [until_fence].
    destruct (String.prefix fence (String c (a ++ fence ++ b))); [discriminate|].
    destruct (until_fence (a ++ fence ++ b)); [discriminate|].
    now destruct IH.
Qed.

(** A quick info that begins with a no-break space and ends with a space. *)
Lemma quick_info_survives_hover_witness :
  let quickInfo := String "194" (String "160" "const count: number ") in
  (forall a b : string, quickInfo <> a ++ fence ++ b)
  /\ hoverToDisplayString (quickInfoToHover quickInfo)
     = Ok (Some "const count: number").
Proof.
  cbv zeta.
  assert (H : forall a b : string,
            String "194" (String "160" "const count: number ") <> a ++ fence ++ b).
  { intros a b E.
    assert (Hn : until_fence (String "194" (String "160" "const count: number "))
                 = None) by reflexivity.
    rewrite E in Hn. exact (until_fence_present Hn). }
  split; [exact H|].
  exact (quick_info_survives_hover H).
Defined.

Lemma contentsToText_throws (contents : json) :
  is_throw (contentsToText contents) = has_nullish contents.
Proof.
  revert contents. fix IH 1.
  intros [ | | b | n | | s | items | fields]; try reflexivity.
  - cbn [contentsToText has_nullish].
    generalize (@nil string).
    induction items as [|x rest IHl]; intros done.
    + reflexivity.
    + cbn [existsb]. rewrite <- (IH x).
      destruct (contentsToText x); cbn [is_throw orb]; [apply IHl|reflexivity].
  - cbn [contentsToText has_nullish]. destruct (assoc "value" fields); reflexivity.
Qed.

(** X6.  [hoverToDisplayString] gives [undefined] for a missing hover and
    throws exactly when the hover is there but its contents, or an element
    of its contents array at any depth, is [null] or [undefined]; in every
    other case it returns a string. *)
Theorem hoverToDisplayString_throws (hover : json) :
  is_throw (hoverToDisplayString hover)
  = truthy hover && has_nullish (field "contents" hover)
  /\ (hoverToDisplayString hover = Ok None <-> truthy hover = false).
Proof.
  unfold hoverToDisplayString.
  pose proof (contentsToText_throws (field "contents" hover)) as H.
  destruct (truthy hover); cbn [negb andb].
  - destruct (contentsToText (field "contents" hover)); cbn [is_throw] in *.
    + split; [exact H|]. split; discriminate.
    + split; [exact H|]. split; discriminate.
  - split; [reflexivity|]. split; reflexivity.
Qed.

End Text.

(* ================================================================== *)
(** * [TsgoLspBackendClient]: the tsgo sidecar with a tsserver fallback *)
(* ================================================================== *)

(** A method of the client is a computation on the client's state that ends
    in a value or a thrown error.  What the sidecar, the fallback client and
    the operating system answer is given by oracles, which may depend on
    everything that has happened so far (the trace). *)
Module Tsgo.

(** [keyof Requests]. *)
Inductive RequestKey : Type :=
| key_vue (m : Requests.VueMethod)
| key_getDocumentHighlights
| key_getEncodedSemanticClassifications
| key_getQuickInfoAtPosition.

Inductive LogLevel : Type := info | warn | error.

Inductive Effect : Type :=
| Spawn (file : string) (args : list string)
| Request (method : string) (params : json)
| Notify (method : string) (params : json)
| FallbackCall (key : RequestKey) (args : list json)
| FallbackProjectInfo (fileName : string)
| FallbackWarmup
| FallbackDispose
| Log (level : LogLevel) (message : string)
| WaiterResolved (waiter : nat) (ready : bool)
| ListenersDisposed
| ConnectionDisposed
| ProcessKilled.

(** The secondary client, as the sidecar client uses it. *)
Record Fallback : Type := {
  fb_call : list Effect -> RequestKey -> list json -> Outcome json;
  fb_getProjectInfo : list Effect -> string -> Outcome (option string);
  fb_warmup : list Effect -> Outcome unit;
  fb_dispose : list Effect -> Outcome unit
}.

(** The constructor arguments and the world outside the client. *)
Record Env : Type := {
  tsgoPath : option string;
  env_VUE_LANGUAGE_SERVER_TSGO_PATH : option string;
  process_pid : Z;
  fallback : option Fallback;
  (** [childProcess.spawn] *)
  spawn : list Effect -> string -> list string -> Outcome unit;
  (** the answer of tsgo to a request *)
  sidecar : list Effect -> string -> json -> Outcome json;
  (** [ts.sys.readFile] *)
  readFile : string -> option string;
  (** [ts.findConfigFile(dir, ts.sys.fileExists, name)] *)
  findConfigFile : string -> string -> option string;
  (** [ts.resolveModuleName(...).resolvedModule?.resolvedFileName] *)
  ts_resolveModuleName : string -> string -> json -> option string;
  (** [ts.readConfigFile] and [ts.parseJsonConfigFileContent]:
      the parsed options, or [None] for [config.error] *)
  readCompilerOptions : string -> option json
}.

Record state : Type := {
  connectionToTsgo : bool;
  tsgoProcess : bool;
  initPromise : option (Outcome unit);
  disposed : bool;
  openDocumentVersions : JsMap.t string Z;
  compilerOptionsCache : JsMap.t string json;
  documentDisposables : bool;
  hoverReady : bool;
  hoverReadyWaiters : list (nat * nat);
  nextWaiter : nat;
  timers : Timers.t nat;
  documents : JsMap.t string SyncedTextDocument;
  trace : list Effect
}.

Definition set_connectionToTsgo (x : bool) (s : state) : state :=
  {| connectionToTsgo := x;
     tsgoProcess := tsgoProcess s;
     initPromise := initPromise s;
     disposed := disposed s;
     openDocumentVersions := openDocumentVersions s;
     compilerOptionsCache := compilerOptionsCache s;
     documentDisposables := documentDisposables s;
     hoverReady := hoverReady s;
     hoverReadyWaiters := hoverReadyWaiters s;
     nextWaiter := nextWaiter s;
     timers := timers s;
     documents := documents s;
     trace := trace s |}.

Definition set_tsgoProcess (x : bool) (s : state) : state :=
  {| connectionToTsgo := connectionToTsgo s;
     tsgoProcess := x;
     initPromise := initPromise s;
     disposed := disposed s;
     openDocumentVersions := openDocumentVersions s;
     compilerOptionsCache := compilerOptionsCache s;
     documentDisposables := documentDisposables s;
     hoverReady := hoverReady s;
     hoverReadyWaiters := hoverReadyWaiters s;
     nextWaiter := nextWaiter s;
     timers := timers s;
     documents := documents s;
     trace := trace s |}.

Definition set_initPromise (x : option (Outcome unit)) (s : state) : state :=
  {| connectionToTsgo := connectionToTsgo s;
     tsgoProcess := tsgoProcess s;
     initPromise := x;
     disposed := disposed s;
     openDocumentVersions := openDocumentVersions s;
     compilerOptionsCache := compilerOptionsCache s;
     documentDisposables := documentDisposables s;
     hoverReady := hoverReady s;
     hoverReadyWaiters := hoverReadyWaiters s;
     nextWaiter := nextWaiter s;
     timers := timers s;
     documents := documents s;
     trace := trace s |}.

Definition set_disposed (x : bool) (s : state) : state :=
  {| connectionToTsgo := connectionToTsgo s;
     tsgoProcess := tsgoProcess s;
     initPromise := initPromise s;
     disposed := x;
     openDocumentVersions := openDocumentVersions s;
     compilerOptionsCache := compilerOptionsCache s;
     documentDisposables := documentDisposables s;
     hoverReady := hoverReady s;
     hoverReadyWaiters := hoverReadyWaiters s;
     nextWaiter := nextWaiter s;
     timers := timers s;
     documents := documents s;
     trace := trace s |}.

Definition set_openDocumentVersions (x : JsMap.t string Z) (s : state) : state :=
  {| connectionToTsgo := connectionToTsgo s;
     tsgoProcess := tsgoProcess s;
     initPromise := initPromise s;
     disposed := disposed s;
     openDocumentVersions := x;
     compilerOptionsCache := compilerOptionsCache s;
     documentDisposables := documentDisposables s;
     hoverReady := hoverReady s;
     hoverReadyWaiters := hoverReadyWaiters s;
     nextWaiter := nextWaiter s;
     timers := timers s;
     documents := documents s;
     trace := trace s |}.

Definition set_compilerOptionsCache (x : JsMap.t string json) (s : state) : state :=
  {| connectionToTsgo := connectionToTsgo s;
     tsgoProcess := tsgoProcess s;
     initPromise := initPromise s;
     disposed := disposed s;
     openDocumentVersions := openDocumentVersions s;
     compilerOptionsCache := x;
     documentDisposables := documentDisposables s;
     hoverReady := hoverReady s;
     hoverReadyWaiters := hoverReadyWaiters s;
     nextWaiter := nextWaiter s;
     timers := timers s;
     documents := documents s;
     trace := trace s |}.

Definition set_documentDisposables (x : bool) (s : state) : state :=
  {| connectionToTsgo := connectionToTsgo s;
     tsgoProcess := tsgoProcess s;
     initPromise := initPromise s;
     disposed := disposed s;
     openDocumentVersions := openDocumentVersions s;
     compilerOptionsCache := compilerOptionsCache s;
     documentDisposables := x;
     hoverReady := hoverReady s;
     hoverReadyWaiters := hoverReadyWaiters s;
     nextWaiter := nextWaiter s;
     timers := timers s;
     documents := documents s;
     trace := trace s |}.

Definition set_hoverReady (x : bool) (s : state) : state :=
  {| connectionToTsgo := connectionToTsgo s;
     tsgoProcess := tsgoProcess s;
     initPromise := initPromise s;
     disposed := disposed s;
     openDocumentVersions := openDocumentVersions s;
     compilerOptionsCache := compilerOptionsCache s;
     documentDisposables := documentDisposables s;
     hoverReady := x;
     hoverReadyWaiters := hoverReadyWaiters s;
     nextWaiter := nextWaiter s;
     timers := timers s;
     documents := documents s;
     trace := trace s |}.

Definition set_hoverReadyWaiters (x : list (nat * nat)) (s : state) : state :=
  {| connectionToTsgo := connectionToTsgo s;
     tsgoProcess := tsgoProcess s;
     initPromise := initPromise s;
     disposed := disposed s;
     openDocumentVersions := openDocumentVersions s;
     compilerOptionsCache := compilerOptionsCache s;
     documentDisposables := documentDisposables s;
     hoverReady := hoverReady s;
     hoverReadyWaiters := x;
     nextWaiter := nextWaiter s;
     timers := timers s;
     documents := documents s;
     trace := trace s |}.

Definition set_nextWaiter (x : nat) (s : state) : state :=
  {| connectionToTsgo := connectionToTsgo s;
     tsgoProcess := tsgoProcess s;
     initPromise := initPromise s;
     disposed := disposed s;
     openDocumentVersions := openDocumentVersions s;
     compilerOptionsCache := compilerOptionsCache s;
     documentDisposables := documentDisposables s;
     hoverReady := hoverReady s;
     hoverReadyWaiters := hoverReadyWaiters s;
     nextWaiter := x;
     timers := timers s;
     documents := documents s;
     trace := trace s |}.

Definition set_timers (x : Timers.t nat) (s : state) : state :=
  {| connectionToTsgo := connectionToTsgo s;
     tsgoProcess := tsgoProcess s;
     initPromise := initPromise s;
     disposed := disposed s;
     openDocumentVersions := openDocumentVersions s;
     compilerOptionsCache := compilerOptionsCache s;
     documentDisposables := documentDisposables s;
     hoverReady := hoverReady s;
     hoverReadyWaiters := hoverReadyWaiters s;
     nextWaiter := nextWaiter s;
     timers := x;
     documents := documents s;
     trace := trace s |}.

Definition set_documents (x : JsMap.t string SyncedTextDocument) (s : state) : state :=
  {| connectionToTsgo := connectionToTsgo s;
     tsgoProcess := tsgoProcess s;
     initPromise := initPromise s;
     disposed := disposed s;
     openDocumentVersions := openDocumentVersions s;
     compilerOptionsCache := compilerOptionsCache s;
     documentDisposables := documentDisposables s;
     hoverReady := hoverReady s;
     hoverReadyWaiters := hoverReadyWaiters s;
     nextWaiter := nextWaiter s;
     timers := timers s;
     documents := x;
     trace := trace s |}.

Definition log_effect (e : Effect) (s : state) : state :=
  {| connectionToTsgo := connectionToTsgo s;
     tsgoProcess := tsgoProcess s;
     initPromise := initPromise s;
     disposed := disposed s;
     openDocumentVersions := openDocumentVersions s;
     compilerOptionsCache := compilerOptionsCache s;
     documentDisposables := documentDisposables s;
     hoverReady := hoverReady s;
     hoverReadyWaiters := hoverReadyWaiters s;
     nextWaiter := nextWaiter s;
     timers := timers s;
     documents := documents s;
     trace := trace s ++ [e] |}.

(** [new TsgoLspBackendClient(...)]: the listeners on the document store are
    registered, nothing is started. *)
Definition create (documents : JsMap.t string SyncedTextDocument) : state :=
  {| connectionToTsgo := false;
     tsgoProcess := false;
     initPromise := None;
     disposed := false;
     openDocumentVersions := [];
     compilerOptionsCache := [];
     documentDisposables := true;
     hoverReady := false;
     hoverReadyWaiters := [];
     nextWaiter := 0;
     timers := Timers.empty nat;
     documents := documents;
     trace := [] |}.

(** ** Computations *)

Definition M (A : Type) : Type := state -> Outcome A * state.

Definition ret {A} (a : A) : M A := fun s => (Ok a, s).

Definition bind {A B} (m : M A) (k : A -> M B) : M B :=
  fun s => match m s with
           | (Ok a, s') => k a s'
           | (Throw message, s') => (Throw message, s')
           end.

Definition try_catch {A} (m : M A) (handler : string -> M A) : M A :=
  fun s => match m s with
           | (Ok a, s') => (Ok a, s')
           | (Throw message, s') => handler message s'
           end.

Definition lift {A} (o : Outcome A) : M A := fun s => (o, s).
Definition gets {A} (f : state -> A) : M A := fun s => (Ok (f s), s).
Definition modify (f : state -> state) : M unit := fun s => (Ok tt, f s).
Definition emit (e : Effect) : M unit := modify (log_effect e).

Declare Scope tsgo_scope.
Delimit Scope tsgo_scope with tsgo.
Notation "x <- m ;; k" := (bind m (fun x => k))
  (at level 61, m at next level, right associativity) : tsgo_scope.
Notation "m ;; k" := (bind m (fun _ => k))
  (at level 61, right associativity) : tsgo_scope.
Open Scope tsgo_scope.

Section WithEnv.
Context {host : Host}.
Variable env : Env.

(** ** File kinds *)

Definition tsgoSupportedExtensions : list string :=
  [".ts"; ".tsx"; ".mts"; ".cts"; ".js"; ".jsx"; ".mjs"; ".cjs"; ".d.ts"].

Definition supportsTsgoFile (fileName : string) : bool :=
  let extname := toLowerCase (path_extname fileName) in
  if existsb (String.eqb extname) tsgoSupportedExtensions then true
  else endsWith fileName ".d.ts".

Definition languageIdForFile (fileName fallbackLanguageId : string) : string :=
  let extname := toLowerCase (path_extname fileName) in
  if (extname =? ".ts") || (extname =? ".mts") || (extname =? ".cts")
     || (extname =? ".d.ts") then "typescript"
  else if extname =? ".tsx" then "typescriptreact"
  else if (extname =? ".js") || (extname =? ".mjs") || (extname =? ".cjs")
  then "javascript"
  else if extname =? ".jsx" then "javascriptreact"
  else fallbackLanguageId.

(** ** Document synchronisation *)

Definition didOpen (fileName : string) (document : SyncedTextDocument) : Effect :=
  Notify "textDocument/didOpen"
    (JObj [("textDocument",
            JObj [("uri", JStr (URI_file fileName));
                  ("languageId", JStr (languageIdForFile fileName (languageId document)));
                  ("version", JNum (version document));
                  ("text", JStr (getText document))])]).

Definition didChange (fileName : string) (document : SyncedTextDocument) : Effect :=
  Notify "textDocument/didChange"
    (JObj [("textDocument",
            JObj [("uri", JStr (URI_file fileName));
                  ("version", JNum (version document))]);
           ("contentChanges", JArr [JObj [("text", JStr (getText document))]])]).

Definition didClose (fileName : string) : Effect :=
  Notify "textDocument/didClose"
    (JObj [("textDocument", JObj [("uri", JStr (URI_file fileName))])]).

Definition syncOpenDocument (document : SyncedTextDocument) : M unit :=
  fun s =>
    if negb (connectionToTsgo s) then (Ok tt, s)
    else
      let uri := URI_parse (uri document) in
      if negb (scheme uri =? "file") then (Ok tt, s)
      else
        let fileName := normalizeFileName (fsPath uri) in
        if negb (supportsTsgoFile fileName) then (Ok tt, s)
        else
          let currentVersion := version document in
          match JsMap.get String.eqb fileName (openDocumentVersions s) with
          | None =>
              (Ok tt,
               set_openDocumentVersions
                 (JsMap.set String.eqb fileName currentVersion (openDocumentVersions s))
                 (log_effect (didOpen fileName document) s))
          | Some trackedVersion =>
              if negb (trackedVersion =? currentVersion)%Z then
                (Ok tt,
                 set_openDocumentVersions
                   (JsMap.set String.eqb fileName currentVersion (openDocumentVersions s))
                   (log_effect (didChange fileName document) s))
              else (Ok tt, s)
          end.

Definition syncClosedDocument (uriString : string) : M unit :=
  fun s =>
    if negb (connectionToTsgo s) then (Ok tt, s)
    else
      let uri := URI_parse uriString in
      if negb (scheme uri =? "file") then (Ok tt, s)
      else
        let fileName := normalizeFileName (fsPath uri) in
        if negb (JsMap.has String.eqb fileName (openDocumentVersions s)) then (Ok tt, s)
        else
          (Ok tt,
           set_openDocumentVersions
             (JsMap.delete String.eqb fileName (openDocumentVersions s))
             (log_effect (didClose fileName) s)).

Definition syncOpenDocumentByUri (uriString : string) : M unit :=
  fun s =>
    match JsMap.get String.eqb uriString (documents s) with
    | Some document => syncOpenDocument document s
    | None => (Ok tt, s)
    end.

Fixpoint for_each {A} (f : A -> M unit) (l : list A) : M unit :=
  match l with
  | [] => ret tt
  | x :: rest => f x ;; for_each f rest
  end.

(** ** Starting the sidecar *)

Definition start : M unit :=
  d <- gets disposed ;;
  if d then ret tt
  else
    let path := Selector.default (tsgoPath env)
                  (Selector.default (env_VUE_LANGUAGE_SERVER_TSGO_PATH env) "tsgo") in
    t <- gets trace ;;
    emit (Spawn path ["--lsp"; "--stdio"]) ;;
    lift (spawn env t path ["--lsp"; "--stdio"]) ;;
    modify (set_tsgoProcess true) ;;
    modify (set_connectionToTsgo true) ;;
    let params :=
      JObj [("processId", JNum (process_pid env)); ("rootUri", JNull);
            ("capabilities", JObj []);
            ("workspaceFolders", JNull);
            ("clientInfo", JObj [("name", JStr "@vue/language-server")])] in
    t <- gets trace ;;
    emit (Request "initialize" params) ;;
    lift (sidecar env t "initialize" params) ;;
    emit (Notify "initialized" (JObj [])) ;;
    emit (Log info "[vue-ls] tsgo backend initialized") ;;
    docs <- gets documents ;;
    for_each syncOpenDocument (JsMap.values docs).

(** [this.initPromise ??= this.start(); await this.initPromise]. *)
Definition ensureStarted : M unit :=
  fun s =>
    match initPromise s with
    | Some outcome => (outcome, s)
    | None =>
        let '(outcome, s') := start s in
        (outcome, set_initPromise (Some outcome) s')
    end.

Definition sendLspRequest (method : string) (params : json) : M json :=
  try_catch
    (ensureStarted ;;
     connected <- gets connectionToTsgo ;;
     if negb connected then ret JNull
     else
       (match field "uri" (field "textDocument" params) with
        | JStr u => if u =? "" then ret tt else syncOpenDocumentByUri u
        | _ => ret tt
        end) ;;
       t <- gets trace ;;
       emit (Request method params) ;;
       lift (sidecar env t method params))
    (fun message =>
       emit (Log warn ("[vue-ls][tsgo] request failed for " ++ method ++ ": "
                         ++ message)%string) ;;
       ret JNull).

(** ** The fallback client *)

Definition key_name (k : RequestKey) : string :=
  match k with
  | key_vue m => Requests.method_name m
  | key_getDocumentHighlights => "getDocumentHighlights"
  | key_getEncodedSemanticClassifications => "getEncodedSemanticClassifications"
  | key_getQuickInfoAtPosition => "getQuickInfoAtPosition"
  end.

(** [callFallback]: the promise of the fallback is returned as it is. *)
Definition callFallback (method : RequestKey) (args : list json) : M json :=
  match fallback env with
  | None => ret JUndefined
  | Some fb =>
      t <- gets trace ;;
      emit (FallbackCall method args) ;;
      lift (fb_call fb t method args)
  end.

Definition callFallbackValue (method : RequestKey) (args : list json) : M json :=
  match fallback env with
  | None => ret JUndefined
  | Some fb =>
      try_catch
        (t <- gets trace ;;
         emit (FallbackCall method args) ;;
         result <- lift (fb_call fb t method args) ;;
         ret (coalesce result JUndefined))
        (fun message =>
           emit (Log warn ("[vue-ls][tsgo] fallback request failed for "
                             ++ key_name method ++ ": " ++ message)%string) ;;
           ret JUndefined)
  end.

Definition callFallbackProjectInfo (fileName : string) : M (option string) :=
  match fallback env with
  | None => ret None
  | Some fb =>
      try_catch
        (t <- gets trace ;;
         emit (FallbackProjectInfo fileName) ;;
         lift (fb_getProjectInfo fb t fileName))
        (fun message =>
           emit (Log warn ("[vue-ls][tsgo] fallback getProjectInfo failed: "
                             ++ message)%string) ;;
           ret None)
  end.

(** ** Project information *)

(** [s.replace(/\/+$/, '')]. *)
Fixpoint strip_trailing_slashes (s : string) : string :=
  match s with
  | EmptyString => EmptyString
  | String c r =>
      match strip_trailing_slashes r with
      | EmptyString => if Ascii.eqb c "/"%char then EmptyString else String c EmptyString
      | r' => String c r'
      end
  end.

Definition isFileInDirectory (fileName directory : string) : bool :=
  let normalizedFileName := normalizeFileName fileName in
  let normalizedDirectory := strip_trailing_slashes (normalizeFileName directory) in
  if normalizedFileName =? normalizedDirectory then true
  else startsWith normalizedFileName (normalizedDirectory ++ "/")%string.

(** [Array.prototype.sort] with the comparator [(a, b) => key(b) - key(a)]:
    a stable sort by decreasing key. *)
Fixpoint insert_desc {A} (key : A -> nat) (x : A) (sorted : list A) : list A :=
  match sorted with
  | [] => [x]
  | y :: rest =>
      if (key x <? key y)%nat then y :: insert_desc key x rest
      else x :: y :: rest
  end.

Definition sort_desc {A} (key : A -> nat) (l : list A) : list A :=
  fold_right (insert_desc key) [] l.

(** What the two upward searches found, normalised. *)
Definition config_candidates (dir : string) : list string :=
  map normalizeFileName
      (flat_map (fun found => match found with
                              | Some entry => if entry =? "" then [] else [entry]
                              | None => []
                              end)
                [findConfigFile env dir "tsconfig.json";
                 findConfigFile env dir "jsconfig.json"]).

Definition findClosestConfig (fileName : string) : option string :=
  let normalized := normalizeFileName fileName in
  let dir := path_dirname normalized in
  let candidates := config_candidates dir in
  match candidates with
  | [] => None
  | _ :: _ =>
      let containing :=
        sort_desc (fun configPath => String.length (path_dirname configPath))
                  (filter (fun configPath =>
                             isFileInDirectory normalized (path_dirname configPath))
                          candidates) in
      match containing with
      | first :: _ => Some first
      | [] =>
          match sort_desc String.length candidates with
          | first :: _ => Some first
          | [] => None
          end
      end
  end.

Definition getProjectInfo (fileName : string) : M (option string) :=
  let normalizedFileName := normalizeFileName fileName in
  match findClosestConfig normalizedFileName with
  | Some configFileName =>
      if configFileName =? "" then callFallbackProjectInfo fileName
      else ret (Some configFileName)
  | None => callFallbackProjectInfo fileName
  end.

Definition getCompilerOptions (fileName : string) : M json :=
  match findClosestConfig fileName with
  | None => ret (JObj [])
  | Some configFileName =>
      if configFileName =? "" then ret (JObj [])
      else
        cache <- gets compilerOptionsCache ;;
        match JsMap.get String.eqb configFileName cache with
        | Some cached => if truthy cached then ret cached else
            match readCompilerOptions env configFileName with
            | None => ret (JObj [])
            | Some options =>
                modify (set_compilerOptionsCache
                          (JsMap.set String.eqb configFileName options cache)) ;;
                ret options
            end
        | None =>
            match readCompilerOptions env configFileName with
            | None => ret (JObj [])
            | Some options =>
                modify (set_compilerOptionsCache
                          (JsMap.set String.eqb configFileName options cache)) ;;
                ret options
            end
        end
  end.

Definition getFileText (fileName : string) (s : state) : option string :=
  match JsMap.get String.eqb (URI_file fileName) (documents s) with
  | Some openDocument => Some (getText openDocument)
  | None => readFile env fileName
  end.

(** ** Hover readiness *)

(** [finish(ready)] of waiter [w], whose timer is [tm]. *)
Definition finish (w tm : nat) (ready : bool) (s : state) : state :=
  log_effect (WaiterResolved w ready)
    (set_timers (Timers.clearTimeout tm (timers s))
       (set_hoverReadyWaiters
          (filter (fun x => negb (fst x =? w)%nat) (hoverReadyWaiters s)) s)).

Definition resolveHoverReadyWaiters (ready : bool) (s : state) : state :=
  match hoverReadyWaiters s with
  | [] => s
  | waiters =>
      fold_left (fun s w => finish (fst w) (snd w) ready s) waiters
                (set_hoverReadyWaiters [] s)
  end.

Definition markHoverReady (s : state) : state :=
  if hoverReady s then s
  else resolveHoverReadyWaiters true (set_hoverReady true s).

(** [awaitReadyForHover(timeoutMs)]: the call is given the next waiter
    number; it either resolves at once or registers the waiter. *)
Definition awaitReadyForHover (timeoutMs : Z) (s : state) : nat * state :=
  let w := nextWaiter s in
  let s := set_nextWaiter (S w) s in
  if hoverReady s then (w, log_effect (WaiterResolved w true) s)
  else if disposed s then (w, log_effect (WaiterResolved w false) s)
  else if (timeoutMs <=? 0)%Z then (w, log_effect (WaiterResolved w false) s)
  else
    let '(tm, q) := Timers.setTimeout w timeoutMs (timers s) in
    (w, set_hoverReadyWaiters (hoverReadyWaiters s ++ [(w, tm)]) (set_timers q s)).

(** The timer of waiter [w] runs: [finish(false)]. *)
Definition onWaiterTimeout (tm : nat) (s : state) : state :=
  match Timers.take tm (timers s) with
  | Some (x, q) => finish (Timers.callback x) tm false (set_timers q s)
  | None => s
  end.

(** ** The request surface *)

Definition position_json (p : Text.Position) : json :=
  JObj [("line", JNum (Text.line p)); ("character", JNum (Text.character p))].

(** An offset that arithmetic produced: [None] is [NaN]. *)
Definition offset_json (offset : option Z) : json :=
  match offset with
  | Some n => JNum n
  | None => JNaN
  end.

(** [positionToOffset(text, position)] for a position as the sidecar sent
    it: reading [position.line] throws when the position is [null] or
    [undefined]; [Math.max(0, x)] converts [x] to a number. *)
Definition positionToOffset (text : string) (position : json) : Outcome (option Z) :=
  and_then (read "line" position) (fun line =>
  and_then (ToNumber line) (fun line =>
    let index :=
      match max_zero line with
      | Int targetLine => Text.skip_lines text 0 0 targetLine
      | Infinity _ => Text.length text
      | NaN => 0%Z
      end in
    and_then (ToNumber (field "character" position)) (fun character =>
      Ok (match max_zero character with
          | Int character => Some (Z.min (Text.length text) (index + character))
          | Infinity _ => Some (Text.length text)
          | NaN => None
          end)))).

(** [rangeToTextSpan(text, range)]: [{ start, length: Math.max(0, end - start) }]. *)
Definition rangeToTextSpan (text : string) (range : json) : Outcome json :=
  and_then (read "start" range) (fun start_position =>
  and_then (positionToOffset text start_position) (fun start =>
  and_then (positionToOffset text (field "end" range)) (fun end_ =>
    Ok (JObj [("start", offset_json start);
              ("length",
               offset_json (match start, end_ with
                            | Some start, Some end_ => Some (Z.max 0 (end_ - start))
                            | _, _ => None
                            end))])))).

(** One element of [response.map(item => ...)]:
    [{ textSpan: rangeToTextSpan(text, item.range),
       kind: documentHighlightKindToTs(item.kind) }]. *)
Definition highlightSpan (text : string) (item : json) : Outcome json :=
  and_then (read "range" item) (fun range =>
  and_then (rangeToTextSpan text range) (fun textSpan =>
    Ok (JObj [("textSpan", textSpan);
              ("kind", JStr (Text.documentHighlightKindToTs (field "kind" item)))]))).

Fixpoint highlightSpans (text : string) (items : list json) : Outcome (list json) :=
  match items with
  | [] => Ok []
  | item :: rest =>
      match highlightSpan text item, highlightSpans text rest with
      | Ok x, Ok xs => Ok (x :: xs)
      | Throw message, _ => Throw message
      | _, Throw message => Throw message
      end
  end.

(** [response?.length] is truthy: an array or a string that is not empty,
    or an object with a truthy [length]. *)
Definition has_length (response : json) : bool :=
  match response with
  | JArr items => match items with [] => false | _ :: _ => true end
  | JStr s => negb (s =? "")
  | _ => truthy (field "length" response)
  end.

(** [response.map(item => ...)]: only an array has [map]. *)
Definition map_highlights (text : string) (response : json) : Outcome (list json) :=
  match response with
  | JArr items => highlightSpans text items
  | _ => Throw "TypeError: response.map is not a function"
  end.

(** The part of [getDocumentHighlights] that asks the sidecar: [Some] is
    the value the method returns from inside its [if], [None] means that
    control reaches the fallback call. *)
Definition highlightsBySidecar (fileName : string) (position : Z) : M (option json) :=
  if supportsTsgoFile fileName then
    text0 <- gets (getFileText fileName) ;;
    let lspPosition := Text.offsetToPosition (Selector.default text0 "") position in
    response <- sendLspRequest "textDocument/documentHighlight"
                  (JObj [("textDocument", JObj [("uri", JStr (URI_file fileName))]);
                         ("position", position_json lspPosition)]) ;;
    if has_length response then
      text <- gets (getFileText fileName) ;;
      match text with
      | Some text =>
          spans <- lift (map_highlights text response) ;;
          ret (Some (JArr [JObj [("fileName", JStr fileName);
                                 ("highlightSpans", JArr spans)]]))
      | None => ret None
      end
    else ret None
  else ret None.

Definition getDocumentHighlights (fileName : string) (position : Z) : M json :=
  own <- highlightsBySidecar fileName position ;;
  match own with
  | Some result => ret result
  | None => callFallbackValue key_getDocumentHighlights [JStr fileName; JNum position]
  end.

(** The part of [getQuickInfoAtPosition] that asks the sidecar. *)
Definition quickInfoBySidecar (fileName : string) (position : Text.Position)
  : M (option json) :=
  if supportsTsgoFile fileName then
    response <- sendLspRequest "textDocument/hover"
                  (JObj [("textDocument", JObj [("uri", JStr (URI_file fileName))]);
                         ("position", position_json position)]) ;;
    display <- lift (Text.hoverToDisplayString response) ;;
    match display with
    | Some text => if text =? "" then ret None else ret (Some (JStr text))
    | None => ret None
    end
  else ret None.

Definition getQuickInfoAtPosition (fileName : string) (position : Text.Position)
  : M json :=
  modify markHoverReady ;;
  own <- quickInfoBySidecar fileName position ;;
  match own with
  | Some display => ret display
  | None => callFallbackValue key_getQuickInfoAtPosition
                              [JStr fileName; position_json position]
  end.

(** The part of [resolveModuleName] that resolves with the TypeScript
    library inside the server process. *)
Definition moduleBySidecar (fileName moduleName : string) : M (option json) :=
  if supportsTsgoFile fileName then
    compilerOptions <- getCompilerOptions fileName ;;
    match ts_resolveModuleName env moduleName fileName compilerOptions with
    | Some resolvedFileName =>
        let resolved := backslashes_to_slashes resolvedFileName in
        if resolved =? "" then ret None else ret (Some (JStr resolved))
    | None => ret None
    end
  else ret None.

Definition resolveModuleName (fileName moduleName : string) : M json :=
  own <- moduleBySidecar fileName moduleName ;;
  match own with
  | Some resolved => ret resolved
  | None => callFallbackValue (key_vue Requests.resolveModuleName)
                              [JStr fileName; JStr moduleName]
  end.

(** The methods that only forward: [return this.callFallback(name, ...args)]. *)
Definition forward (key : RequestKey) (args : list json) : M json :=
  callFallback key args.

(** [primeTsgoHover], the hover probe of the warmup. *)
Definition primeTsgoHover (fileName : string) (position : Text.Position) : M bool :=
  response <- sendLspRequest "textDocument/hover"
                (JObj [("textDocument", JObj [("uri", JStr (URI_file fileName))]);
                       ("position", position_json position)]) ;;
  display <- lift (Text.hoverToDisplayString response) ;;
  match display with
  | Some text => ret (negb (text =? ""))
  | None => ret false
  end.

Definition dispose : M unit :=
  modify (set_disposed true) ;;
  emit ListenersDisposed ;;
  modify (set_documentDisposables false) ;;
  modify (set_openDocumentVersions []) ;;
  modify (resolveHoverReadyWaiters false) ;;
  connected <- gets connectionToTsgo ;;
  (if connected then emit ConnectionDisposed ;; modify (set_connectionToTsgo false)
   else ret tt) ;;
  process <- gets tsgoProcess ;;
  (if process then emit ProcessKilled ;; modify (set_tsgoProcess false) else ret tt) ;;
  match fallback env with
  | Some fb =>
      t <- gets trace ;;
      emit FallbackDispose ;;
      lift (fb_dispose fb t)
  | None => ret tt
  end.

(** ** The client on the event loop *)

Inductive event : Type :=
| AwaitReadyForHover (timeoutMs : Z)
| GetQuickInfoAtPosition (fileName : string) (position : Text.Position)
| GetDocumentHighlights (fileName : string) (position : Z)
| ResolveModuleName (fileName moduleName : string)
| GetProjectInfo (fileName : string)
| Forward (key : RequestKey) (args : list json)
| PrimeTsgoHover (fileName : string) (position : Text.Position)
| Dispose
| Advance (d : Z)
| DidOpen (document : SyncedTextDocument)
| DidChangeContent (document : SyncedTextDocument)
| DidClose (uri : string).

Fixpoint run_timers (ids : list nat) (s : state) : state :=
  match ids with
  | [] => s
  | id :: rest => run_timers rest (onWaiterTimeout id s)
  end.

Definition exec {A} (m : M A) (s : state) : state := snd (m s).

Definition step (s : state) (e : event) : state :=
  match e with
  | AwaitReadyForHover timeoutMs => snd (awaitReadyForHover timeoutMs s)
  | GetQuickInfoAtPosition fileName position =>
      exec (getQuickInfoAtPosition fileName position) s
  | GetDocumentHighlights fileName position =>
      exec (getDocumentHighlights fileName position) s
  | ResolveModuleName fileName moduleName =>
      exec (resolveModuleName fileName moduleName) s
  | GetProjectInfo fileName => exec (getProjectInfo fileName) s
  | Forward key args => exec (forward key args) s
  | PrimeTsgoHover fileName position => exec (primeTsgoHover fileName position) s
  | Dispose => exec dispose s
  | Advance d =>
      let q := Timers.tick d (timers s) in
      run_timers (Timers.due q) (set_timers q s)
  | DidOpen document =>
      let s1 := set_documents
                  (JsMap.set String.eqb (uri document) document (documents s)) s in
      if documentDisposables s1 then exec (syncOpenDocument document) s1 else s1
  | DidChangeContent document =>
      let s1 := set_documents
                  (JsMap.set String.eqb (uri document) document (documents s)) s in
      if documentDisposables s1 then exec (syncOpenDocument document) s1 else s1
  | DidClose u =>
      let s1 := set_documents (JsMap.delete String.eqb u (documents s)) s in
      if documentDisposables s1 then exec (syncClosedDocument u) s1 else s1
  end.

Definition run (events : list event) (s : state) : state := fold_left step events s.

(** ** What a computation leaves alone *)

(** [m] takes every state to one that is [R]-related to it. *)
Definition preserves {A} (R : state -> state -> Prop) (m : M A) : Prop :=
  forall s, R s (snd (m s)).

(** A relation that the steps of the request path respect: what they
    write to the trace, and the fields they assign. *)
Class Frame (R : state -> state -> Prop) : Prop := {
  frame_refl : forall s, R s s;
  frame_trans : forall s1 s2 s3, R s1 s2 -> R s2 s3 -> R s1 s3;
  frame_notify : forall method params s, R s (log_effect (Notify method params) s);
  frame_request : forall method params s, R s (log_effect (Request method params) s);
  frame_spawn : forall file args s, R s (log_effect (Spawn file args) s);
  frame_log : forall level message s, R s (log_effect (Log level message) s);
  frame_tsgoProcess : forall x s, R s (set_tsgoProcess x s);
  frame_connectionToTsgo : forall x s, R s (set_connectionToTsgo x s);
  frame_initPromise : forall x s, R s (set_initPromise x s);
  frame_openDocumentVersions : forall x s, R s (set_openDocumentVersions x s);
  frame_compilerOptionsCache : forall x s, R s (set_compilerOptionsCache x s);
  frame_documents : forall x s, R s (set_documents x s)
}.

Section Preserves.
Context {R : state -> state -> Prop} {frame : Frame R}.

Lemma preserves_ret {A} (a : A) : preserves R (ret a).
Proof. intro s. apply frame_refl. Qed.

Lemma preserves_lift {A} (o : Outcome A) : preserves R (lift o).
Proof. intro s. apply frame_refl. Qed.

Lemma preserves_gets {A} (f : state -> A) : preserves R (gets f).
Proof. intro s. apply frame_refl. Qed.

Lemma preserves_modify (f : state -> state) :
  (forall s, R s (f s)) -> preserves R (modify f).
Proof. intros Hf s. apply Hf. Qed.

Lemma preserves_bind {A B} (m : M A) (k : A -> M B) :
  preserves R m -> (forall a, preserves R (k a)) -> preserves R (bind m k).
Proof.
  intros Hm Hk s. unfold bind. specialize (Hm s).
  destruct (m s) as [[a|msg] s1]; cbn [snd] in *; [|exact Hm].
  exact (frame_trans Hm (Hk a s1)).
Qed.

Lemma preserves_try_catch {A} (m : M A) (h : string -> M A) :
  preserves R m -> (forall msg, preserves R (h msg)) -> preserves R (try_catch m h).
Proof.
  intros Hm Hh s. unfold try_catch. specialize (Hm s).
  destruct (m s) as [[a|msg] s1]; cbn [snd] in *; [exact Hm|].
  exact (frame_trans Hm (Hh msg s1)).
Qed.

Lemma preserves_for_each {A} (f : A -> M unit) (l : list A) :
  (forall a, preserves R (f a)) -> preserves R (for_each f l).
Proof.
  intro Hf. induction l as [|x l IH]; cbn [for_each].
  - apply preserves_ret.
  - apply preserves_bind; [apply Hf|intro; exact IH].
Qed.

Lemma preserves_syncOpenDocument (document : SyncedTextDocument) :
  preserves R (syncOpenDocument document).
Proof.
  intro s. unfold syncOpenDocument.
  destruct (negb (connectionToTsgo s)); [apply frame_refl|].
  destruct (negb (scheme _ =? "file")); [apply frame_refl|].
  destruct (negb (supportsTsgoFile _)); [apply frame_refl|].
  destruct (JsMap.get _ _ _) as [tracked|]; [destruct (negb _); [|apply frame_refl]|];
    cbn [snd]; (eapply frame_trans; [apply frame_notify|apply frame_openDocumentVersions]).
Qed.

Lemma preserves_syncOpenDocumentByUri (u : string) :
  preserves R (syncOpenDocumentByUri u).
Proof.
  intro s. unfold syncOpenDocumentByUri.
  destruct (JsMap.get _ _ _); [apply preserves_syncOpenDocument|apply frame_refl].
Qed.

Lemma preserves_start : preserves R start.
Proof.
  unfold start. apply preserves_bind; [apply preserves_gets|].
  intros [|]; [apply preserves_ret|].
  apply preserves_bind; [apply preserves_gets|]. intro t.
  apply preserves_bind; [apply preserves_modify, frame_spawn|]. intros _.
  apply preserves_bind; [apply preserves_lift|]. intros _.
  apply preserves_bind; [apply preserves_modify, frame_tsgoProcess|]. intros _.
  apply preserves_bind; [apply preserves_modify, frame_connectionToTsgo|]. intros _.
  apply preserves_bind; [apply preserves_gets|]. intro t'.
  apply preserves_bind; [apply preserves_modify, frame_request|]. intros _.
  apply preserves_bind; [apply preserves_lift|]. intros _.
  apply preserves_bind; [apply preserves_modify, frame_notify|]. intros _.
  apply preserves_bind; [apply preserves_modify, frame_log|]. intros _.
  apply preserves_bind; [apply preserves_gets|]. intro docs.
  apply preserves_for_each. apply preserves_syncOpenDocument.
Qed.

Lemma preserves_ensureStarted : preserves R ensureStarted.
Proof.
  intro s. unfold ensureStarted. destruct (initPromise s); [apply frame_refl|].
  pose proof (preserves_start s) as Hs.
  destruct (start s) as [o s']. cbn [snd] in *.
  exact (frame_trans Hs (frame_initPromise _ _)).
Qed.

Lemma preserves_sendLspRequest (method : string) (params : json) :
  preserves R (sendLspRequest method params).
Proof.
  unfold sendLspRequest. apply preserves_try_catch.
  - apply preserves_bind; [apply preserves_ensureStarted|]. intros _.
    apply preserves_bind; [apply preserves_gets|]. intro connected.
    destruct (negb connected); [apply preserves_ret|].
    apply preserves_bind.
    + destruct (field "uri" _); try apply preserves_ret.
      destruct (s =? ""); [apply preserves_ret|apply preserves_syncOpenDocumentByUri].
    + intros _. apply preserves_bind; [apply preserves_gets|]. intro t.
      apply preserves_bind; [apply preserves_modify, frame_request|]. intros _.
      apply preserves_lift.
  - intro msg. apply preserves_bind; [apply preserves_modify, frame_log|]. intros _.
    apply preserves_ret.
Qed.

Lemma preserves_getCompilerOptions (fileName : string) :
  preserves R (getCompilerOptions fileName).
Proof.
  unfold getCompilerOptions.
  destruct (findClosestConfig fileName) as [c|]; [|apply preserves_ret].
  destruct (c =? ""); [apply preserves_ret|].
  apply preserves_bind; [apply preserves_gets|]. intro cache.
  destruct (JsMap.get _ _ cache) as [cached|].
  - destruct (truthy cached); [apply preserves_ret|].
    destruct (readCompilerOptions env c); [|apply preserves_ret].
    apply preserves_bind; [apply preserves_modify, frame_compilerOptionsCache|].
    intros _. apply preserves_ret.
  - destruct (readCompilerOptions env c); [|apply preserves_ret].
    apply preserves_bind; [apply preserves_modify, frame_compilerOptionsCache|].
    intros _. apply preserves_ret.
Qed.

Lemma preserves_highlightsBySidecar (fileName : string) (position : Z) :
  preserves R (highlightsBySidecar fileName position).
Proof.
  unfold highlightsBySidecar. destruct (supportsTsgoFile fileName); [|apply preserves_ret].
  apply preserves_bind; [apply preserves_gets|]. intro text0.
  apply preserves_bind; [apply preserves_sendLspRequest|]. intro response.
  destruct (has_length response); [|apply preserves_ret].
  apply preserves_bind; [apply preserves_gets|]. intros [text|]; [|apply preserves_ret].
  apply preserves_bind; [apply preserves_lift|]. intro. apply preserves_ret.
Qed.

Lemma preserves_quickInfoBySidecar (fileName : string) (position : Text.Position) :
  preserves R (quickInfoBySidecar fileName position).
Proof.
  unfold quickInfoBySidecar. destruct (supportsTsgoFile fileName); [|apply preserves_ret].
  apply preserves_bind; [apply preserves_sendLspRequest|]. intro response.
  apply preserves_bind; [apply preserves_lift|]. intros [text|]; [|apply preserves_ret].
  destruct (text =? ""); apply preserves_ret.
Qed.

Lemma preserves_moduleBySidecar (fileName moduleName : string) :
  preserves R (moduleBySidecar fileName moduleName).
Proof.
  unfold moduleBySidecar. destruct (supportsTsgoFile fileName); [|apply preserves_ret].
  apply preserves_bind; [apply preserves_getCompilerOptions|]. intro options.
  destruct (ts_resolveModuleName env _ _ _) as [r|]; [|apply preserves_ret].
  destruct (_ =? ""); apply preserves_ret.
Qed.

Lemma preserves_syncClosedDocument (u : string) :
  preserves R (syncClosedDocument u).
Proof.
  intro s. unfold syncClosedDocument.
  destruct (negb (connectionToTsgo s)); [apply frame_refl|].
  destruct (negb (scheme _ =? "file")); [apply frame_refl|].
  destruct (negb (JsMap.has _ _ _)); [apply frame_refl|].
  cbn [snd]. eapply frame_trans; [apply frame_notify|apply frame_openDocumentVersions].
Qed.

Lemma preserves_primeTsgoHover (fileName : string) (position : Text.Position) :
  preserves R (primeTsgoHover fileName position).
Proof.
  unfold primeTsgoHover.
  apply preserves_bind; [apply preserves_sendLspRequest|]. intro response.
  apply preserves_bind; [apply preserves_lift|]. intros [text|]; apply preserves_ret.
Qed.
End Preserves.

(** The same for the paths that call the fallback. *)
Section PreservesWithFallback.
Context {R : state -> state -> Prop} {frame : Frame R}.
Hypothesis frame_fallbackCall :
  forall key args s, R s (log_effect (FallbackCall key args) s).
Hypothesis frame_fallbackProjectInfo :
  forall fileName s, R s (log_effect (FallbackProjectInfo fileName) s).

Lemma preserves_callFallback (key : RequestKey) (args : list json) :
  preserves R (callFallback key args).
Proof.
  unfold callFallback. destruct (fallback env) as [fb|]; [|apply preserves_ret].
  apply preserves_bind; [apply preserves_gets|]. intro t.
  apply preserves_bind; [apply preserves_modify, frame_fallbackCall|]. intros _.
  apply preserves_lift.
Qed.

Lemma preserves_callFallbackValue (key : RequestKey) (args : list json) :
  preserves R (callFallbackValue key args).
Proof.
  unfold callFallbackValue. destruct (fallback env) as [fb|]; [|apply preserves_ret].
  apply preserves_try_catch.
  - apply preserves_bind; [apply preserves_gets|]. intro t.
    apply preserves_bind; [apply preserves_modify, frame_fallbackCall|]. intros _.
    apply preserves_bind; [apply preserves_lift|]. intro. apply preserves_ret.
  - intro msg. apply preserves_bind; [apply preserves_modify, frame_log|]. intros _.
    apply preserves_ret.
Qed.

Lemma preserves_callFallbackProjectInfo (fileName : string) :
  preserves R (callFallbackProjectInfo fileName).
Proof.
  unfold callFallbackProjectInfo. destruct (fallback env) as [fb|]; [|apply preserves_ret].
  apply preserves_try_catch.
  - apply preserves_bind; [apply preserves_gets|]. intro t.
    apply preserves_bind; [apply preserves_modify, frame_fallbackProjectInfo|]. intros _.
    apply preserves_lift.
  - intro msg. apply preserves_bind; [apply preserves_modify, frame_log|]. intros _.
    apply preserves_ret.
Qed.

Lemma preserves_getProjectInfo (fileName : string) :
  preserves R (getProjectInfo fileName).
Proof.
  unfold getProjectInfo. destruct (findClosestConfig _) as [c|];
    [destruct (c =? ""); [|apply preserves_ret]|]; apply preserves_callFallbackProjectInfo.
Qed.

Lemma preserves_getDocumentHighlights (fileName : string) (position : Z) :
  preserves R (getDocumentHighlights fileName position).
Proof.
  unfold getDocumentHighlights.
  apply preserves_bind; [apply preserves_highlightsBySidecar|].
  intros [value|]; [apply preserves_ret|apply preserves_callFallbackValue].
Qed.

Lemma preserves_resolveModuleName (fileName moduleName : string) :
  preserves R (resolveModuleName fileName moduleName).
Proof.
  unfold resolveModuleName.
  apply preserves_bind; [apply preserves_moduleBySidecar|].
  intros [value|]; [apply preserves_ret|apply preserves_callFallbackValue].
Qed.

(** [getQuickInfoAtPosition] after its first statement. *)
Definition quickInfo_after_mark (fileName : string) (position : Text.Position) : M json :=
  own <- quickInfoBySidecar fileName position ;;
  match own with
  | Some display => ret display
  | None => callFallbackValue key_getQuickInfoAtPosition
                              [JStr fileName; position_json position]
  end.

Lemma getQuickInfoAtPosition_eq (fileName : string) (position : Text.Position)
      (s : state) :
  getQuickInfoAtPosition fileName position s
  = quickInfo_after_mark fileName position (markHoverReady s).
Proof. reflexivity. Qed.

Lemma preserves_quickInfo_after_mark (fileName : string) (position : Text.Position) :
  preserves R (quickInfo_after_mark fileName position).
Proof.
  unfold quickInfo_after_mark.
  apply preserves_bind; [apply preserves_quickInfoBySidecar|].
  intros [value|]; [apply preserves_ret|apply preserves_callFallbackValue].
Qed.

Lemma preserves_documents_then (x : JsMap.t string SyncedTextDocument) (m : M unit)
      (s : state) :
  preserves R m ->
  R s (let s1 := set_documents x s in if documentDisposables s1 then exec m s1 else s1).
Proof.
  intro Hm. cbn zeta. destruct (documentDisposables _).
  - exact (frame_trans (frame_documents x s) (Hm _)).
  - apply frame_documents.
Qed.
End PreservesWithFallback.

(** The trace grows, by effects that satisfy [P] only. *)
Definition appends (P : Effect -> bool) (s s' : state) : Prop :=
  exists t, trace s' = trace s ++ t /\ forallb P t = true.

Lemma appends_refl (P : Effect -> bool) (s : state) : appends P s s.
Proof. exists []. split; [symmetry; apply app_nil_r|reflexivity]. Qed.

Lemma appends_trans (P : Effect -> bool) (s1 s2 s3 : state) :
  appends P s1 s2 -> appends P s2 s3 -> appends P s1 s3.
Proof.
  intros (t1 & E1 & F1) (t2 & E2 & F2). exists (t1 ++ t2). split.
  - rewrite E2, E1, app_assoc. reflexivity.
  - rewrite forallb_app, F1, F2. reflexivity.
Qed.

Lemma appends_one (P : Effect -> bool) (e : Effect) (s : state) :
  P e = true -> appends P s (log_effect e s).
Proof. intro He. exists [e]. split; [reflexivity|]. cbn. rewrite He. reflexivity. Qed.

(** The effects of the sidecar's own side: spawning it, talking to it,
    and the log. *)
Definition sidecar_effect (e : Effect) : bool :=
  match e with
  | Spawn _ _ | Request _ _ | Notify _ _ | Log _ _ => true
  | _ => false
  end.

#[local] Instance appends_frame (P : Effect -> bool)
  (HP : forall e, sidecar_effect e = true -> P e = true) : Frame (appends P).
Proof.
  split;
    try (intros; exists []; split; [cbn; rewrite app_nil_r; reflexivity|reflexivity]).
  - apply appends_trans.
  - intros. apply appends_one, HP. reflexivity.
  - intros. apply appends_one, HP. reflexivity.
  - intros. apply appends_one, HP. reflexivity.
  - intros. apply appends_one, HP. reflexivity.
Qed.

(** The fields of hover readiness, and the disposed flag. *)
Definition same_readiness (s s' : state) : Prop :=
  hoverReady s' = hoverReady s /\ hoverReadyWaiters s' = hoverReadyWaiters s
  /\ nextWaiter s' = nextWaiter s /\ timers s' = timers s
  /\ disposed s' = disposed s.

#[local] Instance same_readiness_frame : Frame same_readiness.
Proof.
  split; try (intros; repeat split; reflexivity).
  intros s1 s2 s3 (A1 & A2 & A3 & A4 & A5) (B1 & B2 & B3 & B4 & B5).
  repeat split; congruence.
Qed.

(** ** Document synchronisation, per version *)

(** The three guards of [syncOpenDocument]. *)
Definition syncable (document : SyncedTextDocument) (s : state) : bool :=
  connectionToTsgo s
  && (scheme (URI_parse (uri document)) =? "file")
  && supportsTsgoFile (normalizeFileName (fsPath (URI_parse (uri document)))).

Lemma syncOpenDocument_guarded (document : SyncedTextDocument) (s : state) :
  syncable document s = false -> syncOpenDocument document s = (Ok tt, s).
Proof.
  unfold syncable, syncOpenDocument. intro Hg.
  destruct (connectionToTsgo s); [|reflexivity]. cbn [negb].
  destruct (scheme _ =? "file"); [|reflexivity]. cbn [negb].
  cbn in Hg. rewrite Hg. reflexivity.
Qed.

Lemma syncOpenDocument_ready (document : SyncedTextDocument) (s : state) :
  syncable document s = true ->
  let fileName := normalizeFileName (fsPath (URI_parse (uri document))) in
  syncOpenDocument document s
  = match JsMap.get String.eqb fileName (openDocumentVersions s) with
    | None =>
        (Ok tt,
         set_openDocumentVersions
           (JsMap.set String.eqb fileName (version document) (openDocumentVersions s))
           (log_effect (didOpen fileName document) s))
    | Some trackedVersion =>
        if (trackedVersion =? version document)%Z then (Ok tt, s)
        else (Ok tt,
              set_openDocumentVersions
                (JsMap.set String.eqb fileName (version document) (openDocumentVersions s))
                (log_effect (didChange fileName document) s))
    end.
Proof.
  unfold syncable, syncOpenDocument. intro Hg. cbn zeta.
  apply andb_true_iff in Hg. destruct Hg as [Hg H3].
  apply andb_true_iff in Hg. destruct Hg as [H1 H2].
  rewrite H1, H2, H3. cbn [negb].
  destruct (JsMap.get _ _ _) as [tracked|]; [|reflexivity].
  destruct (tracked =? version document)%Z; reflexivity.
Qed.

(** The two guards of [syncClosedDocument]. *)
Definition closable (uriString : string) (s : state) : bool :=
  connectionToTsgo s && (scheme (URI_parse uriString) =? "file").

Lemma syncClosedDocument_guarded (uriString : string) (s : state) :
  closable uriString s = false -> syncClosedDocument uriString s = (Ok tt, s).
Proof.
  unfold closable, syncClosedDocument. intro Hg.
  destruct (connectionToTsgo s); [|reflexivity]. cbn [negb].
  cbn in Hg. rewrite Hg. reflexivity.
Qed.

Lemma syncClosedDocument_ready (uriString : string) (s : state) :
  closable uriString s = true ->
  let fileName := normalizeFileName (fsPath (URI_parse uriString)) in
  syncClosedDocument uriString s
  = if JsMap.has String.eqb fileName (openDocumentVersions s)
    then (Ok tt,
          set_openDocumentVersions
            (JsMap.delete String.eqb fileName (openDocumentVersions s))
            (log_effect (didClose fileName) s))
    else (Ok tt, s).
Proof.
  unfold closable, syncClosedDocument. intro Hg. cbn zeta.
  apply andb_true_iff in Hg. destruct Hg as [H1 H2].
  rewrite H1, H2. cbn [negb].
  destruct (JsMap.has _ _ _); reflexivity.
Qed.

(** C3, as the code has it.  While the sidecar connection exists, for a
    document with a file URI whose normalised name has an extension the
    sidecar supports: the first sync of the untracked document emits
    exactly one [didOpen] with the full text and the version and records
    the version; a sync at the recorded version changes nothing; a sync at
    another version emits exactly one [didChange] that replaces the whole
    text and records the new version; syncing twice in a row emits nothing
    the second time.  For every other document, and while there is no
    connection, a sync changes nothing.  While the connection exists,
    closing a tracked document with a file URI emits exactly one
    [didClose] and removes the record, and closing an untracked one
    changes nothing; so does every close without a connection or of
    another kind of URI. *)
Theorem sync_is_idempotent_per_version (document : SyncedTextDocument) (s : state) :
  let fileName := normalizeFileName (fsPath (URI_parse (uri document))) in
  let tracked := JsMap.get String.eqb fileName (openDocumentVersions s) in
  let s' := exec (syncOpenDocument document) s in
  let closed := exec (syncClosedDocument (uri document)) s in
  (syncable document s = false -> s' = s)
  /\ (syncable document s = true ->
      (tracked = None ->
         trace s' = trace s ++ [didOpen fileName document]
         /\ JsMap.get String.eqb fileName (openDocumentVersions s')
            = Some (version document))
      /\ (tracked = Some (version document) -> s' = s)
      /\ (forall v, tracked = Some v -> v <> version document ->
            trace s' = trace s ++ [didChange fileName document]
            /\ JsMap.get String.eqb fileName (openDocumentVersions s')
               = Some (version document))
      /\ exec (syncOpenDocument document) s' = s')
  /\ (closable (uri document) s = false -> closed = s)
  /\ (closable (uri document) s = true ->
      (tracked <> None ->
         trace closed = trace s ++ [didClose fileName]
         /\ JsMap.get String.eqb fileName (openDocumentVersions closed) = None)
      /\ (tracked = None -> closed = s)).
Proof.
  cbn zeta. split; [|split; [|split]].
  - intro Hg. unfold exec. rewrite (syncOpenDocument_guarded Hg). reflexivity.
  - intro Hg. pose proof (syncOpenDocument_ready Hg) as E. cbn zeta in E.
    set (fileName := normalizeFileName _) in *.
    assert (Hagain : forall note,
              exec (syncOpenDocument document)
                   (set_openDocumentVersions
                      (JsMap.set String.eqb fileName (version document)
                                 (openDocumentVersions s))
                      (log_effect note s))
              = set_openDocumentVersions
                  (JsMap.set String.eqb fileName (version document)
                             (openDocumentVersions s))
                  (log_effect note s)).
    { intro note.
      assert (Hg' : syncable document
                (set_openDocumentVersions
                   (JsMap.set String.eqb fileName (version document)
                              (openDocumentVersions s))
                   (log_effect note s)) = true) by exact Hg.
      unfold exec. rewrite (syncOpenDocument_ready Hg'). cbn zeta. fold fileName.
      cbn [openDocumentVersions set_openDocumentVersions].
      rewrite (JsMap.get_set_same String.eqb_eq), Z.eqb_refl. reflexivity. }
    unfold exec in *. rewrite E.
    destruct (JsMap.get String.eqb fileName (openDocumentVersions s)) as [tv|] eqn:Et.
    + destruct (tv =? version document)%Z eqn:Ev.
      * apply Z.eqb_eq in Ev. subst tv.
        split; [discriminate|]. split; [reflexivity|]. split.
        { intros v Hv Hne. inversion Hv. congruence. }
        cbn [snd]. rewrite E. reflexivity.
      * apply Z.eqb_neq in Ev.
        split; [discriminate|]. split. { intro Hv. inversion Hv. congruence. }
        split.
        { intros v Hv Hne. split; [reflexivity|].
          apply (JsMap.get_set_same String.eqb_eq). }
        cbn [snd]. apply Hagain.
    + split.
      { intros _. split; [reflexivity|]. apply (JsMap.get_set_same String.eqb_eq). }
      split; [discriminate|]. split; [discriminate|].
      cbn [snd]. apply Hagain.
  - intro Hg. unfold exec. rewrite (syncClosedDocument_guarded Hg). reflexivity.
  - intro Hg. pose proof (syncClosedDocument_ready Hg) as Hc. cbn zeta in Hc.
    set (fileName := normalizeFileName _) in *.
    unfold exec. rewrite Hc. unfold JsMap.has.
    destruct (JsMap.get String.eqb fileName (openDocumentVersions s)) as [tv|] eqn:Et.
    + split; [|discriminate].
      intros _. split; [reflexivity|]. apply JsMap.get_delete_same.
    + split; [congruence|]. reflexivity.
Qed.

(** ** The closest configuration file *)















(** ** Starting once *)

(** [initPromise ??= start()]: the second call returns the outcome of the
    first and spawns nothing. *)
Lemma ensureStarted_memoized (s : state) :
  ensureStarted (snd (ensureStarted s)) = ensureStarted s.
Proof.
  unfold ensureStarted. destruct (initPromise s) as [o|] eqn:E.
  - cbn [snd]. rewrite E. reflexivity.
  - destruct (start s) as [o s']. reflexivity.
Qed.

(** ** Failures of the backends *)

Lemma try_catch_warn {A} (m : M A) (message : string -> string) (a : A) (s : state) :
  is_throw (fst (try_catch m (fun e => emit (Log warn (message e)) ;; ret a) s)) = false.
Proof.
  unfold try_catch. destruct (m s) as [[x|e] s1]; reflexivity.
Qed.


Lemma callFallbackValue_never_throws (key : RequestKey) (args : list json) (s : state) :
  is_throw (fst (callFallbackValue key args s)) = false.
Proof.
  unfold callFallbackValue. destruct (fallback env); [|reflexivity].
  apply (@try_catch_warn json _
           (fun e => ("[vue-ls][tsgo] fallback request failed for "
                        ++ key_name key ++ ": " ++ e)%string)).
Qed.

Lemma callFallbackProjectInfo_never_throws (fileName : string) (s : state) :
  is_throw (fst (callFallbackProjectInfo fileName s)) = false.
Proof.
  unfold callFallbackProjectInfo. destruct (fallback env); [|reflexivity].
  apply (@try_catch_warn (option string) _
           (fun e => ("[vue-ls][tsgo] fallback getProjectInfo failed: " ++ e)%string)).
Qed.

(** C6.  The methods of the sidecar client that only forward to the
    fallback return the fallback's promise as it is: when the fallback
    rejects, the caller gets the rejection, with nothing logged.  The same
    rejection on the path through [callFallbackValue] becomes a warning and
    [undefined]. *)
Theorem forwarded_rejection_reaches_caller
        (fb : Fallback) (key : RequestKey) (args : list json) (message : string)
        (s : state) :
  fallback env = Some fb ->
  fb_call fb (trace s) key args = Throw message ->
  forward key args s = (Throw message, log_effect (FallbackCall key args) s)
  /\ callFallbackValue key args s
     = (Ok JUndefined,
        log_effect (Log warn ("[vue-ls][tsgo] fallback request failed for "
                                ++ key_name key ++ ": " ++ message)%string)
                   (log_effect (FallbackCall key args) s)).
Proof.
  intros Hfb Hcall. unfold forward, callFallback, callFallbackValue. rewrite Hfb.
  unfold try_catch, bind, gets, emit, modify, lift, ret. cbn.
  rewrite Hcall. split; reflexivity.
Qed.

(** ** The client's own attempt, then the fallback *)

Lemma trace_fold_finish (ready : bool) (waiters : list (nat * nat)) (s : state) :
  trace (fold_left (fun s w => finish (fst w) (snd w) ready s) waiters s)
  = trace s ++ map (fun w => WaiterResolved (fst w) ready) waiters.
Proof.
  revert s. induction waiters as [|w ws IH]; intro s; cbn [fold_left map].
  - symmetry. apply app_nil_r.
  - rewrite IH. unfold finish. cbn [trace log_effect]. rewrite <- app_assoc. reflexivity.
Qed.

Lemma trace_resolveHoverReadyWaiters (ready : bool) (s : state) :
  trace (resolveHoverReadyWaiters ready s)
  = trace s ++ map (fun w => WaiterResolved (fst w) ready) (hoverReadyWaiters s).
Proof.
  unfold resolveHoverReadyWaiters.
  destruct (hoverReadyWaiters s) as [|w ws] eqn:E.
  - symmetry. apply app_nil_r.
  - rewrite trace_fold_finish. reflexivity.
Qed.

Lemma trace_markHoverReady (s : state) :
  trace (markHoverReady s)
  = trace s ++ (if hoverReady s then []
                else map (fun w => WaiterResolved (fst w) true) (hoverReadyWaiters s)).
Proof.
  unfold markHoverReady. destruct (hoverReady s).
  - symmetry. apply app_nil_r.
  - rewrite trace_resolveHoverReadyWaiters. reflexivity.
Qed.

(** Calls of the request surface of the fallback. *)
Definition is_fallback_call (e : Effect) : bool :=
  match e with FallbackCall _ _ => true | _ => false end.

Definition not_fallback_call (e : Effect) : bool := negb (is_fallback_call e).

Lemma sidecar_effect_not_fallback_call (e : Effect) :
  sidecar_effect e = true -> not_fallback_call e = true.
Proof. destruct e; cbn; congruence. Qed.






Definition hover_params (fileName : string) (position : Text.Position) : json :=
  JObj [("textDocument", JObj [("uri", JStr (URI_file fileName))]);
        ("position", position_json position)].

#[local] Instance not_fallback_call_frame : Frame (appends not_fallback_call) :=
  appends_frame sidecar_effect_not_fallback_call.



























(** ** Hover readiness *)

(** How often the trace resolves the call of [awaitReadyForHover] number [w]. *)
Fixpoint resolutions (w : nat) (t : list Effect) : nat :=
  match t with
  | [] => 0
  | WaiterResolved w' _ :: rest => (if (w' =? w)%nat then 1 else 0) + resolutions w rest
  | _ :: rest => resolutions w rest
  end.

Definition is_waiting (w : nat) (waiters : list (nat * nat)) : bool :=
  existsb (fun x => (fst x =? w)%nat) waiters.

Definition is_resolution (e : Effect) : bool :=
  match e with WaiterResolved _ _ => true | _ => false end.

Definition not_resolution (e : Effect) : bool := negb (is_resolution e).

Lemma waiter_resolutions_app (w : nat) (t1 t2 : list Effect) :
  resolutions w (t1 ++ t2) = (resolutions w t1 + resolutions w t2)%nat.
Proof.
  induction t1 as [|e t1 IH]; [reflexivity|].
  destruct e; cbn [app resolutions]; rewrite IH; lia.
Qed.

Lemma resolutions_In (w : nat) (ready : bool) (t : list Effect) :
  In (WaiterResolved w ready) t -> (1 <= resolutions w t)%nat.
Proof.
  induction t as [|e t IH]; [contradiction|]. intros [He|Hin].
  - subst e. cbn [resolutions]. rewrite Nat.eqb_refl. lia.
  - specialize (IH Hin). destruct e; cbn [resolutions]; lia.
Qed.

Lemma resolutions_quiet (w : nat) (t : list Effect) :
  forallb not_resolution t = true -> resolutions w t = 0.
Proof.
  induction t as [|e t IH]; [reflexivity|]. cbn [forallb]. intro Hf.
  apply andb_true_iff in Hf. destruct Hf as [He Ht].
  destruct e; cbn [resolutions]; try (apply IH; exact Ht). discriminate.
Qed.

Lemma resolutions_map (w : nat) (ready : bool) (waiters : list (nat * nat)) :
  NoDup (map fst waiters) ->
  resolutions w (map (fun x => WaiterResolved (fst x) ready) waiters)
  = if is_waiting w waiters then 1 else 0.
Proof.
  induction waiters as [|x waiters IH]; [reflexivity|].
  cbn [map resolutions is_waiting existsb]. intro Hnd.
  inversion Hnd as [|? ? Hn Hnd']; subst. specialize (IH Hnd').
  fold (is_waiting w waiters). rewrite IH.
  destruct (fst x =? w)%nat eqn:E; [|reflexivity].
  apply Nat.eqb_eq in E. cbn [orb].
  destruct (is_waiting w waiters) eqn:Ew; [|reflexivity].
  exfalso. apply Hn. unfold is_waiting in Ew. apply existsb_exists in Ew.
  destruct Ew as (y & Hy & Ey). apply Nat.eqb_eq in Ey.
  apply in_map_iff. exists y. split; [congruence|exact Hy].
Qed.

Lemma is_waiting_true (w : nat) (waiters : list (nat * nat)) :
  is_waiting w waiters = true <-> exists tm, In (w, tm) waiters.
Proof.
  unfold is_waiting. rewrite existsb_exists. split.
  - intros ([w' tm] & Hin & E). apply Nat.eqb_eq in E. cbn in E. subst. eauto.
  - intros (tm & Hin). exists (w, tm). split; [exact Hin|apply Nat.eqb_refl].
Qed.

Lemma sidecar_effect_not_resolution (e : Effect) :
  sidecar_effect e = true -> not_resolution e = true.
Proof. destruct e; cbn; congruence. Qed.

#[local] Instance not_resolution_frame : Frame (appends not_resolution) :=
  appends_frame sidecar_effect_not_resolution.

(** What resolving a list of waiters does to each field. *)
Definition clear_all (waiters : list (nat * nat)) (q : Timers.t nat) : Timers.t nat :=
  fold_left (fun q w => Timers.clearTimeout (snd w) q) waiters q.

Lemma fold_finish_fields (ready : bool) (waiters : list (nat * nat)) (s : state) :
  let s' := fold_left (fun s w => finish (fst w) (snd w) ready s) waiters s in
  hoverReady s' = hoverReady s /\ nextWaiter s' = nextWaiter s
  /\ disposed s' = disposed s /\ timers s' = clear_all waiters (timers s)
  /\ (hoverReadyWaiters s = [] -> hoverReadyWaiters s' = []).
Proof.
  revert s. induction waiters as [|w ws IH]; intro s; cbn [fold_left clear_all].
  - auto.
  - destruct (IH (finish (fst w) (snd w) ready s)) as (H1 & H2 & H3 & H4 & H5).
    cbn zeta in *. rewrite H1, H2, H3, H4. repeat split; try reflexivity.
    intro E. apply H5. unfold finish. cbn. rewrite E. reflexivity.
Qed.

Lemma resolveHoverReadyWaiters_fields (ready : bool) (s : state) :
  let s' := resolveHoverReadyWaiters ready s in
  hoverReady s' = hoverReady s /\ nextWaiter s' = nextWaiter s
  /\ disposed s' = disposed s
  /\ timers s' = clear_all (hoverReadyWaiters s) (timers s)
  /\ hoverReadyWaiters s' = [].
Proof.
  unfold resolveHoverReadyWaiters.
  destruct (hoverReadyWaiters s) as [|w ws] eqn:E; cbn zeta.
  - rewrite E. repeat split; reflexivity.
  - destruct (fold_finish_fields ready (w :: ws) (set_hoverReadyWaiters [] s))
      as (H1 & H2 & H3 & H4 & H5). cbn zeta in *.
    rewrite H1, H2, H3, H4. repeat split; try reflexivity. apply H5. reflexivity.
Qed.

(** Every call of [awaitReadyForHover] is either waiting, with its timer
    running, or has been resolved, once. *)
Record WInv (s : state) : Prop := {
  winv_wf : Timers.wf (timers s);
  winv_timer : forall w tm, In (w, tm) (hoverReadyWaiters s) ->
    exists x, Timers.find tm (timers s) = Some x /\ Timers.callback x = w;
  winv_back : forall x, In x (Timers.active (timers s)) ->
    In (Timers.callback x, Timers.tid x) (hoverReadyWaiters s);
  winv_nodup : NoDup (map fst (hoverReadyWaiters s));
  winv_ready : hoverReady s = true -> hoverReadyWaiters s = [];
  winv_disposed : disposed s = true -> hoverReadyWaiters s = [];
  winv_once : forall w,
    (resolutions w (trace s) + (if is_waiting w (hoverReadyWaiters s) then 1 else 0)
     = if (w <? nextWaiter s)%nat then 1 else 0)%nat
}.

Lemma WInv_create (docs : JsMap.t string SyncedTextDocument) : WInv (create docs).
Proof.
  split; cbn; try contradiction; try reflexivity.
  - apply Timers.wf_empty.
  - constructor.
Qed.

(** A step that neither touches the readiness fields nor resolves a call. *)
Lemma WInv_quiet (s s' : state) :
  WInv s -> same_readiness s s' -> appends not_resolution s s' -> WInv s'.
Proof.
  intros I (H1 & H2 & H3 & H4 & H5) (t & Ht & Hq).
  split; rewrite ?H1, ?H2, ?H3, ?H4, ?H5; try apply I.
  intro w. rewrite Ht, waiter_resolutions_app, (resolutions_quiet w Hq), Nat.add_0_r.
  apply I.
Qed.

Lemma active_clear_all (waiters : list (nat * nat)) (q : Timers.t nat)
      (x : Timers.timer nat) :
  In x (Timers.active (clear_all waiters q))
  <-> In x (Timers.active q) /\ ~ In (Timers.tid x) (map snd waiters).
Proof.
  revert q. induction waiters as [|w ws IH]; intro q; cbn [clear_all fold_left map In].
  - tauto.
  - fold (clear_all ws (Timers.clearTimeout (snd w) q)).
    rewrite IH, Timers.active_clearTimeout. intuition congruence.
Qed.

Lemma wf_clear_all (waiters : list (nat * nat)) (q : Timers.t nat) :
  Timers.wf q -> Timers.wf (clear_all waiters q).
Proof.
  revert q. induction waiters as [|w ws IH]; intros q Hq; [exact Hq|].
  apply IH, Timers.wf_clearTimeout, Hq.
Qed.

(** All waiters have been resolved. *)
Lemma WInv_resolved_all (s s' : state) :
  WInv s ->
  hoverReadyWaiters s' = [] ->
  timers s' = clear_all (hoverReadyWaiters s) (timers s) ->
  nextWaiter s' = nextWaiter s ->
  (forall w, resolutions w (trace s')
             = (resolutions w (trace s)
                + (if is_waiting w (hoverReadyWaiters s) then 1 else 0))%nat) ->
  WInv s'.
Proof.
  intros I Hw Ht Hn Hr.
  split; rewrite ?Hw, ?Ht, ?Hn; cbn [map In]; try contradiction; try reflexivity.
  - apply wf_clear_all, I.
  - intros x Hx. apply active_clear_all in Hx. destruct Hx as [Hin Hno].
    apply (winv_back I) in Hin. exfalso. apply Hno.
    apply in_map_iff. exists (Timers.callback x, Timers.tid x). auto.
  - constructor.
  - intro w. rewrite Hr. cbn [is_waiting existsb]. rewrite Nat.add_0_r. apply I.
Qed.

Lemma WInv_resolveHoverReadyWaiters (ready : bool) (s : state) :
  WInv s -> WInv (resolveHoverReadyWaiters ready s).
Proof.
  intro I.
  destruct (resolveHoverReadyWaiters_fields ready s) as (_ & H2 & _ & H4 & H5).
  cbn zeta in *.
  apply (WInv_resolved_all I H5 H4 H2).
  intro w. rewrite trace_resolveHoverReadyWaiters, waiter_resolutions_app.
  rewrite (resolutions_map w ready (winv_nodup I)). reflexivity.
Qed.

Lemma WInv_markHoverReady (s : state) : WInv s -> WInv (markHoverReady s).
Proof.
  intro I. unfold markHoverReady. destruct (hoverReady s); [exact I|].
  destruct (resolveHoverReadyWaiters_fields true (set_hoverReady true s))
    as (_ & H2 & _ & H4 & H5). cbn zeta in *.
  apply (WInv_resolved_all I H5 H4 H2).
  intro w. rewrite trace_resolveHoverReadyWaiters, waiter_resolutions_app.
  cbn [trace hoverReadyWaiters set_hoverReady].
  rewrite (resolutions_map w true (winv_nodup I)). reflexivity.
Qed.

Lemma not_waiting_next (s : state) :
  WInv s -> is_waiting (nextWaiter s) (hoverReadyWaiters s) = false.
Proof.
  intro I. pose proof (winv_once I (nextWaiter s)) as Ho.
  rewrite Nat.ltb_irrefl in Ho.
  destruct (is_waiting _ _); [lia|reflexivity].
Qed.

Lemma is_waiting_app (w : nat) (l1 l2 : list (nat * nat)) :
  is_waiting w (l1 ++ l2) = is_waiting w l1 || is_waiting w l2.
Proof. unfold is_waiting. apply existsb_app. Qed.

(** The call is answered at once. *)
Lemma WInv_answered (ready : bool) (s : state) :
  WInv s ->
  WInv (log_effect (WaiterResolved (nextWaiter s) ready)
                   (set_nextWaiter (S (nextWaiter s)) s)).
Proof.
  intro I. split; cbn [timers hoverReadyWaiters hoverReady disposed nextWaiter trace
                        log_effect set_nextWaiter]; try apply I.
  intro w. rewrite waiter_resolutions_app. cbn [resolutions].
  pose proof (winv_once I w) as Ho. pose proof (not_waiting_next I) as Hn.
  destruct (nextWaiter s =? w)%nat eqn:E.
  - apply Nat.eqb_eq in E. subst w. rewrite Hn in *. rewrite Nat.ltb_irrefl in Ho.
    assert (Hlt : (nextWaiter s <? S (nextWaiter s))%nat = true) by (apply Nat.ltb_lt; lia).
    rewrite Hlt. lia.
  - apply Nat.eqb_neq in E.
    assert (Hlt : (w <? S (nextWaiter s))%nat = (w <? nextWaiter s)%nat).
    { destruct (w <? nextWaiter s)%nat eqn:E1.
      - apply Nat.ltb_lt in E1. apply Nat.ltb_lt. lia.
      - apply Nat.ltb_ge in E1. apply Nat.ltb_ge. lia. }
    rewrite Hlt. lia.
Qed.

Lemma WInv_awaitReadyForHover (timeoutMs : Z) (s : state) :
  WInv s -> WInv (snd (awaitReadyForHover timeoutMs s)).
Proof.
  intro I. unfold awaitReadyForHover. cbn zeta.
  cbn [hoverReady disposed set_nextWaiter].
  destruct (hoverReady s) eqn:Er; [apply WInv_answered, I|].
  destruct (disposed s) eqn:Ed; [apply WInv_answered, I|].
  destruct (timeoutMs <=? 0)%Z; [apply WInv_answered, I|].
  cbn [timers Timers.setTimeout snd hoverReadyWaiters].
  pose proof (winv_wf I) as Hwf. pose proof (not_waiting_next I) as Hn.
  set (w := nextWaiter s) in *. set (q := timers s) in *.
  split; cbn [timers hoverReadyWaiters hoverReady disposed nextWaiter trace
                set_hoverReadyWaiters set_timers set_nextWaiter].
  - apply (Timers.wf_setTimeout w timeoutMs Hwf).
  - intros w1 tm1 Hin. apply in_app_iff in Hin. destruct Hin as [Hin|[Hin|[]]].
    + destruct (winv_timer I Hin) as (x & Hf & Hc). exists x. split; [|exact Hc].
      fold q in Hf. destruct (Timers.find_Some Hf) as [Hx Ht].
      destruct Hwf as [_ Hlt]. specialize (Hlt x Hx).
      change (Timers.find tm1 (snd (Timers.setTimeout w timeoutMs q)) = Some x).
      rewrite Timers.find_setTimeout_old; [exact Hf|lia].
    + inversion Hin; subst w1 tm1.
      exists {| Timers.tid := Timers.next q;
                Timers.deadline := (Timers.now q + Timers.effective_delay timeoutMs)%Z;
                Timers.callback := w |}.
      split; [|reflexivity].
      apply (Timers.find_setTimeout_new w timeoutMs Hwf).
  - intros x Hx. apply in_app_iff. apply in_app_iff in Hx.
    destruct Hx as [Hx|[Hx|[]]]; [left; apply (winv_back I Hx)|right].
    subst x. now left.
  - rewrite map_app. apply NoDup_app; [apply I|repeat constructor; auto|].
    intros a Ha [Hb|[]]. cbn in Hb. subst a.
    apply in_map_iff in Ha. destruct Ha as ([w1 tm1] & Hw1 & Hin). cbn in Hw1. subst w1.
    assert (Hy : is_waiting w (hoverReadyWaiters s) = true)
      by (apply is_waiting_true; eauto).
    congruence.
  - congruence.
  - congruence.
  - intro w0. rewrite is_waiting_app. cbn [is_waiting existsb fst orb].
    pose proof (winv_once I w0) as Ho. fold w in Ho.
    destruct (w =? w0)%nat eqn:E.
    + apply Nat.eqb_eq in E. subst w0. rewrite Hn in *. rewrite Nat.ltb_irrefl in Ho.
      assert (Hlt : (w <? S w)%nat = true) by (apply Nat.ltb_lt; lia).
      rewrite Hlt. cbn [orb]. lia.
    + apply Nat.eqb_neq in E. rewrite orb_false_r.
      assert (Hlt : (w0 <? S w)%nat = (w0 <? w)%nat).
      { destruct (w0 <? w)%nat eqn:E1.
        - apply Nat.ltb_lt in E1. apply Nat.ltb_lt. lia.
        - apply Nat.ltb_ge in E1. apply Nat.ltb_ge. lia. }
      rewrite Hlt. exact Ho.
Qed.

Lemma waiter_timer_unique (waiters : list (nat * nat)) (w tm1 tm2 : nat) :
  NoDup (map fst waiters) -> In (w, tm1) waiters -> In (w, tm2) waiters -> tm1 = tm2.
Proof.
  induction waiters as [|x l IH]; [contradiction|]. cbn [map]. intros Hnd H1 H2.
  inversion Hnd as [|? ? Hn Hnd']; subst.
  destruct H1 as [H1|H1], H2 as [H2|H2].
  - congruence.
  - exfalso. apply Hn. subst x. apply in_map_iff. exists (w, tm2). auto.
  - exfalso. apply Hn. subst x. apply in_map_iff. exists (w, tm1). auto.
  - auto.
Qed.

Lemma NoDup_waiters_filter (f : nat * nat -> bool) (waiters : list (nat * nat)) :
  NoDup (map fst waiters) -> NoDup (map fst (filter f waiters)).
Proof.
  induction waiters as [|x l IH]; [auto|]. cbn [map filter]. intro Hnd.
  inversion Hnd as [|? ? Hn Hnd']; subst.
  destruct (f x); [|auto]. cbn [map]. constructor; [|auto].
  intro Hin. apply Hn. apply in_map_iff in Hin. destruct Hin as (y & Hy & Hin).
  apply filter_In in Hin. apply in_map_iff. exists y. tauto.
Qed.

Lemma is_waiting_filter (w w0 : nat) (waiters : list (nat * nat)) :
  is_waiting w0 (filter (fun x => negb (fst x =? w)%nat) waiters)
  = negb (w =? w0)%nat && is_waiting w0 waiters.
Proof.
  induction waiters as [|x l IH]; [now rewrite andb_false_r|].
  cbn [filter]. destruct (fst x =? w)%nat eqn:E; cbn [negb].
  - rewrite IH. cbn [is_waiting existsb]. fold (is_waiting w0 l).
    apply Nat.eqb_eq in E. rewrite E.
    destruct (w =? w0)%nat; [reflexivity|]. reflexivity.
  - cbn [is_waiting existsb]. fold (is_waiting w0 l).
    fold (is_waiting w0 (filter (fun x => negb (fst x =? w)%nat) l)). rewrite IH.
    destruct (fst x =? w0)%nat eqn:E0; [|reflexivity].
    apply Nat.eqb_eq in E0. apply Nat.eqb_neq in E.
    assert (Hne : (w =? w0)%nat = false) by (apply Nat.eqb_neq; congruence).
    rewrite Hne. reflexivity.
Qed.

Lemma clearTimeout_twice {Cb} (id : nat) (q : Timers.t Cb) :
  Timers.clearTimeout id (Timers.clearTimeout id q) = Timers.clearTimeout id q.
Proof.
  unfold Timers.clearTimeout. cbn. f_equal.
  induction (Timers.active q) as [|x l IH]; [reflexivity|]. cbn [filter].
  destruct (negb (Timers.tid x =? id)%nat) eqn:E; [|exact IH].
  cbn [filter]. rewrite E, IH. reflexivity.
Qed.

(** One waiter has been resolved and its timer cleared. *)
Lemma WInv_resolved_one (s s' : state) (w tm : nat) (ready : bool) :
  WInv s -> In (w, tm) (hoverReadyWaiters s) ->
  hoverReadyWaiters s'
  = filter (fun x => negb (fst x =? w)%nat) (hoverReadyWaiters s) ->
  timers s' = Timers.clearTimeout tm (timers s) ->
  nextWaiter s' = nextWaiter s -> hoverReady s' = hoverReady s ->
  disposed s' = disposed s ->
  trace s' = trace s ++ [WaiterResolved w ready] ->
  WInv s'.
Proof.
  intros I Hin Hw Ht Hn Hr Hd Htr.
  destruct (winv_timer I Hin) as (xw & Hfw & Hcw).
  split; rewrite ?Hw, ?Ht, ?Hn, ?Hr, ?Hd, ?Htr.
  - apply Timers.wf_clearTimeout, I.
  - intros w1 tm1 H1. apply filter_In in H1. destruct H1 as [H1 Hne].
    apply negb_true_iff, Nat.eqb_neq in Hne. cbn [fst] in Hne.
    destruct (winv_timer I H1) as (x & Hf & Hc). exists x. split; [|exact Hc].
    rewrite Timers.find_clearTimeout_other; [exact Hf|].
    intro E. subst tm1. congruence.
  - intros x Hx. apply Timers.active_clearTimeout in Hx. destruct Hx as [Hx Hne].
    apply filter_In. split; [apply (winv_back I Hx)|].
    apply negb_true_iff, Nat.eqb_neq. cbn [fst]. intro E.
    apply Hne. apply (waiter_timer_unique (winv_nodup I) (w := w)); [|exact Hin].
    rewrite <- E. apply (winv_back I Hx).
  - apply NoDup_waiters_filter, I.
  - intro E. rewrite (winv_ready I E). reflexivity.
  - intro E. rewrite (winv_disposed I E). reflexivity.
  - intro w0. rewrite waiter_resolutions_app, is_waiting_filter. cbn [resolutions].
    pose proof (winv_once I w0) as Ho.
    destruct (w =? w0)%nat eqn:E; cbn [negb andb].
    + apply Nat.eqb_eq in E. subst w0.
      assert (Hy : is_waiting w (hoverReadyWaiters s) = true)
        by (apply is_waiting_true; eauto).
      rewrite Hy in Ho. lia.
    + lia.
Qed.

Lemma WInv_onWaiterTimeout (tm : nat) (s : state) :
  WInv s -> WInv (onWaiterTimeout tm s).
Proof.
  intro I. unfold onWaiterTimeout, Timers.take.
  destruct (Timers.find tm (timers s)) as [x|] eqn:Ef; [|exact I].
  destruct (Timers.find_Some Ef) as [Hx Ht].
  pose proof (winv_back I Hx) as Hin. rewrite Ht in Hin.
  apply (WInv_resolved_one (ready := false) I Hin); unfold finish; cbn; try reflexivity.
  apply clearTimeout_twice.
Qed.

Lemma WInv_run_timers (ids : list nat) (s : state) :
  WInv s -> WInv (run_timers ids s).
Proof.
  revert s. induction ids as [|id ids IH]; intros s I; [exact I|].
  cbn [run_timers]. apply IH, WInv_onWaiterTimeout, I.
Qed.

Lemma WInv_tick (d : Z) (s : state) :
  WInv s -> WInv (set_timers (Timers.tick d (timers s)) s).
Proof. intro I. split; cbn; apply I. Qed.

(** [dispose] after it has resolved the waiters. *)
Definition dispose_after_waiters : M unit :=
  connected <- gets connectionToTsgo ;;
  (if connected then emit ConnectionDisposed ;; modify (set_connectionToTsgo false)
   else ret tt) ;;
  process <- gets tsgoProcess ;;
  (if process then emit ProcessKilled ;; modify (set_tsgoProcess false) else ret tt) ;;
  match fallback env with
  | Some fb =>
      t <- gets trace ;;
      emit FallbackDispose ;;
      lift (fb_dispose fb t)
  | None => ret tt
  end.

Definition dispose_before_waiters (s : state) : state :=
  set_openDocumentVersions []
    (set_documentDisposables false (log_effect ListenersDisposed (set_disposed true s))).

Lemma dispose_eq (s : state) :
  dispose s
  = dispose_after_waiters (resolveHoverReadyWaiters false (dispose_before_waiters s)).
Proof. reflexivity. Qed.

(** The events that have nothing to do with hover readiness. *)
Definition is_quiet (e : event) : bool :=
  match e with
  | GetDocumentHighlights _ _ | ResolveModuleName _ _ | GetProjectInfo _
  | Forward _ _ | PrimeTsgoHover _ _ | DidOpen _ | DidChangeContent _ | DidClose _ => true
  | AwaitReadyForHover _ | GetQuickInfoAtPosition _ _ | Dispose | Advance _ => false
  end.

Section Quiet.
Context {R : state -> state -> Prop} {frame : Frame R}.
Hypothesis frame_quiet : forall e s, not_resolution e = true -> R s (log_effect e s).

Lemma preserves_dispose_after_waiters : preserves R dispose_after_waiters.
Proof.
  unfold dispose_after_waiters.
  apply preserves_bind; [apply preserves_gets|]. intros [|].
  - apply preserves_bind.
    + apply preserves_bind; [apply preserves_modify; intro; now apply frame_quiet|].
      intros _. apply preserves_modify, frame_connectionToTsgo.
    + intros _. apply preserves_bind; [apply preserves_gets|]. intro process.
      apply preserves_bind.
      * destruct process; [|apply preserves_ret].
        apply preserves_bind; [apply preserves_modify; intro; now apply frame_quiet|].
        intros _. apply preserves_modify, frame_tsgoProcess.
      * intros _. destruct (fallback env) as [fb|]; [|apply preserves_ret].
        apply preserves_bind; [apply preserves_gets|]. intro t.
        apply preserves_bind; [apply preserves_modify; intro; now apply frame_quiet|].
        intros _. apply preserves_lift.
  - apply preserves_bind; [apply preserves_ret|].
    intros _. apply preserves_bind; [apply preserves_gets|]. intro process.
    apply preserves_bind.
    + destruct process; [|apply preserves_ret].
      apply preserves_bind; [apply preserves_modify; intro; now apply frame_quiet|].
      intros _. apply preserves_modify, frame_tsgoProcess.
    + intros _. destruct (fallback env) as [fb|]; [|apply preserves_ret].
      apply preserves_bind; [apply preserves_gets|]. intro t.
      apply preserves_bind; [apply preserves_modify; intro; now apply frame_quiet|].
      intros _. apply preserves_lift.
Qed.

Lemma quiet_getQuickInfoAtPosition (fileName : string) (position : Text.Position)
      (s : state) :
  R (markHoverReady s) (exec (getQuickInfoAtPosition fileName position) s).
Proof.
  unfold exec. rewrite getQuickInfoAtPosition_eq.
  apply (preserves_quickInfo_after_mark (R := R)); intros; now apply frame_quiet.
Qed.

Lemma quiet_step (e : event) (s : state) : is_quiet e = true -> R s (step s e).
Proof.
  destruct e; cbn [is_quiet step]; try discriminate; intros _.
  - apply (preserves_getDocumentHighlights (R := R)); intros; now apply frame_quiet.
  - apply (preserves_resolveModuleName (R := R)); intros; now apply frame_quiet.
  - apply (preserves_getProjectInfo (R := R)); intros; now apply frame_quiet.
  - apply (preserves_callFallback (R := R)); intros; now apply frame_quiet.
  - apply preserves_primeTsgoHover.
  - apply (preserves_documents_then (R := R)), preserves_syncOpenDocument.
  - apply (preserves_documents_then (R := R)), preserves_syncOpenDocument.
  - apply (preserves_documents_then (R := R)), preserves_syncClosedDocument.
Qed.
End Quiet.

Lemma same_readiness_log (e : Effect) (s : state) : same_readiness s (log_effect e s).
Proof. repeat split. Qed.

Lemma not_resolution_log (e : Effect) (s : state) :
  not_resolution e = true -> appends not_resolution s (log_effect e s).
Proof. apply appends_one. Qed.

Lemma WInv_dispose (s : state) : WInv s -> WInv (exec dispose s).
Proof.
  intro I. unfold exec. rewrite dispose_eq.
  set (s0 := dispose_before_waiters s).
  assert (I1 : WInv (resolveHoverReadyWaiters false s0)).
  { destruct (resolveHoverReadyWaiters_fields false s0) as (_ & H2 & _ & H4 & H5).
    cbn zeta in *. apply (WInv_resolved_all I H5 H4 H2).
    intro w. rewrite trace_resolveHoverReadyWaiters, !waiter_resolutions_app.
    cbn [trace hoverReadyWaiters s0 dispose_before_waiters set_openDocumentVersions
         set_documentDisposables log_effect set_disposed].
    rewrite waiter_resolutions_app. cbn [resolutions].
    rewrite (resolutions_map w false (winv_nodup I)). lia. }
  apply (WInv_quiet I1).
  - apply (preserves_dispose_after_waiters (R := same_readiness)).
    intros. apply same_readiness_log.
  - apply (preserves_dispose_after_waiters (R := appends not_resolution)).
    apply not_resolution_log.
Qed.

Lemma WInv_step (e : event) (s : state) : WInv s -> WInv (step s e).
Proof.
  intro I. destruct (is_quiet e) eqn:Eq.
  - apply (WInv_quiet I).
    + apply (quiet_step (R := same_readiness)); [intros; apply same_readiness_log|exact Eq].
    + apply (quiet_step (R := appends not_resolution)); [apply not_resolution_log|exact Eq].
  - destruct e; try discriminate; cbn [step].
    + apply WInv_awaitReadyForHover, I.
    + apply (WInv_quiet (WInv_markHoverReady I)).
      * apply (quiet_getQuickInfoAtPosition (R := same_readiness)).
        intros. apply same_readiness_log.
      * apply (quiet_getQuickInfoAtPosition (R := appends not_resolution)).
        apply not_resolution_log.
    + apply WInv_dispose, I.
    + apply WInv_run_timers, WInv_tick, I.
Qed.

Lemma WInv_run (events : list event) (s : state) : WInv s -> WInv (run events s).
Proof.
  revert s. induction events as [|e events IH]; intros s I; [exact I|].
  cbn [run fold_left]. apply IH, WInv_step, I.
Qed.

(** *** The readiness flag *)

Lemma hoverReady_markHoverReady (s : state) : hoverReady (markHoverReady s) = true.
Proof.
  unfold markHoverReady. destruct (hoverReady s) eqn:E; [exact E|].
  destruct (resolveHoverReadyWaiters_fields true (set_hoverReady true s)) as (H1 & _).
  cbn zeta in H1. rewrite H1. reflexivity.
Qed.

Lemma hoverReady_onWaiterTimeout (tm : nat) (s : state) :
  hoverReady (onWaiterTimeout tm s) = hoverReady s.
Proof.
  unfold onWaiterTimeout. destruct (Timers.take tm (timers s)) as [[x q]|]; reflexivity.
Qed.

Lemma hoverReady_run_timers (ids : list nat) (s : state) :
  hoverReady (run_timers ids s) = hoverReady s.
Proof.
  revert s. induction ids as [|id ids IH]; intro s; [reflexivity|].
  cbn [run_timers]. rewrite IH. apply hoverReady_onWaiterTimeout.
Qed.

Lemma hoverReady_awaitReadyForHover (timeoutMs : Z) (s : state) :
  hoverReady (snd (awaitReadyForHover timeoutMs s)) = hoverReady s.
Proof.
  unfold awaitReadyForHover. cbn zeta. cbn [hoverReady disposed set_nextWaiter].
  destruct (hoverReady s) eqn:E; [exact E|].
  destruct (disposed s); [exact E|].
  destruct (timeoutMs <=? 0)%Z; exact E.
Qed.

Lemma hoverReady_dispose (s : state) : hoverReady (exec dispose s) = hoverReady s.
Proof.
  unfold exec. rewrite dispose_eq.
  destruct (preserves_dispose_after_waiters (R := same_readiness)
              (fun e s _ => same_readiness_log e s)
              (resolveHoverReadyWaiters false (dispose_before_waiters s))) as (H1 & _).
  rewrite H1.
  destruct (resolveHoverReadyWaiters_fields false (dispose_before_waiters s)) as (H2 & _).
  cbn zeta in H2. rewrite H2. reflexivity.
Qed.

(** Only [getQuickInfoAtPosition] assigns the flag, and it assigns [true]. *)
Lemma hoverReady_step (e : event) (s : state) :
  hoverReady (step s e)
  = match e with GetQuickInfoAtPosition _ _ => true | _ => hoverReady s end.
Proof.
  destruct (is_quiet e) eqn:Eq.
  - destruct (quiet_step (R := same_readiness)
                (fun e s _ => same_readiness_log e s) s Eq) as (H1 & _).
    rewrite H1. destruct e; try discriminate; reflexivity.
  - destruct e; try discriminate; cbn [step].
    + apply hoverReady_awaitReadyForHover.
    + destruct (quiet_getQuickInfoAtPosition (R := same_readiness)
                  (fun e s _ => same_readiness_log e s) fileName position s) as (H1 & _).
      rewrite H1. apply hoverReady_markHoverReady.
    + apply hoverReady_dispose.
    + rewrite hoverReady_run_timers. reflexivity.
Qed.

(** *** Timers that run *)

Lemma trace_onWaiterTimeout (tm : nat) (s : state) :
  trace (onWaiterTimeout tm s)
  = trace s ++ match Timers.find tm (timers s) with
               | Some x => [WaiterResolved (Timers.callback x) false]
               | None => []
               end.
Proof.
  unfold onWaiterTimeout, Timers.take.
  destruct (Timers.find tm (timers s)) as [x|]; [reflexivity|].
  symmetry. apply app_nil_r.
Qed.

Lemma trace_run_timers_incl (ids : list nat) (s : state) (e : Effect) :
  In e (trace s) -> In e (trace (run_timers ids s)).
Proof.
  revert s. induction ids as [|id ids IH]; intros s Hin; [exact Hin|].
  cbn [run_timers]. apply IH. rewrite trace_onWaiterTimeout.
  apply in_app_iff. now left.
Qed.

Lemma onWaiterTimeout_keeps (id : nat) (s : state) (w tm : nat) :
  WInv s -> In (w, tm) (hoverReadyWaiters s) -> id <> tm ->
  In (w, tm) (hoverReadyWaiters (onWaiterTimeout id s)).
Proof.
  intros I Hin Hne. unfold onWaiterTimeout, Timers.take.
  destruct (Timers.find id (timers s)) as [x|] eqn:Ef; [|exact Hin].
  destruct (Timers.find_Some Ef) as [Hx Ht].
  unfold finish. cbn. apply filter_In. split; [exact Hin|].
  apply negb_true_iff, Nat.eqb_neq. cbn [fst]. intro E.
  apply Hne. rewrite <- Ht.
  apply (waiter_timer_unique (winv_nodup I) (w := w)); [|exact Hin].
  rewrite E. apply (winv_back I Hx).
Qed.

Lemma run_timers_resolves (ids : list nat) (s : state) (w tm : nat) :
  WInv s -> In (w, tm) (hoverReadyWaiters s) -> In tm ids ->
  In (WaiterResolved w false) (trace (run_timers ids s)).
Proof.
  revert s. induction ids as [|id ids IH]; intros s I Hin Hids; [contradiction|].
  cbn [run_timers]. destruct (Nat.eq_dec id tm) as [E|E].
  - subst id. apply trace_run_timers_incl. rewrite trace_onWaiterTimeout.
    destruct (winv_timer I Hin) as (x & Hf & Hc). rewrite Hf, Hc.
    apply in_app_iff. right. now left.
  - apply IH.
    + apply WInv_onWaiterTimeout, I.
    + apply onWaiterTimeout_keeps; assumption.
    + destruct Hids as [Hids|Hids]; [contradiction|exact Hids].
Qed.

Lemma run_timers_keeps_waiter (ids : list nat) (s : state) (w tm : nat) :
  WInv s -> In (w, tm) (hoverReadyWaiters s) -> ~ In tm ids ->
  In (w, tm) (hoverReadyWaiters (run_timers ids s)).
Proof.
  revert s. induction ids as [|id ids IH]; intros s I Hin Hids; [exact Hin|].
  cbn [run_timers]. apply IH.
  - apply WInv_onWaiterTimeout, I.
  - apply onWaiterTimeout_keeps; [exact I|exact Hin|].
    intro E. apply Hids. now left.
  - intro H. apply Hids. now right.
Qed.

(** A resolved call is not waiting, and a waiting call is not resolved. *)
Lemma resolved_not_waiting (s : state) (w : nat) (ready : bool) :
  WInv s -> In (WaiterResolved w ready) (trace s) ->
  is_waiting w (hoverReadyWaiters s) = false.
Proof.
  intros I Hin. pose proof (resolutions_In Hin) as H1. pose proof (winv_once I w) as Ho.
  destruct (is_waiting w _); [|reflexivity].
  destruct (w <? nextWaiter s)%nat; lia.
Qed.

Lemma waiting_not_resolved (s : state) (w tm : nat) :
  WInv s -> In (w, tm) (hoverReadyWaiters s) -> resolutions w (trace s) = 0.
Proof.
  intros I Hin. pose proof (winv_once I w) as Ho.
  assert (Hy : is_waiting w (hoverReadyWaiters s) = true)
    by (apply is_waiting_true; eauto).
  rewrite Hy in Ho. destruct (w <? nextWaiter s)%nat; lia.
Qed.

(** The call number [w] of [awaitReadyForHover] returns [ready] at once. *)
Definition answered (ready : bool) (s : state) : state :=
  log_effect (WaiterResolved (nextWaiter s) ready) (set_nextWaiter (S (nextWaiter s)) s).

(** C4.  In every state the client reaches: the readiness flag is
    assigned by [getQuickInfoAtPosition] only, which sets it to [true]
    before anything is sent, whatever the sidecar and the fallback answer;
    no event takes it back.  When the flag turns, every waiter is
    resolved with [true], once, and none is left.  A call of
    [awaitReadyForHover] on a client that is ready returns [true]; on one
    that is not ready it returns [false] at once if the client is disposed
    or the timeout is not positive, and otherwise waits with a timer.  When
    time passes, a waiter whose timer has expired is resolved with [false]
    and leaves, one whose timer has not is still waiting, unresolved.
    [dispose] resolves every waiter with [false].  No call is resolved
    twice, and none that is still waiting has been resolved. *)
Theorem hover_readiness_is_one_way
        (docs : JsMap.t string SyncedTextDocument) (events : list event) :
  let s := run events (create docs) in
  (forall e,
      hoverReady (step s e)
      = match e with GetQuickInfoAtPosition _ _ => true | _ => hoverReady s end)
  /\ (forall fileName position,
        hoverReady s = false ->
        let s' := step s (GetQuickInfoAtPosition fileName position) in
        hoverReadyWaiters s' = []
        /\ exists t,
             trace s' = trace s
                        ++ map (fun w => WaiterResolved (fst w) true) (hoverReadyWaiters s)
                        ++ t
             /\ forallb not_resolution t = true)
  /\ (forall timeoutMs,
        let s' := step s (AwaitReadyForHover timeoutMs) in
        if hoverReady s then s' = answered true s
        else if disposed s || (timeoutMs <=? 0)%Z then s' = answered false s
        else
          trace s' = trace s
          /\ exists tm,
               hoverReadyWaiters s' = hoverReadyWaiters s ++ [(nextWaiter s, tm)]
               /\ Timers.find tm (timers s')
                  = Some {| Timers.tid := tm;
                            Timers.deadline :=
                              (Timers.now (timers s)
                               + Timers.effective_delay timeoutMs)%Z;
                            Timers.callback := nextWaiter s |})
  /\ (forall d w tm x,
        In (w, tm) (hoverReadyWaiters s) ->
        Timers.find tm (timers s) = Some x ->
        let s' := step s (Advance d) in
        if (Timers.deadline x <=? Timers.now (timers s) + Z.max 0 d)%Z
        then In (WaiterResolved w false) (trace s')
             /\ is_waiting w (hoverReadyWaiters s') = false
        else In (w, tm) (hoverReadyWaiters s') /\ resolutions w (trace s') = 0)
  /\ (let s' := step s Dispose in
      hoverReadyWaiters s' = []
      /\ exists t,
           trace s' = trace s
                      ++ ListenersDisposed
                         :: map (fun w => WaiterResolved (fst w) false) (hoverReadyWaiters s)
                      ++ t
           /\ forallb not_resolution t = true)
  /\ (forall w,
        (resolutions w (trace s) <= 1)%nat
        /\ (is_waiting w (hoverReadyWaiters s) = true -> resolutions w (trace s) = 0))
  /\ (hoverReady s = true -> hoverReadyWaiters s = []).
Proof.
  cbn zeta. set (s := run events (create docs)).
  assert (I : WInv s) by (apply WInv_run, WInv_create).
  assert (Hdispose :
            hoverReadyWaiters (step s Dispose) = []
            /\ exists t,
                 trace (step s Dispose)
                 = trace s
                   ++ ListenersDisposed
                      :: map (fun w => WaiterResolved (fst w) false) (hoverReadyWaiters s)
                   ++ t
                 /\ forallb not_resolution t = true).
  { cbn [step]. unfold exec. rewrite dispose_eq.
    pose proof (preserves_dispose_after_waiters (R := same_readiness)
                  (fun e s _ => same_readiness_log e s)
                  (resolveHoverReadyWaiters false (dispose_before_waiters s)))
      as (_ & H2 & _).
    pose proof (preserves_dispose_after_waiters (R := appends not_resolution)
                  not_resolution_log
                  (resolveHoverReadyWaiters false (dispose_before_waiters s)))
      as (t & Ht & Hq).
    destruct (resolveHoverReadyWaiters_fields false (dispose_before_waiters s))
      as (_ & _ & _ & _ & H5). cbn zeta in H5.
    rewrite H2, Ht, trace_resolveHoverReadyWaiters.
    split; [exact H5|]. exists t. split; [|exact Hq].
    cbn [trace hoverReadyWaiters dispose_before_waiters set_openDocumentVersions
         set_documentDisposables log_effect set_disposed].
    rewrite <- !app_assoc. reflexivity. }
  repeat match goal with |- _ /\ _ => split end.
  - intro e. apply hoverReady_step.
  - intros fileName position Hr. cbn [step].
    pose proof (quiet_getQuickInfoAtPosition (R := same_readiness)
                  (fun e s _ => same_readiness_log e s) fileName position s)
      as (_ & H2 & _).
    pose proof (quiet_getQuickInfoAtPosition (R := appends not_resolution)
                  not_resolution_log fileName position s) as (t & Ht & Hq).
    rewrite H2, Ht, trace_markHoverReady, Hr.
    unfold markHoverReady. rewrite Hr.
    destruct (resolveHoverReadyWaiters_fields true (set_hoverReady true s))
      as (_ & _ & _ & _ & H5). cbn zeta in H5.
    split; [exact H5|]. exists t. rewrite <- app_assoc. auto.
  - intro timeoutMs. cbn [step]. unfold awaitReadyForHover, answered. cbn zeta.
    cbn [hoverReady disposed set_nextWaiter].
    destruct (hoverReady s); [reflexivity|].
    destruct (disposed s); [reflexivity|]. cbn [orb].
    destruct (timeoutMs <=? 0)%Z; [reflexivity|].
    cbn [timers Timers.setTimeout snd hoverReadyWaiters set_nextWaiter trace
         set_hoverReadyWaiters set_timers].
    split; [reflexivity|]. exists (Timers.next (timers s)). split; [reflexivity|].
    apply (Timers.find_setTimeout_new (nextWaiter s) timeoutMs (winv_wf I)).
  - intros d w tm x Hin Hf. cbn [step].
    pose proof (WInv_tick d I) as It.
    set (st := set_timers (Timers.tick d (timers s)) s) in *.
    destruct (Timers.find_Some Hf) as [Hx Ht].
    destruct (Timers.deadline x <=? Timers.now (timers s) + Z.max 0 d)%Z eqn:Ed.
    + apply Z.leb_le in Ed.
      assert (Hdue : In tm (Timers.due (Timers.tick d (timers s)))).
      { apply Timers.in_due. exists x. auto. }
      assert (Hres : In (WaiterResolved w false)
                        (trace (run_timers (Timers.due (Timers.tick d (timers s))) st)))
        by (apply (run_timers_resolves It (w := w) (tm := tm)); [exact Hin|exact Hdue]).
      split; [exact Hres|].
      apply (resolved_not_waiting (WInv_run_timers _ It) Hres).
    + apply Z.leb_gt in Ed.
      assert (Hdue : ~ In tm (Timers.due (Timers.tick d (timers s)))).
      { intro Hd. apply Timers.in_due in Hd. destruct Hd as (y & Hy & Hty & Hdy).
        assert (Heq : y = x).
        { pose proof (Timers.In_find (winv_wf I) Hy) as Hfy.
          rewrite Hty, Hf in Hfy. congruence. }
        subst y. cbn in Hdy. lia. }
      assert (Hkeep : In (w, tm)
                         (hoverReadyWaiters
                            (run_timers (Timers.due (Timers.tick d (timers s))) st)))
        by (apply (run_timers_keeps_waiter It); [exact Hin|exact Hdue]).
      split; [exact Hkeep|].
      apply (waiting_not_resolved (WInv_run_timers _ It) Hkeep).
  - exact (proj1 Hdispose).
  - exact (proj2 Hdispose).
  - intro w. pose proof (winv_once I w) as Ho. split.
    + destruct (is_waiting w _), (w <? nextWaiter s)%nat; lia.
    + intro Hy. rewrite Hy in Ho. destruct (w <? nextWaiter s)%nat; lia.
  - apply I.
Qed.

(** ** Invariants of the client *)

(** [m] keeps [P]: from a state where [P] holds it ends in one. *)
Definition invariant {A} (P : state -> Prop) (m : M A) : Prop :=
  forall s, P s -> P (snd (m s)).

(** The notifications of the document life cycle. *)
Definition is_document_notification (e : Effect) : bool :=
  match e with
  | Notify method _ =>
      (method =? "textDocument/didOpen") || (method =? "textDocument/didChange")
      || (method =? "textDocument/didClose")
  | _ => false
  end.

Definition is_spawn (e : Effect) : bool :=
  match e with Spawn _ _ => true | _ => false end.

(** A property that the bookkeeping outside document synchronisation and
    outside the start of the sidecar cannot break. *)
Class Basic (P : state -> Prop) : Prop := {
  basic_log : forall e s,
    is_document_notification e = false -> is_spawn e = false ->
    P s -> P (log_effect e s);
  basic_tsgoProcess : forall x s, P s -> P (set_tsgoProcess x s);
  basic_disposed : forall x s, P s -> P (set_disposed x s);
  basic_documentDisposables : forall x s, P s -> P (set_documentDisposables x s);
  basic_hoverReady : forall x s, P s -> P (set_hoverReady x s);
  basic_hoverReadyWaiters : forall x s, P s -> P (set_hoverReadyWaiters x s);
  basic_nextWaiter : forall x s, P s -> P (set_nextWaiter x s);
  basic_timers : forall x s, P s -> P (set_timers x s);
  basic_documents : forall x s, P s -> P (set_documents x s)
}.

Section Basics.
Context {P : state -> Prop} {basic : Basic P}.

Lemma invariant_ret {A} (a : A) : invariant P (ret a).
Proof. intros s H. exact H. Qed.

Lemma invariant_lift {A} (o : Outcome A) : invariant P (lift o).
Proof. intros s H. exact H. Qed.

Lemma invariant_gets {A} (f : state -> A) : invariant P (gets f).
Proof. intros s H. exact H. Qed.

Lemma invariant_modify (f : state -> state) :
  (forall s, P s -> P (f s)) -> invariant P (modify f).
Proof. intros Hf s H. apply Hf, H. Qed.

Lemma invariant_emit (e : Effect) :
  is_document_notification e = false -> is_spawn e = false -> invariant P (emit e).
Proof. intros He Hs s H. apply basic_log; assumption. Qed.

Lemma invariant_bind {A B} (m : M A) (k : A -> M B) :
  invariant P m -> (forall a, invariant P (k a)) -> invariant P (bind m k).
Proof.
  intros Hm Hk s H. unfold bind. specialize (Hm s H).
  destruct (m s) as [[a|msg] s1]; cbn [snd] in *; [|exact Hm].
  exact (Hk a s1 Hm).
Qed.

Lemma invariant_try_catch {A} (m : M A) (h : string -> M A) :
  invariant P m -> (forall msg, invariant P (h msg)) -> invariant P (try_catch m h).
Proof.
  intros Hm Hh s H. unfold try_catch. specialize (Hm s H).
  destruct (m s) as [[a|msg] s1]; cbn [snd] in *; [exact Hm|].
  exact (Hh msg s1 Hm).
Qed.

Lemma invariant_for_each {A} (f : A -> M unit) (l : list A) :
  (forall a, invariant P (f a)) -> invariant P (for_each f l).
Proof.
  intro Hf. induction l as [|x l IH]; cbn [for_each].
  - apply invariant_ret.
  - apply invariant_bind; [apply Hf|intro; exact IH].
Qed.

Lemma invariant_callFallback (key : RequestKey) (args : list json) :
  invariant P (callFallback key args).
Proof.
  unfold callFallback. destruct (fallback env) as [fb|]; [|apply invariant_ret].
  apply invariant_bind; [apply invariant_gets|]. intro t.
  apply invariant_bind; [now apply invariant_emit|]. intros _.
  apply invariant_lift.
Qed.

Lemma invariant_callFallbackValue (key : RequestKey) (args : list json) :
  invariant P (callFallbackValue key args).
Proof.
  unfold callFallbackValue. destruct (fallback env) as [fb|]; [|apply invariant_ret].
  apply invariant_try_catch.
  - apply invariant_bind; [apply invariant_gets|]. intro t.
    apply invariant_bind; [now apply invariant_emit|]. intros _.
    apply invariant_bind; [apply invariant_lift|]. intro. apply invariant_ret.
  - intro msg. apply invariant_bind; [now apply invariant_emit|]. intros _.
    apply invariant_ret.
Qed.

Lemma invariant_callFallbackProjectInfo (fileName : string) :
  invariant P (callFallbackProjectInfo fileName).
Proof.
  unfold callFallbackProjectInfo. destruct (fallback env) as [fb|]; [|apply invariant_ret].
  apply invariant_try_catch.
  - apply invariant_bind; [apply invariant_gets|]. intro t.
    apply invariant_bind; [now apply invariant_emit|]. intros _.
    apply invariant_lift.
  - intro msg. apply invariant_bind; [now apply invariant_emit|]. intros _.
    apply invariant_ret.
Qed.

Lemma invariant_getProjectInfo (fileName : string) :
  invariant P (getProjectInfo fileName).
Proof.
  unfold getProjectInfo. destruct (findClosestConfig _) as [c|];
    [destruct (c =? ""); [|apply invariant_ret]|];
    apply invariant_callFallbackProjectInfo.
Qed.

Lemma invariant_finish (w tm : nat) (ready : bool) (s : state) :
  P s -> P (finish w tm ready s).
Proof.
  intro H. unfold finish.
  apply basic_log; [reflexivity|reflexivity|]. apply basic_timers, basic_hoverReadyWaiters, H.
Qed.

Lemma invariant_resolveHoverReadyWaiters (ready : bool) (s : state) :
  P s -> P (resolveHoverReadyWaiters ready s).
Proof.
  intro H. unfold resolveHoverReadyWaiters.
  destruct (hoverReadyWaiters s) as [|w ws]; [exact H|].
  generalize (w :: ws). intro waiters.
  assert (H0 : P (set_hoverReadyWaiters [] s)) by apply basic_hoverReadyWaiters, H.
  revert H0. generalize (set_hoverReadyWaiters [] s).
  induction waiters as [|x waiters IH]; intros s0 H0; [exact H0|].
  cbn [fold_left]. apply IH, invariant_finish, H0.
Qed.

Lemma invariant_markHoverReady (s : state) : P s -> P (markHoverReady s).
Proof.
  intro H. unfold markHoverReady. destruct (hoverReady s); [exact H|].
  apply invariant_resolveHoverReadyWaiters, basic_hoverReady, H.
Qed.

Lemma invariant_awaitReadyForHover (timeoutMs : Z) (s : state) :
  P s -> P (snd (awaitReadyForHover timeoutMs s)).
Proof.
  intro H. unfold awaitReadyForHover.
  assert (H1 : P (set_nextWaiter (S (nextWaiter s)) s)) by apply basic_nextWaiter, H.
  destruct (hoverReady _); [apply basic_log; [reflexivity|reflexivity|exact H1]|].
  destruct (disposed _); [apply basic_log; [reflexivity|reflexivity|exact H1]|].
  destruct (timeoutMs <=? 0)%Z; [apply basic_log; [reflexivity|reflexivity|exact H1]|].
  destruct (Timers.setTimeout _ _ _) as [tm q]. cbn [snd].
  apply basic_hoverReadyWaiters, basic_timers, H1.
Qed.

Lemma invariant_onWaiterTimeout (tm : nat) (s : state) :
  P s -> P (onWaiterTimeout tm s).
Proof.
  intro H. unfold onWaiterTimeout.
  destruct (Timers.take tm (timers s)) as [[x q]|]; [|exact H].
  apply invariant_finish, basic_timers, H.
Qed.

Lemma invariant_run_timers (ids : list nat) (s : state) :
  P s -> P (run_timers ids s).
Proof.
  revert s. induction ids as [|id ids IH]; intros s H; [exact H|].
  cbn [run_timers]. apply IH, invariant_onWaiterTimeout, H.
Qed.

(** The executable that [start] spawns, and [start] after the spawn. *)
Definition tsgo_command : string :=
  Selector.default (tsgoPath env)
    (Selector.default (env_VUE_LANGUAGE_SERVER_TSGO_PATH env) "tsgo").

Definition start_spawned (t : list Effect) : M unit :=
  lift (spawn env t tsgo_command ["--lsp"; "--stdio"]) ;;
  modify (set_tsgoProcess true) ;;
  modify (set_connectionToTsgo true) ;;
  let params :=
    JObj [("processId", JNum (process_pid env)); ("rootUri", JNull);
          ("capabilities", JObj []);
          ("workspaceFolders", JNull);
          ("clientInfo", JObj [("name", JStr "@vue/language-server")])] in
  t <- gets trace ;;
  emit (Request "initialize" params) ;;
  lift (sidecar env t "initialize" params) ;;
  emit (Notify "initialized" (JObj [])) ;;
  emit (Log info "[vue-ls] tsgo backend initialized") ;;
  docs <- gets documents ;;
  for_each syncOpenDocument (JsMap.values docs).

Lemma start_eq (s : state) :
  start s
  = if disposed s then (Ok tt, s)
    else start_spawned (trace s)
           (log_effect (Spawn tsgo_command ["--lsp"; "--stdio"]) s).
Proof. unfold start, bind, gets. cbn. destruct (disposed s); reflexivity. Qed.

(** [start], for a property that document synchronisation keeps and that
    survives the connection being set. *)
Lemma invariant_start_spawned (t : list Effect) :
  (forall document, invariant P (syncOpenDocument document)) ->
  (forall s, P s -> P (set_connectionToTsgo true s)) ->
  invariant P (start_spawned t).
Proof.
  intros Hsync Hconn. unfold start_spawned.
  apply invariant_bind; [apply invariant_lift|]. intros _.
  apply invariant_bind; [apply invariant_modify, basic_tsgoProcess|]. intros _.
  apply invariant_bind; [apply invariant_modify, Hconn|]. intros _.
  apply invariant_bind; [apply invariant_gets|]. intro t'.
  apply invariant_bind; [now apply invariant_emit|]. intros _.
  apply invariant_bind; [apply invariant_lift|]. intros _.
  apply invariant_bind; [now apply invariant_emit|]. intros _.
  apply invariant_bind; [now apply invariant_emit|]. intros _.
  apply invariant_bind; [apply invariant_gets|]. intro docs.
  apply invariant_for_each, Hsync.
Qed.

Lemma invariant_start :
  (forall document, invariant P (syncOpenDocument document)) ->
  (forall s, P s -> P (set_connectionToTsgo true s)) ->
  (forall file args s, P s -> P (log_effect (Spawn file args) s)) ->
  invariant P start.
Proof.
  intros Hsync Hconn Hspawn s H. rewrite start_eq.
  destruct (disposed s); [exact H|].
  apply invariant_start_spawned; [exact Hsync|exact Hconn|]. apply Hspawn, H.
Qed.

(** [dispose], for a property that survives the table of synchronised
    documents being emptied and the connection being dropped. *)
Lemma invariant_dispose :
  (forall s, P s -> P (set_openDocumentVersions [] s)) ->
  (forall s, P s -> P (set_connectionToTsgo false s)) ->
  invariant P dispose.
Proof.
  intros Hclear Hconn. unfold dispose.
  apply invariant_bind; [apply invariant_modify, basic_disposed|]. intros _.
  apply invariant_bind; [now apply invariant_emit|]. intros _.
  apply invariant_bind; [apply invariant_modify, basic_documentDisposables|]. intros _.
  apply invariant_bind; [apply invariant_modify, Hclear|]. intros _.
  apply invariant_bind;
    [apply invariant_modify; intro; apply invariant_resolveHoverReadyWaiters|]. intros _.
  apply invariant_bind; [apply invariant_gets|]. intros connected.
  apply invariant_bind.
  { destruct connected; [|apply invariant_ret].
    apply invariant_bind; [now apply invariant_emit|]. intros _.
    apply invariant_modify, Hconn. }
  intros _. apply invariant_bind; [apply invariant_gets|]. intros process.
  apply invariant_bind.
  { destruct process; [|apply invariant_ret].
    apply invariant_bind; [now apply invariant_emit|]. intros _.
    apply invariant_modify, basic_tsgoProcess. }
  intros _. destruct (fallback env) as [fb|]; [|apply invariant_ret].
  apply invariant_bind; [apply invariant_gets|]. intro t.
  apply invariant_bind; [now apply invariant_emit|]. intros _.
  apply invariant_lift.
Qed.
End Basics.

(** A property that every method and every listener of the client keeps. *)
Class Stable (P : state -> Prop) : Prop := {
  stable_basic : Basic P;
  stable_syncOpenDocument : forall document, invariant P (syncOpenDocument document);
  stable_syncClosedDocument : forall u, invariant P (syncClosedDocument u);
  stable_ensureStarted : invariant P ensureStarted;
  stable_getCompilerOptions : forall fileName, invariant P (getCompilerOptions fileName);
  stable_dispose : invariant P dispose
}.

Section Stables.
Context {P : state -> Prop} {stable : Stable P}.
#[local] Existing Instance stable_basic.

Lemma invariant_syncOpenDocumentByUri (u : string) :
  invariant P (syncOpenDocumentByUri u).
Proof.
  intros s H. unfold syncOpenDocumentByUri.
  destruct (JsMap.get _ _ _); [apply stable_syncOpenDocument, H|exact H].
Qed.

Lemma invariant_sendLspRequest (method : string) (params : json) :
  is_document_notification (Request method params) = false ->
  invariant P (sendLspRequest method params).
Proof.
  intros _. unfold sendLspRequest. apply invariant_try_catch.
  - apply invariant_bind; [apply stable_ensureStarted|]. intros _.
    apply invariant_bind; [apply invariant_gets|]. intro connected.
    destruct (negb connected); [apply invariant_ret|].
    apply invariant_bind.
    + destruct (field "uri" _); try apply invariant_ret.
      destruct (s =? ""); [apply invariant_ret|apply invariant_syncOpenDocumentByUri].
    + intros _. apply invariant_bind; [apply invariant_gets|]. intro t.
      apply invariant_bind; [now apply invariant_emit|]. intros _.
      apply invariant_lift.
  - intro msg. apply invariant_bind; [now apply invariant_emit|]. intros _.
    apply invariant_ret.
Qed.

Lemma invariant_highlightsBySidecar (fileName : string) (position : Z) :
  invariant P (highlightsBySidecar fileName position).
Proof.
  unfold highlightsBySidecar. destruct (supportsTsgoFile fileName); [|apply invariant_ret].
  apply invariant_bind; [apply invariant_gets|]. intro text0.
  apply invariant_bind; [now apply invariant_sendLspRequest|]. intro response.
  destruct (has_length response); [|apply invariant_ret].
  apply invariant_bind; [apply invariant_gets|]. intros [text|]; [|apply invariant_ret].
  apply invariant_bind; [apply invariant_lift|]. intro. apply invariant_ret.
Qed.

Lemma invariant_quickInfoBySidecar (fileName : string) (position : Text.Position) :
  invariant P (quickInfoBySidecar fileName position).
Proof.
  unfold quickInfoBySidecar. destruct (supportsTsgoFile fileName); [|apply invariant_ret].
  apply invariant_bind; [now apply invariant_sendLspRequest|]. intro response.
  apply invariant_bind; [apply invariant_lift|]. intros [text|]; [|apply invariant_ret].
  destruct (text =? ""); apply invariant_ret.
Qed.

Lemma invariant_moduleBySidecar (fileName moduleName : string) :
  invariant P (moduleBySidecar fileName moduleName).
Proof.
  unfold moduleBySidecar. destruct (supportsTsgoFile fileName); [|apply invariant_ret].
  apply invariant_bind; [apply stable_getCompilerOptions|]. intro options.
  destruct (ts_resolveModuleName env _ _ _) as [r|]; [|apply invariant_ret].
  destruct (_ =? ""); apply invariant_ret.
Qed.

Lemma invariant_primeTsgoHover (fileName : string) (position : Text.Position) :
  invariant P (primeTsgoHover fileName position).
Proof.
  unfold primeTsgoHover.
  apply invariant_bind; [now apply invariant_sendLspRequest|]. intro response.
  apply invariant_bind; [apply invariant_lift|]. intros [text|]; apply invariant_ret.
Qed.

Lemma invariant_getDocumentHighlights (fileName : string) (position : Z) :
  invariant P (getDocumentHighlights fileName position).
Proof.
  unfold getDocumentHighlights.
  apply invariant_bind; [apply invariant_highlightsBySidecar|].
  intros [value|]; [apply invariant_ret|apply invariant_callFallbackValue].
Qed.

Lemma invariant_resolveModuleName (fileName moduleName : string) :
  invariant P (resolveModuleName fileName moduleName).
Proof.
  unfold resolveModuleName.
  apply invariant_bind; [apply invariant_moduleBySidecar|].
  intros [value|]; [apply invariant_ret|apply invariant_callFallbackValue].
Qed.

Lemma invariant_getQuickInfoAtPosition (fileName : string) (position : Text.Position) :
  invariant P (getQuickInfoAtPosition fileName position).
Proof.
  unfold getQuickInfoAtPosition.
  apply invariant_bind; [apply invariant_modify, invariant_markHoverReady|]. intros _.
  apply invariant_bind; [apply invariant_quickInfoBySidecar|].
  intros [value|]; [apply invariant_ret|apply invariant_callFallbackValue].
Qed.

Lemma invariant_step (s : state) (e : event) : P s -> P (step s e).
Proof.
  intro H. destruct e; cbn [step]; unfold exec.
  - apply invariant_awaitReadyForHover, H.
  - apply invariant_getQuickInfoAtPosition, H.
  - apply invariant_getDocumentHighlights, H.
  - apply invariant_resolveModuleName, H.
  - apply invariant_getProjectInfo, H.
  - apply invariant_callFallback, H.
  - apply invariant_primeTsgoHover, H.
  - apply stable_dispose, H.
  - apply invariant_run_timers, basic_timers, H.
  - cbn zeta. destruct (documentDisposables _).
    + apply stable_syncOpenDocument, basic_documents, H.
    + apply basic_documents, H.
  - cbn zeta. destruct (documentDisposables _).
    + apply stable_syncOpenDocument, basic_documents, H.
    + apply basic_documents, H.
  - cbn zeta. destruct (documentDisposables _).
    + apply stable_syncClosedDocument, basic_documents, H.
    + apply basic_documents, H.
Qed.

Lemma invariant_run (events : list event) (s : state) : P s -> P (run events s).
Proof.
  revert s. induction events as [|e events IH]; intros s H; [exact H|].
  cbn [run fold_left]. apply IH, invariant_step, H.
Qed.
End Stables.

(** ** What synchronisation and disposal leave alone *)

Lemma syncOpenDocument_offline (document : SyncedTextDocument) (s : state) :
  connectionToTsgo s = false -> syncOpenDocument document s = (Ok tt, s).
Proof. intro H. apply syncOpenDocument_guarded. unfold syncable. now rewrite H. Qed.

Lemma syncClosedDocument_offline (u : string) (s : state) :
  connectionToTsgo s = false -> syncClosedDocument u s = (Ok tt, s).
Proof. intro H. apply syncClosedDocument_guarded. unfold closable. now rewrite H. Qed.

Lemma syncOpenDocument_fields (document : SyncedTextDocument) (s : state) :
  let s' := snd (syncOpenDocument document s) in
  initPromise s' = initPromise s /\ connectionToTsgo s' = connectionToTsgo s
  /\ compilerOptionsCache s' = compilerOptionsCache s
  /\ filter is_spawn (trace s') = filter is_spawn (trace s).
Proof.
  cbn zeta. unfold syncOpenDocument.
  destruct (negb (connectionToTsgo s)); [auto|].
  destruct (negb (scheme _ =? "file")); [auto|].
  destruct (negb (supportsTsgoFile _)); [auto|].
  destruct (JsMap.get _ _ _) as [tracked|]; [destruct (negb _); [|auto]|];
    cbn [snd initPromise connectionToTsgo compilerOptionsCache trace
         set_openDocumentVersions log_effect];
    rewrite filter_app; cbn [filter is_spawn didOpen didChange];
    rewrite app_nil_r; auto.
Qed.

Lemma syncClosedDocument_fields (u : string) (s : state) :
  let s' := snd (syncClosedDocument u s) in
  initPromise s' = initPromise s /\ connectionToTsgo s' = connectionToTsgo s
  /\ compilerOptionsCache s' = compilerOptionsCache s
  /\ filter is_spawn (trace s') = filter is_spawn (trace s).
Proof.
  cbn zeta. unfold syncClosedDocument.
  destruct (negb (connectionToTsgo s)); [auto|].
  destruct (negb (scheme _ =? "file")); [auto|].
  destruct (negb (JsMap.has _ _ _)); [auto|].
  cbn [snd initPromise connectionToTsgo compilerOptionsCache trace
       set_openDocumentVersions log_effect].
  rewrite filter_app. cbn [filter is_spawn didClose]. rewrite app_nil_r. auto.
Qed.

Lemma getCompilerOptions_fields (fileName : string) (s : state) :
  exists cache, snd (getCompilerOptions fileName s) = set_compilerOptionsCache cache s.
Proof.
  assert (Hs : s = set_compilerOptionsCache (compilerOptionsCache s) s)
    by (destruct s; reflexivity).
  unfold getCompilerOptions.
  destruct (findClosestConfig fileName) as [c|]; [|eexists; exact Hs].
  destruct (c =? ""); [eexists; exact Hs|].
  unfold bind, gets, modify, ret. cbn [snd].
  destruct (JsMap.get _ _ _) as [cached|];
    [destruct (truthy cached); [eexists; exact Hs|]|];
    destruct (readCompilerOptions env c); cbn [snd]; eexists;
      try exact Hs; reflexivity.
Qed.

Lemma resolveHoverReadyWaiters_connection (ready : bool) (s : state) :
  connectionToTsgo (resolveHoverReadyWaiters ready s) = connectionToTsgo s
  /\ openDocumentVersions (resolveHoverReadyWaiters ready s) = openDocumentVersions s
  /\ tsgoProcess (resolveHoverReadyWaiters ready s) = tsgoProcess s.
Proof.
  unfold resolveHoverReadyWaiters.
  destruct (hoverReadyWaiters s) as [|w ws]; [auto|].
  change (connectionToTsgo s) with (connectionToTsgo (set_hoverReadyWaiters [] s)).
  change (openDocumentVersions s) with (openDocumentVersions (set_hoverReadyWaiters [] s)).
  change (tsgoProcess s) with (tsgoProcess (set_hoverReadyWaiters [] s)).
  generalize (set_hoverReadyWaiters [] s). generalize (w :: ws).
  induction l as [|x l IH]; intro s0; cbn [fold_left]; [auto|].
  destruct (IH (finish (fst x) (snd x) ready s0)) as (H1 & H2 & H3).
  rewrite H1, H2, H3. auto.
Qed.

(** After [dispose] there is no connection and no synchronised document. *)
Lemma dispose_disconnects (s : state) :
  connectionToTsgo (exec dispose s) = false
  /\ openDocumentVersions (exec dispose s) = [].
Proof.
  unfold exec. rewrite dispose_eq.
  destruct (resolveHoverReadyWaiters_connection false (dispose_before_waiters s))
    as (Hc & Ho & Hp).
  set (s1 := resolveHoverReadyWaiters false (dispose_before_waiters s)) in *.
  cbn [dispose_before_waiters openDocumentVersions set_openDocumentVersions] in Ho.
  unfold dispose_after_waiters, emit, bind, gets, modify, ret, lift.
  destruct (connectionToTsgo s1) eqn:Ec; cbn [snd fst tsgoProcess log_effect
    set_connectionToTsgo];
    destruct (tsgoProcess s1); cbn [snd fst];
    destruct (fallback env) as [fb|]; cbn [snd fst];
    try (destruct (fb_dispose fb _)); cbn [snd fst connectionToTsgo
      openDocumentVersions log_effect set_connectionToTsgo set_tsgoProcess];
    auto.
Qed.

(** ** The document notifications the sidecar receives *)

Section Lifecycle.

(** Distinct file names have distinct URIs. *)
Hypothesis URI_file_injective : forall a b : string, URI_file a = URI_file b -> a = b.

Definition document_uri (params : json) : string :=
  match field "uri" (field "textDocument" params) with
  | JStr u => u
  | _ => ""
  end.

Definition is_open (u : string) (opened : list string) : bool :=
  existsb (String.eqb u) opened.

(** One effect against the documents that the sidecar has been told are
    open; [None] when a notification is out of order: a second [didOpen],
    or a [didChange] or [didClose] of a document that is not open. *)
Definition notified (opened : option (list string)) (e : Effect)
  : option (list string) :=
  match opened, e with
  | Some o, Notify method params =>
      let u := document_uri params in
      if method =? "textDocument/didOpen" then
        if is_open u o then None else Some (u :: o)
      else if method =? "textDocument/didChange" then
        if is_open u o then Some o else None
      else if method =? "textDocument/didClose" then
        if is_open u o then Some (filter (fun x => negb (x =? u)) o) else None
      else Some o
  | Some o, _ => Some o
  | None, _ => None
  end.

Definition opened_documents (t : list Effect) : option (list string) :=
  fold_left notified t (Some []).

(** The open documents are those of the synchronised files. *)
Definition agree (o : list string) (tracked : JsMap.t string Z) : Prop :=
  (forall f, JsMap.has String.eqb f tracked = true -> is_open (URI_file f) o = true)
  /\ (forall u, is_open u o = true ->
        exists f, JsMap.has String.eqb f tracked = true /\ u = URI_file f).

Definition fresh (s : state) (o : list string) : Prop :=
  connectionToTsgo s = false /\ o = [] /\ openDocumentVersions s = [].

Definition live (s : state) (o : list string) : Prop :=
  connectionToTsgo s = true /\ agree o (openDocumentVersions s).

(** Between two events: not started, connected, or without connection
    for good. *)
Definition in_order (s : state) : Prop :=
  exists o, opened_documents (trace s) = Some o
            /\ (initPromise s = None /\ fresh s o
                \/ initPromise s <> None /\ live s o
                \/ initPromise s <> None /\ connectionToTsgo s = false).

(** During [start]. *)
Definition starting (s : state) : Prop :=
  exists o, opened_documents (trace s) = Some o
            /\ initPromise s = None /\ (fresh s o \/ live s o).

Lemma opened_log (e : Effect) (s : state) :
  opened_documents (trace (log_effect e s)) = notified (opened_documents (trace s)) e.
Proof. unfold opened_documents. cbn [trace log_effect]. now rewrite fold_left_app. Qed.

Lemma notified_other (o : list string) (e : Effect) :
  is_document_notification e = false -> notified (Some o) e = Some o.
Proof.
  destruct e; try reflexivity. cbn [is_document_notification notified].
  intro H. apply orb_false_iff in H. destruct H as [H H3].
  apply orb_false_iff in H. destruct H as [H1 H2]. now rewrite H1, H2, H3.
Qed.

Lemma has_set (k k' : string) (v : Z) (m : JsMap.t string Z) :
  JsMap.has String.eqb k' (JsMap.set String.eqb k v m)
  = (k =? k') || JsMap.has String.eqb k' m.
Proof.
  unfold JsMap.has. destruct (k =? k') eqn:E.
  - apply String.eqb_eq in E. subst. now rewrite (JsMap.get_set_same String.eqb_eq).
  - apply String.eqb_neq in E. now rewrite (JsMap.get_set_other String.eqb_eq) by exact E.
Qed.

Lemma has_delete (k k' : string) (m : JsMap.t string Z) :
  JsMap.has String.eqb k' (JsMap.delete String.eqb k m)
  = negb (k =? k') && JsMap.has String.eqb k' m.
Proof.
  unfold JsMap.has. destruct (k =? k') eqn:E.
  - apply String.eqb_eq in E. subst. now rewrite (JsMap.get_delete_same String.eqb).
  - apply String.eqb_neq in E.
    now rewrite (JsMap.get_delete_other String.eqb_eq) by exact E.
Qed.

Lemma is_open_filter (u x : string) (o : list string) :
  is_open u (filter (fun y => negb (y =? x)) o) = negb (u =? x) && is_open u o.
Proof.
  unfold is_open. induction o as [|y o IH]; cbn [filter existsb].
  - now rewrite andb_false_r.
  - destruct (y =? x) eqn:E; cbn [negb existsb]; rewrite IH.
    + apply String.eqb_eq in E. subst y.
      destruct (u =? x) eqn:E'; cbn; reflexivity.
    + destruct (u =? y) eqn:E'; cbn [orb]; [|reflexivity].
      apply String.eqb_eq in E'. subst y. rewrite E. reflexivity.
Qed.

Lemma notified_didOpen (o : list string) (f : string) (document : SyncedTextDocument) :
  notified (Some o) (didOpen f document)
  = if is_open (URI_file f) o then None else Some (URI_file f :: o).
Proof. reflexivity. Qed.

Lemma notified_didChange (o : list string) (f : string) (document : SyncedTextDocument) :
  notified (Some o) (didChange f document)
  = if is_open (URI_file f) o then Some o else None.
Proof. reflexivity. Qed.

Lemma notified_didClose (o : list string) (f : string) :
  notified (Some o) (didClose f)
  = if is_open (URI_file f) o
    then Some (filter (fun x => negb (x =? URI_file f)) o) else None.
Proof. reflexivity. Qed.

(** A connected client stays in step with the sidecar when a document is
    synchronised. *)
Lemma live_syncOpenDocument (document : SyncedTextDocument) (s : state)
      (o : list string) :
  opened_documents (trace s) = Some o -> live s o ->
  exists o', opened_documents (trace (snd (syncOpenDocument document s))) = Some o'
             /\ live (snd (syncOpenDocument document s)) o'.
Proof.
  intros Ho [Hc [A1 A2]].
  destruct (syncable document s) eqn:Eg.
  2:{ rewrite (syncOpenDocument_guarded Eg). exists o. repeat split; assumption. }
  rewrite (syncOpenDocument_ready Eg). cbn zeta.
  set (f := normalizeFileName (fsPath (URI_parse (uri document)))).
  destruct (JsMap.get String.eqb f (openDocumentVersions s)) as [tracked|] eqn:Et.
  - assert (Hf : JsMap.has String.eqb f (openDocumentVersions s) = true)
      by (unfold JsMap.has; now rewrite Et).
    destruct (tracked =? version document)%Z.
    + exists o. repeat split; assumption.
    + exists o. cbn [snd]. split.
      * change (trace (set_openDocumentVersions _ ?x)) with (trace x).
        rewrite opened_log, Ho, notified_didChange. now rewrite (A1 f Hf).
      * split; [exact Hc|]. cbn [openDocumentVersions set_openDocumentVersions]. split.
        -- intros f0. rewrite has_set. intro H. apply A1.
           destruct (f =? f0) eqn:E; [apply String.eqb_eq in E; subst; exact Hf|exact H].
        -- intros u Hu. destruct (A2 u Hu) as (f0 & Hf0 & ->).
           exists f0. split; [|reflexivity]. rewrite has_set, Hf0. apply orb_true_r.
  - assert (Hnew : is_open (URI_file f) o = false).
    { destruct (is_open (URI_file f) o) eqn:E; [|reflexivity].
      destruct (A2 _ E) as (f0 & Hf0 & Hu). apply URI_file_injective in Hu. subst f0.
      unfold JsMap.has in Hf0. rewrite Et in Hf0. discriminate. }
    exists (URI_file f :: o). cbn [snd]. split.
    + change (trace (set_openDocumentVersions _ ?x)) with (trace x).
      rewrite opened_log, Ho, notified_didOpen. now rewrite Hnew.
    + split; [exact Hc|]. cbn [openDocumentVersions set_openDocumentVersions]. split.
      * intros f0. rewrite has_set. unfold is_open. cbn [existsb].
        destruct (f =? f0) eqn:E.
        -- apply String.eqb_eq in E. subst. now rewrite String.eqb_refl.
        -- cbn [orb]. intro H. apply A1 in H. unfold is_open in H. rewrite H.
           apply orb_true_r.
      * intros u. unfold is_open. cbn [existsb]. intro Hu.
        apply orb_true_iff in Hu. destruct Hu as [Hu|Hu].
        -- apply String.eqb_eq in Hu. subst u. exists f. split; [|reflexivity].
           rewrite has_set, String.eqb_refl. reflexivity.
        -- destruct (A2 u Hu) as (f0 & Hf0 & ->). exists f0. split; [|reflexivity].
           rewrite has_set, Hf0. apply orb_true_r.
Qed.

Lemma live_syncClosedDocument (u : string) (s : state) (o : list string) :
  opened_documents (trace s) = Some o -> live s o ->
  exists o', opened_documents (trace (snd (syncClosedDocument u s))) = Some o'
             /\ live (snd (syncClosedDocument u s)) o'.
Proof.
  intros Ho [Hc [A1 A2]].
  destruct (closable u s) eqn:Eg.
  2:{ rewrite (syncClosedDocument_guarded Eg). exists o. repeat split; assumption. }
  rewrite (syncClosedDocument_ready Eg). cbn zeta.
  set (f := normalizeFileName (fsPath (URI_parse u))).
  destruct (JsMap.has String.eqb f (openDocumentVersions s)) eqn:Hf.
  2:{ exists o. repeat split; assumption. }
  exists (filter (fun x => negb (x =? URI_file f)) o). cbn [snd]. split.
  - change (trace (set_openDocumentVersions _ ?x)) with (trace x).
    rewrite opened_log, Ho, notified_didClose. now rewrite (A1 f Hf).
  - split; [exact Hc|]. cbn [openDocumentVersions set_openDocumentVersions]. split.
    + intros f0. rewrite has_delete, is_open_filter. intro H.
      apply andb_true_iff in H. destruct H as [Hne H]. rewrite (A1 f0 H), andb_true_r.
      apply negb_true_iff. apply negb_true_iff in Hne.
      apply String.eqb_neq. apply String.eqb_neq in Hne. intro E. apply Hne.
      symmetry. now apply URI_file_injective.
    + intros u0. rewrite is_open_filter. intro H.
      apply andb_true_iff in H. destruct H as [Hne H].
      destruct (A2 u0 H) as (f0 & Hf0 & ->). exists f0. split; [|reflexivity].
      rewrite has_delete, Hf0, andb_true_r.
      apply negb_true_iff. apply negb_true_iff in Hne.
      apply String.eqb_neq. apply String.eqb_neq in Hne. intro E. apply Hne.
      now subst.
Qed.

Lemma in_order_basic : Basic in_order.
Proof.
  split; try (intros x s (o & Ho & H); exists o; split; [exact Ho|exact H]).
  intros e s He _ (o & Ho & H). exists o. split; [|exact H].
  rewrite opened_log, Ho. now apply notified_other.
Qed.

Lemma starting_basic : Basic starting.
Proof.
  split; try (intros x s (o & Ho & H); exists o; split; [exact Ho|exact H]).
  intros e s He _ (o & Ho & H). exists o. split; [|exact H].
  rewrite opened_log, Ho. now apply notified_other.
Qed.

Lemma starting_syncOpenDocument (document : SyncedTextDocument) :
  invariant starting (syncOpenDocument document).
Proof.
  intros s (o & Ho & Hi & [F|L]).
  - rewrite (syncOpenDocument_offline document (proj1 F)).
    exists o. split; [exact Ho|]. split; [exact Hi|]. now left.
  - destruct (live_syncOpenDocument document Ho L) as (o' & Ho' & L').
    destruct (syncOpenDocument_fields document s) as (Hp & _). cbn zeta in Hp.
    exists o'. split; [exact Ho'|]. split; [congruence|]. now right.
Qed.

Lemma in_order_syncOpenDocument (document : SyncedTextDocument) :
  invariant in_order (syncOpenDocument document).
Proof.
  intros s (o & Ho & [[Hi F]|[[Hi L]|[Hi Hc]]]).
  - rewrite (syncOpenDocument_offline document (proj1 F)).
    exists o. split; [exact Ho|]. left. now split.
  - destruct (live_syncOpenDocument document Ho L) as (o' & Ho' & L').
    destruct (syncOpenDocument_fields document s) as (Hp & _). cbn zeta in Hp.
    exists o'. split; [exact Ho'|]. right. left. split; [congruence|exact L'].
  - rewrite (syncOpenDocument_offline document Hc).
    exists o. split; [exact Ho|]. right. right. now split.
Qed.

Lemma in_order_syncClosedDocument (u : string) :
  invariant in_order (syncClosedDocument u).
Proof.
  intros s (o & Ho & [[Hi F]|[[Hi L]|[Hi Hc]]]).
  - rewrite (syncClosedDocument_offline u (proj1 F)).
    exists o. split; [exact Ho|]. left. now split.
  - destruct (live_syncClosedDocument u Ho L) as (o' & Ho' & L').
    destruct (syncClosedDocument_fields u s) as (Hp & _). cbn zeta in Hp.
    exists o'. split; [exact Ho'|]. right. left. split; [congruence|exact L'].
  - rewrite (syncClosedDocument_offline u Hc).
    exists o. split; [exact Ho|]. right. right. now split.
Qed.

Lemma in_order_ensureStarted : invariant in_order ensureStarted.
Proof.
  intros s H. unfold ensureStarted.
  destruct (initPromise s) as [outcome|] eqn:Ei; [exact H|].
  assert (Hs : starting s).
  { destruct H as (o & Ho & [[_ F]|[[Hi _]|[Hi _]]]); try congruence.
    exists o. split; [exact Ho|]. split; [exact Ei|]. now left. }
  assert (Hs' : starting (snd (start s))).
  { clear H Ei. revert s Hs.
    apply (invariant_start (basic := starting_basic)).
    - apply starting_syncOpenDocument.
    - intros s (o & Ho & Hi & [(Hc & -> & Ht)|[Hc A]]).
      + exists []. split; [exact Ho|]. split; [exact Hi|]. right.
        split; [reflexivity|]. cbn [openDocumentVersions set_connectionToTsgo].
        rewrite Ht. split.
        * intros f Hf. discriminate Hf.
        * intros u Hu. discriminate Hu.
      + exists o. split; [exact Ho|]. split; [exact Hi|]. right.
        split; [reflexivity|exact A].
    - intros file args s (o & Ho & H). exists o. split; [|exact H].
      rewrite opened_log, Ho. reflexivity. }
  destruct (start s) as [outcome s']. cbn [snd] in *.
  destruct Hs' as (o & Ho & _ & [F|L]).
  - exists o. split; [exact Ho|]. right. right. split; [discriminate|exact (proj1 F)].
  - exists o. split; [exact Ho|]. right. left. split; [discriminate|exact L].
Qed.

Lemma in_order_getCompilerOptions (fileName : string) :
  invariant in_order (getCompilerOptions fileName).
Proof.
  intros s H. destruct (getCompilerOptions_fields fileName s) as [cache ->]. exact H.
Qed.

Lemma in_order_dispose : invariant in_order dispose.
Proof.
  intros s (o & Ho & H).
  destruct (dispose_disconnects s) as [Hc Ht]. unfold exec in Hc, Ht.
  assert (Hsame : opened_documents (trace (snd (dispose s))) = Some o
                  /\ initPromise (snd (dispose s)) = initPromise s).
  { assert (B : Basic (fun s' => opened_documents (trace s') = Some o
                                 /\ initPromise s' = initPromise s)).
    { split; try (intros x s0 H0; exact H0).
      intros e s0 He _ [H1 H2]. split; [|exact H2].
      rewrite opened_log, H1. now apply notified_other. }
    apply (invariant_dispose (basic := B)).
    - intros s0 H0. exact H0.
    - intros s0 H0. exact H0.
    - split; [exact Ho|reflexivity]. }
  destruct Hsame as [Ho' Hi'].
  exists o. split; [exact Ho'|].
  destruct H as [[Hi F]|[[Hi _]|[Hi _]]].
  - left. split; [congruence|]. split; [exact Hc|]. split; [apply F|exact Ht].
  - right. right. split; [congruence|exact Hc].
  - right. right. split; [congruence|exact Hc].
Qed.

Lemma in_order_stable : Stable in_order.
Proof.
  split.
  - apply in_order_basic.
  - apply in_order_syncOpenDocument.
  - apply in_order_syncClosedDocument.
  - apply in_order_ensureStarted.
  - apply in_order_getCompilerOptions.
  - apply in_order_dispose.
Qed.

(** X13.  The document notifications that the sidecar receives are well
    formed, whatever the client is asked to do: a document is opened only
    when it is not open, changed and closed only when it is; and while the
    connection exists the documents the sidecar holds open are exactly the
    files of the table of synchronised versions. *)
Theorem document_notifications_are_in_order
        (documents : JsMap.t string SyncedTextDocument) (events : list event) :
  let s := run events (create documents) in
  exists opened,
    opened_documents (trace s) = Some opened
    /\ (connectionToTsgo s = true ->
        forall fileName,
          JsMap.has String.eqb fileName (openDocumentVersions s) = true
          <-> is_open (URI_file fileName) opened = true).
Proof.
  intros s.
  assert (H : in_order s).
  { apply (invariant_run (stable := in_order_stable)).
    exists []. split; [reflexivity|]. left. repeat split; reflexivity. }
  destruct H as (o & Ho & H). exists o. split; [exact Ho|].
  intros Hc fileName.
  destruct H as [[_ (Hf & _)]|[[_ (_ & A1 & A2)]|[_ Hf]]]; try congruence.
  split; [apply A1|]. intro Hu. destruct (A2 _ Hu) as (f & Hf & E).
  apply URI_file_injective in E. now subst.
Qed.

End Lifecycle.

(** ** The sidecar is spawned once *)

(** Nothing has been spawned before the first start; afterwards the one
    process is the sidecar with its two arguments. *)
Definition spawned_once (s : state) : Prop :=
  (initPromise s = None -> filter is_spawn (trace s) = [])
  /\ (filter is_spawn (trace s) = []
      \/ filter is_spawn (trace s) = [Spawn tsgo_command ["--lsp"; "--stdio"]]).

Lemma filter_is_spawn_log (e : Effect) (s : state) :
  is_spawn e = false ->
  filter is_spawn (trace (log_effect e s)) = filter is_spawn (trace s).
Proof.
  intro He. cbn [trace log_effect]. rewrite filter_app. cbn [filter]. rewrite He.
  apply app_nil_r.
Qed.

Lemma spawned_once_basic : Basic spawned_once.
Proof.
  split; try (intros x s H; exact H).
  intros e s _ He [H1 H2]. unfold spawned_once.
  rewrite (filter_is_spawn_log s He). split; assumption.
Qed.

Lemma spawned_once_stable : Stable spawned_once.
Proof.
  split.
  - apply spawned_once_basic.
  - intros document s [H1 H2].
    destruct (syncOpenDocument_fields document s) as (Hi & _ & _ & Ht). cbn zeta in *.
    unfold spawned_once. rewrite Hi, Ht. split; assumption.
  - intros u s [H1 H2].
    destruct (syncClosedDocument_fields u s) as (Hi & _ & _ & Ht). cbn zeta in *.
    unfold spawned_once. rewrite Hi, Ht. split; assumption.
  - intros s [H1 H2]. unfold ensureStarted.
    destruct (initPromise s) as [outcome|] eqn:Ei;
      [split; [cbn [snd]; congruence|exact H2]|].
    specialize (H1 eq_refl).
    assert (Hs : filter is_spawn (trace (snd (start s))) = []
                 \/ filter is_spawn (trace (snd (start s)))
                    = [Spawn tsgo_command ["--lsp"; "--stdio"]]).
    { rewrite start_eq. destruct (disposed s); [left; exact H1|]. right.
      assert (B : Basic (fun s' => filter is_spawn (trace s')
                                   = [Spawn tsgo_command ["--lsp"; "--stdio"]])).
      { split; try (intros x s0 H0; exact H0).
        intros e s0 _ He H0. now rewrite (filter_is_spawn_log s0 He). }
      apply (invariant_start_spawned (basic := B)).
      - intros document s0 H0.
        destruct (syncOpenDocument_fields document s0) as (_ & _ & _ & Ht).
        cbn zeta in Ht. now rewrite Ht.
      - intros s0 H0. exact H0.
      - cbn [trace log_effect]. rewrite filter_app, H1. reflexivity. }
    destruct (start s) as [outcome s']. cbn [snd] in *.
    split; [discriminate|exact Hs].
  - intros fileName s H.
    destruct (getCompilerOptions_fields fileName s) as [cache ->]. exact H.
  - apply (invariant_dispose (basic := spawned_once_basic)); intros s H; exact H.
Qed.

(** X15.  In the life of a client the sidecar is spawned at most once,
    with the configured executable and the arguments [--lsp --stdio]: a
    start that failed is remembered and not tried again, and nothing but the
    start spawns a process. *)
Theorem sidecar_is_spawned_at_most_once
        (documents : JsMap.t string SyncedTextDocument) (events : list event) :
  let t := trace (run events (create documents)) in
  filter is_spawn t = []
  \/ filter is_spawn t = [Spawn tsgo_command ["--lsp"; "--stdio"]].
Proof.
  intros t. subst t.
  assert (H : spawned_once (run events (create documents))).
  { apply (invariant_run (stable := spawned_once_stable)).
    split; [reflexivity|left; reflexivity]. }
  exact (proj2 H).
Qed.

(** ** Compiler options are read once *)

Section Cached.
Variable configFileName : string.
Variable options : json.
Hypothesis options_truthy : truthy options = true.

Definition cached (s : state) : Prop :=
  JsMap.get String.eqb configFileName (compilerOptionsCache s) = Some options.

Lemma cached_basic : Basic cached.
Proof. split; intros; assumption. Qed.

Lemma cached_getCompilerOptions (fileName : string) :
  invariant cached (getCompilerOptions fileName).
Proof.
  intros s H. unfold cached in *. unfold getCompilerOptions.
  destruct (findClosestConfig fileName) as [c|]; [|exact H].
  destruct (c =? ""); [exact H|].
  unfold bind, gets, modify, ret. cbn [snd].
  destruct (String.eqb_spec c configFileName) as [->|Hne].
  - rewrite H, options_truthy. exact H.
  - destruct (JsMap.get String.eqb c (compilerOptionsCache s)) as [other|];
      [destruct (truthy other); [exact H|]|];
      destruct (readCompilerOptions env c); cbn [snd]; try exact H;
      cbn [compilerOptionsCache set_compilerOptionsCache];
      now rewrite (JsMap.get_set_other String.eqb_eq) by exact Hne.
Qed.

Lemma cached_stable : Stable cached.
Proof.
  split.
  - apply cached_basic.
  - intros document s H.
    destruct (syncOpenDocument_fields document s) as (_ & _ & Hc & _). cbn zeta in Hc.
    unfold cached. now rewrite Hc.
  - intros u s H.
    destruct (syncClosedDocument_fields u s) as (_ & _ & Hc & _). cbn zeta in Hc.
    unfold cached. now rewrite Hc.
  - intros s H. unfold ensureStarted.
    destruct (initPromise s) as [outcome|]; [exact H|].
    assert (Hs : cached (snd (start s))).
    { revert s H. apply (invariant_start (basic := cached_basic)).
      - intros document s H.
        destruct (syncOpenDocument_fields document s) as (_ & _ & Hc & _).
        cbn zeta in Hc. unfold cached. now rewrite Hc.
      - intros s H. exact H.
      - intros file args s H. exact H. }
    destruct (start s) as [outcome s']. exact Hs.
  - apply cached_getCompilerOptions.
  - apply (invariant_dispose (basic := cached_basic)); intros s H; exact H.
Qed.

(** X14.  Compiler options are read once for each configuration file and
    kept for the life of the client: once the options of a file are in the
    cache, no request, document event or disposal removes or replaces them,
    and every later lookup for a source file of that configuration returns
    them without reading the file again, whatever it now contains. *)
Theorem compiler_options_stay_cached (events : list event) (s : state) :
  cached s ->
  cached (run events s)
  /\ forall fileName,
       findClosestConfig fileName = Some configFileName ->
       configFileName <> "" ->
       getCompilerOptions fileName (run events s) = (Ok options, run events s).
Proof.
  intro H.
  assert (H' : cached (run events s))
    by (apply (invariant_run (stable := cached_stable)); exact H).
  split; [exact H'|]. intros fileName Hf Hne.
  unfold getCompilerOptions. rewrite Hf.
  destruct (configFileName =? "") eqn:E; [apply String.eqb_eq in E; contradiction|].
  unfold bind, gets, ret. unfold cached in H'. rewrite H', options_truthy. reflexivity.
Qed.

End Cached.

End WithEnv.

(** ** A concrete world *)

(** A fallback that answers nothing, and one whose process cannot be started. *)
Definition fb_silent : Fallback :=
  {| fb_call := fun _ _ _ => Ok JNull;
     fb_getProjectInfo := fun _ _ => Ok None;
     fb_warmup := fun _ => Ok tt;
     fb_dispose := fun _ => Ok tt |}.

Definition fb_broken : Fallback :=
  {| fb_call := fun _ _ _ => Throw "tsserver process does not expose IPC messaging";
     fb_getProjectInfo :=
       fun _ _ => Throw "tsserver process does not expose IPC messaging";
     fb_warmup := fun _ => Throw "tsserver process does not expose IPC messaging";
     fb_dispose := fun _ => Ok tt |}.

(** A sidecar that starts and gives [answer] to every request; the project
    has [/app/tsconfig.json] and [/app/src/jsconfig.json]. *)
Definition world (fb : option Fallback) (answer : string -> json)
           (files : string -> option string) : Env :=
  {| tsgoPath := None;
     env_VUE_LANGUAGE_SERVER_TSGO_PATH := None;
     process_pid := 4242;
     fallback := fb;
     spawn := fun _ _ _ => Ok tt;
     sidecar := fun _ method _ => Ok (answer method);
     readFile := files;
     findConfigFile :=
       fun dir name =>
         if name =? "tsconfig.json" then
           if startsWith dir "/app" then Some "/app/tsconfig.json" else None
         else if startsWith dir "/app/src" then Some "/app/src/jsconfig.json" else None;
     ts_resolveModuleName := fun _ _ _ => None;
     readCompilerOptions := fun _ => Some (JObj []) |}.

Definition no_answer : string -> json := fun _ => JNull.
Definition no_files : string -> option string := fun _ => None.

Definition app_vue : SyncedTextDocument :=
  {| uri := "file:///app/src/App.vue"; languageId := "vue";
     version := 1; getText := "<template><div/></template>" |}.

Definition main_ts : SyncedTextDocument :=
  {| uri := "file:///app/src/main.ts"; languageId := "typescript";
     version := 1; getText := "export const answer = 42" |}.

(** The client after a successful start with no document open. *)
Definition started (e : Env) : state :=
  exec (ensureStarted (host := posix) e) (create []).

(** The connection is up and [App.vue] is not tracked, yet its first sync
    sends nothing and records nothing: [.vue] is not an extension of the
    sidecar. *)
Lemma vue_document_first_sync_is_silent :
  let s := started (world (Some fb_silent) no_answer no_files) in
  let s' := exec (syncOpenDocument (host := posix) app_vue) s in
  connectionToTsgo s = true
  /\ JsMap.get String.eqb "/app/src/App.vue" (openDocumentVersions s) = None
  /\ trace s' = trace s
  /\ JsMap.get String.eqb "/app/src/App.vue" (openDocumentVersions s') = None.
Proof. vm_compute. repeat split. Qed.

(** Before the sidecar is started there is no connection, and the first
    sync of a TypeScript document sends nothing either. *)
Lemma sync_before_start_is_silent :
  exec (syncOpenDocument (host := posix) main_ts) (create []) = create [].
Proof. reflexivity. Qed.

Lemma sync_is_idempotent_per_version_witness :
  let s := started (world (Some fb_silent) no_answer no_files) in
  let s' := exec (syncOpenDocument (host := posix) main_ts) s in
  trace s' = trace s ++ [didOpen (host := posix) "/app/src/main.ts" main_ts]
  /\ exec (syncOpenDocument (host := posix) main_ts) s' = s'.
Proof.
  cbn zeta.
  destruct (@sync_is_idempotent_per_version posix main_ts
              (started (world (Some fb_silent) no_answer no_files))) as [_ Hsync].
  destruct Hsync as [Hsync _].
  destruct Hsync as (Hopen & _ & _ & Hagain); [vm_compute; reflexivity|].
  split; [|exact Hagain].
  destruct Hopen as [Ht _]; [vm_compute; reflexivity|exact Ht].
Defined.

(** [getComponentNames] is forwarded to a fallback whose tsserver cannot be
    started. *)
Lemma forwarded_rejection_reaches_caller_witness :
  let e := world (Some fb_broken) no_answer no_files in
  fst (forward e (key_vue Requests.getComponentNames) [JStr "/app/src/App.vue"]
               (started e))
  = Throw "tsserver process does not expose IPC messaging".
Proof.
  cbn zeta.
  rewrite (proj1 (@forwarded_rejection_reaches_caller
                    (world (Some fb_broken) no_answer no_files) fb_broken
                    (key_vue Requests.getComponentNames) [JStr "/app/src/App.vue"]
                    "tsserver process does not expose IPC messaging"
                    (started (world (Some fb_broken) no_answer no_files))
                    eq_refl eq_refl)).
  reflexivity.
Defined.




(** A sidecar whose hover has no contents: [hoverToDisplayString] throws,
    the request rejects, and the fallback is not called. *)
Lemma hover_without_contents_rejects :
  let answers := fun method : string =>
                   if method =? "textDocument/hover"
                   then JObj [("contents", JNull)] else JNull in
  let e := world (Some fb_silent) answers no_files in
  let position := {| Text.line := 0; Text.character := 13 |} in
  let s := started e in
  let r := getQuickInfoAtPosition (host := posix) e "/app/src/main.ts" position s in
  fst r = Throw "TypeError: Cannot read properties of null (reading 'value')"
  /\ trace (snd r)
     = trace s ++ [Request "textDocument/hover"
                           (hover_params (host := posix) "/app/src/main.ts" position)].
Proof. vm_compute. split; reflexivity. Qed.

(** Two calls wait for readiness, one with the time limit of the server
    and one with a short one; the short one runs out, then the first hover
    request arrives, for a file the sidecar knows nothing about. *)
Lemma hover_readiness_is_one_way_witness :
  let e := world (Some fb_silent) no_answer no_files in
  let position := {| Text.line := 0; Text.character := 0 |} in
  let s := run (host := posix) e
               [AwaitReadyForHover 8000; AwaitReadyForHover 50; Advance 60]
               (create []) in
  let s' := step (host := posix) e s
                 (GetQuickInfoAtPosition "/app/src/App.vue" position) in
  hoverReady s = false
  /\ trace s = [WaiterResolved 1 false]
  /\ hoverReady s' = true
  /\ hoverReadyWaiters s' = []
  /\ In (WaiterResolved 0 true) (trace s').
Proof.
  cbn zeta.
  destruct (@hover_readiness_is_one_way posix
              (world (Some fb_silent) no_answer no_files) []
              [AwaitReadyForHover 8000; AwaitReadyForHover 50; Advance 60])
    as (Hflag & Hturn & _).
  split; [reflexivity|]. split; [reflexivity|].
  split; [apply Hflag|].
  destruct (Hturn "/app/src/App.vue" {| Text.line := 0; Text.character := 0 |} eq_refl)
    as (Hnone & t & Ht & _).
  split; [exact Hnone|].
  rewrite Ht. apply in_app_iff. right. apply in_app_iff. left. now left.
Defined.


(** On the POSIX host a file URI is [file://] followed by the path. *)
Lemma posix_URI_file_injective (a b : string) :
  URI_file (Host := posix) a = URI_file (Host := posix) b -> a = b.
Proof. cbn. intro H. now inversion H. Qed.

(** A document is opened, asked about, edited, closed and opened again. *)
Lemma document_notifications_are_in_order_witness :
  let e := world (Some fb_silent) no_answer no_files in
  let edited := {| uri := "file:///app/src/main.ts"; languageId := "typescript";
                   version := 2; getText := "export const answer = 43" |} in
  let s := run (host := posix) e
               [DidOpen main_ts;
                GetQuickInfoAtPosition "/app/src/main.ts"
                                       {| Text.line := 0; Text.character := 13 |};
                DidChangeContent edited;
                DidClose "file:///app/src/main.ts";
                DidOpen edited]
               (create []) in
  (exists opened, opened_documents (trace s) = Some opened)
  /\ opened_documents (trace s) = Some ["file:///app/src/main.ts"]
  /\ JsMap.keys (openDocumentVersions s) = ["/app/src/main.ts"].
Proof.
  cbv zeta.
  destruct (@document_notifications_are_in_order posix
              (world (Some fb_silent) no_answer no_files)
              posix_URI_file_injective []
              [DidOpen main_ts;
               GetQuickInfoAtPosition "/app/src/main.ts"
                                      {| Text.line := 0; Text.character := 13 |};
               DidChangeContent
                 {| uri := "file:///app/src/main.ts"; languageId := "typescript";
                    version := 2; getText := "export const answer = 43" |};
               DidClose "file:///app/src/main.ts";
               DidOpen
                 {| uri := "file:///app/src/main.ts"; languageId := "typescript";
                    version := 2; getText := "export const answer = 43" |}])
    as (opened & Ho & _).
  split; [exists opened; exact Ho|].
  split; vm_compute; reflexivity.
Defined.

(** The same project with other compiler options in its configuration. *)
Definition with_options (options : json) (e : Env) : Env :=
  {| tsgoPath := tsgoPath e;
     env_VUE_LANGUAGE_SERVER_TSGO_PATH := env_VUE_LANGUAGE_SERVER_TSGO_PATH e;
     process_pid := process_pid e;
     fallback := fallback e;
     spawn := spawn e;
     sidecar := sidecar e;
     readFile := readFile e;
     findConfigFile := findConfigFile e;
     ts_resolveModuleName := ts_resolveModuleName e;
     readCompilerOptions := fun _ => Some options |}.

(** The options are read while the configuration says [strict: true]; the
    configuration is then edited, and the client is used and disposed. *)
Lemma compiler_options_stay_cached_witness :
  let strict := JObj [("strict", JBool true)] in
  let loose := JObj [("strict", JBool false)] in
  let before := with_options strict (world None no_answer no_files) in
  let later := with_options loose (world None no_answer no_files) in
  let s := exec (getCompilerOptions (host := posix) before "/app/src/main.ts")
                (create []) in
  let s' := run (host := posix) later
                [DidOpen main_ts; ResolveModuleName "/app/src/main.ts" "vue"; Dispose] s in
  readCompilerOptions later "/app/src/jsconfig.json" = Some loose
  /\ fst (getCompilerOptions (host := posix) later "/app/src/main.ts" s') = Ok strict.
Proof.
  cbv zeta. split; [reflexivity|].
  destruct (@compiler_options_stay_cached posix
              (with_options (JObj [("strict", JBool false)])
                            (world None no_answer no_files))
              "/app/src/jsconfig.json" (JObj [("strict", JBool true)]) eq_refl
              [DidOpen main_ts; ResolveModuleName "/app/src/main.ts" "vue"; Dispose]
              (exec (getCompilerOptions (host := posix)
                       (with_options (JObj [("strict", JBool true)])
                                     (world None no_answer no_files))
                       "/app/src/main.ts")
                    (create [])))
    as [_ Hget].
  - vm_compute. reflexivity.
  - rewrite (Hget "/app/src/main.ts"); [reflexivity|vm_compute; reflexivity|discriminate].
Defined.

End Tsgo.

(* ================================================================== *)
(** * The warmup task of the server *)
(* ================================================================== *)

(** [startServer] keeps [tsBackendWarmupTask], the promise of
    [warmupTsBackend], and asks for it in two places: from a timer set by
    [onInitialize] and from [onInitialized].  A promise is a number here;
    [warmup()] of the client is one effect. *)
Module Server.

Inductive Effect : Type :=
| WarmupTsBackend (task : nat)
| ClientWarmup
| Requested (task : nat)
| ClientDispose.

Record state : Type := {
  mode : Selector.TsBackendMode;
  tsBackendWarmupTask : option nat;
  promises : nat;
  timers : Timers.t unit;
  trace : list Effect
}.

Definition emit (e : Effect) (s : state) : state :=
  {| mode := mode s; tsBackendWarmupTask := tsBackendWarmupTask s;
     promises := promises s; timers := timers s; trace := trace s ++ [e] |}.

Definition set_tsBackendWarmupTask (x : option nat) (s : state) : state :=
  {| mode := mode s; tsBackendWarmupTask := x;
     promises := promises s; timers := timers s; trace := trace s |}.

Definition set_timers (x : Timers.t unit) (s : state) : state :=
  {| mode := mode s; tsBackendWarmupTask := tsBackendWarmupTask s;
     promises := promises s; timers := x; trace := trace s |}.

(** [startServer], for a client of mode [m]. *)
Definition create (m : Selector.TsBackendMode) : state :=
  {| mode := m; tsBackendWarmupTask := None; promises := 0;
     timers := Timers.empty unit; trace := [] |}.

(** The call of the async function [warmupTsBackend] up to its first
    [await]: a new promise, and [tsBackend.warmup()] unless the mode is
    not [tsgo-lsp]. *)
Definition warmupTsBackend (s : state) : nat * state :=
  let task := promises s in
  let s1 := emit (WarmupTsBackend task)
                 {| mode := mode s; tsBackendWarmupTask := tsBackendWarmupTask s;
                    promises := S task; timers := timers s; trace := trace s |} in
  match mode s with
  | Selector.tsgo_lsp => (task, emit ClientWarmup s1)
  | Selector.tsserver => (task, s1)
  end.

(** [tsBackendWarmupTask ??= warmupTsBackend(connection, tsBackend);
    return tsBackendWarmupTask]. *)
Definition ensureTsBackendWarmup (s : state) : nat * state :=
  match tsBackendWarmupTask s with
  | Some task => (task, s)
  | None =>
      let '(task, s1) := warmupTsBackend s in
      (task, set_tsBackendWarmupTask (Some task) s1)
  end.

(** [void ensureTsBackendWarmup()], with what the call returned on record. *)
Definition request (s : state) : state :=
  let '(task, s1) := ensureTsBackendWarmup s in emit (Requested task) s1.

Inductive event : Type :=
| OnInitialize
| OnInitialized
| Advance (d : Z)
| OnShutdown.

Fixpoint run_timers (ids : list nat) (s : state) : state :=
  match ids with
  | [] => s
  | id :: rest =>
      match Timers.take id (timers s) with
      | Some (_, q) => run_timers rest (request (set_timers q s))
      | None => run_timers rest s
      end
  end.

Definition step (s : state) (e : event) : state :=
  match e with
  | OnInitialize => set_timers (snd (Timers.setTimeout tt 0 (timers s))) s
  | OnInitialized => request s
  | Advance d =>
      let q := Timers.tick d (timers s) in
      run_timers (Timers.due q) (set_timers q s)
  | OnShutdown => emit ClientDispose s
  end.

Definition run (events : list event) (s : state) : state := fold_left step events s.

Definition is_call (e : Effect) : bool :=
  match e with WarmupTsBackend _ => true | _ => false end.

Definition is_client_warmup (e : Effect) : bool :=
  match e with ClientWarmup => true | _ => false end.

Definition count (P : Effect -> bool) (t : list Effect) : nat := length (filter P t).

Lemma count_app (P : Effect -> bool) (t1 t2 : list Effect) :
  count P (t1 ++ t2) = (count P t1 + count P t2)%nat.
Proof. unfold count. rewrite filter_app, length_app. reflexivity. Qed.

(** The task is set exactly when [warmupTsBackend] has been called, which
    then has happened once; every requester got the task. *)
Record SInv (s : state) : Prop := {
  sinv_calls : count is_call (trace s)
               = match tsBackendWarmupTask s with Some _ => 1 | None => 0 end;
  sinv_client : count is_client_warmup (trace s)
                = match tsBackendWarmupTask s, mode s with
                  | Some _, Selector.tsgo_lsp => 1
                  | _, _ => 0
                  end;
  sinv_requested : forall task, In (Requested task) (trace s) ->
                                tsBackendWarmupTask s = Some task
}.

Lemma SInv_create (m : Selector.TsBackendMode) : SInv (create m).
Proof. split; cbn; try reflexivity. contradiction. Qed.

Lemma SInv_set_timers (q : Timers.t unit) (s : state) : SInv s -> SInv (set_timers q s).
Proof. intro I. split; cbn; apply I. Qed.

Lemma ensureTsBackendWarmup_memoized (s : state) (task : nat) :
  tsBackendWarmupTask s = Some task -> ensureTsBackendWarmup s = (task, s).
Proof. intro E. unfold ensureTsBackendWarmup. rewrite E. reflexivity. Qed.

Lemma ensureTsBackendWarmup_first (s : state) :
  tsBackendWarmupTask s = None ->
  let '(task, s1) := ensureTsBackendWarmup s in
  task = promises s
  /\ tsBackendWarmupTask s1 = Some task
  /\ mode s1 = mode s /\ timers s1 = timers s
  /\ trace s1 = trace s ++ WarmupTsBackend task
                          :: match mode s with
                             | Selector.tsgo_lsp => [ClientWarmup]
                             | Selector.tsserver => []
                             end.
Proof.
  intro E. unfold ensureTsBackendWarmup, warmupTsBackend. rewrite E.
  destruct (mode s) eqn:Em; cbn; rewrite ?Em; repeat split; try reflexivity.
  rewrite <- app_assoc. reflexivity.
Qed.

Lemma SInv_request (s : state) : SInv s -> SInv (request s).
Proof.
  intro I. unfold request.
  destruct (tsBackendWarmupTask s) as [task|] eqn:E.
  - rewrite (ensureTsBackendWarmup_memoized E).
    split; cbn [trace emit tsBackendWarmupTask mode]; rewrite ?count_app, ?E.
    + rewrite (sinv_calls I), E. reflexivity.
    + rewrite (sinv_client I), E. cbn. lia.
    + intros t Hin. apply in_app_iff in Hin. destruct Hin as [Hin|[Hin|[]]].
      * rewrite <- E. apply (sinv_requested I Hin).
      * congruence.
  - pose proof (ensureTsBackendWarmup_first E) as Hf.
    destruct (ensureTsBackendWarmup s) as [task s1].
    destruct Hf as (Ht & Hs & Hm & Hq & Htr).
    split; cbn [trace emit tsBackendWarmupTask mode]; rewrite ?Hs, ?Hm, ?Htr, ?count_app.
    + rewrite (sinv_calls I), E. destruct (mode s); reflexivity.
    + rewrite (sinv_client I), E. destruct (mode s); reflexivity.
    + intros t Hin. apply in_app_iff in Hin. destruct Hin as [Hin|[Hin|[]]].
      * apply in_app_iff in Hin. destruct Hin as [Hin|Hin].
        -- apply (sinv_requested I) in Hin. congruence.
        -- destruct (mode s); cbn in Hin; intuition discriminate.
      * congruence.
Qed.

Lemma SInv_run_timers (ids : list nat) (s : state) : SInv s -> SInv (run_timers ids s).
Proof.
  revert s. induction ids as [|id ids IH]; intros s I; [exact I|].
  cbn [run_timers]. destruct (Timers.take id (timers s)) as [[x q]|]; [|auto].
  apply IH, SInv_request, SInv_set_timers, I.
Qed.

Lemma SInv_step (e : event) (s : state) : SInv s -> SInv (step s e).
Proof.
  intro I. destruct e; cbn [step].
  - apply SInv_set_timers, I.
  - apply SInv_request, I.
  - apply SInv_run_timers, SInv_set_timers, I.
  - split; cbn [trace emit tsBackendWarmupTask mode]; rewrite ?count_app.
    + rewrite (sinv_calls I). cbn. lia.
    + rewrite (sinv_client I). cbn. lia.
    + intros t Hin. apply in_app_iff in Hin. destruct Hin as [Hin|[Hin|[]]].
      * apply (sinv_requested I Hin).
      * discriminate.
Qed.

Lemma SInv_run (events : list event) (s : state) : SInv s -> SInv (run events s).
Proof.
  revert s. induction events as [|e events IH]; intros s I; [exact I|].
  cbn [run fold_left]. apply IH, SInv_step, I.
Qed.

Lemma task_request (s : state) (task : nat) :
  tsBackendWarmupTask s = Some task -> tsBackendWarmupTask (request s) = Some task.
Proof.
  intro E. unfold request. rewrite (ensureTsBackendWarmup_memoized E). exact E.
Qed.

Lemma task_run_timers (ids : list nat) (s : state) (task : nat) :
  tsBackendWarmupTask s = Some task ->
  tsBackendWarmupTask (run_timers ids s) = Some task.
Proof.
  revert s. induction ids as [|id ids IH]; intros s E; [exact E|].
  cbn [run_timers]. destruct (Timers.take id (timers s)) as [[x q]|]; [|auto].
  apply IH, task_request. exact E.
Qed.

Lemma task_step (e : event) (s : state) (task : nat) :
  tsBackendWarmupTask s = Some task -> tsBackendWarmupTask (step s e) = Some task.
Proof.
  intro E. destruct e; cbn [step]; try exact E.
  - apply task_request, E.
  - apply task_run_timers. exact E.
Qed.

Lemma task_run (events : list event) (s : state) (task : nat) :
  tsBackendWarmupTask s = Some task -> tsBackendWarmupTask (run events s) = Some task.
Proof.
  revert s. induction events as [|e events IH]; intros s E; [exact E|].
  cbn [run fold_left]. apply IH, task_step, E.
Qed.

Lemma mode_request (s : state) : mode (request s) = mode s.
Proof.
  unfold request, ensureTsBackendWarmup, warmupTsBackend.
  destruct (tsBackendWarmupTask s); [reflexivity|]. destruct (mode s); reflexivity.
Qed.

Lemma mode_run_timers (ids : list nat) (s : state) : mode (run_timers ids s) = mode s.
Proof.
  revert s. induction ids as [|id ids IH]; intro s; [reflexivity|].
  cbn [run_timers]. destruct (Timers.take id (timers s)) as [[x q]|]; [|auto].
  rewrite IH, mode_request. reflexivity.
Qed.

Lemma mode_run (events : list event) (s : state) : mode (run events s) = mode s.
Proof.
  revert s. induction events as [|e events IH]; intro s; [reflexivity|].
  cbn [run fold_left]. rewrite IH. destruct e; cbn [step]; try reflexivity.
  - apply mode_request.
  - rewrite mode_run_timers. reflexivity.
Qed.

(** C9.  However the requests for the warmup task arrive, from the timer
    of [onInitialize] or from [onInitialized], [warmupTsBackend] is called
    at most once and so is [warmup()] of the client; every request
    returned the same promise.  Once the task is set,
    [ensureTsBackendWarmup] returns it and does nothing else, and it stays
    set; while it is not set nothing has been warmed up, and the next
    request calls [warmupTsBackend] once, which calls [warmup()] of the
    client if its mode is [tsgo-lsp]. *)
Theorem warmup_task_is_memoized (m : Selector.TsBackendMode) (events : list event) :
  let s := run events (create m) in
  (count is_call (trace s) <= 1)%nat
  /\ (count is_client_warmup (trace s) <= 1)%nat
  /\ (forall task1 task2,
        In (Requested task1) (trace s) -> In (Requested task2) (trace s) ->
        task1 = task2)
  /\ (forall task,
        tsBackendWarmupTask s = Some task ->
        ensureTsBackendWarmup s = (task, s)
        /\ forall more,
             tsBackendWarmupTask (run more s) = Some task
             /\ count is_call (trace (run more s)) = 1
             /\ count is_client_warmup (trace (run more s))
                = count is_client_warmup (trace s))
  /\ (tsBackendWarmupTask s = None ->
      count is_call (trace s) = 0 /\ count is_client_warmup (trace s) = 0
      /\ exists task s1,
           ensureTsBackendWarmup s = (task, s1)
           /\ tsBackendWarmupTask s1 = Some task
           /\ trace s1 = trace s ++ WarmupTsBackend task
                                   :: match m with
                                      | Selector.tsgo_lsp => [ClientWarmup]
                                      | Selector.tsserver => []
                                      end).
Proof.
  cbn zeta. set (s := run events (create m)).
  assert (I : SInv s) by (apply SInv_run, SInv_create).
  assert (Hm : mode s = m) by (unfold s; rewrite mode_run; reflexivity).
  split; [|split; [|split; [|split]]].
  - rewrite (sinv_calls I). destruct (tsBackendWarmupTask s); lia.
  - rewrite (sinv_client I). destruct (tsBackendWarmupTask s), (mode s); lia.
  - intros task1 task2 H1 H2.
    apply (sinv_requested I) in H1. apply (sinv_requested I) in H2. congruence.
  - intros task E. split; [apply ensureTsBackendWarmup_memoized, E|].
    intro more. pose proof (task_run more E) as Et.
    pose proof (SInv_run more I) as Im.
    split; [exact Et|]. split.
    + rewrite (sinv_calls Im), Et. reflexivity.
    + rewrite (sinv_client Im), (sinv_client I), Et, E, mode_run. reflexivity.
  - intro E. split; [|split].
    + rewrite (sinv_calls I), E. reflexivity.
    + rewrite (sinv_client I), E. reflexivity.
    + pose proof (ensureTsBackendWarmup_first E) as Hf.
      destruct (ensureTsBackendWarmup s) as [task s1].
      destruct Hf as (_ & Hs & _ & _ & Htr).
      exists task, s1. rewrite <- Hm. auto.
Qed.

(** The timer of [onInitialize] and [onInitialized] both ask; the sidecar
    client is warmed up once. *)
Lemma warmup_task_is_memoized_witness :
  let s := run [OnInitialize; OnInitialized; Advance 1; OnInitialized]
               (create Selector.tsgo_lsp) in
  trace s = [WarmupTsBackend 0; ClientWarmup; Requested 0; Requested 0; Requested 0]
  /\ (count is_client_warmup (trace s) <= 1)%nat.
Proof.
  cbn zeta. split; [reflexivity|].
  apply (warmup_task_is_memoized Selector.tsgo_lsp
           [OnInitialize; OnInitialized; Advance 1; OnInitialized]).
Defined.

End Server.

(* ================================================================== *)
(** * The language services of the server (lib/server.ts, [onInitialize]) *)
(* ================================================================== *)

(** [getLanguageService], [getExistingLanguageServices], [reload] and the
    listener for watched files share three variables: the services by
    configuration file, the project-info promises by file name, and the
    service for files without a project.  A promise and a language service
    are numbers; the backend settles a promise in an event of its own, and
    the calls that await it continue in the order in which they arrived.
    [createUriMap] compares URIs by their string form, and a change of a
    watched file is reported with the URI in that form. *)
Module Projects.

Inductive Effect : Type :=
| GetProjectInfo (fileName : string) (promise : nat)
| Created (service : nat) (tsconfig : option string)
| Disposed (service : nat)
| Returned (caller : nat) (service : nat)
| Rejected (caller : nat) (message : string).

Record state : Type := {
  tsconfigProjects : JsMap.t string nat;
  file2ProjectInfo : JsMap.t string nat;
  simpleLanguageService : option nat;
  (* the event loop *)
  settled : JsMap.t nat (Outcome (option string));
  awaiting : list (nat * nat);
  nextPromise : nat;
  nextService : nat;
  trace : list Effect
}.

Definition create : state :=
  {| tsconfigProjects := []; file2ProjectInfo := []; simpleLanguageService := None;
     settled := []; awaiting := []; nextPromise := 0; nextService := 0; trace := [] |}.

Definition emit (e : Effect) (s : state) : state :=
  {| tsconfigProjects := tsconfigProjects s; file2ProjectInfo := file2ProjectInfo s;
     simpleLanguageService := simpleLanguageService s;
     settled := settled s; awaiting := awaiting s; nextPromise := nextPromise s;
     nextService := nextService s; trace := trace s ++ [e] |}.

Definition set_tsconfigProjects (x : JsMap.t string nat) (s : state) : state :=
  {| tsconfigProjects := x; file2ProjectInfo := file2ProjectInfo s;
     simpleLanguageService := simpleLanguageService s;
     settled := settled s; awaiting := awaiting s; nextPromise := nextPromise s;
     nextService := nextService s; trace := trace s |}.

Definition set_file2ProjectInfo (x : JsMap.t string nat) (s : state) : state :=
  {| tsconfigProjects := tsconfigProjects s; file2ProjectInfo := x;
     simpleLanguageService := simpleLanguageService s;
     settled := settled s; awaiting := awaiting s; nextPromise := nextPromise s;
     nextService := nextService s; trace := trace s |}.

Definition set_simpleLanguageService (x : option nat) (s : state) : state :=
  {| tsconfigProjects := tsconfigProjects s; file2ProjectInfo := file2ProjectInfo s;
     simpleLanguageService := x;
     settled := settled s; awaiting := awaiting s; nextPromise := nextPromise s;
     nextService := nextService s; trace := trace s |}.

Definition set_settled (x : JsMap.t nat (Outcome (option string))) (s : state) : state :=
  {| tsconfigProjects := tsconfigProjects s; file2ProjectInfo := file2ProjectInfo s;
     simpleLanguageService := simpleLanguageService s;
     settled := x; awaiting := awaiting s; nextPromise := nextPromise s;
     nextService := nextService s; trace := trace s |}.

Definition set_awaiting (x : list (nat * nat)) (s : state) : state :=
  {| tsconfigProjects := tsconfigProjects s; file2ProjectInfo := file2ProjectInfo s;
     simpleLanguageService := simpleLanguageService s;
     settled := settled s; awaiting := x; nextPromise := nextPromise s;
     nextService := nextService s; trace := trace s |}.

(** [createProjectLanguageService(server, ts, tsconfig)]. *)
Definition createProjectLanguageService (tsconfig : option string) (s : state)
  : nat * state :=
  let service := nextService s in
  (service,
   emit (Created service tsconfig)
     {| tsconfigProjects := tsconfigProjects s; file2ProjectInfo := file2ProjectInfo s;
        simpleLanguageService := simpleLanguageService s;
        settled := settled s; awaiting := awaiting s; nextPromise := nextPromise s;
        nextService := S service; trace := trace s |}).

(** [return simpleLanguageService ??= createProjectLanguageService(server, ts, undefined)]. *)
Definition return_simple (caller : nat) (s : state) : state :=
  match simpleLanguageService s with
  | Some service => emit (Returned caller service) s
  | None =>
      let '(service, s1) := createProjectLanguageService None s in
      emit (Returned caller service) (set_simpleLanguageService (Some service) s1)
  end.

Section WithHost.
Context {host : Host}.

(** [getLanguageService] after [await projectInfoPromise]. *)
Definition resume (caller : nat) (projectInfo : Outcome (option string)) (s : state)
  : state :=
  match projectInfo with
  | Throw message => emit (Rejected caller message) s
  | Ok (Some configFileName) =>
      let configUri := URI_file configFileName in
      match JsMap.get String.eqb configUri (tsconfigProjects s) with
      | Some languageService => emit (Returned caller languageService) s
      | None =>
          let '(languageService, s1) :=
            createProjectLanguageService (Some configFileName) s in
          emit (Returned caller languageService)
               (set_tsconfigProjects
                  (JsMap.set String.eqb configUri languageService (tsconfigProjects s1))
                  s1)
      end
  | Ok None => return_simple caller s
  end.

(** [await promise]: the call continues at once when the promise is
    settled, and is queued behind the earlier calls otherwise. *)
Definition await (caller promise : nat) (s : state) : state :=
  match JsMap.get Nat.eqb promise (settled s) with
  | Some projectInfo => resume caller projectInfo s
  | None => set_awaiting (awaiting s ++ [(caller, promise)]) s
  end.

Definition getLanguageService (caller : nat) (uri : URI) (s : state) : state :=
  if scheme uri =? "file" then
    let fileName := backslashes_to_slashes (fsPath uri) in
    match JsMap.get String.eqb fileName (file2ProjectInfo s) with
    | Some projectInfoPromise => await caller projectInfoPromise s
    | None =>
        let projectInfoPromise := nextPromise s in
        let s1 :=
          emit (GetProjectInfo fileName projectInfoPromise)
            {| tsconfigProjects := tsconfigProjects s;
               file2ProjectInfo := file2ProjectInfo s;
               simpleLanguageService := simpleLanguageService s;
               settled := settled s; awaiting := awaiting s;
               nextPromise := S projectInfoPromise;
               nextService := nextService s; trace := trace s |} in
        await caller projectInfoPromise
              (set_file2ProjectInfo
                 (JsMap.set String.eqb fileName projectInfoPromise (file2ProjectInfo s1))
                 s1)
    end
  else return_simple caller s.

(** The backend settles a promise it has handed out. *)
Definition settle (promise : nat) (projectInfo : Outcome (option string)) (s : state)
  : state :=
  if (promise <? nextPromise s)%nat
     && negb (JsMap.has Nat.eqb promise (settled s)) then
    let waiting := filter (fun cp => (snd cp =? promise)%nat) (awaiting s) in
    let others := filter (fun cp => negb (snd cp =? promise)%nat) (awaiting s) in
    fold_left (fun s cp => resume (fst cp) projectInfo s) waiting
      (set_awaiting others
         (set_settled (JsMap.set Nat.eqb promise projectInfo (settled s)) s))
  else s.

(** The listener of [server.fileWatcher.onDidChangeWatchedFiles]. *)
Definition onDidChangeWatchedFile (s : state) (changeUri : string) : state :=
  match JsMap.get String.eqb changeUri (tsconfigProjects s) with
  | Some languageService =>
      set_file2ProjectInfo []
        (set_tsconfigProjects
           (JsMap.delete String.eqb changeUri (tsconfigProjects s))
           (emit (Disposed languageService) s))
  | None => s
  end.

Definition onDidChangeWatchedFiles (changes : list string) (s : state) : state :=
  fold_left onDidChangeWatchedFile changes s.

Definition dispose_all (services : list nat) (s : state) : state :=
  fold_left (fun s service => emit (Disposed service) s) services s.

Definition reload (s : state) : state :=
  let s1 := dispose_all (JsMap.values (tsconfigProjects s)) s in
  let s2 := set_file2ProjectInfo [] (set_tsconfigProjects [] s1) in
  match simpleLanguageService s2 with
  | Some service => set_simpleLanguageService None (emit (Disposed service) s2)
  | None => s2
  end.

Definition getExistingLanguageServices (s : state) : list nat :=
  JsMap.values (tsconfigProjects s)
  ++ match simpleLanguageService s with Some service => [service] | None => [] end.

Inductive event : Type :=
| GetLanguageService (caller : nat) (uri : URI)
| ProjectInfoSettled (promise : nat) (projectInfo : Outcome (option string))
| WatchedFilesChanged (changes : list string)
| Reload.

Definition step (s : state) (e : event) : state :=
  match e with
  | GetLanguageService caller uri => getLanguageService caller uri s
  | ProjectInfoSettled promise projectInfo => settle promise projectInfo s
  | WatchedFilesChanged changes => onDidChangeWatchedFiles changes s
  | Reload => reload s
  end.

Definition run (events : list event) (s : state) : state := fold_left step events s.

End WithHost.

(** ** Every service is disposed once *)

Definition creations (service : nat) (t : list Effect) : nat :=
  length (filter (fun e => match e with
                           | Created x _ => (x =? service)%nat
                           | _ => false
                           end) t).

Definition disposals (service : nat) (t : list Effect) : nat :=
  length (filter (fun e => match e with
                           | Disposed x => (x =? service)%nat
                           | _ => false
                           end) t).

(** How often a service is among the existing ones. *)
Definition lives (service : nat) (s : state) : nat :=
  count_occ Nat.eq_dec (getExistingLanguageServices s) service.

Record Inv (s : state) : Prop := {
  inv_keys : NoDup (JsMap.keys (tsconfigProjects s));
  inv_created : forall service,
    creations service (trace s) = if (service <? nextService s)%nat then 1 else 0;
  inv_balance : forall service,
    (disposals service (trace s) + lives service s)%nat = creations service (trace s)
}.

Lemma creations_app (service : nat) (a b : list Effect) :
  creations service (a ++ b) = (creations service a + creations service b)%nat.
Proof. unfold creations. now rewrite filter_app, length_app. Qed.

Lemma disposals_app (service : nat) (a b : list Effect) :
  disposals service (a ++ b) = (disposals service a + disposals service b)%nat.
Proof. unfold disposals. now rewrite filter_app, length_app. Qed.

Definition one_if (b : bool) : nat := if b then 1 else 0.

Lemma count_occ_one (x y : nat) :
  count_occ Nat.eq_dec [x] y = one_if (x =? y)%nat.
Proof.
  cbn. destruct (Nat.eq_dec x y) as [->|N].
  - now rewrite Nat.eqb_refl.
  - apply Nat.eqb_neq in N. now rewrite N.
Qed.

Lemma lives_eq (service : nat) (s : state) :
  lives service s
  = (count_occ Nat.eq_dec (JsMap.values (tsconfigProjects s)) service
     + match simpleLanguageService s with
       | Some x => one_if (x =? service)%nat
       | None => 0
       end)%nat.
Proof.
  unfold lives, getExistingLanguageServices. rewrite count_occ_app.
  destruct (simpleLanguageService s); [now rewrite count_occ_one|reflexivity].
Qed.

Lemma values_set_fresh (k : string) (v : nat) (m : JsMap.t string nat) :
  JsMap.get String.eqb k m = None ->
  JsMap.values (JsMap.set String.eqb k v m) = JsMap.values m ++ [v].
Proof.
  intro H. rewrite (JsMap.keys_set_fresh _ H). unfold JsMap.values.
  now rewrite map_app.
Qed.

Lemma values_delete (k : string) (v x : nat) (m : JsMap.t string nat) :
  NoDup (JsMap.keys m) -> JsMap.get String.eqb k m = Some v ->
  (count_occ Nat.eq_dec (JsMap.values (JsMap.delete String.eqb k m)) x
   + one_if (v =? x)%nat)%nat
  = count_occ Nat.eq_dec (JsMap.values m) x.
Proof.
  unfold JsMap.values, JsMap.delete, JsMap.keys.
  induction m as [|[k' v'] m IH]; cbn [JsMap.get map filter fst snd]; [discriminate|].
  intros Hnd Hg. inversion Hnd as [|? ? Hn Hnd']; subst.
  destruct (k' =? k) eqn:E; cbn [negb map snd].
  - injection Hg as ->. apply String.eqb_eq in E. subst k'.
    assert (Hf : filter (fun kv : string * nat => negb (fst kv =? k)) m = m).
    { apply forallb_filter_id. apply forallb_forall. intros [k0 v0] Hin. cbn [fst].
      apply negb_true_iff, String.eqb_neq. intros ->. apply Hn.
      change k with (fst (k, v0)). now apply in_map. }
    rewrite Hf. cbn [count_occ].
    destruct (Nat.eq_dec v x) as [->|N].
    + rewrite Nat.eqb_refl. cbn. lia.
    + apply Nat.eqb_neq in N. rewrite N. cbn. lia.
  - specialize (IH Hnd' Hg). cbn [count_occ].
    destruct (Nat.eq_dec v' x); lia.
Qed.

Lemma created_next (n service : nat) (tsconfig : option string) :
  ((if (service <? n)%nat then 1 else 0) + creations service [Created n tsconfig])%nat
  = if (service <? S n)%nat then 1 else 0.
Proof.
  unfold creations. cbn [filter].
  destruct (Nat.ltb_spec service n), (Nat.ltb_spec service (S n)),
    (Nat.eqb_spec n service); cbn [length]; lia.
Qed.

Lemma Balanced_create : Inv create.
Proof. split; [constructor|reflexivity|reflexivity]. Qed.

(** Effects that neither create nor dispose. *)
Lemma Balanced_emit (e : Effect) (s : state) :
  match e with Created _ _ | Disposed _ => False | _ => True end ->
  Inv s -> Inv (emit e s).
Proof.
  intros He I. split.
  - apply I.
  - intro service. cbn [trace emit nextService]. rewrite creations_app.
    rewrite (inv_created I). destruct e; try contradiction; cbn; lia.
  - intro service. cbn [trace emit]. rewrite creations_app, disposals_app.
    change (lives service (emit e s)) with (lives service s).
    pose proof (inv_balance I service).
    destruct e; try contradiction; cbn; lia.
Qed.

Lemma Balanced_return_simple (caller : nat) (s : state) : Inv s -> Inv (return_simple caller s).
Proof.
  intro I. unfold return_simple.
  destruct (simpleLanguageService s) as [service|] eqn:Es; [now apply Balanced_emit|].
  cbn [createProjectLanguageService]. apply Balanced_emit; [exact Logic.I|].
  split.
  - apply I.
  - intro service. cbn [trace emit nextService set_simpleLanguageService].
    rewrite creations_app, (inv_created I). apply created_next.
  - intro service. pose proof (inv_balance I service) as Hb.
    rewrite lives_eq in Hb |- *. rewrite Es in Hb.
    cbn [trace emit tsconfigProjects simpleLanguageService set_simpleLanguageService].
    rewrite creations_app, disposals_app. cbn. unfold one_if in *.
    destruct (nextService s =? service)%nat; cbn; lia.
Qed.

Section WithHostFacts.
Context {host : Host}.

Lemma Balanced_resume (caller : nat) (projectInfo : Outcome (option string)) (s : state) :
  Inv s -> Inv (resume caller projectInfo s).
Proof.
  intro I. unfold resume.
  destruct projectInfo as [[configFileName|]|message];
    [|apply Balanced_return_simple, I|now apply Balanced_emit].
  destruct (JsMap.get String.eqb (URI_file configFileName) (tsconfigProjects s))
    as [service|] eqn:Eg; [now apply Balanced_emit|].
  cbn [createProjectLanguageService]. apply Balanced_emit; [exact Logic.I|].
  split.
  - cbn [tsconfigProjects set_tsconfigProjects emit].
    apply (JsMap.NoDup_keys_set_fresh String.eqb_eq); [exact Eg|apply I].
  - intro service. cbn [trace emit nextService set_tsconfigProjects].
    rewrite creations_app, (inv_created I). apply created_next.
  - intro service. pose proof (inv_balance I service) as Hb.
    rewrite lives_eq in Hb |- *.
    cbn [trace emit tsconfigProjects simpleLanguageService set_tsconfigProjects].
    rewrite (values_set_fresh _ Eg), count_occ_app, count_occ_one.
    rewrite creations_app, disposals_app. cbn. unfold one_if in *.
    destruct (nextService s =? service)%nat; cbn; lia.
Qed.

Lemma Balanced_frame (s s' : state) :
  tsconfigProjects s' = tsconfigProjects s ->
  simpleLanguageService s' = simpleLanguageService s ->
  nextService s' = nextService s -> trace s' = trace s ->
  Inv s -> Inv s'.
Proof.
  intros H1 H2 H3 H4 I. split.
  - rewrite H1. apply I.
  - intro service. rewrite H3, H4. apply I.
  - intro service. rewrite lives_eq, H1, H2, H4, <- lives_eq. apply I.
Qed.

Lemma Balanced_await (caller promise : nat) (s : state) : Inv s -> Inv (await caller promise s).
Proof.
  intro I. unfold await. destruct (JsMap.get _ _ _); [apply Balanced_resume, I|].
  now apply (Balanced_frame (s := s)).
Qed.

Lemma Balanced_getLanguageService (caller : nat) (uri : URI) (s : state) :
  Inv s -> Inv (getLanguageService caller uri s).
Proof.
  intro I. unfold getLanguageService.
  destruct (scheme uri =? "file"); [|apply Balanced_return_simple, I].
  destruct (JsMap.get _ _ (file2ProjectInfo s)); [apply Balanced_await, I|].
  apply Balanced_await. apply (Balanced_frame (s := emit (GetProjectInfo
    (backslashes_to_slashes (fsPath uri)) (nextPromise s)) s)); try reflexivity.
  now apply Balanced_emit.
Qed.

Lemma Balanced_settle (promise : nat) (projectInfo : Outcome (option string)) (s : state) :
  Inv s -> Inv (settle promise projectInfo s).
Proof.
  intro I. unfold settle. destruct (_ && _); [|exact I].
  match goal with
  | |- Inv (fold_left _ ?l ?s0) =>
      assert (I0 : Inv s0) by (now apply (Balanced_frame (s := s)));
      revert I0; generalize s0; generalize l
  end.
  induction l as [|cp l IH]; intros s0 I0; [exact I0|].
  cbn [fold_left]. apply IH, Balanced_resume, I0.
Qed.

Lemma Balanced_onDidChangeWatchedFile (s : state) (changeUri : string) :
  Inv s -> Inv (onDidChangeWatchedFile s changeUri).
Proof.
  intro I. unfold onDidChangeWatchedFile.
  destruct (JsMap.get String.eqb changeUri (tsconfigProjects s)) as [service|] eqn:Eg;
    [|exact I].
  split.
  - cbn [tsconfigProjects set_file2ProjectInfo set_tsconfigProjects].
    apply JsMap.NoDup_keys_delete, I.
  - intro x. cbn [trace nextService set_file2ProjectInfo set_tsconfigProjects emit].
    rewrite creations_app, (inv_created I). cbn. lia.
  - intro x. pose proof (inv_balance I x) as Hb.
    rewrite lives_eq in Hb |- *.
    cbn [trace tsconfigProjects simpleLanguageService set_file2ProjectInfo
         set_tsconfigProjects emit].
    pose proof (values_delete x (inv_keys I) Eg) as Hd.
    rewrite creations_app, disposals_app. cbn. unfold one_if in *.
    destruct (service =? x)%nat; cbn; lia.
Qed.

Lemma Balanced_onDidChangeWatchedFiles (changes : list string) (s : state) :
  Inv s -> Inv (onDidChangeWatchedFiles changes s).
Proof.
  unfold onDidChangeWatchedFiles. revert s.
  induction changes as [|c changes IH]; intros s I; [exact I|].
  cbn [fold_left]. apply IH, Balanced_onDidChangeWatchedFile, I.
Qed.

Lemma dispose_all_fields (services : list nat) (s : state) :
  let s' := dispose_all services s in
  tsconfigProjects s' = tsconfigProjects s
  /\ file2ProjectInfo s' = file2ProjectInfo s
  /\ simpleLanguageService s' = simpleLanguageService s
  /\ nextService s' = nextService s
  /\ (forall x, creations x (trace s') = creations x (trace s))
  /\ (forall x, disposals x (trace s')
                = (disposals x (trace s) + count_occ Nat.eq_dec services x)%nat).
Proof.
  unfold dispose_all. revert s.
  induction services as [|v services IH]; intro s; cbn [fold_left count_occ].
  - repeat split; auto.
  - destruct (IH (emit (Disposed v) s)) as (H1 & H2 & H3 & H4 & H5 & H6).
    cbn zeta in *. repeat split; try assumption.
    + intro x. rewrite H5. cbn [trace emit]. rewrite creations_app. cbn. lia.
    + intro x. rewrite H6. cbn [trace emit]. rewrite disposals_app. cbn.
      destruct (Nat.eq_dec v x) as [->|N].
      * rewrite Nat.eqb_refl. cbn. lia.
      * apply Nat.eqb_neq in N. rewrite N. cbn. lia.
Qed.

Lemma Balanced_reload (s : state) : Inv s -> Inv (reload s).
Proof.
  intro I. unfold reload.
  destruct (dispose_all_fields (JsMap.values (tsconfigProjects s)) s)
    as (H1 & H2 & H3 & H4 & H5 & H6). cbn zeta in *.
  set (s1 := dispose_all (JsMap.values (tsconfigProjects s)) s) in *.
  cbn [simpleLanguageService set_file2ProjectInfo set_tsconfigProjects]. rewrite H3.
  destruct (simpleLanguageService s) as [service|] eqn:Es.
  - split.
    + constructor.
    + intro x. cbn [trace nextService set_simpleLanguageService emit
                    set_file2ProjectInfo set_tsconfigProjects].
      rewrite creations_app, H5, H4, (inv_created I). cbn. lia.
    + intro x. pose proof (inv_balance I x) as Hb. rewrite lives_eq, Es in Hb.
      rewrite lives_eq.
      cbn [trace tsconfigProjects simpleLanguageService set_simpleLanguageService emit
           set_file2ProjectInfo set_tsconfigProjects].
      rewrite creations_app, disposals_app, H5, H6. cbn. unfold one_if in *.
      destruct (service =? x)%nat; cbn; lia.
  - split.
    + constructor.
    + intro x. cbn [trace nextService set_file2ProjectInfo set_tsconfigProjects].
      rewrite H5, H4. apply I.
    + intro x. pose proof (inv_balance I x) as Hb. rewrite lives_eq, Es in Hb.
      rewrite lives_eq.
      cbn [trace tsconfigProjects simpleLanguageService
           set_file2ProjectInfo set_tsconfigProjects].
      rewrite H3, H5, H6. cbn. lia.
Qed.

Lemma Balanced_step (s : state) (e : event) : Inv s -> Inv (step s e).
Proof.
  intro I. destruct e; cbn [step].
  - apply Balanced_getLanguageService, I.
  - apply Balanced_settle, I.
  - apply Balanced_onDidChangeWatchedFiles, I.
  - apply Balanced_reload, I.
Qed.

Lemma Balanced_run (events : list event) (s : state) : Inv s -> Inv (run events s).
Proof.
  revert s. induction events as [|e events IH]; intros s I; [exact I|].
  cbn [run fold_left]. apply IH, Balanced_step, I.
Qed.

(** X16.  The server neither loses nor twice disposes a language service:
    whatever files are asked about, however the project-info promises
    settle, and whenever watched files change or the server reloads, a
    service is created at most once, the existing services (those that
    [getExistingLanguageServices] returns) are exactly the created ones
    that have not been disposed, each of them once in the list, and every
    other created service has been disposed exactly once. *)
Theorem every_service_is_disposed_once (events : list event) (service : nat) :
  let s := run events create in
  (creations service (trace s) <= 1)%nat
  /\ (In service (getExistingLanguageServices s)
      <-> creations service (trace s) = 1%nat /\ disposals service (trace s) = 0%nat)
  /\ (~ In service (getExistingLanguageServices s) ->
      disposals service (trace s) = creations service (trace s))
  /\ NoDup (getExistingLanguageServices s).
Proof.
  intros s.
  assert (I : Inv s) by apply Balanced_run, Balanced_create.
  assert (Hle : forall x, (creations x (trace s) <= 1)%nat).
  { intro x. rewrite (inv_created I). destruct (x <? nextService s)%nat; lia. }
  assert (Hl : forall x, (lives x s <= 1)%nat).
  { intro x. pose proof (inv_balance I x). pose proof (Hle x). lia. }
  pose proof (inv_balance I service) as Hb. pose proof (Hle service) as Hc.
  split; [exact Hc|]. split; [|split].
  - unfold lives in Hb. split.
    + intro Hin. apply (count_occ_In Nat.eq_dec) in Hin. lia.
    + intros [H1 H2]. apply (count_occ_In Nat.eq_dec). lia.
  - intro Hn. apply (count_occ_not_In Nat.eq_dec) in Hn. unfold lives in Hb. lia.
  - apply (NoDup_count_occ Nat.eq_dec). intro x. apply Hl.
Qed.

(** ** Project information is asked for once *)

Definition asks (fileName : string) (t : list Effect) : nat :=
  length (filter (fun e => match e with
                           | GetProjectInfo f _ => f =? fileName
                           | _ => false
                           end) t).

Definition known (fileName : string) (s : state) : nat :=
  one_if (JsMap.has String.eqb fileName (file2ProjectInfo s)).

(** The events that do not clear the project information. *)
Definition is_quiet (e : event) : bool :=
  match e with
  | GetLanguageService _ _ | ProjectInfoSettled _ _ => true
  | WatchedFilesChanged _ | Reload => false
  end.

Lemma asks_app (fileName : string) (a b : list Effect) :
  asks fileName (a ++ b) = (asks fileName a + asks fileName b)%nat.
Proof. unfold asks. now rewrite filter_app, length_app. Qed.

Lemma return_simple_asks (fileName : string) (caller : nat) (s : state) :
  file2ProjectInfo (return_simple caller s) = file2ProjectInfo s
  /\ asks fileName (trace (return_simple caller s)) = asks fileName (trace s).
Proof.
  unfold return_simple. destruct (simpleLanguageService s);
    cbn [createProjectLanguageService file2ProjectInfo trace emit
         set_simpleLanguageService];
    rewrite ?asks_app; cbn; split; try reflexivity; lia.
Qed.

Lemma resume_asks (fileName : string) (caller : nat)
      (projectInfo : Outcome (option string)) (s : state) :
  file2ProjectInfo (resume caller projectInfo s) = file2ProjectInfo s
  /\ asks fileName (trace (resume caller projectInfo s)) = asks fileName (trace s).
Proof.
  unfold resume. destruct projectInfo as [[configFileName|]|message].
  - destruct (JsMap.get _ _ _);
      cbn [createProjectLanguageService file2ProjectInfo trace emit
           set_tsconfigProjects];
      rewrite ?asks_app; cbn; split; try reflexivity; lia.
  - apply return_simple_asks.
  - cbn [file2ProjectInfo trace emit]. rewrite asks_app. cbn. split; [reflexivity|lia].
Qed.

Lemma await_asks (fileName : string) (caller promise : nat) (s : state) :
  file2ProjectInfo (await caller promise s) = file2ProjectInfo s
  /\ asks fileName (trace (await caller promise s)) = asks fileName (trace s).
Proof.
  unfold await. destruct (JsMap.get _ _ _); [apply resume_asks|].
  split; reflexivity.
Qed.

Lemma settle_asks (fileName : string) (promise : nat)
      (projectInfo : Outcome (option string)) (s : state) :
  file2ProjectInfo (settle promise projectInfo s) = file2ProjectInfo s
  /\ asks fileName (trace (settle promise projectInfo s)) = asks fileName (trace s).
Proof.
  unfold settle. destruct (_ && _); [|split; reflexivity].
  match goal with
  | |- file2ProjectInfo (fold_left _ ?l ?s0) = _ /\ _ =>
      change (file2ProjectInfo s) with (file2ProjectInfo s0);
      change (trace s) with (trace s0);
      generalize s0; generalize l
  end.
  induction l as [|cp l IH]; intro s0; [split; reflexivity|].
  cbn [fold_left].
  destruct (IH (resume (fst cp) projectInfo s0)) as [H1 H2].
  destruct (resume_asks fileName (fst cp) projectInfo s0) as [H3 H4].
  split; congruence.
Qed.

Lemma getLanguageService_asks (fileName : string) (caller : nat) (uri : URI)
      (s : state) :
  let s' := getLanguageService caller uri s in
  (asks fileName (trace s') + known fileName s)%nat
  = (asks fileName (trace s) + known fileName s')%nat
  /\ (known fileName s <= known fileName s')%nat.
Proof.
  cbn zeta. unfold getLanguageService.
  destruct (scheme uri =? "file").
  2:{ destruct (return_simple_asks fileName caller s) as [H1 H2].
      unfold known. rewrite H1, H2. split; lia. }
  set (f := backslashes_to_slashes (fsPath uri)).
  destruct (JsMap.get String.eqb f (file2ProjectInfo s)) as [promise|] eqn:Eg.
  - destruct (await_asks fileName caller promise s) as [H1 H2].
    unfold known. rewrite H1, H2. split; lia.
  - match goal with
    | |- context [await caller ?p ?s0] =>
        destruct (await_asks fileName caller p s0) as [H1 H2]
    end.
    unfold known. rewrite H1, H2.
    cbn [file2ProjectInfo trace emit set_file2ProjectInfo].
    rewrite asks_app. cbn [asks filter length].
    unfold JsMap.has.
    destruct (String.eqb_spec f fileName) as [E|N].
    + rewrite <- E, (JsMap.get_set_same String.eqb_eq), Eg. cbn. split; lia.
    + rewrite (JsMap.get_set_other String.eqb_eq) by exact N.
      destruct (JsMap.get String.eqb fileName (file2ProjectInfo s)); cbn; split; lia.
Qed.

Lemma quiet_step_asks (fileName : string) (s : state) (e : event) :
  is_quiet e = true ->
  (asks fileName (trace (step s e)) + known fileName s)%nat
  = (asks fileName (trace s) + known fileName (step s e))%nat
  /\ (known fileName s <= known fileName (step s e))%nat.
Proof.
  destruct e; cbn [is_quiet step]; intro H; try discriminate H.
  - apply getLanguageService_asks.
  - destruct (settle_asks fileName promise projectInfo s) as [H1 H2].
    unfold known. rewrite H1, H2. split; lia.
Qed.

Lemma quiet_run_asks (fileName : string) (quiet : list event) (s : state) :
  forallb is_quiet quiet = true ->
  (asks fileName (trace (run quiet s)) + known fileName s)%nat
  = (asks fileName (trace s) + known fileName (run quiet s))%nat
  /\ (known fileName s <= known fileName (run quiet s))%nat.
Proof.
  revert s. induction quiet as [|e quiet IH]; intros s H; [split; reflexivity|].
  cbn [forallb] in H. apply andb_true_iff in H. destruct H as [He Hq].
  cbn [run fold_left]. fold (run quiet (step s e)).
  destruct (IH (step s e) Hq) as [H1 H2].
  destruct (quiet_step_asks fileName s He) as [H3 H4]. split; lia.
Qed.

(** X17.  Between two invalidations (a change of a tracked configuration
    file, or a reload) the backend is asked for the project of a file at
    most once, whatever the answer was and however many calls of
    [getLanguageService] name the file: a file whose project information is
    cached is never asked about again, and any other file is asked about at
    most once and is cached from then on. *)
Theorem project_info_is_asked_once (fileName : string) (quiet : list event)
        (s : state) :
  forallb is_quiet quiet = true ->
  let s' := run quiet s in
  (asks fileName (trace s') <= asks fileName (trace s) + 1)%nat
  /\ (JsMap.has String.eqb fileName (file2ProjectInfo s) = true ->
      asks fileName (trace s') = asks fileName (trace s)
      /\ JsMap.has String.eqb fileName (file2ProjectInfo s') = true)
  /\ (asks fileName (trace s') = (asks fileName (trace s) + 1)%nat ->
      JsMap.has String.eqb fileName (file2ProjectInfo s') = true).
Proof.
  intros H s'. destruct (quiet_run_asks fileName s H) as [H1 H2]. fold s' in H1, H2.
  unfold known, one_if in *.
  destruct (JsMap.has String.eqb fileName (file2ProjectInfo s)),
    (JsMap.has String.eqb fileName (file2ProjectInfo s'));
    repeat split; try lia; try discriminate; intros; try reflexivity; try lia.
Qed.

End WithHostFacts.

(** Two files of one project are asked about, the second one three times;
    the promise of the first settles first. *)
Lemma project_info_is_asked_once_witness :
  let a := {| scheme := "file"; fsPath := "/app/src/a.ts" |} in
  let b := {| scheme := "file"; fsPath := "/app/src/b.ts" |} in
  let s := run (host := posix)
               [GetLanguageService 1 a;
                ProjectInfoSettled 0 (Ok (Some "/app/tsconfig.json"))]
               create in
  let s' := run (host := posix)
                [GetLanguageService 2 b; GetLanguageService 3 b;
                 ProjectInfoSettled 1 (Ok None); GetLanguageService 4 b;
                 GetLanguageService 5 a]
                s in
  asks "/app/src/a.ts" (trace s') = 1%nat
  /\ asks "/app/src/b.ts" (trace s') = 1%nat
  /\ JsMap.has String.eqb "/app/src/b.ts" (file2ProjectInfo s') = true.
Proof.
  cbv zeta.
  set (s := run (host := posix)
               [GetLanguageService 1 {| scheme := "file"; fsPath := "/app/src/a.ts" |};
                ProjectInfoSettled 0 (Ok (Some "/app/tsconfig.json"))]
               create).
  set (quiet := [GetLanguageService 2 {| scheme := "file"; fsPath := "/app/src/b.ts" |};
                 GetLanguageService 3 {| scheme := "file"; fsPath := "/app/src/b.ts" |};
                 ProjectInfoSettled 1 (Ok None);
                 GetLanguageService 4 {| scheme := "file"; fsPath := "/app/src/b.ts" |};
                 GetLanguageService 5 {| scheme := "file"; fsPath := "/app/src/a.ts" |}]).
  destruct (@project_info_is_asked_once posix "/app/src/a.ts" quiet s eq_refl)
    as (_ & Ha & _).
  destruct (@project_info_is_asked_once posix "/app/src/b.ts" quiet s eq_refl)
    as (_ & _ & Hb).
  split; [rewrite (proj1 (Ha eq_refl)); reflexivity|].
  assert (E : asks "/app/src/b.ts" (trace (run (host := posix) quiet s)) = 1%nat)
    by reflexivity.
  split; [exact E|]. apply Hb. rewrite E. reflexivity.
Defined.

End Projects.

(* ================================================================== *)
(** * The entry point of the server: command line and environment (index.ts) *)
(* ================================================================== *)

Module Index.

Import Selector.

(** [StartServerOptions]. *)
Record StartServerOptions : Type := {
  tsBackend : option TsBackendPreference;
  opt_tsgoPath : option string
}.

(** What the entry point reads: the environment variables and
    [require.resolve('./typescript.js', { paths: [tsdk] })], which throws
    when the directory holds no TypeScript. *)
Record Env : Type := {
  env_VUE_LANGUAGE_SERVER_TS_BACKEND : option string;
  env_VUE_LANGUAGE_SERVER_TSGO_PATH : option string;
  require_resolve : string -> Outcome string
}.

Definition parseTsBackend (value : option string) : option TsBackendPreference :=
  match value with
  | Some v =>
      if v =? "auto" then Some auto
      else if v =? "tsserver" then Some (prefer tsserver)
      else if v =? "tsgo-lsp" then Some (prefer tsgo_lsp)
      else None
  | None => None
  end.

(** [arg.substring(prefix.length)]. *)
Definition after (prefix arg : string) : string :=
  substring (String.length prefix) (String.length arg - String.length prefix) arg.

(** The body of the loop over [process.argv]; [ts] is the module path that
    was required, if any. *)
Definition read_arg (env : Env) (arg : string)
    (acc : option string * StartServerOptions)
  : Outcome (option string * StartServerOptions) :=
  let '(ts, options) := acc in
  if startsWith arg "--tsdk=" then
    match require_resolve env (after "--tsdk=" arg) with
    | Ok tsPath => Ok (Some tsPath, options)
    | Throw message => Throw message
    end
  else if startsWith arg "--ts-backend=" then
    match parseTsBackend (Some (after "--ts-backend=" arg)) with
    | Some tsBackend =>
        Ok (ts, {| tsBackend := Some tsBackend; opt_tsgoPath := opt_tsgoPath options |})
    | None => Ok (ts, options)
    end
  else if startsWith arg "--tsgo=" then
    Ok (ts, {| tsBackend := tsBackend options;
               opt_tsgoPath := Some (after "--tsgo=" arg) |})
  else Ok (ts, options).

Fixpoint read_args (env : Env) (argv : list string)
    (acc : option string * StartServerOptions)
  : Outcome (option string * StartServerOptions) :=
  match argv with
  | [] => Ok acc
  | arg :: rest =>
      match read_arg env arg acc with
      | Ok acc' => read_args env rest acc'
      | Throw message => Throw message
      end
  end.

(** What the program does. *)
Inductive Run : Type :=
| PrintVersion
| StartServer (ts : string) (options : StartServerOptions)
| Crash (message : string).

Definition main (env : Env) (argv : list string) : Run :=
  if existsb (String.eqb "--version") argv then PrintVersion
  else
    let options :=
      {| tsBackend := parseTsBackend (env_VUE_LANGUAGE_SERVER_TS_BACKEND env);
         opt_tsgoPath := env_VUE_LANGUAGE_SERVER_TSGO_PATH env |} in
    match read_args env argv (None, options) with
    | Ok (ts, options) => StartServer (default ts "typescript") options
    | Throw message => Crash message
    end.

(** The backend named by an argument, if it is a well-formed
    [--ts-backend=] flag, and the path given by a [--tsgo=] flag. *)
Definition backend_flag (arg : string) : option TsBackendPreference :=
  if startsWith arg "--ts-backend=" then parseTsBackend (Some (after "--ts-backend=" arg))
  else None.

Definition tsgo_flag (arg : string) : option string :=
  if startsWith arg "--tsgo=" then Some (after "--tsgo=" arg) else None.

(** The last element of a list that [f] accepts, or [d]. *)
Definition last_of {A B} (f : A -> option B) (l : list A) (d : option B) : option B :=
  fold_left (fun acc a => match f a with Some b => Some b | None => acc end) l d.

(** The three flags exclude one another. *)
Lemma flags_exclusive (arg : string) :
  (startsWith arg "--tsdk=" = true ->
     startsWith arg "--ts-backend=" = false /\ startsWith arg "--tsgo=" = false)
  /\ (startsWith arg "--ts-backend=" = true -> startsWith arg "--tsgo=" = false).
Proof.
  unfold startsWith.
  split; intros H; apply Text.prefix_split in H; destruct H as [r ->].
  - split; reflexivity.
  - reflexivity.
Qed.

Lemma read_arg_options (env : Env) (arg : string)
    (ts ts' : option string) (options options' : StartServerOptions) :
  read_arg env arg (ts, options) = Ok (ts', options') ->
  tsBackend options'
  = match backend_flag arg with Some b => Some b | None => tsBackend options end
  /\ opt_tsgoPath options'
     = match tsgo_flag arg with Some p => Some p | None => opt_tsgoPath options end.
Proof.
  unfold read_arg, backend_flag, tsgo_flag.
  destruct (flags_exclusive arg) as [H1 H2].
  destruct (startsWith arg "--tsdk=") eqn:E1.
  - destruct (H1 eq_refl) as [-> ->].
    destruct (require_resolve env _); [|discriminate].
    intros [= _ <-]. split; reflexivity.
  - destruct (startsWith arg "--ts-backend=") eqn:E2.
    + rewrite (H2 eq_refl).
      destruct (parseTsBackend _) as [b|]; intros [= _ <-]; split; reflexivity.
    + destruct (startsWith arg "--tsgo="); intros [= _ <-]; split; reflexivity.
Qed.

Lemma read_args_options (env : Env) (argv : list string) :
  forall (ts ts' : option string) (options options' : StartServerOptions),
    read_args env argv (ts, options) = Ok (ts', options') ->
    tsBackend options' = last_of backend_flag argv (tsBackend options)
    /\ opt_tsgoPath options' = last_of tsgo_flag argv (opt_tsgoPath options).
Proof.
  induction argv as [|arg rest IH]; intros ts ts' options options' H.
  - injection H as _ <-. split; reflexivity.
  - cbn [read_args] in H.
    destruct (read_arg env arg (ts, options)) as [[ts1 options1]|] eqn:E; [|discriminate H].
    apply read_arg_options in E. destruct E as [E1 E2].
    apply IH in H. destruct H as [H1 H2].
    unfold last_of in *. cbn [fold_left]. rewrite <- E1, <- E2. split; assumption.
Qed.

(** X7.  When the server is started, the backend preference is the one
    named by the last well-formed [--ts-backend=] flag of the command line;
    a flag with any other value is skipped, and without a well-formed flag
    the (well-formed) environment variable decides.  The sidecar path is the
    text after the last [--tsgo=] flag, the empty text included, and the
    environment variable without such a flag. *)
Theorem last_flag_wins (env : Env) (argv : list string)
    (ts : string) (options : StartServerOptions) :
  main env argv = StartServer ts options ->
  tsBackend options
  = last_of backend_flag argv (parseTsBackend (env_VUE_LANGUAGE_SERVER_TS_BACKEND env))
  /\ opt_tsgoPath options
     = last_of tsgo_flag argv (env_VUE_LANGUAGE_SERVER_TSGO_PATH env).
Proof.
  unfold main. destruct (existsb _ argv); [discriminate|].
  destruct (read_args env argv _) as [[ts1 options1]|] eqn:E; [|discriminate].
  intros [= _ <-]. apply read_args_options in E. exact E.
Qed.

(** A command line with a misspelt backend after a well-formed one, and an
    empty sidecar path. *)
Definition env_auto : Env :=
  {| env_VUE_LANGUAGE_SERVER_TS_BACKEND := Some "auto";
     env_VUE_LANGUAGE_SERVER_TSGO_PATH := Some "/opt/tsgo";
     require_resolve := fun tsdk => Ok (tsdk ++ "/typescript.js")%string |}.

Lemma last_flag_wins_witness :
  let argv := ["node"; "server.js"; "--ts-backend=tsgo-lsp"; "--ts-backend=tsgo";
               "--stdio"; "--tsgo="] in
  let options := {| tsBackend := Some (prefer tsgo_lsp); opt_tsgoPath := Some "" |} in
  main env_auto argv = StartServer "typescript" options
  /\ last_of backend_flag argv (Some auto) = Some (prefer tsgo_lsp)
  /\ last_of tsgo_flag argv (Some "/opt/tsgo") = Some "".
Proof.
  cbv zeta.
  pose proof (@last_flag_wins env_auto
                ["node"; "server.js"; "--ts-backend=tsgo-lsp"; "--ts-backend=tsgo";
                 "--stdio"; "--tsgo="]
                "typescript"
                {| tsBackend := Some (prefer tsgo_lsp); opt_tsgoPath := Some "" |}
                eq_refl) as [H1 H2].
  split; [reflexivity|]. split; [symmetry; exact H1|symmetry; exact H2].
Defined.

End Index.
